(** * Freebean: the lexer, the stack machine and the ledger functions

    A shallow embedding of the Go packages [pkg/parser], [pkg/core] and
    [pkg/functions] of Freebean, and the properties of the ledger language
    proved over it.

    Conventions of the embedding.
    - A Go [string] is a [string]; a rune read from the input is an [ascii]
      (the input is taken to be already decoded, one character per rune, in
      the range U+0000..U+00FF).
    - A Go [map] is a [gmap]; iteration over a map is modelled through
      [map_to_list], and only order-independent facts are drawn from it.
    - A Go [int] used as a length or an index into the stacks is a [nat];
      an [int] that the code lets go negative is a [Z].
    - A Go [error] is a value of [error]; [None] is [nil].  The text of a
      message is kept as its format string, the arguments are not rendered.
    - A [*core.Account] is an address [loc] into the object memory
      [Context_objs]; two pointers are the same account iff the addresses
      are equal. *)

From stdpp Require Import gmap strings list fin_maps.
From Stdlib Require Import ZArith QArith Qpower Ascii String Lia.

Set Default Proof Using "Type".
Open Scope string_scope.
Open Scope Z_scope.

(** ** Errors *)

Inductive error : Type :=
| EOF                                   (* io.EOF *)
| escapingAtEofError                    (* "unfinished escape at end of file" *)
| inStringAtEofError                    (* "unfinished quoted string at end of file" *)
| Errorf (format : string)              (* fmt.Errorf(format, ...) *)
| Prefixed (pre : string) (e : error)   (* fmt.Errorf("%v: %v", pre, e) *)
| AtLine (line : N) (e : error)         (* Parser.formatError *)
| Panic (msg : string).                 (* a Go run-time panic *)

Global Instance error_eq_dec : EqDecision error.
Proof. solve_decision. Defined.

(** ** pkg/parser/lexer.go *)

Inductive TokenType : Type :=
| TokString | TokQuotedString | TokOpenParen | TokCloseParen | TokError | TokNone.

Global Instance TokenType_eq_dec : EqDecision TokenType.
Proof. solve_decision. Defined.

Record Lexer : Type := mkLexer {
  Lexer_reader : list ascii;        (* the runes not yet read *)
  Lexer_lineNumber : N;
  Lexer_isEscaping : bool;
  Lexer_isInString : bool;
  Lexer_isInQuotedString : bool;    (* only meaningful when isInString *)
  Lexer_token : string;             (* the strings.Builder *)
  Lexer_openParenSet : bool;
  Lexer_closeParenSet : bool
}.

Definition NewLexer (r : list ascii) : Lexer :=
  mkLexer r 1%N false false false "" false false.

Definition LineNumber (l : Lexer) : N := Lexer_lineNumber l.

(** [unicode.IsSpace] on the Latin-1 range. *)
Definition IsSpace (r : ascii) : bool :=
  let n := N_of_ascii r in
  ((n =? 9) || (n =? 10) || (n =? 11) || (n =? 12) || (n =? 13) || (n =? 32)
   || (n =? 133) || (n =? 160))%N.

(** The double-quote rune. *)
Definition dquote : ascii := ascii_of_nat 34.

Definition WriteRune (b : string) (r : ascii) : string := b ++ String r EmptyString.

Definition set_reader (l : Lexer) (r : list ascii) : Lexer :=
  mkLexer r (Lexer_lineNumber l) (Lexer_isEscaping l) (Lexer_isInString l)
    (Lexer_isInQuotedString l) (Lexer_token l) (Lexer_openParenSet l) (Lexer_closeParenSet l).
Definition set_lineNumber (l : Lexer) (n : N) : Lexer :=
  mkLexer (Lexer_reader l) n (Lexer_isEscaping l) (Lexer_isInString l)
    (Lexer_isInQuotedString l) (Lexer_token l) (Lexer_openParenSet l) (Lexer_closeParenSet l).
Definition set_isEscaping (l : Lexer) (b : bool) : Lexer :=
  mkLexer (Lexer_reader l) (Lexer_lineNumber l) b (Lexer_isInString l)
    (Lexer_isInQuotedString l) (Lexer_token l) (Lexer_openParenSet l) (Lexer_closeParenSet l).
Definition set_isInString (l : Lexer) (b : bool) : Lexer :=
  mkLexer (Lexer_reader l) (Lexer_lineNumber l) (Lexer_isEscaping l) b
    (Lexer_isInQuotedString l) (Lexer_token l) (Lexer_openParenSet l) (Lexer_closeParenSet l).
Definition set_isInQuotedString (l : Lexer) (b : bool) : Lexer :=
  mkLexer (Lexer_reader l) (Lexer_lineNumber l) (Lexer_isEscaping l) (Lexer_isInString l)
    b (Lexer_token l) (Lexer_openParenSet l) (Lexer_closeParenSet l).
Definition set_token (l : Lexer) (t : string) : Lexer :=
  mkLexer (Lexer_reader l) (Lexer_lineNumber l) (Lexer_isEscaping l) (Lexer_isInString l)
    (Lexer_isInQuotedString l) t (Lexer_openParenSet l) (Lexer_closeParenSet l).
Definition set_openParenSet (l : Lexer) (b : bool) : Lexer :=
  mkLexer (Lexer_reader l) (Lexer_lineNumber l) (Lexer_isEscaping l) (Lexer_isInString l)
    (Lexer_isInQuotedString l) (Lexer_token l) b (Lexer_closeParenSet l).
Definition set_closeParenSet (l : Lexer) (b : bool) : Lexer :=
  mkLexer (Lexer_reader l) (Lexer_lineNumber l) (Lexer_isEscaping l) (Lexer_isInString l)
    (Lexer_isInQuotedString l) (Lexer_token l) (Lexer_openParenSet l) b.

(** [addRuneAndGetToken] processes one rune and returns a token, if any. *)
Definition addRuneAndGetToken (l : Lexer) (r : ascii) : (TokenType * string) * Lexer :=
  let isNewline := Ascii.eqb r "010"%char in
  let isSpace := IsSpace r in
  let l := if isNewline then set_lineNumber l (Lexer_lineNumber l + 1)%N else l in
  if Lexer_isEscaping l then
    let l := set_token l (WriteRune (Lexer_token l) r) in
    let l := set_isEscaping l false in
    let l := if negb (Lexer_isInString l) then set_isInString l true else l in
    ((TokNone, ""), l)
  else if Ascii.eqb r "\"%char then
    ((TokNone, ""), set_isEscaping l true)
  else if Lexer_isInQuotedString l then
    if Ascii.eqb r dquote then
      let token := Lexer_token l in
      let l := set_token l "" in
      let l := set_isInString l false in
      let l := set_isInQuotedString l false in
      ((TokQuotedString, token), l)
    else
      ((TokNone, ""), set_token l (WriteRune (Lexer_token l) r))
  else if Lexer_isInString l then
    if Ascii.eqb r dquote then
      let token := Lexer_token l in
      let l := set_token l "" in
      let l := set_isInQuotedString l true in
      ((TokString, token), l)
    else if Ascii.eqb r "("%char then
      let token := Lexer_token l in
      let l := set_token l "" in
      let l := set_isInString l false in
      let l := set_openParenSet l true in
      ((TokString, token), l)
    else if Ascii.eqb r ")"%char then
      let token := Lexer_token l in
      let l := set_token l "" in
      let l := set_isInString l false in
      let l := set_closeParenSet l true in
      ((TokString, token), l)
    else if isSpace then
      let token := Lexer_token l in
      let l := set_token l "" in
      let l := set_isInString l false in
      ((TokString, token), l)
    else
      ((TokNone, ""), set_token l (WriteRune (Lexer_token l) r))
  else if isSpace then
    ((TokNone, ""), l)
  else if Ascii.eqb r dquote then
    let l := set_isInString l true in
    let l := set_isInQuotedString l true in
    ((TokNone, ""), l)
  else if Ascii.eqb r "("%char then
    ((TokOpenParen, ""), l)
  else if Ascii.eqb r ")"%char then
    ((TokCloseParen, ""), l)
  else
    let l := set_token l (WriteRune (Lexer_token l) r) in
    let l := set_isInString l true in
    ((TokNone, ""), l).

(** [getFinalToken] returns the stream's final token, or an error if the
    lexer is in an invalid state at end of input. *)
Definition getFinalToken (l : Lexer) : (TokenType * string * option error) * Lexer :=
  if Lexer_isInQuotedString l then
    ((TokError, "", Some inStringAtEofError), l)
  else if Lexer_isEscaping l then
    ((TokError, "", Some escapingAtEofError), l)
  else if negb (Lexer_isInString l) then
    ((TokError, "", Some EOF), l)
  else
    ((TokString, Lexer_token l, None), set_isInString l false).

(** The [for] loop of [GetNextToken]: read runes until one yields a token.
    The reader is an in-memory rune sequence, so the only read error is
    end of input. *)
Fixpoint readRunes (rs : list ascii) (l : Lexer)
  : (TokenType * string * option error) * Lexer :=
  match rs with
  | [] => getFinalToken (set_reader l [])
  | r :: rs' =>
      let '((tokenType, token), l') := addRuneAndGetToken l r in
      if bool_decide (tokenType = TokOpenParen) || bool_decide (tokenType = TokCloseParen) then
        ((tokenType, "", None), set_reader l' rs')
      else if negb (bool_decide (tokenType = TokNone)) then
        ((tokenType, token, None), set_reader l' rs')
      else readRunes rs' l'
  end.

Definition GetNextToken (l : Lexer) : (TokenType * string * option error) * Lexer :=
  if Lexer_openParenSet l then
    ((TokOpenParen, "", None), set_openParenSet l false)
  else if Lexer_closeParenSet l then
    ((TokCloseParen, "", None), set_closeParenSet l false)
  else readRunes (Lexer_reader l) l.

Definition runes (s : string) : list ascii := list_ascii_of_string s.


(** ** Library types used by the ledger

    [decimal.Decimal] (github.com/shopspring/decimal) is the number
    [value * 10 ^ exp] with an arbitrary-precision coefficient.  The
    operations below follow the library: [Add] rescales both operands to the
    smaller exponent and adds the coefficients, so it is exact. *)

Record Decimal : Type := mkDecimal { Decimal_value : Z; Decimal_exp : Z }.

Global Instance Decimal_eq_dec : EqDecision Decimal.
Proof. solve_decision. Defined.

(** The zero value [decimal.Decimal{}]. *)
Definition Decimal_Zero : Decimal := mkDecimal 0 0.

Definition Decimal_rescale (d : Decimal) (e : Z) : Decimal :=
  if Decimal_exp d =? e then d
  else if Decimal_exp d <? e
       then mkDecimal (Z.quot (Decimal_value d) (10 ^ (e - Decimal_exp d))) e
       else mkDecimal (Decimal_value d * 10 ^ (Decimal_exp d - e)) e.

Definition Decimal_Add (d d2 : Decimal) : Decimal :=
  let baseScale := Z.min (Decimal_exp d) (Decimal_exp d2) in
  let rd := Decimal_rescale d baseScale in
  let rd2 := Decimal_rescale d2 baseScale in
  mkDecimal (Decimal_value rd + Decimal_value rd2) (Decimal_exp rd).

Definition Decimal_Neg (d : Decimal) : Decimal :=
  mkDecimal (- Decimal_value d) (Decimal_exp d).

Definition Decimal_IsZero (d : Decimal) : bool := Decimal_value d =? 0.

Definition Decimal_Equal (d d2 : Decimal) : bool :=
  let baseScale := Z.min (Decimal_exp d) (Decimal_exp d2) in
  Decimal_value (Decimal_rescale d baseScale) =? Decimal_value (Decimal_rescale d2 baseScale).

(** The rational number a [Decimal] stands for. *)
Definition dval (d : Decimal) : Q := (inject_Z (Decimal_value d) * (10 # 1) ^ Decimal_exp d)%Q.

(** [strconv.ParseInt(s, 10, bitSize)]: an optional sign, then one or more
    decimal digits; the value must fit in [bitSize] bits. *)
Definition isDigit (c : ascii) : bool :=
  let n := N_of_ascii c in ((48 <=? n) && (n <=? 57))%N.

Fixpoint parseDigits (s : string) (acc : Z) : option Z :=
  match s with
  | EmptyString => Some acc
  | String c s' =>
      if isDigit c then parseDigits s' (10 * acc + Z.of_N (N_of_ascii c) - 48) else None
  end.

Definition parseSigned (s : string) : option Z :=
  match s with
  | EmptyString => None
  | String c s' =>
      if Ascii.eqb c "-"%char then
        match s' with EmptyString => None | _ => Z.opp <$> parseDigits s' 0 end
      else if Ascii.eqb c "+"%char then
        match s' with EmptyString => None | _ => parseDigits s' 0 end
      else parseDigits s 0
  end.

Definition ParseInt (s : string) (bitSize : Z) : option Z :=
  match parseSigned s with
  | Some z => if (- 2 ^ (bitSize - 1) <=? z) && (z <? 2 ^ (bitSize - 1)) then Some z else None
  | None => None
  end.

(** [strings.ReplaceAll(q, ",", "")]. *)
Fixpoint removeCommas (s : string) : string :=
  match s with
  | EmptyString => EmptyString
  | String c s' => if Ascii.eqb c ","%char then removeCommas s' else String c (removeCommas s')
  end.

(** Split at the first rune satisfying [p]: the part before it and, when
    there is one, the part after it. *)
Fixpoint splitAt (p : ascii -> bool) (s : string) : string * option string :=
  match s with
  | EmptyString => (EmptyString, None)
  | String c s' =>
      if p c then (EmptyString, Some s')
      else let '(a, b) := splitAt p s' in (String c a, b)
  end.

Fixpoint countRune (r : ascii) (s : string) : nat :=
  match s with
  | EmptyString => O
  | String c s' => ((if Ascii.eqb c r then 1 else 0) + countRune r s')%nat
  end.

(** [decimal.NewFromString]: an optionally signed digit string with at most
    one decimal point and an optional [e]/[E] exponent. *)
Definition NewFromString (value : string) : option Decimal :=
  let '(mant, expPart) :=
    splitAt (fun c => Ascii.eqb c "E"%char || Ascii.eqb c "e"%char) value in
  match (match expPart with
         | None => Some 0
         | Some es => ParseInt es 32
         end) with
  | None => None
  | Some e =>
      if (1 <? countRune "."%char mant)%nat then None
      else
        let '(ip, fp) := splitAt (fun c => Ascii.eqb c "."%char) mant in
        let '(intString, e') :=
          match fp with
          | None => (ip, e)
          | Some f => (ip ++ f, e - Z.of_nat (String.length f))
          end in
        match parseSigned intString with
        | None => None
        | Some v =>
            if (e' <? - 2 ^ 31) || (2 ^ 31 - 1 <? e') then None
            else Some (mkDecimal v e')
        end
  end.

(** functions.ParseDecimal (transfer.go). *)
Definition ParseDecimal (q : string) : option Decimal :=
  NewFromString (removeCommas q).


(** ** pkg/core: dates *)

Record Date : Type := mkDate { Date_Year : Z; Date_Month : Z; Date_Day : Z }.

Global Instance Date_eq_dec : EqDecision Date.
Proof. solve_decision. Defined.

(** The zero value [Date{}]. *)
Definition Date_zero : Date := mkDate 0 0 0.

Definition isLeap (y : Z) : bool :=
  (y mod 4 =? 0) && (negb (y mod 100 =? 0) || (y mod 400 =? 0)).

Definition daysBefore (m : Z) : Z :=
  nth (Z.to_nat m) [0; 31; 59; 90; 120; 151; 181; 212; 243; 273; 304; 334] 0.

(** [Date.ToTime]: [time.Date(d.Year, d.Month, d.Day, 0, 0, 0, 0, time.UTC)],
    as the number of days since 0001-01-01.  [time.Date] accepts values
    outside their usual ranges and normalises them: the month overflows into
    the year, the day is counted on from the first of the month. *)
Definition Date_ToTime (d : Date) : Z :=
  let m := Date_Month d - 1 in
  let year := Date_Year d + m / 12 in
  let m := m mod 12 in
  let y := year - 1 in
  365 * y + y / 4 - y / 100 + y / 400
  + daysBefore m + (if isLeap year && (2 <=? m) then 1 else 0)
  + (Date_Day d - 1).

Definition Date_After (d u : Date) : bool := Date_ToTime u <? Date_ToTime d.
Definition Date_Before (d u : Date) : bool := Date_ToTime d <? Date_ToTime u.
Definition Date_Equal (d u : Date) : bool :=
  (Date_Year d =? Date_Year u) && (Date_Month d =? Date_Month u) && (Date_Day d =? Date_Day u).
Definition Date_BeforeOrEqual (d u : Date) : bool := Date_Before d u || Date_Equal d u.
Definition Date_EqualOrAfter (d u : Date) : bool := Date_Equal d u || Date_After d u.
Definition Date_IsZero (d : Date) : bool := Date_Equal d Date_zero.


(** ** pkg/core: the ledger state *)

(** The address of a [core.Account] object. *)
Abbreviation loc := nat (only parsing).

(** A [*core.Commodity].  Commodities are created once by [commodity], which
    refuses an existing name, and are never removed or replaced, so a pointer
    to a commodity is identified with the commodity's name. *)
Abbreviation CommodityRef := string (only parsing).

(** Modelled from the spec: the declaration of [core.Quantity] is not part of
    the sources at hand.  "a signed quantity (amount + commodity)". *)
Record Quantity : Type := mkQuantity {
  Quantity_Amount : Decimal;
  Quantity_Commodity : CommodityRef
}.

(** Modelled from the spec: the declaration of [core.ExchangeRate] is not
    part of the sources at hand.  "exchange rate (unit price, total price)". *)
Record ExchangeRate : Type := mkExchangeRate {
  ExchangeRate_UnitPrice : Quantity;
  ExchangeRate_TotalPrice : Quantity
}.

(** Modelled from the spec: the declaration of [core.Lot] is not part of the
    sources at hand; the fields are those [Transfer.Lot] fills in. *)
Record Lot : Type := mkLot {
  Lot_Name : string;
  Lot_CreationDate : Date;
  Lot_Balance : Quantity;
  Lot_ExchangeRate : option ExchangeRate
}.

(** Modelled from the spec: the declaration of [core.Commodity] is not part
    of the sources at hand.  "name (unique key), human description, creation
    date, tag set". *)
Record Commodity : Type := mkCommodity {
  Commodity_Name : string;
  Commodity_Description : string;
  Commodity_CreationDate : Date;
  Commodity_Tags : gmap string bool
}.

(** Modelled from the spec: [core.NewCommodity] is not part of the sources at
    hand; a commodity is created with an empty tag set. *)
Definition NewCommodity (name description : string) (creationDate : Date) : Commodity :=
  mkCommodity name description creationDate ∅.

(** Modelled from the spec: [Commodity.AddTag] is not part of the sources at
    hand; it is taken to do what [Account.AddTag] does. *)
Definition Commodity_AddTag (c : Commodity) (tag : string) : Commodity :=
  mkCommodity (Commodity_Name c) (Commodity_Description c) (Commodity_CreationDate c)
    (<[tag := true]> (Commodity_Tags c)).

(** account.go *)
Record Account : Type := mkAccount {
  Account_Name : string;
  Account_CreationDate : Date;
  Account_ClosingDate : Date;
  Account_Commodities : gmap string CommodityRef;
  Account_Lots : gmap string (gmap string Lot);   (* lot name -> commodity name -> Lot *)
  Account_Tags : gmap string bool;
  Account_Notes : gmap string string
}.

Definition NewAccount (name : string) (creationDate : Date) : Account :=
  mkAccount name creationDate Date_zero ∅ {[ "" := ∅ ]} ∅ ∅.

Definition Account_IsClosed (a : Account) (date : Date) : bool :=
  negb (Date_Equal (Account_ClosingDate a) Date_zero)
  && Date_EqualOrAfter date (Account_ClosingDate a).

Definition set_ClosingDate (a : Account) (d : Date) : Account :=
  mkAccount (Account_Name a) (Account_CreationDate a) d (Account_Commodities a)
    (Account_Lots a) (Account_Tags a) (Account_Notes a).
Definition set_Commodities (a : Account) (m : gmap string CommodityRef) : Account :=
  mkAccount (Account_Name a) (Account_CreationDate a) (Account_ClosingDate a) m
    (Account_Lots a) (Account_Tags a) (Account_Notes a).
Definition set_Lots (a : Account) (m : gmap string (gmap string Lot)) : Account :=
  mkAccount (Account_Name a) (Account_CreationDate a) (Account_ClosingDate a)
    (Account_Commodities a) m (Account_Tags a) (Account_Notes a).
Definition set_Tags (a : Account) (m : gmap string bool) : Account :=
  mkAccount (Account_Name a) (Account_CreationDate a) (Account_ClosingDate a)
    (Account_Commodities a) (Account_Lots a) m (Account_Notes a).
Definition set_Notes (a : Account) (m : gmap string string) : Account :=
  mkAccount (Account_Name a) (Account_CreationDate a) (Account_ClosingDate a)
    (Account_Commodities a) (Account_Lots a) (Account_Tags a) m.

Definition Account_AddTag (a : Account) (tag : string) : Account :=
  set_Tags a (<[tag := true]> (Account_Tags a)).

Definition Account_HasTag (a : Account) (tag : string) : bool :=
  bool_decide (is_Some (Account_Tags a !! tag)).

Definition Account_RemoveTag (a : Account) (tag : string) : Account :=
  set_Tags a (delete tag (Account_Tags a)).

(** A [core.TagTarget]: a pointer to an account or to a commodity. *)
Inductive TagTarget : Type :=
| TargetAccount (l : loc)
| TargetCommodity (c : CommodityRef).

Global Instance TagTarget_eq_dec : EqDecision TagTarget.
Proof. solve_decision. Defined.

(** Modelled from the spec: the declaration of [core.Context] is not part of
    the sources at hand.  "date: current clock, starts at the zero date;
    accounts: map of unique name to Account; commodities: map of unique name
    to Commodity; tags: map of tag name to ordered set of tagged entities".
    [Context_objs] is the memory in which the [core.Account] objects live:
    [Context_Accounts] maps a name to a pointer, and so do the transfers on
    the operand stack and the tag index. *)
Record Context : Type := mkContext {
  Context_Date : Date;
  Context_Accounts : gmap string loc;
  Context_Commodities : gmap string Commodity;
  Context_Tags : gmap string (list TagTarget);
  Context_objs : gmap loc Account
}.

(** Modelled from the spec: [core.NewContext] is not part of the sources at
    hand; the context starts empty, at the zero date. *)
Definition NewContext : Context := mkContext Date_zero ∅ ∅ ∅ ∅.

Definition set_Date (c : Context) (d : Date) : Context :=
  mkContext d (Context_Accounts c) (Context_Commodities c) (Context_Tags c) (Context_objs c).
Definition set_Accounts (c : Context) (m : gmap string loc) : Context :=
  mkContext (Context_Date c) m (Context_Commodities c) (Context_Tags c) (Context_objs c).
Definition set_Commodities_ctx (c : Context) (m : gmap string Commodity) : Context :=
  mkContext (Context_Date c) (Context_Accounts c) m (Context_Tags c) (Context_objs c).
Definition set_Tags_ctx (c : Context) (m : gmap string (list TagTarget)) : Context :=
  mkContext (Context_Date c) (Context_Accounts c) (Context_Commodities c) m (Context_objs c).
Definition set_objs (c : Context) (m : gmap loc Account) : Context :=
  mkContext (Context_Date c) (Context_Accounts c) (Context_Commodities c) (Context_Tags c) m.

(** Write through an account pointer. *)
Definition store (c : Context) (l : loc) (a : Account) : Context :=
  set_objs c (<[l := a]> (Context_objs c)).

(** Allocate a new account object. *)
Definition alloc (c : Context) (a : Account) : loc * Context :=
  let l := fresh (dom (Context_objs c)) in (l, store c l a).

(** ** pkg/functions/transfer.go: the Transfer value *)

Record Transfer : Type := mkTransfer {
  Transfer_Account : loc;                      (* *core.Account *)
  Transfer_LotName : string;
  Transfer_CreateLot : bool;
  Transfer_Quantity : Quantity;
  Transfer_ExchangeRate : option ExchangeRate; (* *core.ExchangeRate, nil = None *)
  Transfer_Comment : string
}.

Definition Transfer_Lot (t : Transfer) (creationDate : Date) : Lot :=
  mkLot (Transfer_LotName t) creationDate (Transfer_Quantity t) (Transfer_ExchangeRate t).

Definition GetTransferQuantity (t : Transfer) : Quantity :=
  match Transfer_ExchangeRate t with
  | Some er => ExchangeRate_TotalPrice er
  | None => Transfer_Quantity t
  end.

(** ** pkg/parser/operands.go *)

(** An element of the operand stack, a Go [interface{}]: a string, a
    [*Transfer], or a value of some other dynamic type (which only a function
    registered by a client can push). *)
Inductive Value : Type :=
| VString (s : string)
| VTransfer (t : Transfer)
| VOther (z : Z).

Definition isString (v : Value) : bool := match v with VString _ => true | _ => false end.
Definition isTransfer (v : Value) : bool := match v with VTransfer _ => true | _ => false end.

(** [Operands] is a view of the parser's operand stack from [stackIndex] up. *)
Record Operands : Type := mkOperands {
  Operands_stack : list Value;
  Operands_stackIndex : nat
}.

Definition GetValues (op : Operands) : list Value :=
  drop (Operands_stackIndex op) (Operands_stack op).

Definition Length (op : Operands) : Z :=
  Z.of_nat (List.length (Operands_stack op)) - Z.of_nat (Operands_stackIndex op).

Definition Push (op : Operands) (values : list Value) : Operands :=
  mkOperands (Operands_stack op ++ values) (Operands_stackIndex op).

(** [Pop] pops [numValues] values and returns them; it does not pop more than
    [Length] values. *)
Definition Pop (op : Operands) (numValues : Z) : list Value * Operands :=
  let length_ := Length op in
  let numValues := if length_ <? numValues then length_ else numValues in
  let stackIndex := Z.to_nat (Z.of_nat (List.length (Operands_stack op)) - numValues) in
  (drop stackIndex (Operands_stack op),
   mkOperands (take stackIndex (Operands_stack op)) (Operands_stackIndex op)).

(** ** pkg/parser/parser.go: the stack machine *)

Section StackMachine.

(** The type of the [Context interface{}] handed to the functions. *)
Variable C : Type.

(** A registered function receives its name, the operands and the context;
    it changes the operand stack through the view and the context through
    the pointer, and returns an error or [nil]. *)
Definition Function : Type := string -> Operands -> C -> option error * Operands * C.

Record Parser : Type := mkParser {
  Parser_operandStack : list Value;
  Parser_markerStack : list nat;
  Parser_silenced : nat;
  Parser_Functions : gmap string Function;
  Parser_Context : C
}.

Definition NewParser (context : C) : Parser := mkParser [] [] 0%nat ∅ context.

Definition set_operandStack (p : Parser) (s : list Value) : Parser :=
  mkParser s (Parser_markerStack p) (Parser_silenced p) (Parser_Functions p) (Parser_Context p).
Definition set_markerStack (p : Parser) (m : list nat) : Parser :=
  mkParser (Parser_operandStack p) m (Parser_silenced p) (Parser_Functions p) (Parser_Context p).
Definition set_silenced (p : Parser) (n : nat) : Parser :=
  mkParser (Parser_operandStack p) (Parser_markerStack p) n (Parser_Functions p) (Parser_Context p).
Definition set_Functions (p : Parser) (f : gmap string Function) : Parser :=
  mkParser (Parser_operandStack p) (Parser_markerStack p) (Parser_silenced p) f (Parser_Context p).
Definition set_Context (p : Parser) (c : C) : Parser :=
  mkParser (Parser_operandStack p) (Parser_markerStack p) (Parser_silenced p)
    (Parser_Functions p) c.

Definition formatError (line : N) (err : error) : error := AtLine line err.

Definition pushString (p : Parser) (text : string) : Parser :=
  set_operandStack p (Parser_operandStack p ++ [VString text]).

(** [getOperands] builds the view from the marker stack's top value. *)
Definition getOperands (p : Parser) : error + Operands :=
  match last (Parser_markerStack p) with
  | Some index =>
      if (List.length (Parser_operandStack p) <? index)%nat
      then inl (Panic "top of marker stack extends beyond length of operand stack")
      else inr (mkOperands (Parser_operandStack p) index)
  | None => inr (mkOperands (Parser_operandStack p) 0%nat)
  end.

(** [onCloseParen] checks that all operands pushed since the matching open
    parenthesis have been popped. *)
Definition onCloseParen (p : Parser) : option error * Parser :=
  match last (Parser_markerStack p) with
  | None => (Some (Errorf "closing parenthesis does not have a matching open parenthesis"), p)
  | Some index =>
      let p := if (List.length (Parser_markerStack p) =? Parser_silenced p)%nat
               then set_silenced p 0%nat else p in
      let p := set_markerStack p (removelast (Parser_markerStack p)) in
      if negb (index =? List.length (Parser_operandStack p))%nat
      then (Some (Errorf "%v unconsumed operands at closing parenthesis"), p)
      else (None, p)
  end.

(** What one iteration of the loop of [Parse] decides: go round again, or
    return. *)
Inductive Outcome : Type :=
| Continue (p : Parser)
| Return (r : option error) (p : Parser).

(** The end of the loop body: [if e == io.EOF { return nil }]. *)
Definition afterSwitch (e : option error) (p : Parser) : Outcome :=
  if bool_decide (e = Some EOF) then Return None p else Continue p.

(** The body of the loop of [Parse] for the token just lexed; [line] is the
    lexer's line number after that token. *)
Definition onToken (line : N) (tok : TokenType * string * option error) (p : Parser) : Outcome :=
  let '(tokenType, text, e) := tok in
  match tokenType with
  | TokString =>
      if (Parser_silenced p =? 0)%nat then
        if bool_decide (text = "silence") then
          if (List.length (Parser_markerStack p) =? 0)%nat then
            Return (Some (formatError line (Errorf "found silence outside parentheses"))) p
          else
            afterSwitch e (set_silenced p (List.length (Parser_markerStack p)))
        else
          match Parser_Functions p !! text with
          | Some f =>
              match getOperands p with
              | inl pan => Return (Some pan) p
              | inr op =>
                  let '(r, op', c') := f text op (Parser_Context p) in
                  let p := set_Context (set_operandStack p (Operands_stack op')) c' in
                  match r with
                  | Some err => Return (Some (formatError line err)) p
                  | None => Continue p      (* [e] now holds the function's nil *)
                  end
              end
          | None => afterSwitch e (pushString p text)
          end
      else afterSwitch e p
  | TokQuotedString =>
      if (Parser_silenced p =? 0)%nat then afterSwitch e (pushString p text)
      else afterSwitch e p
  | TokOpenParen =>
      afterSwitch e
        (set_markerStack p (Parser_markerStack p ++ [List.length (Parser_operandStack p)]))
  | TokCloseParen =>
      match onCloseParen p with
      | (Some err, p) => Return (Some (formatError line err)) p
      | (None, p) => Continue p             (* [e] now holds onCloseParen's nil *)
      end
  | TokError =>
      if bool_decide (e = Some EOF) then Return None p
      else Return (Some (formatError line
                           (Prefixed "syntax error" (default (Errorf "<nil>") e)))) p
  | TokNone => Return (Some (Panic "unexpected TokenType")) p
  end.

(** [Parse] executes the tokens of the lexer.  The loop is bounded by
    [fuel]; [None] means the fuel ran out. *)
Fixpoint Parse_loop (fuel : nat) (lex : Lexer) (p : Parser)
  : option (option error * Lexer * Parser) :=
  match fuel with
  | O => None
  | S fuel =>
      let '(tok, lex) := GetNextToken lex in
      match onToken (LineNumber lex) tok p with
      | Return r p => Some (r, lex, p)
      | Continue p => Parse_loop fuel lex p
      end
  end.

(** A bound on the number of tokens the lexer can still produce. *)
Definition lexMeasure (lex : Lexer) : nat :=
  (3 * List.length (Lexer_reader lex)
   + (if Lexer_openParenSet lex then 1 else 0)
   + (if Lexer_closeParenSet lex then 1 else 0)
   + (if Lexer_isInString lex then 1 else 0))%nat.

Definition Parse (lex : Lexer) (p : Parser) : option (option error * Lexer * Parser) :=
  Parse_loop (S (lexMeasure lex)) lex p.

(** [Finish] runs the final checks on the operand and marker stacks. *)
Definition Finish (p : Parser) : option error :=
  if (0 <? List.length (Parser_operandStack p))%nat then
    Some (Errorf "%v unconsumed tokens left on stack at EOF")
  else if (0 <? List.length (Parser_markerStack p))%nat then
    Some (Errorf "%v unclosed parentheses at EOF")
  else if negb (Parser_silenced p =? 0)%nat then
    Some (Errorf "parser evaluation silenced at EOF")
  else None.

(** The token sequence of a lexer, each token with the line number the
    lexer is at after it, up to and including the first [Error] token. *)
Fixpoint tokenize (fuel : nat) (lex : Lexer)
  : list (N * (TokenType * string * option error)) :=
  match fuel with
  | O => []
  | S fuel =>
      let '(tok, lex) := GetNextToken lex in
      (LineNumber lex, tok) ::
      (if bool_decide (fst (fst tok) = TokError) then [] else tokenize fuel lex)
  end.

(** The loop of [Parse] over a token sequence already lexed. *)
Fixpoint ParseTokens (ts : list (N * (TokenType * string * option error))) (p : Parser)
  : Outcome :=
  match ts with
  | [] => Continue p
  | (line, tok) :: ts =>
      match onToken line tok p with
      | Return r p => Return r p
      | Continue p => ParseTokens ts p
      end
  end.

End StackMachine.

Arguments mkParser {C}.
Arguments Parser_operandStack {C}.
Arguments Parser_markerStack {C}.
Arguments Parser_silenced {C}.
Arguments Parser_Functions {C}.
Arguments Parser_Context {C}.
Arguments NewParser {C}.
Arguments set_operandStack {C}.
Arguments set_markerStack {C}.
Arguments set_silenced {C}.
Arguments set_Functions {C}.
Arguments set_Context {C}.
Arguments pushString {C}.
Arguments getOperands {C}.
Arguments onCloseParen {C}.
Arguments Continue {C}.
Arguments Return {C}.
Arguments afterSwitch {C}.
Arguments onToken {C}.
Arguments Parse_loop {C}.
Arguments Parse {C}.
Arguments Finish {C}.
Arguments ParseTokens {C}.

(** ** pkg/functions: the ledger functions *)

(** What a function leaves behind: the error or [nil], the operand view and
    the context. *)
Definition Outcome3 : Type := option error * Operands * Context.

Definition fail (e : error) (op : Operands) (c : Context) : Outcome3 := (Some e, op, c).
Definition ok (op : Operands) (c : Context) : Outcome3 := (None, op, c).

(** Dereference an account pointer. *)
Definition deref (c : Context) (l : loc) : option Account := Context_objs c !! l.

Definition nilDeref : error := Panic "invalid memory address or nil pointer dereference".
Definition badAssert : error := Panic "interface conversion".
Definition badIndex : error := Panic "index out of range".

Fixpoint takeWhile {A} (p : A -> bool) (l : list A) : list A :=
  match l with
  | [] => []
  | x :: l' => if p x then x :: takeWhile p l' else []
  end.

(** The longest run of strings at the top of the view: the loop
    [for n := len(values) - 1; n >= 0; n-- { if _, ok := values[n].(string); !ok {
       values = values[n+1:]; break } }]. *)
Definition trailingStrings (values : list Value) : list Value :=
  rev (takeWhile isString (rev values)).

(** [for n := from; n < len(values); n += 2 { m[values[n]] = values[n+1] }] over
    values known to be strings. *)
Fixpoint setPairs (values : list Value) (m : gmap string string) : gmap string string :=
  match values with
  | VString k :: VString v :: rest => setPairs rest (<[k := v]> m)
  | _ => m
  end.

(** AddNotesFunction adds notes to an account.
    Syntax: ACCOUNT (NOTE-NAME NOTE-VALUE)* add-notes -> *)
Definition AddNotesFunction (fn : string) (op : Operands) (c : Context) : Outcome3 :=
  let values := trailingStrings (GetValues op) in
  if (List.length values <? 1)%nat then
    fail (Errorf "%v: account name operand required, but no operands given") op c
  else if negb (Z.rem (Z.of_nat (List.length values) - 1) 2 =? 0) then
    fail (Errorf "%v: note name and note value operand pairs required, but odd number of operands given") op c
  else
    let '(values, op) := Pop op (Z.of_nat (List.length values)) in
    match values with
    | VString an :: rest =>
        match Context_Accounts c !! an with
        | None => fail (Errorf "%v: nonexistent account: %v") op c
        | Some l =>
            match deref c l with
            | None => fail nilDeref op c
            | Some a =>
                if Account_IsClosed a (Context_Date c) then
                  fail (Errorf "%v: closed account: %v") op c
                else ok op (store c l (set_Notes a (setPairs rest (Account_Notes a))))
            end
        end
    | _ => fail badAssert op c
    end.

(** The checks shared by the three assertions once the operands are parsed:
    the account exists and is open, the commodity exists. *)
Definition openAccount (c : Context) (an : string) : error + (loc * Account) :=
  match Context_Accounts c !! an with
  | None => inl (Errorf "%v: nonexistent account: %v")
  | Some l =>
      match deref c l with
      | None => inl nilDeref
      | Some a =>
          if Account_IsClosed a (Context_Date c) then inl (Errorf "%v: closed account: %v")
          else inr (l, a)
      end
  end.

(** AssertFunction asserts that the default lot within an account has the
    specified balance.  Syntax: ACCOUNT AMOUNT COMMODITY assert -> *)
Definition AssertFunction (fn : string) (op : Operands) (c : Context) : Outcome3 :=
  if Length op <? 3 then
    fail (Errorf "%v: account name, amount, and commodity operands required, but too few given") op c
  else
    let '(values, op) := Pop op 3 in
    match values with
    | [v0; v1; v2] =>
        match v0 with
        | VString an =>
        match v1 with
        | VString as_ =>
        match ParseDecimal as_ with
        | Some q =>
        match v2 with
        | VString cn =>
            match openAccount c an with
            | inl e => fail e op c
            | inr (_, acct) =>
                match Context_Commodities c !! cn with
                | None => fail (Errorf "%v: nonexistent commodity: %v") op c
                | Some _ =>
                    match Account_Lots acct !! "" with
                    | None => fail (Errorf "%v: account %v does not have a default lot") op c
                    | Some lots =>
                        match lots !! cn with
                        | None =>
                            if negb (Decimal_IsZero q)
                            then fail (Errorf "%v: default lot in account %v does not have %v") op c
                            else ok op c
                        | Some l =>
                            if negb (Decimal_Equal (Quantity_Amount (Lot_Balance l)) q)
                            then fail (Errorf "%v: default lot in account %v has %v, not asserted amount %v %v (difference of %v)") op c
                            else ok op c
                        end
                    end
                end
            end
        | _ => fail (Errorf "%v: non-string commodity name: %v") op c
        end
        | None => fail (Errorf "%v: illegal decimal value %v: %v") op c
        end
        | _ => fail (Errorf "%v: non-string quantity: %v") op c
        end
        | _ => fail (Errorf "%v: non-string account name: %v") op c
        end
    | _ => fail badIndex op c
    end.

(** AssertLotFunction asserts that the specified lot within an account has
    the specified balance.  Syntax: ACCOUNT LOT AMOUNT COMMODITY assert-lot -> *)
Definition AssertLotFunction (fn : string) (op : Operands) (c : Context) : Outcome3 :=
  if Length op <? 4 then
    fail (Errorf "%v: account name, lot name, amount, and commodity operands required, but too few given") op c
  else
    let '(values, op) := Pop op 4 in
    match values with
    | [v0; v1; v2; v3] =>
        match v0 with
        | VString an =>
        match v1 with
        | VString ln =>
        match v2 with
        | VString as_ =>
        match ParseDecimal as_ with
        | Some q =>
        match v3 with
        | VString cn =>
            match openAccount c an with
            | inl e => fail e op c
            | inr (_, acct) =>
                match Context_Commodities c !! cn with
                | None => fail (Errorf "%v: nonexistent commodity: %v") op c
                | Some _ =>
                    match Account_Lots acct !! ln with
                    | None => fail (Errorf "%v: account %v does not have a lot named %v") op c
                    | Some lots =>
                        match lots !! cn with
                        | None =>
                            if negb (Decimal_IsZero q)
                            then fail (Errorf "%v: lot %v in account %v does not have %v") op c
                            else ok op c
                        | Some l =>
                            if negb (Decimal_Equal (Quantity_Amount (Lot_Balance l)) q)
                            then fail (Errorf "%v: lot %v in account %v has %v, not asserted amount %v %v (difference of %v)") op c
                            else ok op c
                        end
                    end
                end
            end
        | _ => fail (Errorf "%v: non-string commodity name: %v") op c
        end
        | None => fail (Errorf "%v: illegal decimal value %v: %v") op c
        end
        | _ => fail (Errorf "%v: non-string quantity: %v") op c
        end
        | _ => fail (Errorf "%v: non-string lot name: %v") op c
        end
        | _ => fail (Errorf "%v: non-string account name: %v") op c
        end
    | _ => fail badIndex op c
    end.

(** The sum of the balances in commodity [cn] over all the lots of an
    account: [for _, lmap := range acct.Lots { if l, ok = lmap[cn]; ok {
    sum = sum.Add(l.Balance.Amount) } }]. *)
Definition lotsSum (acct : Account) (cn : string) : Decimal :=
  foldr (fun '(_, lmap) sum =>
           match (lmap : gmap string Lot) !! cn with
           | Some l => Decimal_Add sum (Quantity_Amount (Lot_Balance l))
           | None => sum
           end)
        Decimal_Zero (map_to_list (Account_Lots acct)).

(** AssertLotsSumFunction asserts that all of the lots in the specified
    account sum to the specified balance.
    Syntax: ACCOUNT AMOUNT COMMODITY assert-lots-sum -> *)
Definition AssertLotsSumFunction (fn : string) (op : Operands) (c : Context) : Outcome3 :=
  if Length op <? 3 then
    fail (Errorf "%v: account name, amount, and commodity operands required, but too few given") op c
  else
    let '(values, op) := Pop op 3 in
    match values with
    | [v0; v1; v2] =>
        match v0 with
        | VString an =>
        match v1 with
        | VString as_ =>
        match ParseDecimal as_ with
        | Some q =>
        match v2 with
        | VString cn =>
            match openAccount c an with
            | inl e => fail e op c
            | inr (_, acct) =>
                match Context_Commodities c !! cn with
                | None => fail (Errorf "%v: nonexistent commodity: %v") op c
                | Some _ =>
                    if negb (Decimal_Equal (lotsSum acct cn) q)
                    then fail (Errorf "%v: lots in account %v have a total of %v %v, not asserted amount %v %v (difference of %v)") op c
                    else ok op c
                end
            end
        | _ => fail (Errorf "%v: non-string commodity name: %v") op c
        end
        | None => fail (Errorf "%v: illegal decimal value %v: %v") op c
        end
        | _ => fail (Errorf "%v: non-string quantity: %v") op c
        end
        | _ => fail (Errorf "%v: non-string account name: %v") op c
        end
    | _ => fail badIndex op c
    end.

(** Does some commodity of the lot have a nonzero balance?
    [for cn, lot := range ctolots { if !lot.Balance.Amount.IsZero() { return ... } }] *)
Definition hasNonzero (ctolots : gmap string Lot) : bool :=
  existsb (fun '(_, lot) => negb (Decimal_IsZero (Quantity_Amount (Lot_Balance lot))))
          (map_to_list ctolots).

(** CloseFunction closes an account.  Syntax: NAME close -> *)
Definition CloseFunction (fn : string) (op : Operands) (c : Context) : Outcome3 :=
  if Length op <? 1 then fail (Errorf "%v: no operands given") op c
  else
    let '(values, op) := Pop op 1 in
    match values with
    | [VString an] =>
        match Context_Accounts c !! an with
        | None => fail (Errorf "%v: nonexistent account: %v") op c
        | Some l =>
            match deref c l with
            | None => fail nilDeref op c
            | Some acct =>
                if Account_IsClosed acct (Context_Date c) then
                  fail (Errorf "%v: account is already closed: %v") op c
                else if existsb (fun '(lotName, ctolots) =>
                                   negb (String.length lotName =? 0)%nat && hasNonzero ctolots)
                                (map_to_list (Account_Lots acct))
                then fail (Errorf "%v: cannot close account %v because lot %v has %v %v") op c
                else ok op (store c l (set_ClosingDate acct (Context_Date c)))
            end
        end
    | [_] => fail (Errorf "%v: non-string account name: %v") op c
    | _ => fail badIndex op c
    end.

(** CloseLotFunction deletes a lot from an account.
    Syntax: ACCOUNT LOT close-lot -> *)
Definition CloseLotFunction (fn : string) (op : Operands) (c : Context) : Outcome3 :=
  if Length op <? 2 then
    fail (Errorf "%v: account name and lot name operands required, but too few given") op c
  else
    let '(values, op) := Pop op 2 in
    match values with
    | [v0; v1] =>
        match v0 with
        | VString an =>
        match v1 with
        | VString ln =>
            match Context_Accounts c !! an with
            | None => fail (Errorf "%v: nonexistent account: %v") op c
            | Some l =>
                match deref c l with
                | None => fail nilDeref op c
                | Some acct =>
                    if Account_IsClosed acct (Context_Date c) then
                      fail (Errorf "%v: closed account: %v") op c
                    else
                      match Account_Lots acct !! ln with
                      | None => fail (Errorf "%v: nonexistent lot %v in account %v") op c
                      | Some lots =>
                          if hasNonzero lots then
                            fail (Errorf "%v: cannot close lot %v in account %v because it has %v %v") op c
                          else ok op (store c l (set_Lots acct (delete ln (Account_Lots acct))))
                      end
                end
            end
        | _ => fail (Errorf "%v: non-string lot name: %v") op c
        end
        | _ => fail (Errorf "%v: non-string account name: %v") op c
        end
    | _ => fail badIndex op c
    end.

(** CommentFunction pops a string comment from the operand stack.
    Syntax: STRING comment -> *)
Definition CommentFunction (fn : string) (op : Operands) (c : Context) : Outcome3 :=
  if Length op <? 1 then fail (Errorf "%v: no operands given") op c
  else
    let '(values, op) := Pop op 1 in
    match values with
    | [VString _] => ok op c
    | [_] => fail (Errorf "%v: non-string operand: %v") op c
    | _ => fail badIndex op c
    end.

(** CommodityFunction creates a commodity.
    Syntax: NAME DESCRIPTION commodity -> *)
Definition CommodityFunction (fn : string) (op : Operands) (c : Context) : Outcome3 :=
  if Length op <? 2 then
    fail (Errorf "%v: commodity name and description operands required, but too few given") op c
  else
    let '(values, op) := Pop op 2 in
    match values with
    | [v0; v1] =>
        match v0 with
        | VString cn =>
        match v1 with
        | VString d =>
            match Context_Commodities c !! cn with
            | Some _ => fail (Errorf "%v: commodity already exists: %v") op c
            | None =>
                ok op (set_Commodities_ctx c
                         (<[cn := NewCommodity cn d (Context_Date c)]> (Context_Commodities c)))
            end
        | _ => fail (Errorf "%v: non-string description: %v") op c
        end
        | _ => fail (Errorf "%v: non-string commodity name: %v") op c
        end
    | _ => fail badIndex op c
    end.

Definition set_LotName (t : Transfer) (ln : string) : Transfer :=
  mkTransfer (Transfer_Account t) ln (Transfer_CreateLot t) (Transfer_Quantity t)
    (Transfer_ExchangeRate t) (Transfer_Comment t).
Definition set_CreateLot (t : Transfer) (b : bool) : Transfer :=
  mkTransfer (Transfer_Account t) (Transfer_LotName t) b (Transfer_Quantity t)
    (Transfer_ExchangeRate t) (Transfer_Comment t).
Definition set_Comment (t : Transfer) (s : string) : Transfer :=
  mkTransfer (Transfer_Account t) (Transfer_LotName t) (Transfer_CreateLot t)
    (Transfer_Quantity t) (Transfer_ExchangeRate t) s.

(** CreateLotFunction adds a lot name to a Transfer on the operand stack.  It
    asserts that the lot doesn't already exist or that it doesn't have the
    Transfer's commodity.  Syntax: Transfer LOT create-lot -> Transfer *)
Definition CreateLotFunction (fn : string) (op : Operands) (c : Context) : Outcome3 :=
  if Length op <? 2 then
    fail (Errorf "%v: transfer and lot name operands are required, but too few given") op c
  else
    let '(values, op) := Pop op 2 in
    match values with
    | [v0; v1] =>
        match v0 with
        | VTransfer t =>
        match v1 with
        | VString ln =>
            match deref c (Transfer_Account t) with
            | None => fail nilDeref op c
            | Some acct =>
                if Account_IsClosed acct (Context_Date c) then
                  fail (Errorf "%v: transfer refers to closed account: %v") op c
                else if match Account_Lots acct !! ln with
                        | Some ctolots =>
                            bool_decide (is_Some (ctolots !! Quantity_Commodity (Transfer_Quantity t)))
                        | None => false
                        end
                then fail (Errorf "%v: lot %v already contains %v") op c
                else ok (Push op [VTransfer (set_CreateLot (set_LotName t ln) true)]) c
            end
        | _ => fail (Errorf "%v: non-string lot name: %v") op c
        end
        | _ => fail (Errorf "%v: operand is not a transfer: %v") op c
        end
    | _ => fail badIndex op c
    end.

(** DateFunction sets the interpreter's current date.  It returns an error if
    the date jumps back in time.  Syntax: YEAR MONTH DAY date -> *)
Definition DateFunction (fn : string) (op : Operands) (c : Context) : Outcome3 :=
  if Length op <? 3 then
    fail (Errorf "%v: year, month, day operands required, but too few given") op c
  else
    let '(values, op) := Pop op 3 in
    match values with
    | [v0; v1; v2] =>
        match v0 with
        | VString year =>
        match v1 with
        | VString month =>
        match v2 with
        | VString day =>
            match ParseInt year 32 with
            | None => fail (Errorf "%v: illegal year %v: %v") op c
            | Some y =>
            match ParseInt month 32 with
            | None => fail (Errorf "%v: illegal month %v: %v") op c
            | Some m =>
            match ParseInt day 32 with
            | None => fail (Errorf "%v: illegal day %v: %v") op c
            | Some dy =>
                let d := mkDate y m dy in
                if Date_After (Context_Date c) d then
                  fail (Errorf "%v: specified date %v is before current date %v") op c
                else ok op (set_Date c d)
            end end end
        | _ => fail (Errorf "%v: non-string day: %v") op c
        end
        | _ => fail (Errorf "%v: non-string month: %v") op c
        end
        | _ => fail (Errorf "%v: non-string year: %v") op c
        end
    | _ => fail badIndex op c
    end.

(** LotFunction adds a lot name to a Transfer on the operand stack.  It
    asserts that the lot already exists.  Syntax: Transfer LOT lot -> Transfer *)
Definition LotFunction (fn : string) (op : Operands) (c : Context) : Outcome3 :=
  if Length op <? 2 then
    fail (Errorf "%v: transfer and lot name operands are required, but too few given") op c
  else
    let '(values, op) := Pop op 2 in
    match values with
    | [v0; v1] =>
        match v0 with
        | VTransfer t =>
        match v1 with
        | VString ln =>
            match deref c (Transfer_Account t) with
            | None => fail nilDeref op c
            | Some acct =>
                if Account_IsClosed acct (Context_Date c) then
                  fail (Errorf "%v: transfer refers to closed account: %v") op c
                else
                  match Account_Lots acct !! ln with
                  | None => fail (Errorf "%v: account %v does not have a lot named %v") op c
                  | Some _ => ok (Push op [VTransfer (set_LotName t ln)]) c
                  end
            end
        | _ => fail (Errorf "%v: non-string lot name: %v") op c
        end
        | _ => fail (Errorf "%v: operand is not a transfer: %v") op c
        end
    | _ => fail badIndex op c
    end.

(** [strings.HasPrefix(s, prefix)]. *)
Definition HasPrefix (s pre : string) : bool := String.prefix pre s.

(** The loop of [open] over the commodity names:
    [for _, cn := range values[1:] { if c, ok := ctx.Commodities[cname]; ok {
       acct.Commodities[cname] = c } else { return ... } }]. *)
Fixpoint addCommodities (c : Context) (values : list Value) (acct : Account) : error + Account :=
  match values with
  | [] => inr acct
  | VString cname :: rest =>
      match Context_Commodities c !! cname with
      | Some _ =>
          addCommodities c rest
            (set_Commodities acct (<[cname := cname]> (Account_Commodities acct)))
      | None => inl (Errorf "%v: nonexistent commodity %v")
      end
  | _ :: _ => inl badAssert
  end.

(** OpenFunction opens an account.  It returns an error if the specified
    account already exists and is open.  Syntax: NAME COMMODITY* open ->

    The account object made by [core.NewAccount] is entered in the object
    memory when it is stored in [ctx.Accounts]; if the function fails before
    that, no pointer to the object is left anywhere. *)
Definition OpenFunction (fn : string) (op : Operands) (c : Context) : Outcome3 :=
  let values := trailingStrings (GetValues op) in
  if (List.length values <? 1)%nat then fail (Errorf "%v: no operands given") op c
  else
    let '(values, op) := Pop op (Z.of_nat (List.length values)) in
    match values with
    | VString an :: rest =>
        if negb (HasPrefix an "Assets:") && negb (HasPrefix an "Liabilities:")
           && negb (HasPrefix an "Income:") && negb (HasPrefix an "Expenses:")
           && negb (HasPrefix an "Equity:") && negb (bool_decide (an = "Equity"))
        then fail (Errorf "%v: account does not start with Assets:, Liabilities:, Income:, Expenses:, or Equity:, and is not named Equity: %v") op c
        else
          match (match Context_Accounts c !! an with
                 | Some l =>
                     match deref c l with
                     | None => Some nilDeref
                     | Some acct =>
                         if negb (Account_IsClosed acct (Context_Date c))
                         then Some (Errorf "%v: account already exists: %v")
                         else None
                     end
                 | None => None
                 end) with
          | Some e => fail e op c
          | None =>
              match addCommodities c rest (NewAccount an (Context_Date c)) with
              | inl e => fail e op c
              | inr acct =>
                  let '(l, c) := alloc c acct in
                  ok op (set_Accounts c (<[an := l]> (Context_Accounts c)))
              end
          end
    | _ => fail badAssert op c
    end.

(** SetCommentFunction sets a Transfer's comment.
    Syntax: Transfer COMMENT set-comment -> Transfer *)
Definition SetCommentFunction (fn : string) (op : Operands) (c : Context) : Outcome3 :=
  if Length op <? 2 then
    fail (Errorf "%v: transfer and comment string operands required, but too few given") op c
  else
    let '(values, op) := Pop op 2 in
    match values with
    | [v0; v1] =>
        match v0 with
        | VTransfer t =>
        match v1 with
        | VString comment => ok (Push op [VTransfer (set_Comment t comment)]) c
        | _ => fail (Errorf "%v: non-string comment: %v") op c
        end
        | _ => fail (Errorf "%v: not a transfer: %v") op c
        end
    | _ => fail badIndex op c
    end.

(** The part of the loop body of [tag] and [tag-commodity] that maintains the
    tag index:
    [if tts, ok := ctx.Tags[tag]; ok { found := ...; if !found { ctx.Tags[tag] =
    append(tts, target) } } else { ctx.Tags[tag] = []core.TagTarget{target} }]. *)
Definition indexTag (target : TagTarget) (c : Context) (tag : string) : Context :=
  match Context_Tags c !! tag with
  | Some tts =>
      if existsb (fun tagged => bool_decide (tagged = target)) tts then c
      else set_Tags_ctx c (<[tag := (tts ++ [target])%list]> (Context_Tags c))
  | None => set_Tags_ctx c (<[tag := [target]]> (Context_Tags c))
  end.

(** One round of the loop of [tag]: index the account, then [acct.AddTag(tag)]. *)
Definition tagAccount (l : loc) (c : Context) (t : Value) : Context :=
  match t with
  | VString tag =>
      let c := indexTag (TargetAccount l) c tag in
      match deref c l with
      | Some acct => store c l (Account_AddTag acct tag)
      | None => c
      end
  | _ => c
  end.

(** TagFunction tags an account.  Syntax: ACCOUNT TAG+ tag -> *)
Definition TagFunction (fn : string) (op : Operands) (c : Context) : Outcome3 :=
  let values := trailingStrings (GetValues op) in
  if (List.length values <? 2)%nat then
    fail (Errorf "%v: account name and at least one tag operand required, but too few operands given") op c
  else
    let '(values, op) := Pop op (Z.of_nat (List.length values)) in
    match values with
    | VString an :: rest =>
        match Context_Accounts c !! an with
        | None => fail (Errorf "%v: tagging nonexistent account: %v") op c
        | Some l =>
            match deref c l with
            | None => fail nilDeref op c
            | Some acct =>
                if Account_IsClosed acct (Context_Date c) then
                  fail (Errorf "%v: closed account: %v") op c
                else ok op (foldl (tagAccount l) c rest)
            end
        end
    | _ => fail badAssert op c
    end.

(** One round of the loop of [tag-commodity]. *)
Definition tagCommodity (cn : CommodityRef) (c : Context) (t : Value) : Context :=
  match t with
  | VString tag =>
      let c := indexTag (TargetCommodity cn) c tag in
      match Context_Commodities c !! cn with
      | Some com =>
          set_Commodities_ctx c (<[cn := Commodity_AddTag com tag]> (Context_Commodities c))
      | None => c
      end
  | _ => c
  end.

(** TagCommodityFunction tags a commodity.
    Syntax: COMMODITY TAG+ tag-commodity -> *)
Definition TagCommodityFunction (fn : string) (op : Operands) (c : Context) : Outcome3 :=
  let values := trailingStrings (GetValues op) in
  if (List.length values <? 2)%nat then
    fail (Errorf "%v: commodity name and at least one tag operand required, but too few operands given") op c
  else
    let '(values, op) := Pop op (Z.of_nat (List.length values)) in
    match values with
    | VString cn :: rest =>
        match Context_Commodities c !! cn with
        | None => fail (Errorf "%v: tagging nonexistent commodity: %v") op c
        | Some _ => ok op (foldl (tagCommodity cn) c rest)
        end
    | _ => fail badAssert op c
    end.

(** The removal loop of [untag]:
    [for m := 0; m < n; { if tts[m] == a { n--; tts[m] = tts[n] } else { m++ } }],
    bounded by [fuel]; it returns the array and the final [n]. *)
Fixpoint untagLoop (fuel : nat) (a : TagTarget) (tts : list TagTarget) (m n : nat)
  : list TagTarget * nat :=
  match fuel with
  | O => (tts, n)
  | S fuel =>
      if (m <? n)%nat then
        if bool_decide (tts !! m = Some a) then
          let n := (n - 1)%nat in
          untagLoop fuel a (match tts !! n with Some x => <[m := x]> tts | None => tts end) m n
        else untagLoop fuel a tts (S m) n
      else (tts, n)
  end.

(** One round of the loop of [untag]. *)
Definition untagAccount (l : loc) (c : Context) (t : Value) : Context :=
  match t with
  | VString tag =>
      let c :=
        match Context_Tags c !! tag with
        | Some tts =>
            let '(tts, n) := untagLoop (List.length tts) (TargetAccount l) tts 0 (List.length tts) in
            let tts := take n tts in
            if negb (List.length tts =? 0)%nat
            then set_Tags_ctx c (<[tag := tts]> (Context_Tags c))
            else set_Tags_ctx c (delete tag (Context_Tags c))
        | None => c
        end in
      match deref c l with
      | Some a => store c l (Account_RemoveTag a tag)
      | None => c
      end
  | _ => c
  end.

(** UntagFunction untags an account.  Syntax: ACCOUNT TAG+ untag -> *)
Definition UntagFunction (fn : string) (op : Operands) (c : Context) : Outcome3 :=
  let values := trailingStrings (GetValues op) in
  if (List.length values <? 2)%nat then
    fail (Errorf "%v: account name and at least one tag operand required, but too few operands given") op c
  else
    let '(values, op) := Pop op (Z.of_nat (List.length values)) in
    match values with
    | VString an :: rest =>
        match Context_Accounts c !! an with
        | None => fail (Errorf "%v: tagging nonexistent account: %v") op c
        | Some l =>
            match deref c l with
            | None => fail nilDeref op c
            | Some a =>
                if Account_IsClosed a (Context_Date c) then
                  fail (Errorf "%v: closed account: %v") op c
                else ok op (foldl (untagAccount l) c rest)
            end
        end
    | _ => fail badAssert op c
    end.

(** ** transfer.go *)

Definition set_LotsOf (acct : Account) (ln : string) (ctol : gmap string Lot) : Account :=
  set_Lots acct (<[ln := ctol]> (Account_Lots acct)).

(** [ExecuteTransfer] applies one transfer to its account and lot. *)
Definition ExecuteTransfer (t : Transfer) (c : Context) : option error * Context :=
  match deref c (Transfer_Account t) with
  | None => (Some nilDeref, c)
  | Some acct =>
      let cn := Quantity_Commodity (Transfer_Quantity t) in
      match Account_Lots acct !! Transfer_LotName t with
      | None =>
          if Transfer_CreateLot t then
            (None, store c (Transfer_Account t)
                     (set_LotsOf acct (Transfer_LotName t)
                        {[ cn := Transfer_Lot t (Context_Date c) ]}))
          else if (String.length (Transfer_LotName t) =? 0)%nat then
            (Some (Errorf "account %v does not have a default lot"), c)
          else
            (Some (Errorf "account %v does not have a lot named %v"), c)
      | Some ctol =>
          match ctol !! cn with
          | Some l =>
              let l' := mkLot (Lot_Name l) (Lot_CreationDate l)
                          (mkQuantity (Decimal_Add (Quantity_Amount (Lot_Balance l))
                                         (Quantity_Amount (Transfer_Quantity t)))
                             (Quantity_Commodity (Lot_Balance l)))
                          (Lot_ExchangeRate l) in
              (None, store c (Transfer_Account t)
                       (set_LotsOf acct (Transfer_LotName t) (<[cn := l']> ctol)))
          | None =>
              (None, store c (Transfer_Account t)
                       (set_LotsOf acct (Transfer_LotName t)
                          (<[cn := Transfer_Lot t (Context_Date c)]> ctol)))
          end
      end
  end.

(** The account and commodity checks shared by [ParseTransfer] and
    [ParseTransferWithExchange]. *)
Definition transferTarget (c : Context) (an cn : string) : error + loc :=
  match Context_Accounts c !! an with
  | None => inl (Errorf "nonexistent account: %v")
  | Some l =>
      match deref c l with
      | None => inl nilDeref
      | Some acct =>
          if Account_IsClosed acct (Context_Date c) then inl (Errorf "closed account: %v")
          else
            match Context_Commodities c !! cn with
            | None => inl (Errorf "nonexistent commodity: %v")
            | Some _ =>
                if negb (size (Account_Commodities acct) =? 0)%nat
                   && negb (bool_decide (is_Some (Account_Commodities acct !! cn)))
                then inl (Errorf "cannot transfer %v to or from account %v")
                else inr l
            end
      end
  end.

(** Syntax: ACCOUNT AMOUNT COMMODITY -> Transfer *)
Definition ParseTransfer (op : Operands) (c : Context) : (error + Transfer) * Operands :=
  if Length op <? 3 then
    (inl (Errorf "account name, quantity, and commodity name operands required, but too few given"), op)
  else
    let '(values, op) := Pop op 3 in
    match values with
    | [v0; v1; v2] =>
        match v0 with
        | VString an =>
        match v1 with
        | VString q =>
        match v2 with
        | VString cn =>
        match ParseDecimal q with
        | Some amount =>
            match transferTarget c an cn with
            | inl e => (inl e, op)
            | inr l => (inr (mkTransfer l "" false (mkQuantity amount cn) None ""), op)
            end
        | None => (inl (Errorf "illegal decimal value %v: %v"), op)
        end
        | _ => (inl (Errorf "non-string commodity name: %v"), op)
        end
        | _ => (inl (Errorf "non-string quantity: %v"), op)
        end
        | _ => (inl (Errorf "non-string account name: %v"), op)
        end
    | _ => (inl badIndex, op)
    end.

(** Syntax: ACCOUNT AMOUNT COMMODITY UNIT-AMOUNT UNIT-COMMODITY
    TOTAL-AMOUNT TOTAL-COMMODITY -> Transfer *)
Definition ParseTransferWithExchange (op : Operands) (c : Context)
  : (error + Transfer) * Operands :=
  let values := trailingStrings (GetValues op) in
  if (List.length values <? 7)%nat then
    (inl (Errorf "account name, quantity, commodity name, unit price amount, unit price commodity name, total price amount, and total price commodity name operands are required, but too few given"), op)
  else
    let '(values, op) := Pop op 7 in
    match values with
    | [v0; v1; v2; v3; v4; v5; v6] =>
        match v0 with
        | VString an =>
        match v1 with
        | VString q =>
        match v2 with
        | VString cn =>
        match ParseDecimal q with
        | Some amount =>
        match v3 with
        | VString upq =>
        match v4 with
        | VString upcn =>
        match ParseDecimal upq with
        | Some unitAmount =>
        match v5 with
        | VString tpq =>
        match v6 with
        | VString tpcn =>
        match ParseDecimal tpq with
        | Some totalAmount =>
            match transferTarget c an cn with
            | inl e => (inl e, op)
            | inr l =>
                match Context_Commodities c !! upcn with
                | None => (inl (Errorf "nonexistent unit price commodity: %v"), op)
                | Some _ =>
                    match Context_Commodities c !! tpcn with
                    | None => (inl (Errorf "nonexistent total price commodity: %v"), op)
                    | Some _ =>
                        (inr (mkTransfer l "" false (mkQuantity amount cn)
                                (Some (mkExchangeRate (mkQuantity unitAmount upcn)
                                         (mkQuantity totalAmount tpcn))) ""), op)
                    end
                end
            end
        | None => (inl (Errorf "illegal decimal value %v: %v"), op)
        end
        | _ => (inl (Errorf "non-string total price commodity name: %v"), op)
        end
        | _ => (inl (Errorf "non-string total price quantity: %v"), op)
        end
        | None => (inl (Errorf "illegal decimal value %v: %v"), op)
        end
        | _ => (inl (Errorf "non-string unit price commodity name: %v"), op)
        end
        | _ => (inl (Errorf "non-string unit price quantity: %v"), op)
        end
        | None => (inl (Errorf "illegal decimal value %v: %v"), op)
        end
        | _ => (inl (Errorf "non-string commodity name: %v"), op)
        end
        | _ => (inl (Errorf "non-string quantity: %v"), op)
        end
        | _ => (inl (Errorf "non-string account name: %v"), op)
        end
    | _ => (inl badIndex, op)
    end.

(** ** transaction.go *)

Record Transaction : Type := mkTransaction {
  Transaction_Entity : string;
  Transaction_Description : string;
  Transaction_Transfers : list Transfer;
  Transaction_Notes : gmap string string
}.

(** The loop [for i = n - 1; i >= 0; i-- { if !p(values[i]) { i++; break } }]
    and the value of [i] after it. *)
Fixpoint scanDown (p : Value -> bool) (values : list Value) (n : nat) : Z :=
  match n with
  | O => -1
  | S i =>
      match values !! i with
      | Some v => if p v then scanDown p values i else Z.of_nat i + 1
      | None => Z.of_nat i + 1
      end
  end.

Definition getTransferAndNoteOperandStartIndices (op : Operands) : Z * Z :=
  let values := GetValues op in
  let noteStartIndex := scanDown isString values (List.length values) in
  let transferStartIndex :=
    if noteStartIndex - 1 <? 0 then noteStartIndex - 1
    else scanDown isTransfer values (Z.to_nat noteStartIndex) in
  (transferStartIndex, noteStartIndex).

(** The loop of [checkTransfers] over [transfers[1:]]: [q] is the running
    quantity, [q0] the commodity of the first transfer. *)
Fixpoint checkTransfers_loop (q : Quantity) (ts : list Transfer) : error + Quantity :=
  match ts with
  | [] => inr q
  | t :: ts =>
      let tq := GetTransferQuantity t in
      if negb (bool_decide (Quantity_Commodity tq = Quantity_Commodity q)) then
        inl (Errorf "transfer to %v uses commodity %v but transfer to %v uses %v")
      else
        checkTransfers_loop
          (mkQuantity (Decimal_Add (Quantity_Amount q) (Quantity_Amount tq)) (Quantity_Commodity q))
          ts
  end.

Definition checkTransfers (transfers : list Transfer) : option error :=
  match transfers with
  | [] => Some badIndex
  | t0 :: rest =>
      match checkTransfers_loop (GetTransferQuantity t0) rest with
      | inl e => Some e
      | inr q =>
          if negb (Decimal_IsZero (Quantity_Amount q))
          then Some (Errorf "transfers sum to %v, not zero")
          else None
      end
  end.

(** The type assertion to a Transfer pointer over [values[2 : numTransfers+2]]. *)
Fixpoint asTransfers (values : list Value) : option (list Transfer) :=
  match values with
  | [] => Some []
  | VTransfer t :: rest => cons t <$> asTransfers rest
  | _ :: _ => None
  end.

(** Syntax: ENTITY DESCRIPTION Transfer+ (NOTE-NAME NOTE-VALUE)* xact -> *)
Definition ParseTransaction (op : Operands) (c : Context) : (error + Transaction) * Operands :=
  let values := GetValues op in
  let '(transferStartIndex, noteStartIndex) := getTransferAndNoteOperandStartIndices op in
  if transferStartIndex =? 0 then
    (inl (Errorf "entity and description operands are required"), op)
  else if transferStartIndex =? 1 then
    (inl (Errorf "description operand is required"), op)
  else
    let numTransfers := noteStartIndex - transferStartIndex in
    if numTransfers <? 2 then (inl (Errorf "there must be at least two transfers"), op)
    else
      let numNotes := Z.of_nat (List.length values) - noteStartIndex in
      if negb (Z.rem numNotes 2 =? 0) then
        (inl (Errorf "the number of notes must be a multiple of two, got %v"), op)
      else
        let '(values, op) := Pop op (numTransfers + numNotes + 2) in
        match values with
        | [] => (inl badIndex, op)                          (* values[0] *)
        | v0 :: values1 =>
            match v0 with
            | VString entity =>
            match values1 with
            | [] => (inl badIndex, op)                      (* values[1] *)
            | v1 :: rest =>
            match v1 with
            | VString description =>
                match asTransfers (take (Z.to_nat numTransfers) rest) with
                | None => (inl badAssert, op)
                | Some transfers =>
                    match checkTransfers transfers with
                    | Some err => (inl err, op)
                    | None =>
                        (inr (mkTransaction entity description transfers
                                (setPairs (drop (Z.to_nat numTransfers) rest) ∅)), op)
                    end
                end
            | _ => (inl (Errorf "non-string description: %v"), op)
            end
            end
            | _ => (inl (Errorf "non-string entity: %v"), op)
            end
        end.

(** [Transaction.Execute] applies the transfers in order and stops at the
    first error. *)
Fixpoint Execute_loop (ts : list Transfer) (c : Context) : option error * Context :=
  match ts with
  | [] => (None, c)
  | transfer :: ts =>
      match ExecuteTransfer transfer c with
      | (Some err, c) => (Some err, c)
      | (None, c) => Execute_loop ts c
      end
  end.

Definition Execute (t : Transaction) (c : Context) : option error * Context :=
  Execute_loop (Transaction_Transfers t) c.

(** XactFunction effects a series of transfers.
    Syntax: ENTITY DESCRIPTION Transfer+ (NOTE-NAME NOTE-VALUE)* xact -> *)
Definition XactFunction (fn : string) (op : Operands) (c : Context) : Outcome3 :=
  match ParseTransaction op c with
  | (inr t, op) =>
      match Execute t c with
      | (Some err, c) => (Some (Prefixed fn err), op, c)
      | (None, c) => (None, op, c)
      end
  | (inl err, op) => (Some (Prefixed fn err), op, c)
  end.

(** XferFunction pushes a Transfer onto the operand stack.  It does not
    create an exchange rate and it targets the default lot.
    Syntax: ACCOUNT AMOUNT COMMODITY xfer -> Transfer *)
Definition XferFunction (fn : string) (op : Operands) (c : Context) : Outcome3 :=
  match ParseTransfer op c with
  | (inr t, op) => (None, Push op [VTransfer t], c)
  | (inl err, op) => (Some (Prefixed fn err), op, c)
  end.

(** XferExchFunction pushes a Transfer with an exchange rate.
    Syntax: ACCOUNT AMOUNT COMMODITY UNIT-AMOUNT UNIT-COMMODITY
    TOTAL-AMOUNT TOTAL-COMMODITY xfer-exch -> Transfer *)
Definition XferExchFunction (fn : string) (op : Operands) (c : Context) : Outcome3 :=
  match ParseTransferWithExchange op c with
  | (inr t, op) => (None, Push op [VTransfer t], c)
  | (inl err, op) => (Some (Prefixed fn err), op, c)
  end.

Definition GetCoreFunctions : gmap string (Function Context) :=
  list_to_map
    [ ("add-notes", AddNotesFunction);
      ("assert", AssertFunction);
      ("assert-lot", AssertLotFunction);
      ("assert-lots-sum", AssertLotsSumFunction);
      ("close", CloseFunction);
      ("close-lot", CloseLotFunction);
      ("comment", CommentFunction);
      ("commodity", CommodityFunction);
      ("create-lot", CreateLotFunction);
      ("date", DateFunction);
      ("lot", LotFunction);
      ("open", OpenFunction);
      ("set-comment", SetCommentFunction);
      ("tag", TagFunction);
      ("tag-commodity", TagCommodityFunction);
      ("untag", UntagFunction);
      ("xact", XactFunction);
      ("xfer", XferFunction);
      ("xfer-exch", XferExchFunction) ].

(** ** pkg/functions/parser.go: a ledger run *)

(** [functions.NewParser] followed by [AddCoreFunctions]. *)
Definition createParser : Parser Context :=
  set_Functions (NewParser NewContext) GetCoreFunctions.

(** [functions.Parser.Parse]: run the stack machine over the input, then the
    final checks.  [None] means the fuel of the loop ran out. *)
Definition functions_Parse (lex : Lexer) (p : Parser Context)
  : option (option error * Parser Context) :=
  match Parse lex p with
  | None => None
  | Some (Some err, _, p) => Some (Some (Prefixed "<date>" err), p)
  | Some (None, _, p) => Some (Finish p, p)
  end.

(** Run a ledger given as text. *)
Definition run (program : string) : option (option error * Parser Context) :=
  functions_Parse (NewLexer (runes program)) createParser.

(** The shape of what the lexer returns: an [Error] token carries an error,
    every other token is a string or a parenthesis and carries none. *)
Definition lexerToken (tok : TokenType * string * option error) : Prop :=
  let '(ty, _, e) := tok in
  (ty = TokError /\ e <> None) \/ (ty <> TokError /\ ty <> TokNone /\ e = None).

(** ** Notions used to state the properties of the stack machine *)

(** A lexed token with the line number the lexer is at after it. *)
Definition LexedToken : Type := N * (TokenType * string * option error).

(** The nesting depth after a token sequence that starts at depth [d]:
    an open parenthesis goes one level down, a close parenthesis one level
    up; [None] when a close parenthesis has no open one to match.  The
    sequence ends at its first [Error] token. *)
Fixpoint scopeDepth (ts : list LexedToken) (d : nat) : option nat :=
  match ts with
  | [] => Some d
  | (_, (TokOpenParen, _, _)) :: ts => scopeDepth ts (S d)
  | (_, (TokCloseParen, _, _)) :: ts =>
      match d with
      | O => None
      | S d => scopeDepth ts d
      end
  | (_, (TokError, _, _)) :: _ => Some d
  | _ :: ts => scopeDepth ts d
  end.

(** A string or parenthesis token as the lexer returns it. *)
Definition plainToken (t : LexedToken) : Prop :=
  let '(_, (ty, _, e)) := t in
  ty <> TokError /\ ty <> TokNone /\ e = None.

(** The parser state an iteration of the loop ends in. *)
Definition outcome_parser {C} (o : Outcome C) : Parser C :=
  match o with
  | Continue p => p
  | Return _ p => p
  end.

(** All the tokens of an input text. *)
Definition tokens (input : string) : list LexedToken :=
  let lex := NewLexer (runes input) in tokenize (S (lexMeasure lex)) lex.

(** Replace the function table in the parser an iteration ends in. *)
Definition Outcome_set_Functions {C} (o : Outcome C) (F : gmap string (Function C)) : Outcome C :=
  match o with
  | Continue p => Continue (set_Functions p F)
  | Return r p => Return r (set_Functions p F)
  end.

(** ** Notions used to state the properties of the ledger functions *)

(** Every outcome of [f] relates the context before and after by [R]. *)
Definition keeps (R : Context -> Context -> Prop) (f : Function Context) : Prop :=
  forall fn op c r op' c', f fn op c = (r, op', c') -> R c c'.

(** The clock is the same. *)
Definition sameDate (c c' : Context) : Prop := Context_Date c' = Context_Date c.

(** Every lot of the account other than the default one has a zero balance
    in each of its commodities. *)
Definition nonDefaultLotsZero (acct : Account) : Prop :=
  forall ln ctol cn lot,
    ln <> "" -> Account_Lots acct !! ln = Some ctol -> ctol !! cn = Some lot ->
    Decimal_IsZero (Quantity_Amount (Lot_Balance lot)) = true.

(** The account a name stands for. *)
Definition accountNamed (c : Context) (an : string) : option Account :=
  Context_Accounts c !! an ≫= deref c.

(** The balance of commodity [cn] in lot [ln] of an account, when the account
    has that lot and the lot that commodity. *)
Definition lotBalanceOf (acct : Account) (ln cn : string) : option Decimal :=
  Account_Lots acct !! ln ≫= fun ctol =>
  (ctol : gmap string Lot) !! cn ≫= fun lot => Some (Quantity_Amount (Lot_Balance lot)).

Definition lotBalance (c : Context) (an ln cn : string) : option Decimal :=
  accountNamed c an ≫= fun acct => lotBalanceOf acct ln cn.

(** What a run leaves: the error, and the final context. *)
Definition runContext (program : string) : option (option error * Context) :=
  (fun '(r, p) => (r, Parser_Context p)) <$> run program.

(** ** Small ledgers used as examples *)

Definition day1 : Date := mkDate 2000 1 1.

Definition usd (n : Z) : Quantity := mkQuantity (mkDecimal n 0) "USD".

(** An open account with 5 USD in its default lot. *)
Definition acctA : Account :=
  mkAccount "Assets:A" day1 Date_zero ∅ {[ "" := {[ "USD" := mkLot "" day1 (usd 5) None ]} ]} ∅ ∅.

(** An open account with an empty default lot. *)
Definition acctEquity : Account := NewAccount "Equity" day1.

(** A ledger with these two accounts and the commodity USD. *)
Definition ledgerA : Context :=
  mkContext day1 {[ "Assets:A" := 0%nat; "Equity" := 1%nat ]}
    {[ "USD" := NewCommodity "USD" "Dollar" day1 ]} ∅ {[ 0%nat := acctA; 1%nat := acctEquity ]}.

(** Transfers over [ledgerA]: -5 USD to the default lot of [Equity], and
    5 USD to a lot [nolot] of [Assets:A], which does not exist and which the
    transfer is not flagged to create. *)
Definition xferEquity : Transfer := mkTransfer 1%nat "" false (usd (-5)) None "".
Definition xferNoLot : Transfer := mkTransfer 0%nat "nolot" false (usd 5) None "".

(** The sum of a list of rationals. *)
Definition Qsum (l : list Q) : Q := foldr Qplus 0%Q l.

(** The exchange-aware quantity of a transfer: the number and the commodity. *)
Definition transferValue (t : Transfer) : Q := dval (Quantity_Amount (GetTransferQuantity t)).
Definition transferCommodity (t : Transfer) : CommodityRef :=
  Quantity_Commodity (GetTransferQuantity t).

(** The double-entry condition: the exchange-aware quantities are all in one
    commodity and sum to exactly zero. *)
Definition balancedTransfers (ts : list Transfer) : Prop :=
  (exists C, forall t, t ∈ ts -> transferCommodity t = C)
  /\ (Qsum (map transferValue ts) == 0)%Q.

(** The balance of commodity [cn] in lot [ln] of the account at [l], as a
    number; zero when there is no such lot or commodity. *)
Definition bal (c : Context) (l : loc) (ln cn : string) : Q :=
  match deref c l with
  | Some acct =>
      match lotBalanceOf acct ln cn with
      | Some d => dval d
      | None => 0%Q
      end
  | None => 0%Q
  end.

(** What a transfer adds to that balance: its signed amount if it targets
    that account, lot and commodity, nothing otherwise. *)
Definition amountTo (l : loc) (ln cn : string) (t : Transfer) : Q :=
  if bool_decide (Transfer_Account t = l /\ Transfer_LotName t = ln
                  /\ Quantity_Commodity (Transfer_Quantity t) = cn)
  then dval (Quantity_Amount (Transfer_Quantity t))
  else 0%Q.

(** Each transfer can be applied: its account has the target lot, or the
    transfer is flagged to create it. *)
Definition targetsReady (c : Context) (ts : list Transfer) : Prop :=
  forall t, t ∈ ts ->
    exists acct, deref c (Transfer_Account t) = Some acct
                 /\ (is_Some (Account_Lots acct !! Transfer_LotName t)
                     \/ Transfer_CreateLot t = true).

(** The operands of [xact] above the values [below]: entity, description,
    the transfers, the notes. *)
Definition xactOperands (below : list Value) (idx : nat) (entity description : string)
    (ts : list Transfer) (notes : list string) : Operands :=
  mkOperands
    (below ++ VString entity :: VString description
           :: (map VTransfer ts ++ map VString notes))%list
    idx.

(** Accounts stay where they are and keep their lots. *)
Definition lotsGrow (c c' : Context) : Prop :=
  forall l acct, deref c l = Some acct ->
    exists acct', deref c' l = Some acct'
                  /\ forall ln, is_Some (Account_Lots acct !! ln) ->
                                is_Some (Account_Lots acct' !! ln).

(** 5 USD to the default lot of [Assets:A]. *)
Definition xferA : Transfer := mkTransfer 0%nat "" false (usd 5) None "".

(** No account loses its default lot, and no account comes into being
    without one: an account that lacks the default lot afterwards lacked it
    before. *)
Definition keepsDefaultLots (c c' : Context) : Prop :=
  forall l a',
    deref c' l = Some a' -> Account_Lots a' !! "" = None ->
    exists a, deref c l = Some a /\ Account_Lots a !! "" = None.

(** One call of a registered function, whatever its operands and outcome,
    other than [close-lot] with the empty lot name on top of the stack. *)
Definition stepKeepingDefault (c c' : Context) : Prop :=
  exists name f fn op r op',
    GetCoreFunctions !! name = Some f /\ f fn op c = (r, op', c')
    /\ (name = "close-lot" -> last (Operands_stack op) <> Some (VString "")).

(** Every account has a default lot. *)
Definition allHaveDefaultLot (c : Context) : Prop :=
  forall l a, deref c l = Some a -> is_Some (Account_Lots a !! "").

(** One call of a registered function, whatever its operands and outcome. *)
Definition ledgerStep (c c' : Context) : Prop :=
  exists name f fn op r op',
    GetCoreFunctions !! name = Some f /\ f fn op c = (r, op', c').

(** The contexts the registered functions can produce from the new one. *)
Definition reachable (c : Context) : Prop := rtc ledgerStep NewContext c.

(** The tag index is well formed: no entry is empty, no entity is listed
    twice under a tag, and an account listed under a tag carries it. *)
Definition tagsWF (c : Context) : Prop :=
  forall tag tts,
    Context_Tags c !! tag = Some tts ->
    tts <> [] /\ NoDup tts
    /\ forall l, TargetAccount l ∈ tts ->
                 exists a, deref c l = Some a /\ Account_Tags a !! tag = Some true.

(** The tag index is the same, and so are the tags of every account. *)
Definition sameTags (c c' : Context) : Prop :=
  Context_Tags c' = Context_Tags c
  /\ forall l a, deref c l = Some a ->
                 exists a', deref c' l = Some a' /\ Account_Tags a' = Account_Tags a.

(** The operands of [tag], [untag] and [tag-commodity] in a view of their
    own: the name of the entity, then the tags. *)
Definition tagOperands (stack : list Value) (name : string) (tags : list string) : Operands :=
  mkOperands (stack ++ VString name :: map VString tags)%list (List.length stack).

(** The entry of a tag after [target] has been indexed under it. *)
Definition indexed (target : TagTarget) (old : option (list TagTarget)) : list TagTarget :=
  match old with
  | Some tts => if existsb (fun tagged => bool_decide (tagged = target)) tts
                then tts else (tts ++ [target])%list
  | None => [target]
  end.

(** [target] is listed under [tag] in the tag index. *)
Definition tagged (target : TagTarget) (c : Context) (tag : string) : Prop :=
  exists tts, Context_Tags c !! tag = Some tts /\ target ∈ tts.

(** The account at [l] has [tag] in its tag set. *)
Definition accountCarries (l : nat) (c : Context) (tag : string) : Prop :=
  exists a, deref c l = Some a /\ Account_Tags a !! tag = Some true.

(** The commodity [cn] has [tag] in its tag set. *)
Definition commodityCarries (cn : string) (c : Context) (tag : string) : Prop :=
  exists com, Context_Commodities c !! cn = Some com /\ Commodity_Tags com !! tag = Some true.

(** The number of entries for [target] under [tag] in the tag index. *)
Definition indexEntries (target : TagTarget) (c : Context) (tag : string) : nat :=
  count_occ TagTarget_eq_dec (default [] (Context_Tags c !! tag)) target.

(** The ledger after [USD Dollar commodity] and [Assets:A open], run from
    the new context. *)
Definition ledgerB : Context :=
  mkContext Date_zero {[ "Assets:A" := 0%nat ]}
    {[ "USD" := NewCommodity "USD" "Dollar" Date_zero ]} ∅
    {[ 0%nat := NewAccount "Assets:A" Date_zero ]}.

(** The silencing counter never exceeds the number of open scopes. *)
Definition silencedInScope {C} (p : Parser C) : Prop :=
  (Parser_silenced p <= List.length (Parser_markerStack p))%nat.

(** ** Notions used to state further properties of the lexer *)

(** The number of newline runes in a run of input. *)
Fixpoint countNewlines (rs : list ascii) : N :=
  match rs with
  | [] => 0%N
  | r :: rs => ((if Ascii.eqb r "010"%char then 1 else 0) + countNewlines rs)%N
  end.

(** A lexer between two tokens: no escape pending, no string begun, no
    parenthesis held back. *)
Definition idle (l : Lexer) : Prop :=
  Lexer_isEscaping l = false /\ Lexer_isInString l = false
  /\ Lexer_isInQuotedString l = false /\ Lexer_token l = ""
  /\ Lexer_openParenSet l = false /\ Lexer_closeParenSet l = false.

(** A rune that stands for itself inside an unquoted string. *)
Definition plainRune (r : ascii) : bool :=
  negb (IsSpace r) && negb (Ascii.eqb r dquote) && negb (Ascii.eqb r "("%char)
  && negb (Ascii.eqb r ")"%char) && negb (Ascii.eqb r "\"%char).

(** A rune that ends an unquoted string. *)
Definition delimiter (r : ascii) : bool :=
  IsSpace r || Ascii.eqb r dquote || Ascii.eqb r "("%char || Ascii.eqb r ")"%char.

(** A text written as an unquoted string: every rune that does not stand for
    itself is preceded by a backslash. *)
Definition bareRune (r : ascii) : list ascii :=
  if plainRune r then [r] else ["\"%char; r].

Definition bare (s : string) : list ascii := List.concat (map bareRune (runes s)).

(** A text written as a quoted string: between double quotes, with every
    double quote and every backslash of the text preceded by a backslash. *)
Definition quotedRune (r : ascii) : list ascii :=
  if Ascii.eqb r dquote || Ascii.eqb r "\"%char then ["\"%char; r] else [r].

Definition quoted (s : string) : list ascii :=
  (dquote :: List.concat (map quotedRune (runes s)) ++ [dquote])%list.

(** The lexer states a run of [GetNextToken] calls goes through. *)
Definition lexStep (l l' : Lexer) : Prop := exists tok, GetNextToken l = (tok, l').
(** While an unquoted string is being read, the token built so far is not
    empty. *)
Definition tokenBegun (l : Lexer) : Prop :=
  Lexer_isInString l = true -> Lexer_isInQuotedString l = false -> Lexer_token l <> "".

(** ** Notions used to state further properties of the stack machine *)

(** A view that starts inside the stack it points into. *)
Definition viewOK (op : Operands) : Prop :=
  (Operands_stackIndex op <= List.length (Operands_stack op))%nat.

(** What a function called with the view [op] leaves of it in [op']: the
    same starting point, still inside the stack, and the stack below the
    starting point as it was. *)
Definition scopeKept (op op' : Operands) : Prop :=
  Operands_stackIndex op' = Operands_stackIndex op
  /\ viewOK op'
  /\ take (Operands_stackIndex op) (Operands_stack op')
     = take (Operands_stackIndex op) (Operands_stack op).

(** A function that changes the operand stack only above the start of the
    view it is given. *)
Definition respectsScope {C} (f : Function C) : Prop :=
  forall fn op c r op' c', viewOK op -> f fn op c = (r, op', c') -> scopeKept op op'.

(** The markers [ms], from the outermost open parenthesis to the innermost,
    lie between [lo] and [hi] and do not decrease. *)
Fixpoint within (lo : nat) (ms : list nat) (hi : nat) : Prop :=
  match ms with
  | [] => (lo <= hi)%nat
  | m :: ms => (lo <= m)%nat /\ within m ms hi
  end.

(** The marker stack of a parser points into its operand stack. *)
Definition markersOK {C} (p : Parser C) : Prop :=
  within 0 (Parser_markerStack p) (List.length (Parser_operandStack p)).

(** The panic of [getOperands]. *)
Definition markerPanic : error :=
  Panic "top of marker stack extends beyond length of operand stack".

(** ** Notions used to state further properties of dates *)

(** The number of days of month [m] in year [y]. *)
Definition daysIn (y m : Z) : Z :=
  if m =? 2 then (if isLeap y then 29 else 28)
  else if (m =? 4) || (m =? 6) || (m =? 9) || (m =? 11) then 30
  else 31.

(** A date of the calendar: a month from 1 to 12 and a day of that month. *)
Definition validDate (d : Date) : Prop :=
  1 <= Date_Month d <= 12 /\ 1 <= Date_Day d <= daysIn (Date_Year d) (Date_Month d).

(** The order of the calendar: by year, then by month, then by day. *)
Definition dateLt (d u : Date) : Prop :=
  Date_Year d < Date_Year u
  \/ (Date_Year d = Date_Year u
      /\ (Date_Month d < Date_Month u
          \/ (Date_Month d = Date_Month u /\ Date_Day d < Date_Day u))).

(** The days before the first of January of year [y]. *)
Definition yearDays (y : Z) : Z :=
  365 * (y - 1) + (y - 1) / 4 - (y - 1) / 100 + (y - 1) / 400.

(** The day of the year, counted from 0. *)
Definition dayOfYear (d : Date) : Z :=
  daysBefore (Date_Month d - 1)
  + (if isLeap (Date_Year d) && (2 <=? Date_Month d - 1) then 1 else 0)
  + (Date_Day d - 1).

(** ** Notions used to state further properties of accounts *)

(** [Account.GetTags]: the tags of the account, in the order the map yields
    them. *)
Definition Account_GetTags (a : Account) : list string :=
  (map_to_list (Account_Tags a)).*1.

(** The functions that only read the context. *)
Definition readOnlyFunctions : list string :=
  ["assert"; "assert-lot"; "assert-lots-sum"; "comment"; "create-lot"; "lot";
   "set-comment"; "xfer"; "xfer-exch"].

(** ** Notions used to state further properties of the assertions *)

(** The balance a lot map holds in commodity [cn], as a rational; zero when
    it has no entry for the commodity. *)
Definition heldIn (lmap : gmap string Lot) (cn : string) : Q :=
  match lmap !! cn with
  | Some l => dval (Quantity_Amount (Lot_Balance l))
  | None => 0%Q
  end.

(** The total an account holds in commodity [cn] over all its lots. *)
Definition lotsTotal (acct : Account) (cn : string) : Q :=
  Qsum (map (fun kv : string * gmap string Lot => heldIn kv.2 cn)
          (map_to_list (Account_Lots acct))).

(** The loop of [assert-lots-sum] over the lots visited in the order
    [lots]. *)
Definition lotsSumOver (lots : list (string * gmap string Lot)) (cn : string) : Decimal :=
  foldl (fun sum '(_, lmap) =>
           match (lmap : gmap string Lot) !! cn with
           | Some l => Decimal_Add sum (Quantity_Amount (Lot_Balance l))
           | None => sum
           end)
        Decimal_Zero lots.

(** ** Notions used to state further properties of [open] *)

(** The names [open] accepts: under one of the five roots, or [Equity]
    itself. *)
Definition accountNameOK (an : string) : bool :=
  HasPrefix an "Assets:" || HasPrefix an "Liabilities:" || HasPrefix an "Income:"
  || HasPrefix an "Expenses:" || HasPrefix an "Equity:" || bool_decide (an = "Equity").

(** The name is taken: it is registered for an account that is open on the
    clock. *)
Definition nameTaken (c : Context) (an : string) : Prop :=
  exists l acct, Context_Accounts c !! an = Some l /\ deref c l = Some acct
                 /\ Account_IsClosed acct (Context_Date c) = false.

(** Every registered account name points to an account object. *)
Definition accountsAllocated (c : Context) : Prop :=
  forall an l, Context_Accounts c !! an = Some l -> is_Some (deref c l).

(** ** How the registered functions change the context *)

(** The changes a registered function makes to the context, one after the
    other: it rewrites an account object in place, keeping its name and its
    creation date; it sets the clock; it rewrites the tag index; it enters a
    commodity under a name that is free; it adds a tag to a commodity; it
    registers a new account object under a name. *)
Inductive ledgerChange : Context -> Context -> Prop :=
| change_none c : ledgerChange c c
| change_account c l a a' :
    deref c l = Some a ->
    Account_Name a' = Account_Name a ->
    Account_CreationDate a' = Account_CreationDate a ->
    ledgerChange c (store c l a')
| change_date c d : ledgerChange c (set_Date c d)
| change_index c m : ledgerChange c (set_Tags_ctx c m)
| change_new_commodity c cn d :
    Context_Commodities c !! cn = None ->
    ledgerChange c
      (set_Commodities_ctx c
         (<[cn := NewCommodity cn d (Context_Date c)]> (Context_Commodities c)))
| change_commodity_tag c cn com tag :
    Context_Commodities c !! cn = Some com ->
    ledgerChange c
      (set_Commodities_ctx c (<[cn := Commodity_AddTag com tag]> (Context_Commodities c)))
| change_new_account c an a :
    Account_Name a = an ->
    ledgerChange c
      (set_Accounts (store c (fresh (dom (Context_objs c))) a)
         (<[an := fresh (dom (Context_objs c))]> (Context_Accounts c)))
| change_trans c1 c2 c3 : ledgerChange c1 c2 -> ledgerChange c2 c3 -> ledgerChange c1 c3.

(** Nothing is lost between [c] and [c']: every commodity is still there
    under its name, with its description and creation date; every account
    name is still registered; every account object is still there, with its
    name and creation date. *)
Definition lasting (c c' : Context) : Prop :=
  (forall cn com,
      Context_Commodities c !! cn = Some com ->
      exists com', Context_Commodities c' !! cn = Some com'
                   /\ Commodity_Name com' = Commodity_Name com
                   /\ Commodity_Description com' = Commodity_Description com
                   /\ Commodity_CreationDate com' = Commodity_CreationDate com)
  /\ (forall an, is_Some (Context_Accounts c !! an) -> is_Some (Context_Accounts c' !! an))
  /\ (forall l a,
        deref c l = Some a ->
        exists a', deref c' l = Some a' /\ Account_Name a' = Account_Name a
                   /\ Account_CreationDate a' = Account_CreationDate a).

(** Names and objects agree: a registered account name points to an account
    object of that name, a registered commodity name to a commodity of that
    name. *)
Definition namesOK (c : Context) : Prop :=
  (forall an l, Context_Accounts c !! an = Some l ->
                exists a, deref c l = Some a /\ Account_Name a = an)
  /\ (forall cn com, Context_Commodities c !! cn = Some com -> Commodity_Name com = cn).

(** ** Notions used to state further properties of transfers and lots *)

(** What [xfer] and [xfer-exch] have checked of a transfer they build in
    [c]: its account is registered and open on the clock, its commodity
    exists and is one the account accepts (an account opened without
    commodities accepts all), and it targets the default lot, without
    creating it and without a comment. *)
Definition transferChecked (c : Context) (t : Transfer) : Prop :=
  exists an acct,
    Context_Accounts c !! an = Some (Transfer_Account t)
    /\ deref c (Transfer_Account t) = Some acct
    /\ Account_IsClosed acct (Context_Date c) = false
    /\ is_Some (Context_Commodities c !! Quantity_Commodity (Transfer_Quantity t))
    /\ (Account_Commodities acct = ∅
        \/ is_Some (Account_Commodities acct !! Quantity_Commodity (Transfer_Quantity t)))
    /\ Transfer_LotName t = "" /\ Transfer_CreateLot t = false /\ Transfer_Comment t = "".
(** Note names and values as [add-notes] takes them: name, value, name,
    value, ... *)
Definition flattenPairs (kvs : list (string * string)) : list string :=
  List.concat (map (fun kv : string * string => [kv.1; kv.2]) kvs).

(** ** Notions used to state the conservation of commodities *)

(** What the lots [keys] (account and lot name) hold together in commodity
    [cn]. *)
Definition heldOver (c : Context) (keys : list (loc * string)) (cn : string) : Q :=
  Qsum (map (fun k : loc * string => bal c k.1 k.2 cn) keys).

(** ** cmd: the stop date of the report commands

    [runAccounts] (cmd/cmd/accounts.go), [runTags] (cmd/cmd/root.go) and
    [runLots] register the core functions and, when a stop date is given,
    replace [date] by
    [func(fn, op, ctx) error {
       if err := functions.DateFunction(fn, op, ctx); err != nil { return err }
       else if ctx.Date.After(date) { panic(done) }
       return nil }];
    [runRegister] does the same with its end date.  The [panic(done)], which
    the command recovers from to print its report, is the outcome
    [Some done]. *)
Definition done : error := Panic "done".

Definition stopAfter (date : Date) : Function Context := fun fn op c =>
  let '(r, op', c') := DateFunction fn op c in
  match r with
  | Some err => (Some err, op', c')
  | None =>
      if Date_After (Context_Date c') date then (Some done, op', c')
      else (None, op', c')
  end.

(** [p.AddCoreFunctions(); if !date.IsZero() { p.Functions["date"] = ... }] *)
Definition reportFunctions (date : Date) : gmap string (Function Context) :=
  if negb (Date_IsZero date) then <["date" := stopAfter date]> GetCoreFunctions
  else GetCoreFunctions.

(** One call, returning nil, of a function of a report command. *)
Definition reportStep (date : Date) (c c' : Context) : Prop :=
  exists name f fn op op',
    reportFunctions date !! name = Some f /\ f fn op c = (None, op', c').

(** * Properties *)

(** ** Sanity checks of the library models *)

Example lex_two_strings :
  let l0 := NewLexer (runes "token1 token2") in
  let '(t1, l1) := GetNextToken l0 in
  let '(t2, l2) := GetNextToken l1 in
  let '(t3, l3) := GetNextToken l2 in
  (t1, t2, t3) = ((TokString, "token1", None), (TokString, "token2", None),
                  (TokError, "", Some EOF)).
Proof. vm_compute. reflexivity. Qed.

Example ParseDecimal_examples :
  (ParseDecimal "1,234.50", ParseDecimal "-5", ParseDecimal "12a", ParseDecimal "1e3")
  = (Some (mkDecimal 123450 (-2)), Some (mkDecimal (-5) 0), None, Some (mkDecimal 1 3)).
Proof. vm_compute. reflexivity. Qed.

Example Date_ToTime_examples :
  (Date_ToTime (mkDate 1 1 1), Date_ToTime (mkDate 2000 3 1) - Date_ToTime (mkDate 2000 2 28),
   Date_ToTime (mkDate 2000 13 1) - Date_ToTime (mkDate 2001 1 1),
   Date_After (mkDate 2000 1 1) (mkDate 1999 12 31))
  = (0, 2, 0, true).
Proof. vm_compute. reflexivity. Qed.

(** ** The lexer *)

Lemma addRune_flags l r tok l' :
  addRuneAndGetToken l r = ((TokNone, tok), l') ->
  Lexer_openParenSet l' = Lexer_openParenSet l
  /\ Lexer_closeParenSet l' = Lexer_closeParenSet l.
Proof.
  unfold addRuneAndGetToken.
  repeat case_match; intros [= <-]; simplify_eq; auto.
Qed.

Lemma addRune_weight l r ty tok l' :
  addRuneAndGetToken l r = ((ty, tok), l') ->
  Lexer_openParenSet l = false -> Lexer_closeParenSet l = false ->
  ((if Lexer_openParenSet l' then 1 else 0)
   + (if Lexer_closeParenSet l' then 1 else 0)
   + (if Lexer_isInString l' then 1 else 0) <= 2)%nat.
Proof.
  unfold addRuneAndGetToken.
  intros H Ho Hc.
  repeat case_match; simplify_eq; cbn in *; rewrite ?Ho, ?Hc; repeat case_match;
    solve [lia | congruence].
Qed.

Lemma readRunes_measure rs : forall l tok l',
  Lexer_openParenSet l = false -> Lexer_closeParenSet l = false ->
  readRunes rs l = (tok, l') ->
  fst (fst tok) <> TokError ->
  (lexMeasure l' < 3 * List.length rs + (if Lexer_isInString l then 1 else 0))%nat.
Proof.
  induction rs as [|r rs IH]; intros l tok l' Ho Hc H Hne.
  - cbn in H. unfold getFinalToken in H. cbn in H.
    repeat case_match; simplify_eq; cbn in *; try congruence.
    rewrite Ho, Hc. lia.
  - cbn [readRunes] in H.
    destruct (addRuneAndGetToken l r) as [[ty tk] l1] eqn:Ha.
    pose proof (addRune_weight _ _ _ _ _ Ha Ho Hc) as Hw.
    destruct (bool_decide (ty = TokOpenParen) || bool_decide (ty = TokCloseParen)) eqn:Hp.
    + simplify_eq. unfold lexMeasure; cbn. cbn [List.length]. lia.
    + destruct (negb (bool_decide (ty = TokNone))) eqn:Hn.
      * simplify_eq. unfold lexMeasure; cbn. cbn [List.length]. lia.
      * apply negb_false_iff, bool_decide_eq_true in Hn. subst ty.
        destruct (addRune_flags _ _ _ _ Ha) as [Ho1 Hc1].
        specialize (IH l1 tok l' ltac:(congruence) ltac:(congruence) H Hne).
        cbn [List.length]. destruct (Lexer_isInString l1), (Lexer_isInString l); lia.
Qed.

(** Every token other than the final [Error] brings the lexer nearer to the
    end of its input. *)
Lemma GetNextToken_measure l tok l' :
  GetNextToken l = (tok, l') ->
  fst (fst tok) <> TokError ->
  (lexMeasure l' < lexMeasure l)%nat.
Proof.
  unfold GetNextToken. intros H Hne.
  destruct (Lexer_openParenSet l) eqn:Ho.
  - simplify_eq. unfold lexMeasure; cbn. rewrite Ho. lia.
  - destruct (Lexer_closeParenSet l) eqn:Hc.
    + simplify_eq. unfold lexMeasure; cbn. rewrite Ho, Hc. lia.
    + pose proof (readRunes_measure _ _ _ _ Ho Hc H Hne) as Hm.
      unfold lexMeasure at 2. rewrite Ho, Hc. lia.
Qed.

Lemma readRunes_shape rs : forall l tok l', readRunes rs l = (tok, l') -> lexerToken tok.
Proof.
  induction rs as [|r rs IH]; intros l tok l' H.
  - cbn in H. unfold getFinalToken in H.
    repeat case_match; simplify_eq; cbn; (left; split; congruence) || (right; repeat split; congruence).
  - cbn [readRunes] in H.
    destruct (addRuneAndGetToken l r) as [[ty tk] l1] eqn:Ha.
    assert (ty <> TokError) as Hte.
    { unfold addRuneAndGetToken in Ha. repeat case_match; simplify_eq; congruence. }
    destruct (bool_decide (ty = TokOpenParen) || bool_decide (ty = TokCloseParen)) eqn:Hp.
    + simplify_eq. right. repeat split; auto.
      intros ->. cbn in Hp. discriminate.
    + destruct (negb (bool_decide (ty = TokNone))) eqn:Hn.
      * simplify_eq. right. repeat split; auto.
        apply negb_true_iff, bool_decide_eq_false in Hn. exact Hn.
      * eapply IH; eauto.
Qed.

Lemma GetNextToken_shape l tok l' : GetNextToken l = (tok, l') -> lexerToken tok.
Proof.
  unfold GetNextToken. intros H.
  repeat case_match; simplify_eq; try (right; repeat split; congruence).
  eapply readRunes_shape; eauto.
Qed.

(** C8. At end of input (nothing left to read, no parenthesis buffered):
    - while a quoted string is open the lexer returns the fatal error
      "unfinished quoted string", whether or not an escape is pending too;
    - while an escape is pending outside a quoted string it returns the fatal
      error "unfinished escape";
    - the two errors are different from one another and from end-of-stream;
    - while an unquoted string is open it returns that string as a final
      [String] token with no error, and the call after that returns
      end-of-stream;
    - with nothing pending it returns end-of-stream at once. *)
Theorem C8_lexer_end_of_input :
  (forall line esc inS tok,
      let l := mkLexer [] line esc inS true tok false false in
      getFinalToken l = ((TokError, "", Some inStringAtEofError), l)
      /\ GetNextToken l = ((TokError, "", Some inStringAtEofError), l))
  /\ (forall line inS tok,
      let l := mkLexer [] line true inS false tok false false in
      getFinalToken l = ((TokError, "", Some escapingAtEofError), l)
      /\ GetNextToken l = ((TokError, "", Some escapingAtEofError), l))
  /\ (escapingAtEofError <> inStringAtEofError
      /\ escapingAtEofError <> EOF /\ inStringAtEofError <> EOF)
  /\ (forall line tok,
      let l := mkLexer [] line false true false tok false false in
      let l' := mkLexer [] line false false false tok false false in
      GetNextToken l = ((TokString, tok, None), l')
      /\ GetNextToken l' = ((TokError, "", Some EOF), l'))
  /\ (forall line tok,
      let l := mkLexer [] line false false false tok false false in
      GetNextToken l = ((TokError, "", Some EOF), l)).
Proof.
  repeat split; try discriminate; try reflexivity.
Qed.

(** The same on inputs: the lexer reads the text to its end. *)
Example lexer_end_of_input_examples :
  let next s := fst (GetNextToken (NewLexer (runes s))) in
  let after s := fst (GetNextToken (snd (GetNextToken (NewLexer (runes s))))) in
  next "\" = (TokError, "", Some escapingAtEofError)
  /\ next (String dquote "abc") = (TokError, "", Some inStringAtEofError)
  /\ next (String dquote "abc\") = (TokError, "", Some inStringAtEofError)
  /\ next "abc" = (TokString, "abc", None)
  /\ after "abc" = (TokError, "", Some EOF)
  /\ next "  " = (TokError, "", Some EOF).
Proof. vm_compute. repeat split; reflexivity. Qed.

(** ** The stack machine *)

Section StackMachineFacts.

Variable C : Type.
Implicit Types (p : Parser C) (ts : list LexedToken).

Lemma afterSwitch_None p : afterSwitch None p = Continue p.
Proof. unfold afterSwitch. by rewrite bool_decide_eq_false_2. Qed.

Lemma onToken_Error line s e p :
  exists r, onToken line (TokError, s, e) p = Return r p.
Proof. cbn. case_bool_decide; eauto. Qed.

(** The loop of [Parse] returns: the fuel [Parse] gives it is enough. *)
Lemma Parse_loop_total fuel : forall lex p,
  (lexMeasure lex < fuel)%nat -> is_Some (Parse_loop fuel lex p).
Proof.
  induction fuel as [|fuel IH]; intros lex p Hm; [lia|].
  cbn [Parse_loop].
  destruct (GetNextToken lex) as [[[ty s] e] lex'] eqn:Hg.
  destruct (onToken (LineNumber lex') (ty, s, e) p) as [p'|r p'] eqn:Ho; [|eauto].
  apply IH.
  assert (ty <> TokError) as Hne.
  { intros ->. destruct (onToken_Error (LineNumber lex') s e p) as [r Hr]. congruence. }
  pose proof (GetNextToken_measure _ _ _ Hg Hne). lia.
Qed.

Lemma Parse_total lex p : is_Some (Parse lex p).
Proof. apply Parse_loop_total. lia. Qed.

(** [Parse] is the loop over the token sequence of the lexer. *)
Lemma Parse_loop_tokens fuel : forall lex p,
  (lexMeasure lex < fuel)%nat ->
  exists r lex' p',
    ParseTokens (tokenize fuel lex) p = Return r p'
    /\ Parse_loop fuel lex p = Some (r, lex', p').
Proof.
  induction fuel as [|fuel IH]; intros lex p Hm; [lia|].
  cbn [Parse_loop tokenize].
  destruct (GetNextToken lex) as [[[ty s] e] lex'] eqn:Hg.
  cbn [ParseTokens fst].
  destruct (onToken (LineNumber lex') (ty, s, e) p) as [p'|r p'] eqn:Ho; [|eauto].
  assert (ty <> TokError) as Hne.
  { intros ->. destruct (onToken_Error (LineNumber lex') s e p) as [r Hr]. congruence. }
  rewrite bool_decide_eq_false_2 by exact Hne.
  apply IH. pose proof (GetNextToken_measure _ _ _ Hg Hne). lia.
Qed.

Lemma tokenize_shape fuel : forall lex,
  Forall (fun t : LexedToken => lexerToken (snd t)) (tokenize fuel lex).
Proof.
  induction fuel as [|fuel IH]; intros lex; cbn [tokenize]; [constructor|].
  destruct (GetNextToken lex) as [tok lex'] eqn:Hg.
  constructor; [cbn; eapply GetNextToken_shape; eauto|].
  case_bool_decide; [constructor | apply IH].
Qed.

(** *** The marker stack follows the parentheses *)

Lemma onCloseParen_markers p r p' :
  onCloseParen p = (r, p') ->
  (r = Some (Errorf "closing parenthesis does not have a matching open parenthesis")
   /\ Parser_markerStack p = [] /\ p' = p)
  \/ (S (List.length (Parser_markerStack p')) = List.length (Parser_markerStack p)
      /\ Parser_operandStack p' = Parser_operandStack p
      /\ Parser_Context p' = Parser_Context p
      /\ Parser_Functions p' = Parser_Functions p).
Proof.
  unfold onCloseParen. intros H.
  destruct (last (Parser_markerStack p)) as [index|] eqn:Hl.
  - right.
    assert (Parser_markerStack p <> []) as Hne by (intros E; rewrite E in Hl; discriminate).
    destruct (exists_last Hne) as [ms [x Hx]].
    repeat case_match; simplify_eq; cbn; rewrite Hx, removelast_last, length_app; cbn;
      (split; [lia | auto]).
  - left. simplify_eq. apply last_None in Hl. auto.
Qed.

(** One iteration changes the depth of the marker stack as the token's
    parenthesis says, whenever the loop goes on or returns [nil]. *)
Lemma onToken_depth line tok p o :
  lexerToken tok ->
  onToken line tok p = o ->
  (forall p', o = Continue p' ->
     scopeDepth [(line, tok)] (List.length (Parser_markerStack p))
     = Some (List.length (Parser_markerStack p'))
     /\ fst (fst tok) <> TokError)
  /\ (forall p', o = Return None p' ->
        fst (fst tok) = TokError /\ p' = p).
Proof.
  destruct tok as [[ty s] e]. intros Hshape Ho.
  destruct Hshape as [[-> He]|(Hne & Hnn & ->)].
  - cbn in Ho. subst o. case_bool_decide; split; intros p' [=]; subst; auto.
  - destruct ty; try congruence; cbn in Ho; rewrite ?afterSwitch_None in Ho; subst o.
    + split; intros p' Hp'; repeat case_match; rewrite ?afterSwitch_None in *;
        simplify_eq; cbn; auto.
    + split; intros p' Hp'; repeat case_match; simplify_eq; cbn; auto.
    + split; intros p' Hp'; simplify_eq. cbn. rewrite length_app. cbn.
      split; [f_equal; lia | discriminate].
    + destruct (onCloseParen p) as [r q] eqn:Hc.
      destruct (onCloseParen_markers _ _ _ Hc) as [(-> & _ & ->)|(Hl & _)].
      * split; intros p' [=].
      * destruct r; split; intros p' [=]; subst. cbn. rewrite <- Hl. auto.
Qed.

Lemma scopeDepth_cons t ts d d' :
  fst (fst (snd t)) <> TokError ->
  scopeDepth [t] d = Some d' -> scopeDepth (t :: ts) d = scopeDepth ts d'.
Proof.
  destruct t as [line [[ty s] e]]. cbn. intros Hne.
  destruct ty; cbn; try congruence; destruct d; congruence.
Qed.

(** If the loop over a token sequence returns [nil], the depth of the
    marker stack at the end is the nesting depth of the sequence. *)
Lemma ParseTokens_depth ts : forall p p',
  Forall (fun t : LexedToken => lexerToken (snd t)) ts ->
  ParseTokens ts p = Return None p' ->
  scopeDepth ts (List.length (Parser_markerStack p))
  = Some (List.length (Parser_markerStack p')).
Proof.
  induction ts as [|[line tok] ts IH]; intros p p' Hall H; [discriminate|].
  inversion Hall as [|? ? Htok Hall']; subst. cbn in Htok.
  cbn [ParseTokens] in H.
  destruct (onToken_depth line tok p _ Htok eq_refl) as [Hc Hr].
  destruct (onToken line tok p) as [q|r q] eqn:Ho.
  - destruct (Hc q eq_refl) as [Hd Hne].
    erewrite scopeDepth_cons; eauto.
  - simplify_eq. destruct (Hr p' eq_refl) as [Hty ->].
    destruct tok as [[ty s] e]. cbn in Hty. subst ty. reflexivity.
Qed.

(** *** Silencing never outlives its scope *)

Lemma onToken_silencedInScope line tok p :
  silencedInScope p -> silencedInScope (outcome_parser (onToken line tok p)).
Proof.
  unfold silencedInScope. destruct tok as [[ty s] e]. intros Hinv.
  destruct ty; cbn.
  - unfold afterSwitch. repeat case_match; simplify_eq; cbn; auto; lia.
  - unfold afterSwitch. repeat case_match; simplify_eq; cbn; auto.
  - unfold afterSwitch. repeat case_match; simplify_eq; cbn; rewrite length_app; cbn; lia.
  - unfold onCloseParen.
    destruct (last (Parser_markerStack p)) as [index|] eqn:Hl; cbn; [|exact Hinv].
    assert (Parser_markerStack p <> []) as Hne by (intros E; rewrite E in Hl; discriminate).
    destruct (exists_last Hne) as [ms [x Hx]].
    rewrite Hx in *. rewrite length_app in *. cbn in *.
    destruct (Nat.eqb_spec (List.length ms + 1) (Parser_silenced p)) as [E|E];
      repeat case_match; simplify_eq; cbn; rewrite ?Hx, ?removelast_last; lia.
  - case_bool_decide; exact Hinv.
  - exact Hinv.
Qed.

Lemma ParseTokens_silencedInScope ts : forall p,
  silencedInScope p -> silencedInScope (outcome_parser (ParseTokens ts p)).
Proof.
  induction ts as [|[line tok] ts IH]; intros p Hinv; [exact Hinv|].
  cbn [ParseTokens].
  pose proof (onToken_silencedInScope line tok p Hinv) as H1.
  destruct (onToken line tok p) as [q|r q]; cbn in *; auto.
Qed.

End StackMachineFacts.

Section Silence.

Variable C : Type.
Implicit Types (p : Parser C) (ts : list LexedToken) (F : gmap string (Function C)).

(** While silenced, an iteration of the loop leaves the operand stack, the
    context and the function table as they are, whatever the token. *)
Lemma silenced_step line tok p :
  Parser_silenced p <> 0%nat ->
  let p' := outcome_parser (onToken line tok p) in
  Parser_operandStack p' = Parser_operandStack p
  /\ Parser_Context p' = Parser_Context p
  /\ Parser_Functions p' = Parser_Functions p.
Proof.
  intros Hs. apply Nat.eqb_neq in Hs.
  destruct tok as [[ty s] e]. destruct ty; cbn; rewrite ?Hs; unfold afterSwitch.
  - case_bool_decide; auto.
  - case_bool_decide; auto.
  - case_bool_decide; auto.
  - destruct (onCloseParen p) as [r q] eqn:Hc.
    destruct (onCloseParen_markers _ _ _ _ Hc) as [(-> & _ & ->)|(_ & H1 & H2 & H3)];
      [auto|destruct r; auto].
  - case_bool_decide; auto.
  - auto.
Qed.

(** While silenced, an iteration of the loop does not depend on the
    function table: no registered function has a say in it. *)
Lemma silenced_ignores_functions line tok p F :
  Parser_silenced p <> 0%nat ->
  onToken line tok (set_Functions p F) = Outcome_set_Functions (onToken line tok p) F.
Proof.
  intros Hs. apply Nat.eqb_neq in Hs.
  destruct tok as [[ty s] e]. destruct ty; cbn; rewrite ?Hs; unfold afterSwitch;
    try (case_bool_decide; reflexivity); try reflexivity.
  unfold onCloseParen. cbn.
  destruct (last (Parser_markerStack p)); [|reflexivity].
  destruct (List.length (Parser_markerStack p) =? Parser_silenced p)%nat; cbn;
    destruct (negb _); reflexivity.
Qed.

Lemma replicate_snoc {A} (n : nat) (x : A) : (replicate n x ++ [x])%list = replicate (S n) x.
Proof. induction n as [|n IH]; cbn; [reflexivity|]. by rewrite IH. Qed.

(** Inside the scope that triggered silencing, at nesting depth [j] below
    it, a token sequence only moves the marker stack. *)
Lemma silenced_scope_gen ts : forall p j k,
  Parser_silenced p <> 0%nat ->
  (Parser_silenced p <= List.length (Parser_markerStack p))%nat ->
  Forall plainToken ts ->
  scopeDepth ts j = Some k ->
  ParseTokens ts
    (set_markerStack p
       (Parser_markerStack p ++ replicate j (List.length (Parser_operandStack p))))
  = Continue
      (set_markerStack p
         (Parser_markerStack p ++ replicate k (List.length (Parser_operandStack p)))).
Proof.
  induction ts as [|[line [[ty s] e]] ts IH]; intros p j k Hs Hle Hall Hd.
  - cbn in Hd. simplify_eq. reflexivity.
  - inversion Hall as [|? ? Hp Hall']; subst. cbn in Hp. destruct Hp as (Hne & Hnn & ->).
    pose proof Hs as Hs'. apply Nat.eqb_neq in Hs'.
    destruct ty; try congruence; cbn [ParseTokens onToken].
    + cbn. rewrite Hs'. rewrite afterSwitch_None. cbn in Hd. eauto.
    + cbn. rewrite Hs'. rewrite afterSwitch_None. cbn in Hd. eauto.
    + rewrite afterSwitch_None. cbn. cbn in Hd.
      rewrite <- (assoc_L (++)), replicate_snoc.
      apply (IH p (S j) k Hs Hle Hall' Hd).
    + cbn in Hd. destruct j as [|j]; [discriminate|].
      rewrite <- replicate_snoc, (assoc_L (++)).
      unfold onCloseParen. cbn -[replicate].
      rewrite last_snoc. cbn -[replicate].
      rewrite !length_app, length_replicate. cbn -[replicate].
      destruct (Nat.eqb_spec (List.length (Parser_markerStack p) + j + 1) (Parser_silenced p)) as [E|E];
        [lia|].
      cbn -[replicate]. rewrite removelast_last, Nat.eqb_refl. cbn -[replicate].
      apply (IH p j k Hs Hle Hall' Hd).
Qed.

(** From the [silence] token to the close parenthesis of its scope, a token
    sequence with balanced parentheses leaves the whole parser state as it
    is: nothing is pushed, nothing is called. *)
Lemma silenced_scope ts p :
  Parser_silenced p <> 0%nat ->
  (Parser_silenced p <= List.length (Parser_markerStack p))%nat ->
  Forall plainToken ts ->
  scopeDepth ts 0 = Some 0%nat ->
  ParseTokens ts p = Continue p.
Proof.
  intros Hs Hle Hall Hd.
  pose proof (silenced_scope_gen ts p 0 0 Hs Hle Hall Hd) as H.
  cbn in H. rewrite app_nil_r in H.
  destruct p; exact H.
Qed.

(** C6. While silencing is active no registered function is invoked and no
    value is pushed: (1) an iteration of the loop on any token leaves the
    operand stack and the context as they are, and (2) its outcome is the
    same whatever the function table holds; (3) a token sequence with
    balanced parentheses met while silenced leaves the parser state
    unchanged, so silencing lasts until the close parenthesis of the scope
    that triggered it, which (4) ends it; (5) the run of [(silence fail)]
    ends with [nil], empty stacks and the context untouched whatever is
    registered under [fail]; (6) in every state the loop reaches from a new
    parser, an unquoted [silence] met with an empty marker stack is the
    error "found silence outside parentheses". *)
Theorem C6_silence :
  (forall line tok p,
      Parser_silenced p <> 0%nat ->
      Parser_operandStack (outcome_parser (onToken line tok p)) = Parser_operandStack p
      /\ Parser_Context (outcome_parser (onToken line tok p)) = Parser_Context p)
  /\ (forall line tok p F,
      Parser_silenced p <> 0%nat ->
      onToken line tok (set_Functions p F) = Outcome_set_Functions (onToken line tok p) F)
  /\ (forall ts p,
      Parser_silenced p <> 0%nat ->
      (Parser_silenced p <= List.length (Parser_markerStack p))%nat ->
      Forall plainToken ts ->
      scopeDepth ts 0 = Some 0%nat ->
      ParseTokens ts p = Continue p)
  /\ (forall p,
      Parser_silenced p <> 0%nat ->
      Parser_silenced p = List.length (Parser_markerStack p) ->
      Parser_silenced (snd (onCloseParen p)) = 0%nat)
  /\ (forall F (ctx : C),
      exists lex',
        Parse (NewLexer (runes "(silence fail)")) (mkParser [] [] 0%nat F ctx)
        = Some (None, lex', mkParser [] [] 0%nat F ctx)
        /\ Finish (mkParser [] [] 0%nat F ctx) = None)
  /\ (forall F (ctx : C) ts p line e,
      ParseTokens ts (mkParser [] [] 0%nat F ctx) = Continue p ->
      Parser_markerStack p = [] ->
      onToken line (TokString, "silence", e) p
      = Return (Some (AtLine line (Errorf "found silence outside parentheses"))) p).
Proof.
  split; [|split; [|split; [|split; [|split]]]].
  - intros line tok p Hs. destruct (silenced_step line tok p Hs) as (H1 & H2 & _). auto.
  - intros. by apply silenced_ignores_functions.
  - intros. by apply silenced_scope.
  - intros p Hs Heq. unfold onCloseParen.
    destruct (last (Parser_markerStack p)) as [index|] eqn:Hl.
    + rewrite Heq, Nat.eqb_refl. case_match; reflexivity.
    + apply last_None in Hl. rewrite Hl in Heq. cbn in Heq. congruence.
  - intros F ctx. eexists. split; [vm_compute; reflexivity | reflexivity].
  - intros F ctx ts p line e Hrun Hm.
    pose proof (ParseTokens_silencedInScope C ts (mkParser [] [] 0%nat F ctx)) as Hinv.
    rewrite Hrun in Hinv. cbn in Hinv. unfold silencedInScope in Hinv.
    rewrite Hm in Hinv. cbn in Hinv. specialize (Hinv ltac:(lia)).
    cbn. rewrite Hm. cbn.
    assert (Parser_silenced p = 0%nat) as -> by lia. reflexivity.
Qed.

End Silence.
Lemma C6_silence_witness :
  let failing : Function Context := fun _ op c => (Some (Errorf "fail"), op, c) in
  let F : gmap string (Function Context) := {[ "fail" := failing ]} in
  let p := mkParser [VString "x"] [1%nat] 1%nat F NewContext in
  Parser_operandStack (outcome_parser (onToken 1%N (TokString, "fail", None) p)) = [VString "x"]
  /\ onToken 1%N (TokString, "fail", None) (set_Functions p ∅)
     = Outcome_set_Functions (onToken 1%N (TokString, "fail", None) p) ∅
  /\ ParseTokens [(1%N, (TokOpenParen, "", None)); (1%N, (TokString, "fail", None));
                  (1%N, (TokCloseParen, "", None))] p = Continue p
  /\ Parser_silenced (snd (onCloseParen p)) = 0%nat
  /\ onToken 1%N (TokString, "silence", None) (mkParser [] [] 0%nat F NewContext)
     = Return (Some (AtLine 1%N (Errorf "found silence outside parentheses")))
         (mkParser [] [] 0%nat F NewContext).
Proof.
  intros failing F p.
  pose proof (C6_silence Context) as (H1 & H2 & H3 & H4 & _ & H6).
  split; [|split; [|split; [|split]]].
  - apply (H1 1%N (TokString, "fail", None) p). cbn. lia.
  - apply (H2 1%N (TokString, "fail", None) p ∅). cbn. lia.
  - apply (H3 _ p).
    + cbn. lia.
    + cbn. lia.
    + repeat constructor; cbn; congruence.
    + reflexivity.
  - apply (H4 p); cbn; [lia | reflexivity].
  - apply (H6 F NewContext [] _ 1%N None); reflexivity.
Defined.

Section Finish.

Variable C : Type.
Implicit Types (p : Parser C) (F : gmap string (Function C)).

Lemma Parse_as_tokens F (ctx : C) input r lex' p' :
  Parse (NewLexer (runes input)) (mkParser [] [] 0%nat F ctx) = Some (r, lex', p') ->
  ParseTokens (tokens input) (mkParser [] [] 0%nat F ctx) = Return r p'.
Proof.
  intros H. unfold Parse in H. unfold tokens.
  destruct (Parse_loop_tokens C (S (lexMeasure (NewLexer (runes input))))
              (NewLexer (runes input)) (mkParser [] [] 0%nat F ctx) ltac:(lia))
    as (r0 & lex0 & p0 & Ht & Hp).
  rewrite Hp in H. simplify_eq. exact Ht.
Qed.

(** C7. A run is [Parse] followed, when it returns [nil], by [Finish].
    (1) [Parse] always returns.  For a run over an input from a new parser:
    (2) if the parentheses of the token stream are balanced, [Parse]
    returned [nil] (so no scope left operands behind) and the operand stack
    is empty at the end, then [Finish] succeeds -- silencing cannot be
    active then; (3) if some close parenthesis has no matching open one,
    [Parse] returns an error; (4) if an open parenthesis is never closed,
    [Finish] fails; (5) if operands are left on the stack at the end,
    [Finish] fails.  (6) At a close parenthesis whose scope has left
    operands behind, and (7) at a close parenthesis with no open scope, the
    loop of [Parse] returns an error on the spot. *)
Theorem C7_finish :
  (forall F (ctx : C) input,
      is_Some (Parse (NewLexer (runes input)) (mkParser [] [] 0%nat F ctx)))
  /\ (forall F (ctx : C) input r lex' p',
      Parse (NewLexer (runes input)) (mkParser [] [] 0%nat F ctx) = Some (r, lex', p') ->
      (r = None -> scopeDepth (tokens input) 0 = Some 0%nat ->
       Parser_operandStack p' = [] -> Finish p' = None)
      /\ (scopeDepth (tokens input) 0 = None -> r <> None)
      /\ (forall k, scopeDepth (tokens input) 0 = Some (S k) -> r = None -> Finish p' <> None)
      /\ (Parser_operandStack p' <> [] -> r = None -> Finish p' <> None))
  /\ (forall p line s e index,
      last (Parser_markerStack p) = Some index ->
      index <> List.length (Parser_operandStack p) ->
      exists p',
        onToken line (TokCloseParen, s, e) p
        = Return (Some (AtLine line (Errorf "%v unconsumed operands at closing parenthesis"))) p')
  /\ (forall p line s e,
      Parser_markerStack p = [] ->
      onToken line (TokCloseParen, s, e) p
      = Return (Some (AtLine line
                        (Errorf "closing parenthesis does not have a matching open parenthesis"))) p).
Proof.
  split; [|split; [|split]].
  - intros. apply Parse_total.
  - intros F ctx input r lex' p' HP.
    pose proof (Parse_as_tokens _ _ _ _ _ _ HP) as Ht.
    assert (r = None ->
            scopeDepth (tokens input) 0 = Some (List.length (Parser_markerStack p'))) as Hdepth.
    { intros ->.
      apply (ParseTokens_depth C (tokens input) (mkParser [] [] 0%nat F ctx) p');
        [apply tokenize_shape | exact Ht]. }
    pose proof (ParseTokens_silencedInScope C (tokens input) (mkParser [] [] 0%nat F ctx)) as Hinv.
    rewrite Ht in Hinv. cbn in Hinv. unfold silencedInScope in Hinv. cbn in Hinv.
    specialize (Hinv ltac:(lia)).
    split; [|split; [|split]].
    + intros Hr Hb Hop. rewrite (Hdepth Hr) in Hb.
      unfold Finish. rewrite Hop. cbn.
      injection Hb as Hb. rewrite Hb in *. cbn.
      assert (Parser_silenced p' = 0%nat) as -> by lia. reflexivity.
    + intros Hb Hr. rewrite (Hdepth Hr) in Hb. discriminate.
    + intros k Hb Hr. rewrite (Hdepth Hr) in Hb. injection Hb as Hb.
      unfold Finish. rewrite Hb. repeat case_match; cbn in *; congruence.
    + intros Hop Hr. unfold Finish.
      destruct (Parser_operandStack p'); [congruence|]. cbn. congruence.
  - intros p line s e index Hl Hne. cbn. unfold onCloseParen. rewrite Hl.
    eexists.
    assert (negb (index =? List.length
              (Parser_operandStack
                 (set_markerStack
                    (if (List.length (Parser_markerStack p) =? Parser_silenced p)%nat
                     then set_silenced p 0%nat else p)
                    (removelast (Parser_markerStack
                       (if (List.length (Parser_markerStack p) =? Parser_silenced p)%nat
                        then set_silenced p 0%nat else p))))))%nat = true) as ->.
    { apply negb_true_iff, Nat.eqb_neq. destruct (_ =? _)%nat; cbn; exact Hne. }
    reflexivity.
  - intros p line s e Hm. cbn. unfold onCloseParen. rewrite Hm. reflexivity.
Qed.

End Finish.

Lemma C7_finish_witness :
  let F : gmap string (Function unit) := ∅ in
  Finish (mkParser [] [] 0%nat F ()) = None
  /\ (exists r lex' p', Parse (NewLexer (runes "x )")) (mkParser [] [] 0%nat F ()) = Some (r, lex', p')
                        /\ r <> None)
  /\ Finish (mkParser [] [0%nat] 0%nat F ()) <> None
  /\ Finish (mkParser [VString "x"] [] 0%nat F ()) <> None
  /\ (exists p', onToken 1%N (TokCloseParen, "", None) (mkParser [VString "x"] [0%nat] 0%nat F ())
                 = Return (Some (AtLine 1%N
                                   (Errorf "%v unconsumed operands at closing parenthesis"))) p')
  /\ onToken 1%N (TokCloseParen, "", None) (mkParser [] [] 0%nat F ())
     = Return (Some (AtLine 1%N
                       (Errorf "closing parenthesis does not have a matching open parenthesis")))
         (mkParser [] [] 0%nat F ()).
Proof.
  intros F.
  pose proof (C7_finish unit) as (H1 & H2 & H3 & H4).
  split; [|split; [|split; [|split; [|split]]]].
  - assert (exists lex', Parse (NewLexer (runes "( )")) (mkParser [] [] 0%nat F ())
                         = Some (None, lex', mkParser [] [] 0%nat F ())) as [lex' HP]
      by (eexists; vm_compute; reflexivity).
    destruct (H2 _ _ _ _ _ _ HP) as (Ha & _).
    apply Ha; [reflexivity | vm_compute; reflexivity | reflexivity].
  - destruct (H1 F () "x )") as [[[r lex'] p'] HP].
    exists r, lex', p'. split; [exact HP|].
    destruct (H2 _ _ _ _ _ _ HP) as (_ & Hb & _).
    apply Hb. vm_compute. reflexivity.
  - assert (exists lex', Parse (NewLexer (runes "(")) (mkParser [] [] 0%nat F ())
                         = Some (None, lex', mkParser [] [0%nat] 0%nat F ())) as [lex' HP]
      by (eexists; vm_compute; reflexivity).
    destruct (H2 _ _ _ _ _ _ HP) as (_ & _ & Hc & _).
    apply (Hc 0%nat); [vm_compute; reflexivity | reflexivity].
  - assert (exists lex', Parse (NewLexer (runes "x")) (mkParser [] [] 0%nat F ())
                         = Some (None, lex', mkParser [VString "x"] [] 0%nat F ())) as [lex' HP]
      by (eexists; vm_compute; reflexivity).
    destruct (H2 _ _ _ _ _ _ HP) as (_ & _ & _ & Hd).
    apply Hd; [cbn; congruence | reflexivity].
  - apply (H3 _ 1%N "" None 0%nat); cbn; [reflexivity | lia].
  - apply (H4 (mkParser [] [] 0%nat F ()) 1%N "" None). reflexivity.
Defined.

(** ** The operand view *)

Lemma Length_app stack vs idx :
  Length (mkOperands (stack ++ vs) idx)
  = Z.of_nat (List.length stack) - Z.of_nat idx + Z.of_nat (List.length vs).
Proof. unfold Length. cbn. rewrite length_app. lia. Qed.

(** Popping as many values as were pushed last gives them back and restores
    the stack below them. *)
Lemma Pop_app stack vs idx n :
  (idx <= List.length stack)%nat ->
  n = Z.of_nat (List.length vs) ->
  Pop (mkOperands (stack ++ vs) idx) n = (vs, mkOperands stack idx).
Proof.
  intros Hle ->. unfold Pop. rewrite Length_app. cbn [Operands_stack Operands_stackIndex].
  replace (Z.of_nat (List.length stack) - Z.of_nat idx + Z.of_nat (List.length vs)
           <? Z.of_nat (List.length vs)) with false by (symmetry; apply Z.ltb_ge; lia).
  rewrite length_app.
  replace (Z.to_nat (Z.of_nat (List.length stack + List.length vs) - Z.of_nat (List.length vs)))
    with (List.length stack) by lia.
  by rewrite drop_app_length, take_app_length.
Qed.

(** ** comment *)

(** C4 (as the code has it). [comment] looks at the top operand only: with no
    visible operand it fails; with a string on top it pops that string and
    succeeds, whatever lies below it in the view; with anything else on top
    it pops it and fails. *)
Theorem C4_comment (fn : string) (c : Context) :
  (forall stack, CommentFunction fn (mkOperands stack (List.length stack)) c
                 = (Some (Errorf "%v: no operands given"), mkOperands stack (List.length stack), c))
  /\ (forall stack idx s,
        (idx <= List.length stack)%nat ->
        CommentFunction fn (mkOperands (stack ++ [VString s]) idx) c
        = (None, mkOperands stack idx, c))
  /\ (forall stack idx v,
        (idx <= List.length stack)%nat ->
        isString v = false ->
        CommentFunction fn (mkOperands (stack ++ [v]) idx) c
        = (Some (Errorf "%v: non-string operand: %v"), mkOperands stack idx, c)).
Proof.
  split; [|split].
  - intros stack. unfold CommentFunction, Length. cbn.
    replace (Z.of_nat (List.length stack) - Z.of_nat (List.length stack) <? 1) with true
      by (symmetry; apply Z.ltb_lt; lia).
    reflexivity.
  - intros stack idx s Hle. unfold CommentFunction.
    rewrite Length_app. cbn [List.length].
    replace (_ <? 1) with false by (symmetry; apply Z.ltb_ge; lia).
    rewrite (Pop_app stack [VString s] idx 1 Hle eq_refl). reflexivity.
  - intros stack idx v Hle Hv. unfold CommentFunction.
    rewrite Length_app. cbn [List.length].
    replace (_ <? 1) with false by (symmetry; apply Z.ltb_ge; lia).
    rewrite (Pop_app stack [v] idx 1 Hle eq_refl). destruct v; cbn in Hv; try congruence; reflexivity.
Qed.

Lemma C4_comment_witness :
  CommentFunction "comment" (mkOperands [VString "a"; VString "b"] 1) NewContext
  = (None, mkOperands [VString "a"] 1, NewContext)
  /\ CommentFunction "comment" (mkOperands [VString "a"; VOther 5] 0) NewContext
     = (Some (Errorf "%v: non-string operand: %v"), mkOperands [VString "a"] 0, NewContext).
Proof.
  split.
  - apply (proj1 (proj2 (C4_comment "comment" NewContext)) [VString "a"] 1%nat "b"). cbn. lia.
  - apply (proj2 (proj2 (C4_comment "comment" NewContext)) [VString "a"] 0%nat (VOther 5)).
    + cbn. lia.
    + reflexivity.
Defined.

(** With two visible operands [comment] succeeds: it pops the top one and
    leaves the other. *)
Lemma C4_comment_two_operands :
  let op := mkOperands [VString "a"; VString "b"] 0 in
  Length op = 2
  /\ CommentFunction "comment" op NewContext = (None, mkOperands [VString "a"] 0, NewContext).
Proof. split; reflexivity. Qed.

(** Whether the run then fails is not up to [comment]: it depends on what
    becomes of the operand left behind.  The run of [a b comment] fails in
    [Finish], on that operand. *)
Example comment_two_operands_run :
  fst <$> run "a b comment" = Some (Some (Errorf "%v unconsumed tokens left on stack at EOF")).
Proof. vm_compute. reflexivity. Qed.

(** A second [comment] takes the operand the first one left: the runs of
    [a b comment comment] and of [(a b comment comment)] end without error. *)
Example comment_twice_run :
  fst <$> run "a b comment comment" = Some None
  /\ fst <$> run "(a b comment comment)" = Some None.
Proof. split; vm_compute; reflexivity. Qed.

(** ** The clock *)

Lemma foldl_sameDate {A} (f : Context -> A -> Context) (l : list A) :
  (forall c x, Context_Date (f c x) = Context_Date c) ->
  forall c, Context_Date (foldl f c l) = Context_Date c.
Proof.
  intros Hf. induction l as [|x l IH]; intros c; cbn; [reflexivity|].
  rewrite IH. apply Hf.
Qed.

Lemma indexTag_date target c tag : Context_Date (indexTag target c tag) = Context_Date c.
Proof. unfold indexTag. repeat case_match; reflexivity. Qed.

Lemma tagAccount_date l c t : Context_Date (tagAccount l c t) = Context_Date c.
Proof. unfold tagAccount. repeat case_match; cbn; auto using indexTag_date. Qed.

Lemma tagCommodity_date cn c t : Context_Date (tagCommodity cn c t) = Context_Date c.
Proof. unfold tagCommodity. repeat case_match; cbn; auto using indexTag_date. Qed.

Lemma untagAccount_date l c t : Context_Date (untagAccount l c t) = Context_Date c.
Proof. unfold untagAccount. repeat case_match; cbn; auto. Qed.

Lemma ExecuteTransfer_date t c r c' :
  ExecuteTransfer t c = (r, c') -> Context_Date c' = Context_Date c.
Proof. unfold ExecuteTransfer. repeat case_match; intros [= <- <-]; reflexivity. Qed.

Lemma Execute_loop_date ts : forall c r c',
  Execute_loop ts c = (r, c') -> Context_Date c' = Context_Date c.
Proof.
  induction ts as [|t ts IH]; intros c r c' H; cbn in H; [by simplify_eq|].
  destruct (ExecuteTransfer t c) as [[e|] c1] eqn:He.
  - simplify_eq. eapply ExecuteTransfer_date; eauto.
  - rewrite (IH _ _ _ H). eapply ExecuteTransfer_date; eauto.
Qed.

Local Ltac keeps_date :=
  intros fn op c r op' c' H; unfold sameDate;
  repeat (case_match; simplify_eq); simplify_eq; cbn;
  auto using foldl_sameDate, tagAccount_date, tagCommodity_date, untagAccount_date.

Lemma AddNotes_sameDate : keeps sameDate AddNotesFunction.
Proof. unfold keeps, AddNotesFunction, fail, ok. keeps_date. Qed.
Lemma Assert_sameDate : keeps sameDate AssertFunction.
Proof. unfold keeps, AssertFunction, fail, ok. keeps_date. Qed.
Lemma AssertLot_sameDate : keeps sameDate AssertLotFunction.
Proof. unfold keeps, AssertLotFunction, fail, ok. keeps_date. Qed.
Lemma AssertLotsSum_sameDate : keeps sameDate AssertLotsSumFunction.
Proof. unfold keeps, AssertLotsSumFunction, fail, ok. keeps_date. Qed.
Lemma Close_sameDate : keeps sameDate CloseFunction.
Proof. unfold keeps, CloseFunction, fail, ok. keeps_date. Qed.
Lemma CloseLot_sameDate : keeps sameDate CloseLotFunction.
Proof. unfold keeps, CloseLotFunction, fail, ok. keeps_date. Qed.
Lemma Comment_sameDate : keeps sameDate CommentFunction.
Proof. unfold keeps, CommentFunction, fail, ok. keeps_date. Qed.
Lemma Commodity_sameDate : keeps sameDate CommodityFunction.
Proof. unfold keeps, CommodityFunction, fail, ok. keeps_date. Qed.
Lemma CreateLot_sameDate : keeps sameDate CreateLotFunction.
Proof. unfold keeps, CreateLotFunction, fail, ok. keeps_date. Qed.
Lemma Lot_sameDate : keeps sameDate LotFunction.
Proof. unfold keeps, LotFunction, fail, ok. keeps_date. Qed.
Lemma Open_sameDate : keeps sameDate OpenFunction.
Proof. unfold keeps, OpenFunction, fail, ok, alloc. keeps_date. Qed.
Lemma SetComment_sameDate : keeps sameDate SetCommentFunction.
Proof. unfold keeps, SetCommentFunction, fail, ok. keeps_date. Qed.
Lemma Tag_sameDate : keeps sameDate TagFunction.
Proof. unfold keeps, TagFunction, fail, ok. keeps_date. Qed.
Lemma TagCommodity_sameDate : keeps sameDate TagCommodityFunction.
Proof. unfold keeps, TagCommodityFunction, fail, ok. keeps_date. Qed.
Lemma Untag_sameDate : keeps sameDate UntagFunction.
Proof. unfold keeps, UntagFunction, fail, ok. keeps_date. Qed.
Lemma Xact_sameDate : keeps sameDate XactFunction.
Proof.
  unfold keeps, XactFunction, Execute. intros fn op c r op' c' H. unfold sameDate.
  repeat (case_match; simplify_eq); simplify_eq; eauto using Execute_loop_date.
Qed.
Lemma Xfer_sameDate : keeps sameDate XferFunction.
Proof. unfold keeps, XferFunction. keeps_date. Qed.
Lemma XferExch_sameDate : keeps sameDate XferExchFunction.
Proof. unfold keeps, XferExchFunction. keeps_date. Qed.
Create HintDb ledger_date.
#[local] Hint Resolve AddNotes_sameDate Assert_sameDate AssertLot_sameDate
  AssertLotsSum_sameDate Close_sameDate CloseLot_sameDate Comment_sameDate
  Commodity_sameDate CreateLot_sameDate Lot_sameDate Open_sameDate SetComment_sameDate
  Tag_sameDate TagCommodity_sameDate Untag_sameDate Xact_sameDate Xfer_sameDate
  XferExch_sameDate : ledger_date.

(** The registered functions, one by one. *)
Lemma GetCoreFunctions_elem name f :
  GetCoreFunctions !! name = Some f ->
  (name, f) ∈
    [ ("add-notes", AddNotesFunction); ("assert", AssertFunction);
      ("assert-lot", AssertLotFunction); ("assert-lots-sum", AssertLotsSumFunction);
      ("close", CloseFunction); ("close-lot", CloseLotFunction);
      ("comment", CommentFunction); ("commodity", CommodityFunction);
      ("create-lot", CreateLotFunction); ("date", DateFunction); ("lot", LotFunction);
      ("open", OpenFunction); ("set-comment", SetCommentFunction); ("tag", TagFunction);
      ("tag-commodity", TagCommodityFunction); ("untag", UntagFunction);
      ("xact", XactFunction); ("xfer", XferFunction); ("xfer-exch", XferExchFunction) ].
Proof. intros H. apply elem_of_list_to_map_2 in H. exact H. Qed.

(** Go through the registered functions. *)
Ltac core_function_cases H :=
  apply GetCoreFunctions_elem in H;
  repeat (apply elem_of_cons in H as [H|H]; [injection H as -> ->|]);
  [..|by apply elem_of_nil in H].

Lemma Date_EqualOrAfter_not_Before d u :
  Date_EqualOrAfter d u = true -> Date_Before d u = false.
Proof.
  unfold Date_EqualOrAfter, Date_Equal, Date_After, Date_Before.
  intros H. apply Z.ltb_ge. apply orb_true_iff in H as [H|H].
  - destruct d, u. cbn in *.
    apply andb_true_iff in H as [H H3]. apply andb_true_iff in H as [H1 H2].
    apply Z.eqb_eq in H1, H2, H3. subst. lia.
  - apply Z.ltb_lt in H. lia.
Qed.

Lemma DateFunction_outcome fn op c r op' c' :
  DateFunction fn op c = (r, op', c') ->
  (r <> None /\ c' = c)
  \/ (r = None /\ Date_ToTime (Context_Date c) <= Date_ToTime (Context_Date c')).
Proof.
  unfold DateFunction, fail, ok, Date_After. intros H.
  repeat (case_match; simplify_eq); simplify_eq; try (left; split; [discriminate|reflexivity]).
  right. split; [reflexivity|]. cbn. by apply Z.ltb_ge.
Qed.

(** C5. The clock never goes back.  A [date] call whose three operands parse
    as numbers names a date [d]: (1) if [d] is strictly before the current
    date the call fails and leaves the context, and so the clock, unchanged;
    (2) otherwise it succeeds and sets the clock to [d]; (3) a date equal to
    or after the current one is never strictly before it.  (4) Whatever its
    operands, a [date] call that fails leaves the context unchanged, and no
    [date] call moves the clock back.  (5) No other registered function
    changes the clock. *)
Theorem C5_date_monotonic :
  (forall fn stack idx year month day y m dy c,
      (idx <= List.length stack)%nat ->
      ParseInt year 32 = Some y -> ParseInt month 32 = Some m -> ParseInt day 32 = Some dy ->
      let op := mkOperands (stack ++ [VString year; VString month; VString day]) idx in
      let d := mkDate y m dy in
      (Date_Before d (Context_Date c) = true ->
       DateFunction fn op c
       = (Some (Errorf "%v: specified date %v is before current date %v"),
          mkOperands stack idx, c))
      /\ (Date_Before d (Context_Date c) = false ->
          DateFunction fn op c = (None, mkOperands stack idx, set_Date c d))
      /\ (Date_EqualOrAfter d (Context_Date c) = true ->
          Date_Before d (Context_Date c) = false))
  /\ (forall fn op c r op' c',
      DateFunction fn op c = (r, op', c') ->
      (r <> None -> c' = c)
      /\ Date_ToTime (Context_Date c) <= Date_ToTime (Context_Date c'))
  /\ (forall name f,
      GetCoreFunctions !! name = Some f -> name <> "date" ->
      forall fn op c r op' c', f fn op c = (r, op', c') -> Context_Date c' = Context_Date c).
Proof.
  split; [|split].
  - intros fn stack idx year month day y m dy c Hle Hy Hm Hd op d.
    assert (forall b, Date_Before d (Context_Date c) = b ->
                      DateFunction fn op c
                      = if b then (Some (Errorf "%v: specified date %v is before current date %v"),
                                   mkOperands stack idx, c)
                        else (None, mkOperands stack idx, set_Date c d)) as Hrun.
    { intros b Hb. unfold DateFunction. subst op.
      rewrite Length_app. cbn [List.length].
      replace (_ <? 3) with false by (symmetry; apply Z.ltb_ge; lia).
      rewrite (Pop_app stack [VString year; VString month; VString day] idx 3 Hle eq_refl).
      rewrite Hy, Hm, Hd.
      unfold Date_After. fold d. unfold Date_Before in Hb. rewrite Hb.
      destruct b; reflexivity. }
    split; [|split].
    + intros Hb. apply (Hrun true Hb).
    + intros Hb. apply (Hrun false Hb).
    + apply Date_EqualOrAfter_not_Before.
  - intros fn op c r op' c' H.
    destruct (DateFunction_outcome _ _ _ _ _ _ H) as [[Hr ->]|[-> Hm]]; split; auto; try lia.
    congruence.
  - intros name f Hl Hne fn op c r op' c' H.
    core_function_cases Hl; try congruence;
      match goal with
      | H : ?F fn op c = _ |- _ =>
          let K := fresh in
          assert (keeps sameDate F) as K by auto with ledger_date; exact (K _ _ _ _ _ _ H)
      end.
Qed.

Lemma C5_date_monotonic_witness :
  let c := set_Date NewContext (mkDate 2000 1 1) in
  DateFunction "date" (mkOperands [VString "1999"; VString "12"; VString "31"] 0) c
  = (Some (Errorf "%v: specified date %v is before current date %v"), mkOperands [] 0, c)
  /\ DateFunction "date" (mkOperands [VString "2000"; VString "1"; VString "2"] 0) c
     = (None, mkOperands [] 0, set_Date c (mkDate 2000 1 2))
  /\ Date_Before (mkDate 2000 1 1) (Context_Date c) = false
  /\ Context_Date (snd (CommentFunction "comment" (mkOperands [VString "x"] 0) c))
     = Context_Date c.
Proof.
  intros c.
  pose proof C5_date_monotonic as (H1 & H2 & H3).
  split; [|split; [|split]].
  - apply (H1 "date" [] 0%nat "1999" "12" "31" 1999 12 31 c); cbn; try reflexivity; lia.
  - apply (H1 "date" [] 0%nat "2000" "1" "2" 2000 1 2 c); cbn; try reflexivity; lia.
  - apply (H1 "date" [] 0%nat "2000" "1" "1" 2000 1 1 c); cbn; try reflexivity; lia.
  - apply (H3 "comment" CommentFunction eq_refl ltac:(discriminate) "comment"
             (mkOperands [VString "x"] 0) c
             (fst (fst (CommentFunction "comment" (mkOperands [VString "x"] 0) c)))
             (snd (fst (CommentFunction "comment" (mkOperands [VString "x"] 0) c)))).
    reflexivity.
Defined.

(** ** close *)

Lemma length_zero_iff (s : string) : (String.length s =? 0)%nat = true <-> s = "".
Proof. destruct s; cbn; split; congruence. Qed.

Lemma hasNonzero_false (ctol : gmap string Lot) :
  hasNonzero ctol = false
  <-> forall cn lot, ctol !! cn = Some lot ->
                     Decimal_IsZero (Quantity_Amount (Lot_Balance lot)) = true.
Proof.
  unfold hasNonzero. split.
  - intros H cn lot Hl.
    destruct (Decimal_IsZero (Quantity_Amount (Lot_Balance lot))) eqn:Hz; [reflexivity|].
    assert (existsb (fun '(_, lot) => negb (Decimal_IsZero (Quantity_Amount (Lot_Balance lot))))
              (map_to_list ctol) = true) as Ht; [|congruence].
    apply existsb_exists. exists (cn, lot). split.
    + apply list_elem_of_In. by apply elem_of_map_to_list.
    + cbn. by rewrite Hz.
  - intros H. apply not_true_is_false. intros Ht.
    apply existsb_exists in Ht as [[cn lot] [Hin Hz]].
    apply list_elem_of_In, elem_of_map_to_list in Hin.
    rewrite (H cn lot Hin) in Hz. discriminate.
Qed.

(** The test [close] makes on the lots is [nonDefaultLotsZero]. *)
Lemma close_test acct :
  existsb (fun '(lotName, ctolots) =>
             negb (String.length lotName =? 0)%nat && hasNonzero ctolots)
          (map_to_list (Account_Lots acct)) = false
  <-> nonDefaultLotsZero acct.
Proof.
  unfold nonDefaultLotsZero. split.
  - intros H ln ctol cn lot Hne Hl Hc.
    destruct (hasNonzero ctol) eqn:Hnz.
    + assert (existsb (fun '(lotName, ctolots) =>
                         negb (String.length lotName =? 0)%nat && hasNonzero ctolots)
                (map_to_list (Account_Lots acct)) = true) as Ht; [|congruence].
      apply existsb_exists. exists (ln, ctol). split.
      * apply list_elem_of_In. by apply elem_of_map_to_list.
      * cbn. rewrite Hnz, andb_true_r. apply negb_true_iff, not_true_is_false.
        intros E. by apply length_zero_iff in E.
    + eapply hasNonzero_false; eauto.
  - intros H. apply not_true_is_false. intros Ht.
    apply existsb_exists in Ht as [[ln ctol] [Hin Hz]].
    apply list_elem_of_In, elem_of_map_to_list in Hin.
    apply andb_true_iff in Hz as [Hn Hz].
    assert (ln <> "") as Hne.
    { intros ->. cbn in Hn. discriminate. }
    assert (hasNonzero ctol = false) as Hf; [|congruence].
    apply hasNonzero_false. intros cn lot Hc. eapply H; eauto.
Qed.

Lemma nonDefaultLotsZero_dec acct : {nonDefaultLotsZero acct} + {~ nonDefaultLotsZero acct}.
Proof.
  destruct (existsb (fun '(lotName, ctolots) =>
                       negb (String.length lotName =? 0)%nat && hasNonzero ctolots)
              (map_to_list (Account_Lots acct))) eqn:E.
  - right. intros H. apply close_test in H. congruence.
  - left. by apply close_test.
Defined.

(** C1 (as the code has it).  Given an account name on top of the view,
    [close] succeeds exactly when the account exists, is open, and every lot
    other than the default one has a zero balance in each of its commodities;
    it then records the current date as the closing date and changes nothing
    else.  The default lot is not looked at, and lots need not have been
    removed. *)
Theorem C1_close fn stack idx an c :
  (idx <= List.length stack)%nat ->
  let op := mkOperands (stack ++ [VString an]) idx in
  (fst (fst (CloseFunction fn op c)) = None
   <-> exists l acct,
        Context_Accounts c !! an = Some l /\ deref c l = Some acct
        /\ Account_IsClosed acct (Context_Date c) = false
        /\ nonDefaultLotsZero acct)
  /\ (forall l acct,
        Context_Accounts c !! an = Some l -> deref c l = Some acct ->
        Account_IsClosed acct (Context_Date c) = false ->
        nonDefaultLotsZero acct ->
        CloseFunction fn op c
        = (None, mkOperands stack idx, store c l (set_ClosingDate acct (Context_Date c))))
  /\ (forall l acct,
        Context_Accounts c !! an = Some l -> deref c l = Some acct ->
        Account_IsClosed acct (Context_Date c) = false ->
        ~ nonDefaultLotsZero acct ->
        CloseFunction fn op c
        = (Some (Errorf "%v: cannot close account %v because lot %v has %v %v"),
           mkOperands stack idx, c)).
Proof.
  intros Hle op.
  assert (CloseFunction fn op c
          = match Context_Accounts c !! an with
            | None => fail (Errorf "%v: nonexistent account: %v") (mkOperands stack idx) c
            | Some l =>
                match deref c l with
                | None => fail nilDeref (mkOperands stack idx) c
                | Some acct =>
                    if Account_IsClosed acct (Context_Date c) then
                      fail (Errorf "%v: account is already closed: %v") (mkOperands stack idx) c
                    else if nonDefaultLotsZero_dec acct then
                      ok (mkOperands stack idx)
                        (store c l (set_ClosingDate acct (Context_Date c)))
                    else fail (Errorf "%v: cannot close account %v because lot %v has %v %v")
                           (mkOperands stack idx) c
                end
            end) as Hrun.
  { unfold CloseFunction. subst op. rewrite Length_app. cbn [List.length].
    replace (_ <? 1) with false by (symmetry; apply Z.ltb_ge; lia).
    rewrite (Pop_app stack [VString an] idx 1 Hle eq_refl).
    destruct (Context_Accounts c !! an) as [l|]; [|reflexivity].
    destruct (deref c l) as [acct|]; [|reflexivity].
    destruct (Account_IsClosed acct (Context_Date c)); [reflexivity|].
    destruct (nonDefaultLotsZero_dec acct) as [Hz|Hz].
    - apply close_test in Hz. rewrite Hz. reflexivity.
    - destruct (existsb _ _) eqn:E; [reflexivity|]. apply close_test in E. contradiction. }
  split; [|split].
  - rewrite Hrun. split.
    + intros H.
      destruct (Context_Accounts c !! an) as [l|] eqn:Ha; [|discriminate].
      destruct (deref c l) as [acct|] eqn:Hd; [|discriminate].
      destruct (Account_IsClosed acct (Context_Date c)) eqn:Hc; [discriminate|].
      destruct (nonDefaultLotsZero_dec acct) as [Hz|]; [|discriminate].
      exists l, acct. auto.
    + intros (l & acct & -> & -> & -> & Hz).
      destruct (nonDefaultLotsZero_dec acct); [reflexivity|contradiction].
  - intros l acct Ha Hd Hc Hz. rewrite Hrun, Ha, Hd, Hc.
    destruct (nonDefaultLotsZero_dec acct); [reflexivity|contradiction].
  - intros l acct Ha Hd Hc Hz. rewrite Hrun, Ha, Hd, Hc.
    destruct (nonDefaultLotsZero_dec acct); [contradiction|reflexivity].
Qed.
Lemma C1_close_witness :
  CloseFunction "close" (mkOperands [VString "Assets:A"] 0) ledgerA
  = (None, mkOperands [] 0, store ledgerA 0%nat (set_ClosingDate acctA day1)).
Proof.
  apply (proj1 (proj2 (C1_close "close" [] 0%nat "Assets:A" ledgerA ltac:(cbn; lia))) 0%nat acctA).
  - reflexivity.
  - reflexivity.
  - reflexivity.
  - apply close_test. reflexivity.
Defined.

(** The ledger of the claim: after a transaction has left 5 USD in the
    default lot of [Assets:A], [close] succeeds; the account is closed with
    the balance still there. *)
Lemma C1_close_nonzero_default_lot :
  (fun '(r, c) => (r, lotBalance c "Assets:A" "" "USD",
                   Account_ClosingDate <$> accountNamed c "Assets:A"))
    <$> runContext "2000 1 1 date  Assets:A open  Equity open  USD Dollar commodity
                    E D  Assets:A 5 USD xfer  Equity -5 USD xfer  xact
                    Assets:A close"
  = Some (None, Some (mkDecimal 5 0), Some (mkDate 2000 1 1)).
Proof. vm_compute. reflexivity. Qed.

(** A lot that still exists does not stand in the way of [close] once its
    balance is zero: the lot [foolot] is never removed here. *)
Example close_with_zero_lot_left :
  (fun '(r, c) => (r, lotBalance c "Assets:A" "foolot" "JPY",
                   Account_ClosingDate <$> accountNamed c "Assets:A"))
    <$> runContext "2000 1 1 date  Assets:A open  Equity open  JPY Yen commodity
                    E D  Assets:A 30 JPY xfer foolot create-lot  Equity -30 JPY xfer  xact
                    E D  Assets:A -30 JPY xfer foolot lot  Equity 30 JPY xfer  xact
                    Assets:A close"
  = Some (None, Some (mkDecimal 0 0), Some (mkDate 2000 1 1)).
Proof. vm_compute. reflexivity. Qed.

(** A nonzero balance in a lot other than the default one does make [close]
    fail. *)
Example close_with_nonzero_lot :
  fst <$> runContext "2000 1 1 date  Assets:A open  Equity open  JPY Yen commodity
                      E D  Assets:A 30 JPY xfer foolot create-lot  Equity -30 JPY xfer  xact
                      Assets:A close"
  = Some (Some (Prefixed "<date>"
                  (AtLine 3 (Errorf "%v: cannot close account %v because lot %v has %v %v")))).
Proof. vm_compute. reflexivity. Qed.

(** ** xact: applying the transfers *)







(** A ledger on which it happens: the lot [foo] is created, a transfer is
    bound to it, the lot is closed inside a scope of its own, and the
    transaction is run.  The balance check passes (-5 + 5 = 0), the transfer
    to [Equity] is applied, the transfer to [foo] fails: the run ends with an
    error and [Equity] keeps the -5 USD. *)
Example xact_fails_half_applied :
  (fun '(r, c) => (r, lotBalance c "Equity" "" "USD", lotBalance c "Assets:A" "foo" "USD"))
    <$> runContext "2000 1 1 date  Assets:A open  Equity open  USD Dollar commodity
                    E D  Assets:A 0 USD xfer foo create-lot  Equity 0 USD xfer  xact
                    E D  Equity -5 USD xfer  Assets:A 5 USD xfer foo lot
                         (Assets:A foo close-lot)  xact"
  = Some (Some (Prefixed "<date>"
                  (AtLine 4 (Prefixed "xact" (Errorf "account %v does not have a lot named %v")))),
          Some (mkDecimal (-5) 0), None).
Proof. vm_compute. reflexivity. Qed.

(** ** Decimal arithmetic is exact *)

Lemma ten_neq_0 : ~ (10 # 1 == 0)%Q.
Proof. intros H. discriminate H. Qed.

Lemma dval_rescale d e :
  e <= Decimal_exp d -> (dval (Decimal_rescale d e) == dval d)%Q.
Proof.
  intros Hle. unfold Decimal_rescale, dval.
  destruct (Z.eqb_spec (Decimal_exp d) e) as [->|Hne]; [reflexivity|].
  replace (Decimal_exp d <? e) with false by (symmetry; apply Z.ltb_ge; lia).
  cbn [Decimal_value Decimal_exp].
  rewrite inject_Z_mult, Zpower_Qpower by lia.
  change (inject_Z 10) with (10 # 1)%Q.
  rewrite <- Qmult_assoc, <- Qpower_plus by apply ten_neq_0.
  replace (Decimal_exp d - e + e) with (Decimal_exp d) by lia. reflexivity.
Qed.

(** [Add] adds the numbers. *)
Lemma dval_Add a b : (dval (Decimal_Add a b) == dval a + dval b)%Q.
Proof.
  unfold Decimal_Add.
  set (e := Z.min (Decimal_exp a) (Decimal_exp b)).
  rewrite <- (dval_rescale a e), <- (dval_rescale b e) by lia.
  assert (Decimal_exp (Decimal_rescale a e) = e) as Ha.
  { unfold Decimal_rescale. repeat case_match; cbn; auto. by apply Z.eqb_eq. }
  assert (Decimal_exp (Decimal_rescale b e) = e) as Hb.
  { unfold Decimal_rescale. repeat case_match; cbn; auto. by apply Z.eqb_eq. }
  unfold dval. cbn [Decimal_value Decimal_exp]. rewrite Ha, Hb.
  rewrite inject_Z_plus. ring.
Qed.

(** [IsZero] holds of the representations of zero. *)
Lemma dval_IsZero d : Decimal_IsZero d = true <-> (dval d == 0)%Q.
Proof.
  unfold Decimal_IsZero, dval. split.
  - intros H. apply Z.eqb_eq in H. rewrite H. ring.
  - intros H. apply Qmult_integral in H as [H|H].
    + apply Z.eqb_eq. destruct (Decimal_value d); cbn in *; try reflexivity; discriminate H.
    + exfalso. revert H. apply Qpower_not_0, ten_neq_0.
Qed.

(** ** xact: the balance check *)

Lemma checkTransfers_loop_spec ts : forall q,
  match checkTransfers_loop q ts with
  | inr q' =>
      (forall t, t ∈ ts -> transferCommodity t = Quantity_Commodity q)
      /\ Quantity_Commodity q' = Quantity_Commodity q
      /\ (dval (Quantity_Amount q') == dval (Quantity_Amount q) + Qsum (map transferValue ts))%Q
  | inl _ => exists t, t ∈ ts /\ transferCommodity t <> Quantity_Commodity q
  end.
Proof.
  induction ts as [|t ts IH]; intros q; cbn [checkTransfers_loop].
  - split; [|split]; [intros t Ht; by apply elem_of_nil in Ht | reflexivity | unfold Qsum; cbn [map foldr]; ring].
  - fold (transferCommodity t).
    destruct (decide (transferCommodity t = Quantity_Commodity q)) as [E|E].
    + rewrite bool_decide_eq_true_2 by exact E. cbn [negb].
      specialize (IH (mkQuantity (Decimal_Add (Quantity_Amount q)
                                   (Quantity_Amount (GetTransferQuantity t)))
                        (Quantity_Commodity q))).
      destruct (checkTransfers_loop _ ts) as [e|q'].
      * destruct IH as (t' & Hin & Hne). exists t'. split; [by right|exact Hne].
      * destruct IH as (Hall & Hc & Hv). cbn in Hc, Hv. split; [|split].
        -- intros t' Ht'. apply elem_of_cons in Ht' as [->|Ht']; auto.
        -- exact Hc.
        -- rewrite Hv, dval_Add. unfold Qsum. cbn [map foldr]. unfold transferValue. ring.
    + rewrite bool_decide_eq_false_2 by exact E. cbn [negb].
      exists t. split; [by left|exact E].
Qed.

(** [checkTransfers] accepts exactly the balanced lists of transfers. *)
Lemma checkTransfers_balanced ts :
  ts <> [] -> (checkTransfers ts = None <-> balancedTransfers ts).
Proof.
  destruct ts as [|t0 rest]; [congruence|]. intros _.
  unfold checkTransfers, balancedTransfers.
  pose proof (checkTransfers_loop_spec rest (GetTransferQuantity t0)) as Hs.
  destruct (checkTransfers_loop (GetTransferQuantity t0) rest) as [e|q'].
  - split; [discriminate|].
    intros [[C HC] _]. destruct Hs as (t & Hin & Hne). exfalso. apply Hne.
    rewrite (HC t) by (by right). symmetry. apply (HC t0). by left.
  - destruct Hs as (Hall & Hc & Hv).
    assert ((dval (Quantity_Amount q') == Qsum (map transferValue (t0 :: rest)))%Q) as Hsum.
    { rewrite Hv. unfold Qsum. cbn [map foldr]. unfold transferValue. reflexivity. }
    split.
    + intros H. split.
      * exists (transferCommodity t0). intros t Ht.
        apply elem_of_cons in Ht as [->|Ht]; [reflexivity|]. by apply Hall.
      * rewrite <- Hsum. apply dval_IsZero.
        destruct (Decimal_IsZero (Quantity_Amount q')); [reflexivity|discriminate].
    + intros [_ Hz]. rewrite <- Hsum in Hz. apply dval_IsZero in Hz. by rewrite Hz.
Qed.

(** ** xact: finding the operands *)

Lemma scanDown_over p (A B C : list Value) : forall k,
  (k <= List.length B)%nat ->
  Forall (fun v => p v = true) B ->
  scanDown p (A ++ B ++ C) (List.length A + k) = scanDown p (A ++ B ++ C) (List.length A).
Proof.
  induction k as [|k IH]; intros Hk HB; [by rewrite Nat.add_0_r|].
  replace (List.length A + S k)%nat with (S (List.length A + k)) by lia.
  cbn [scanDown].
  rewrite lookup_app_r by lia.
  replace (List.length A + k - List.length A)%nat with k by lia.
  rewrite lookup_app_l by lia.
  destruct (B !! k) as [v|] eqn:Hv.
  - rewrite (proj1 (Forall_lookup _ _) HB k v Hv). apply IH; [lia|exact HB].
  - apply lookup_ge_None in Hv. lia.
Qed.

Lemma scanDown_stop p (A C : list Value) v :
  p v = false ->
  scanDown p (A ++ v :: C) (S (List.length A)) = Z.of_nat (S (List.length A)).
Proof.
  intros Hv. cbn [scanDown].
  rewrite lookup_app_r by lia. rewrite Nat.sub_diag. cbn. rewrite Hv. lia.
Qed.

Lemma scanDown_stop_snoc p (A C : list Value) v :
  p v = false ->
  scanDown p ((A ++ [v]) ++ C) (List.length (A ++ [v])) = Z.of_nat (List.length (A ++ [v])).
Proof.
  intros Hv. rewrite <- app_assoc, length_app. cbn [List.length app].
  replace (List.length A + 1)%nat with (S (List.length A)) by lia.
  by apply scanDown_stop.
Qed.

Lemma Forall_isString notes : Forall (fun v => isString v = true) (map VString notes).
Proof. induction notes; constructor; auto. Qed.

Lemma Forall_isTransfer ts : Forall (fun v => isTransfer v = true) (map VTransfer ts).
Proof. induction ts; constructor; auto. Qed.

Lemma asTransfers_map ts : asTransfers (map VTransfer ts) = Some ts.
Proof. induction ts as [|t ts IH]; cbn; [reflexivity|]. by rewrite IH. Qed.

(** On operands of the expected shape [ParseTransaction] finds the entity,
    the description, the transfers and the notes, pops them all, and checks
    the balance. *)
Lemma ParseTransaction_operands below idx entity description ts notes c :
  (idx <= List.length below)%nat ->
  (2 <= List.length ts)%nat ->
  Nat.even (List.length notes) = true ->
  ParseTransaction (xactOperands below idx entity description ts notes) c
  = match checkTransfers ts with
    | Some err => (inl err, mkOperands below idx)
    | None =>
        (inr (mkTransaction entity description ts (setPairs (map VString notes) ∅)),
         mkOperands below idx)
    end.
Proof.
  intros Hidx Hts Heven.
  set (T := map VTransfer ts). set (N := map VString notes).
  set (pre := drop idx below).
  assert (List.length T = List.length ts) as HlT by apply length_map.
  assert (List.length N = List.length notes) as HlN by apply length_map.
  assert (GetValues (xactOperands below idx entity description ts notes)
          = (pre ++ VString entity :: VString description :: (T ++ N))%list) as Hvals.
  { unfold GetValues, xactOperands. cbn [Operands_stack Operands_stackIndex].
    rewrite drop_app_le by exact Hidx. reflexivity. }
  (* the last transfer *)
  destruct (exists_last (l := ts)) as (ts' & tlast & Hlast); [intros ->; cbn in Hts; lia|].
  set (values := (pre ++ VString entity :: VString description :: (T ++ N))%list).
  assert (scanDown isString values (List.length values)
          = Z.of_nat (List.length pre + 2 + List.length ts)) as Hnote.
  { set (A' := (pre ++ VString entity :: VString description :: map VTransfer ts')%list).
    assert (values = ((A' ++ [VTransfer tlast]) ++ N ++ [])%list) as Hv.
    { unfold values, A', T. rewrite Hlast, map_app. cbn [map].
      rewrite app_nil_r, <- ?app_assoc. reflexivity. }
    rewrite Hv at 2.
    replace (List.length ((A' ++ [VTransfer tlast]) ++ N ++ []))
      with (List.length (A' ++ [VTransfer tlast]) + List.length N)%nat
      by (rewrite !length_app; cbn; lia).
    rewrite Hv.
    rewrite scanDown_over by (auto; apply Forall_isString).
    rewrite scanDown_stop_snoc by reflexivity.
    unfold A'. rewrite !length_app. cbn [List.length]. rewrite length_map.
    rewrite Hlast, length_app. cbn. lia. }
  assert (scanDown isTransfer values (List.length pre + 2 + List.length ts)
          = Z.of_nat (List.length pre + 2)) as Htrans.
  { assert (values = ((pre ++ [VString entity]) ++ [VString description] ++ T ++ N)%list) as Hv.
    { unfold values. rewrite <- ?app_assoc. reflexivity. }
    assert (values = (((pre ++ [VString entity]) ++ [VString description]) ++ T ++ N)%list) as Hv2.
    { unfold values. rewrite <- ?app_assoc. reflexivity. }
    rewrite Hv2.
    replace (List.length pre + 2 + List.length ts)%nat
      with (List.length ((pre ++ [VString entity]) ++ [VString description]) + List.length T)%nat
      by (rewrite !length_app; cbn; lia).
    rewrite scanDown_over by (auto; apply Forall_isTransfer).
    rewrite scanDown_stop_snoc by reflexivity.
    rewrite !length_app. cbn. lia. }
  unfold ParseTransaction, getTransferAndNoteOperandStartIndices.
  rewrite Hvals. fold values. rewrite Hnote.
  replace (Z.of_nat (List.length pre + 2 + List.length ts) - 1 <? 0) with false
    by (symmetry; apply Z.ltb_ge; lia).
  rewrite Nat2Z.id, Htrans.
  replace (Z.of_nat (List.length pre + 2) =? 0) with false by (symmetry; apply Z.eqb_neq; lia).
  replace (Z.of_nat (List.length pre + 2) =? 1) with false by (symmetry; apply Z.eqb_neq; lia).
  replace (Z.of_nat (List.length pre + 2 + List.length ts) - Z.of_nat (List.length pre + 2))
    with (Z.of_nat (List.length ts)) by lia.
  replace (Z.of_nat (List.length ts) <? 2) with false by (symmetry; apply Z.ltb_ge; lia).
  replace (Z.of_nat (List.length values) - Z.of_nat (List.length pre + 2 + List.length ts))
    with (Z.of_nat (List.length notes))
    by (unfold values; rewrite !length_app; cbn; rewrite !length_app; lia).
  assert (Z.rem (Z.of_nat (List.length notes)) 2 = 0) as Hrem.
  { apply Nat.even_spec in Heven as [k Hk]. rewrite Hk, Nat2Z.inj_mul.
    apply Z.rem_divide; [lia|]. exists (Z.of_nat k). lia. }
  rewrite Hrem. cbn [Z.eqb negb].
  unfold xactOperands.
  rewrite (Pop_app below (VString entity :: VString description :: (T ++ N)) idx _ Hidx)
    by (cbn; rewrite length_app; lia).
  rewrite Nat2Z.id. rewrite <- HlT. rewrite take_app_length, drop_app_length.
  unfold T. rewrite asTransfers_map.
  destruct (checkTransfers ts); reflexivity.
Qed.

(** ** xact: what applying the transfers does to the balances *)

Lemma deref_store c l a l' :
  deref (store c l a) l' = if decide (l = l') then Some a else deref c l'.
Proof. unfold deref, store. cbn. apply lookup_insert. Qed.

Lemma lotBalanceOf_set_LotsOf acct lnT ctol ln cn :
  lotBalanceOf (set_LotsOf acct lnT ctol) ln cn
  = if decide (lnT = ln)
    then ctol !! cn ≫= fun lot => Some (Quantity_Amount (Lot_Balance lot))
    else lotBalanceOf acct ln cn.
Proof.
  unfold lotBalanceOf, set_LotsOf. cbn. rewrite lookup_insert.
  destruct (decide (lnT = ln)); reflexivity.
Qed.

Lemma amountTo_hit t :
  amountTo (Transfer_Account t) (Transfer_LotName t) (Quantity_Commodity (Transfer_Quantity t)) t
  = dval (Quantity_Amount (Transfer_Quantity t)).
Proof. unfold amountTo. by rewrite bool_decide_eq_true_2. Qed.

Lemma amountTo_miss l ln cn t :
  (Transfer_Account t <> l \/ Transfer_LotName t <> ln
   \/ Quantity_Commodity (Transfer_Quantity t) <> cn) ->
  amountTo l ln cn t = 0%Q.
Proof. intros H. unfold amountTo. rewrite bool_decide_eq_false_2; [reflexivity|]. tauto. Qed.

(** A transfer that applies adds its signed amount to the balance of its
    account, lot and commodity, and leaves every other balance as it is. *)
Lemma ExecuteTransfer_bal t c c' l ln cn :
  ExecuteTransfer t c = (None, c') ->
  (bal c' l ln cn == bal c l ln cn + amountTo l ln cn t)%Q.
Proof.
  unfold ExecuteTransfer.
  destruct (deref c (Transfer_Account t)) as [acct|] eqn:Hd; [|discriminate].
  remember (Transfer_Account t) as la eqn:Ela.
  remember (Transfer_LotName t) as lnT eqn:Eln.
  remember (Quantity_Commodity (Transfer_Quantity t)) as cnT eqn:Ecn.
  assert (forall ctol',
             (forall cn', cn' <> cnT ->
                lotBalanceOf (set_LotsOf acct lnT ctol') lnT cn' = lotBalanceOf acct lnT cn') ->
             (match lotBalanceOf (set_LotsOf acct lnT ctol') lnT cnT with
              | Some d => dval d
              | None => 0
              end ==
              match lotBalanceOf acct lnT cnT with Some d => dval d | None => 0 end
              + dval (Quantity_Amount (Transfer_Quantity t)))%Q ->
             (bal (store c la (set_LotsOf acct lnT ctol')) l ln cn
              == bal c l ln cn + amountTo l ln cn t)%Q) as Hgen.
  { intros ctol' Hother Hsame. unfold bal. rewrite deref_store.
    destruct (decide (la = l)) as [<-|Hl].
    - rewrite Hd.
      destruct (decide (lnT = ln)) as [<-|Hln].
      + destruct (decide (cnT = cn)) as [<-|Hcn].
        * replace (amountTo la lnT cnT t) with (dval (Quantity_Amount (Transfer_Quantity t)))
            by (subst; symmetry; apply amountTo_hit).
          exact Hsame.
        * rewrite amountTo_miss by (subst; auto). rewrite Hother by auto. ring.
      + rewrite lotBalanceOf_set_LotsOf, decide_False by exact Hln.
        rewrite amountTo_miss by (subst; auto). ring.
    - rewrite amountTo_miss by (subst; auto). ring. }
  assert (forall ctol' cn',
             lotBalanceOf (set_LotsOf acct lnT ctol') lnT cn'
             = ctol' !! cn' ≫= fun lot => Some (Quantity_Amount (Lot_Balance lot))) as Hset.
  { intros. by rewrite lotBalanceOf_set_LotsOf, decide_True. }
  destruct (Account_Lots acct !! lnT) as [ctol|] eqn:Hl.
  - destruct (ctol !! cnT) as [lot|] eqn:Hc; intros [= <-]; apply Hgen.
    + intros cn' Hne. rewrite Hset, lookup_insert_ne by auto.
      unfold lotBalanceOf. rewrite Hl. reflexivity.
    + rewrite Hset, lookup_insert_eq. unfold lotBalanceOf. rewrite Hl. cbn. rewrite Hc. cbn.
      apply dval_Add.
    + intros cn' Hne. rewrite Hset, lookup_insert_ne by auto.
      unfold lotBalanceOf. rewrite Hl. reflexivity.
    + rewrite Hset, lookup_insert_eq. unfold lotBalanceOf. rewrite Hl. cbn. rewrite Hc. cbn. ring.
  - destruct (Transfer_CreateLot t); [|repeat case_match; discriminate].
    intros [= <-]. apply Hgen.
    + intros cn' Hne. rewrite Hset, lookup_singleton_ne by auto.
      unfold lotBalanceOf. rewrite Hl. reflexivity.
    + rewrite Hset, lookup_singleton_eq. unfold lotBalanceOf. rewrite Hl. cbn. ring.
Qed.

Lemma Execute_loop_bal ts : forall c c' l ln cn,
  Execute_loop ts c = (None, c') ->
  (bal c' l ln cn == bal c l ln cn + Qsum (map (amountTo l ln cn) ts))%Q.
Proof.
  induction ts as [|t ts IH]; intros c c' l ln cn H; cbn in H.
  - simplify_eq. unfold Qsum. cbn. ring.
  - destruct (ExecuteTransfer t c) as [[e|] c1] eqn:He; [discriminate|].
    rewrite (IH _ _ l ln cn H), (ExecuteTransfer_bal _ _ _ l ln cn He).
    unfold Qsum. cbn [map foldr]. ring.
Qed.

(** ** xact: when applying the transfers succeeds *)

Lemma ExecuteTransfer_lotsGrow t c c' :
  ExecuteTransfer t c = (None, c') -> lotsGrow c c'.
Proof.
  unfold ExecuteTransfer, lotsGrow. intros H l acct Hd.
  destruct (deref c (Transfer_Account t)) as [acctT|] eqn:HdT; [|discriminate].
  assert (forall ctol', c' = store c (Transfer_Account t)
                               (set_LotsOf acctT (Transfer_LotName t) ctol') ->
          exists acct', deref c' l = Some acct'
                        /\ forall ln, is_Some (Account_Lots acct !! ln) ->
                                      is_Some (Account_Lots acct' !! ln)) as Hgen.
  { intros ctol' ->. rewrite deref_store.
    destruct (decide (Transfer_Account t = l)) as [<-|Hne].
    - eexists. split; [reflexivity|]. intros ln Hln. cbn.
      rewrite lookup_insert. case_decide; [eauto|]. congruence.
    - eauto. }
  repeat case_match; simplify_eq; eapply Hgen; reflexivity.
Qed.

Lemma targetsReady_lotsGrow c c' ts :
  lotsGrow c c' -> targetsReady c ts -> targetsReady c' ts.
Proof.
  intros Hg Hr t Ht. destruct (Hr t Ht) as (acct & Hd & Hl).
  destruct (Hg _ _ Hd) as (acct' & Hd' & Hlots).
  exists acct'. split; [exact Hd'|]. destruct Hl as [Hl|Hl]; auto.
Qed.

Lemma ExecuteTransfer_ready t c :
  targetsReady c [t] -> exists c', ExecuteTransfer t c = (None, c').
Proof.
  intros Hr. destruct (Hr t ltac:(by left)) as (acct & Hd & Hl).
  unfold ExecuteTransfer. rewrite Hd.
  destruct (Account_Lots acct !! Transfer_LotName t) as [ctol|] eqn:E.
  - destruct (ctol !! _); eauto.
  - destruct Hl as [[? Hl]|Hl]; [discriminate|]. rewrite Hl. eauto.
Qed.

(** If every transfer can be applied, applying them all succeeds. *)
Lemma Execute_loop_ready ts : forall c,
  targetsReady c ts -> exists c', Execute_loop ts c = (None, c').
Proof.
  induction ts as [|t ts IH]; intros c Hr; cbn; [eauto|].
  destruct (ExecuteTransfer_ready t c) as [c1 H1].
  { intros t' Ht'. apply Hr. apply list_elem_of_singleton in Ht' as ->. by left. }
  rewrite H1. apply IH.
  eapply targetsReady_lotsGrow; [eapply ExecuteTransfer_lotsGrow; eauto|].
  intros t' Ht'. apply Hr. by right.
Qed.
(** C3 (as the code has it).  [xact] is given an entity, a description, at
    least two transfers and an even number of notes.
    (1) If the exchange-aware quantities of the transfers are all in one
    commodity and sum to exactly zero, and every transfer can be applied
    (its account has the target lot, or the transfer is flagged to create
    it), [xact] succeeds, pops its operands, and the balance of every
    account, lot and commodity changes by exactly the sum of the signed
    amounts of the transfers that target it.
    (2) If the sum is not zero or the commodities differ, [xact] fails and
    leaves the context, and so every balance, unchanged. *)
Theorem C3_xact fn below idx entity description ts notes c :
  (idx <= List.length below)%nat ->
  (2 <= List.length ts)%nat ->
  Nat.even (List.length notes) = true ->
  let op := xactOperands below idx entity description ts notes in
  (balancedTransfers ts -> targetsReady c ts ->
   exists c',
     XactFunction fn op c = (None, mkOperands below idx, c')
     /\ forall l ln cn,
         (bal c' l ln cn == bal c l ln cn + Qsum (map (amountTo l ln cn) ts))%Q)
  /\ (~ balancedTransfers ts ->
      exists err, XactFunction fn op c = (Some err, mkOperands below idx, c)).
Proof.
  intros Hidx Hts Heven op.
  assert (ts <> []) as Hne by (intros ->; cbn in Hts; lia).
  pose proof (ParseTransaction_operands below idx entity description ts notes c
                Hidx Hts Heven) as HP.
  fold op in HP. split.
  - intros Hbal Hready.
    apply (checkTransfers_balanced ts Hne) in Hbal. rewrite Hbal in HP.
    destruct (Execute_loop_ready ts c Hready) as [c' HE].
    exists c'. split.
    + unfold XactFunction. rewrite HP. unfold Execute. cbn. rewrite HE. reflexivity.
    + intros l ln cn. by apply Execute_loop_bal.
  - intros Hbal.
    destruct (checkTransfers ts) as [err|] eqn:Hc.
    + exists (Prefixed fn err). unfold XactFunction. rewrite HP. reflexivity.
    + exfalso. apply Hbal. by apply checkTransfers_balanced.
Qed.

Lemma C3_xact_witness :
  (exists c',
      XactFunction "xact" (xactOperands [] 0 "E" "D" [xferA; xferEquity] []) ledgerA
      = (None, mkOperands [] 0, c')
      /\ (bal c' 0%nat "" "USD" == bal ledgerA 0%nat "" "USD" + (5 # 1))%Q
      /\ (bal c' 1%nat "" "USD" == bal ledgerA 1%nat "" "USD" + (-5 # 1))%Q)
  /\ (exists err,
         XactFunction "xact" (xactOperands [] 0 "E" "D" [xferA; xferA] []) ledgerA
         = (Some err, mkOperands [] 0, ledgerA)).
Proof.
  split.
  - destruct (proj1 (C3_xact "xact" [] 0%nat "E" "D" [xferA; xferEquity] [] ledgerA
                       ltac:(cbn; lia) ltac:(cbn; lia) eq_refl)) as (c' & Hrun & Hbal).
    + apply checkTransfers_balanced; [discriminate|reflexivity].
    + intros t Ht.
      apply elem_of_cons in Ht as [->|Ht]; [|apply list_elem_of_singleton in Ht as ->].
      * exists acctA. split; [reflexivity|]. left. cbn. rewrite lookup_singleton_eq. eauto.
      * exists acctEquity. split; [reflexivity|]. left. cbn. rewrite lookup_singleton_eq. eauto.
    + exists c'. split; [exact Hrun|]. split.
      * rewrite (Hbal 0%nat "" "USD"). reflexivity.
      * rewrite (Hbal 1%nat "" "USD"). reflexivity.
  - apply (proj2 (C3_xact "xact" [] 0%nat "E" "D" [xferA; xferA] [] ledgerA
                    ltac:(cbn; lia) ltac:(cbn; lia) eq_refl)).
    intros H. apply checkTransfers_balanced in H; [|discriminate].
    vm_compute in H. discriminate H.
Defined.

(** Two transfers of 5 USD and -5 USD are balanced, and yet [xact] fails on
    them when the lot one of them targets is missing: over [ledgerA], with
    the lot [nolot]; and in the run of a ledger that closes the default lot
    of [Equity] between building the transfer and the transaction.  In that
    run the transfer to [Assets:A] has been applied when [xact] fails. *)
Lemma C3_xact_balanced_but_fails :
  checkTransfers [xferEquity; xferNoLot] = None
  /\ fst (fst (XactFunction "xact"
                 (xactOperands [] 0 "E" "D" [xferEquity; xferNoLot] []) ledgerA))
     = Some (Prefixed "xact" (Errorf "account %v does not have a lot named %v"))
  /\ (fun '(r, c) => (r, lotBalance c "Assets:A" "" "USD"))
       <$> runContext ("2000 1 1 date  Assets:A open  Equity open  USD Dollar commodity
                        E D  Assets:A 5 USD xfer  Equity -5 USD xfer  (Equity "
                         ++ String dquote (String dquote " close-lot)  xact"))
     = Some (Some (Prefixed "<date>"
                     (AtLine 2 (Prefixed "xact"
                                  (Errorf "account %v does not have a default lot")))),
             Some (mkDecimal 5 0)).
Proof. vm_compute. repeat split; reflexivity. Qed.

(** Two transfers to one lot: 5 USD and -5 USD to the default lot of
    [Assets:A].  [xact] succeeds and the lot's balance moves by their sum,
    zero, and by neither transfer's own amount. *)
Example xact_same_lot_twice :
  let ts := [xferA; mkTransfer 0%nat "" false (usd (-5)) None ""] in
  let r := XactFunction "xact" (xactOperands [] 0 "E" "D" ts []) ledgerA in
  fst (fst r) = None
  /\ lotBalance ledgerA "Assets:A" "" "USD" = Some (mkDecimal 5 0)
  /\ lotBalance (snd r) "Assets:A" "" "USD" = Some (mkDecimal 5 0).
Proof. vm_compute. repeat split; reflexivity. Qed.

(** With a single transfer and nothing else in the view, [Pop] returns that
    one value and [xact] fails on the entity, which is not a string. *)
Example xact_lone_transfer :
  fst <$> run "USD Dollar commodity Assets:A USD open Assets:A 5 USD xfer xact"
  = Some (Some (Prefixed "<date>"
                  (AtLine 1 (Prefixed "xact" (Errorf "non-string entity: %v"))))).
Proof. vm_compute. reflexivity. Qed.

(** ** The default lot *)

Lemma keepsDefaultLots_refl c : keepsDefaultLots c c.
Proof. intros l a' Hd Hl. eauto. Qed.

Lemma keepsDefaultLots_trans c1 c2 c3 :
  keepsDefaultLots c1 c2 -> keepsDefaultLots c2 c3 -> keepsDefaultLots c1 c3.
Proof.
  intros H12 H23 l a3 Hd Hl.
  destruct (H23 l a3 Hd Hl) as (a2 & Hd2 & Hl2). eauto.
Qed.

Lemma keepsDefaultLots_objs c c' :
  Context_objs c' = Context_objs c -> keepsDefaultLots c c'.
Proof. intros E l a' Hd Hl. unfold deref in *. rewrite E in Hd. eauto. Qed.

Lemma keepsDefaultLots_store c l0 acct a' :
  deref c l0 = Some acct ->
  (Account_Lots a' !! "" = None -> Account_Lots acct !! "" = None) ->
  keepsDefaultLots c (store c l0 a').
Proof.
  intros Hd0 Himp l a Hd Hl. rewrite deref_store in Hd.
  destruct (decide (l0 = l)) as [<-|Hne]; simplify_eq; eauto.
Qed.

Lemma keepsDefaultLots_alloc c a' :
  is_Some (Account_Lots a' !! "") ->
  keepsDefaultLots c (store c (fresh (dom (Context_objs c))) a').
Proof.
  intros [x Hx] l a Hd Hl. rewrite deref_store in Hd.
  destruct (decide (fresh (dom (Context_objs c)) = l)) as [<-|Hne]; simplify_eq; eauto.
Qed.

Lemma foldl_keepsDefaultLots {A} (f : Context -> A -> Context) (l : list A) :
  (forall c x, keepsDefaultLots c (f c x)) ->
  forall c, keepsDefaultLots c (foldl f c l).
Proof.
  intros Hf. induction l as [|x l IH]; intros c; cbn; [apply keepsDefaultLots_refl|].
  eapply keepsDefaultLots_trans; [apply Hf | apply IH].
Qed.

Lemma indexTag_objs target c tag : Context_objs (indexTag target c tag) = Context_objs c.
Proof. unfold indexTag. repeat case_match; reflexivity. Qed.

Lemma tagAccount_keepsDefaultLots l c t : keepsDefaultLots c (tagAccount l c t).
Proof.
  unfold tagAccount. destruct t; try apply keepsDefaultLots_refl.
  eapply keepsDefaultLots_trans; [apply keepsDefaultLots_objs, (indexTag_objs (TargetAccount l))|].
  destruct (deref _ l) eqn:Hd; [|apply keepsDefaultLots_refl].
  eapply keepsDefaultLots_store; eauto.
Qed.

Lemma tagCommodity_keepsDefaultLots cn c t : keepsDefaultLots c (tagCommodity cn c t).
Proof.
  unfold tagCommodity. destruct t; try apply keepsDefaultLots_refl.
  apply keepsDefaultLots_objs. repeat case_match; cbn; apply indexTag_objs.
Qed.

Lemma untagAccount_keepsDefaultLots l c t : keepsDefaultLots c (untagAccount l c t).
Proof.
  unfold untagAccount. destruct t; try apply keepsDefaultLots_refl.
  match goal with
  | |- keepsDefaultLots c (match deref ?c1 l with _ => _ end) =>
      assert (Context_objs c1 = Context_objs c) as Hobjs
        by (repeat case_match; reflexivity);
      eapply (keepsDefaultLots_trans c c1); [by apply keepsDefaultLots_objs|];
      destruct (deref c1 l) eqn:Hd; [|apply keepsDefaultLots_refl];
      eapply keepsDefaultLots_store; eauto
  end.
Qed.

Lemma ExecuteTransfer_keepsDefaultLots t c r c' :
  ExecuteTransfer t c = (r, c') -> keepsDefaultLots c c'.
Proof.
  unfold ExecuteTransfer. intros H.
  repeat (case_match; simplify_eq); simplify_eq; try apply keepsDefaultLots_refl;
    (eapply keepsDefaultLots_store; [eassumption|]); cbn; intros Hl;
    apply lookup_insert_None in Hl as [Hl _]; exact Hl.
Qed.

Lemma Execute_loop_keepsDefaultLots ts : forall c r c',
  Execute_loop ts c = (r, c') -> keepsDefaultLots c c'.
Proof.
  induction ts as [|t ts IH]; intros c r c' H; cbn in H.
  - simplify_eq. apply keepsDefaultLots_refl.
  - destruct (ExecuteTransfer t c) as [[e|] c1] eqn:He.
    + simplify_eq. eapply ExecuteTransfer_keepsDefaultLots; eauto.
    + eapply keepsDefaultLots_trans; [eapply ExecuteTransfer_keepsDefaultLots; eauto|eauto].
Qed.

Lemma addCommodities_Lots c values : forall acct acct',
  addCommodities c values acct = inr acct' -> Account_Lots acct' = Account_Lots acct.
Proof.
  induction values as [|v values IH]; intros acct acct' H; cbn in H; [by simplify_eq|].
  repeat (case_match; simplify_eq). by rewrite (IH _ _ H).
Qed.

Local Ltac keeps_default :=
  intros fn op c r op' c' H;
  repeat (case_match; simplify_eq); simplify_eq;
  try apply keepsDefaultLots_refl;
  try (eapply keepsDefaultLots_store; [eassumption|]; cbn; solve [auto]);
  auto using foldl_keepsDefaultLots, tagAccount_keepsDefaultLots,
    tagCommodity_keepsDefaultLots, untagAccount_keepsDefaultLots.

Lemma AddNotes_keepsDefaultLots : keeps keepsDefaultLots AddNotesFunction.
Proof. unfold keeps, AddNotesFunction, fail, ok. keeps_default. Qed.
Lemma Assert_keepsDefaultLots : keeps keepsDefaultLots AssertFunction.
Proof. unfold keeps, AssertFunction, fail, ok. keeps_default. Qed.
Lemma AssertLot_keepsDefaultLots : keeps keepsDefaultLots AssertLotFunction.
Proof. unfold keeps, AssertLotFunction, fail, ok. keeps_default. Qed.
Lemma AssertLotsSum_keepsDefaultLots : keeps keepsDefaultLots AssertLotsSumFunction.
Proof. unfold keeps, AssertLotsSumFunction, fail, ok. keeps_default. Qed.
Lemma Close_keepsDefaultLots : keeps keepsDefaultLots CloseFunction.
Proof. unfold keeps, CloseFunction, fail, ok. keeps_default. Qed.
Lemma Comment_keepsDefaultLots : keeps keepsDefaultLots CommentFunction.
Proof. unfold keeps, CommentFunction, fail, ok. keeps_default. Qed.
Lemma Commodity_keepsDefaultLots : keeps keepsDefaultLots CommodityFunction.
Proof.
  unfold keeps, CommodityFunction, fail, ok. keeps_default.
  by apply keepsDefaultLots_objs.
Qed.
Lemma CreateLot_keepsDefaultLots : keeps keepsDefaultLots CreateLotFunction.
Proof. unfold keeps, CreateLotFunction, fail, ok. keeps_default. Qed.
Lemma Date_keepsDefaultLots : keeps keepsDefaultLots DateFunction.
Proof.
  unfold keeps, DateFunction, fail, ok. keeps_default.
  by apply keepsDefaultLots_objs.
Qed.
Lemma Lot_keepsDefaultLots : keeps keepsDefaultLots LotFunction.
Proof. unfold keeps, LotFunction, fail, ok. keeps_default. Qed.
Lemma Open_keepsDefaultLots : keeps keepsDefaultLots OpenFunction.
Proof.
  unfold keeps, OpenFunction, fail, ok, alloc. keeps_default.
  all: eapply keepsDefaultLots_trans;
    [|apply keepsDefaultLots_objs; reflexivity];
    apply keepsDefaultLots_alloc;
    match goal with
    | H : addCommodities _ _ _ = inr _ |- _ =>
        rewrite (addCommodities_Lots _ _ _ _ H); cbn; rewrite lookup_singleton_eq; eauto
    end.
Qed.
Lemma SetComment_keepsDefaultLots : keeps keepsDefaultLots SetCommentFunction.
Proof. unfold keeps, SetCommentFunction, fail, ok. keeps_default. Qed.
Lemma Tag_keepsDefaultLots : keeps keepsDefaultLots TagFunction.
Proof. unfold keeps, TagFunction, fail, ok. keeps_default. Qed.
Lemma TagCommodity_keepsDefaultLots : keeps keepsDefaultLots TagCommodityFunction.
Proof. unfold keeps, TagCommodityFunction, fail, ok. keeps_default. Qed.
Lemma Untag_keepsDefaultLots : keeps keepsDefaultLots UntagFunction.
Proof. unfold keeps, UntagFunction, fail, ok. keeps_default. Qed.
Lemma Xact_keepsDefaultLots : keeps keepsDefaultLots XactFunction.
Proof.
  unfold keeps, XactFunction, Execute. intros fn op c r op' c' H.
  repeat (case_match; simplify_eq); simplify_eq;
    eauto using Execute_loop_keepsDefaultLots, keepsDefaultLots_refl.
Qed.
Lemma Xfer_keepsDefaultLots : keeps keepsDefaultLots XferFunction.
Proof. unfold keeps, XferFunction. keeps_default. Qed.
Lemma XferExch_keepsDefaultLots : keeps keepsDefaultLots XferExchFunction.
Proof. unfold keeps, XferExchFunction. keeps_default. Qed.

Create HintDb ledger_default.
#[local] Hint Resolve AddNotes_keepsDefaultLots Assert_keepsDefaultLots
  AssertLot_keepsDefaultLots AssertLotsSum_keepsDefaultLots Close_keepsDefaultLots
  Comment_keepsDefaultLots Commodity_keepsDefaultLots CreateLot_keepsDefaultLots
  Date_keepsDefaultLots Lot_keepsDefaultLots Open_keepsDefaultLots
  SetComment_keepsDefaultLots Tag_keepsDefaultLots TagCommodity_keepsDefaultLots
  Untag_keepsDefaultLots Xact_keepsDefaultLots Xfer_keepsDefaultLots
  XferExch_keepsDefaultLots : ledger_default.

Lemma Pop_top op n values op' v :
  Pop op n = (values, op') -> last values = Some v -> last (Operands_stack op) = Some v.
Proof.
  unfold Pop. intros [= <- <-] Hl.
  rewrite <- (take_drop (Z.to_nat (Z.of_nat (List.length (Operands_stack op))
                                   - (if Length op <? n then Length op else n)))
                (Operands_stack op)).
  rewrite last_app, Hl. reflexivity.
Qed.

(** [close-lot] keeps the default lots unless it is given the empty name. *)
Lemma CloseLot_keepsDefaultLots fn op c r op' c' :
  CloseLotFunction fn op c = (r, op', c') ->
  last (Operands_stack op) <> Some (VString "") ->
  keepsDefaultLots c c'.
Proof.
  unfold CloseLotFunction, fail, ok. intros H Htop.
  destruct (Length op <? 2); [simplify_eq; apply keepsDefaultLots_refl|].
  destruct (Pop op 2) as [values op1] eqn:HP.
  repeat (case_match; simplify_eq); simplify_eq; try apply keepsDefaultLots_refl.
  eapply keepsDefaultLots_store; [eassumption|]. cbn. intros Hl.
  apply lookup_delete_None in Hl as [->|Hl]; [|exact Hl].
  exfalso. apply Htop. eapply Pop_top; [exact HP|reflexivity].
Qed.

Lemma keepsDefaultLots_all c c' :
  keepsDefaultLots c c' -> allHaveDefaultLot c -> allHaveDefaultLot c'.
Proof.
  intros Hk Hall l a' Hd.
  destruct (Account_Lots a' !! "") eqn:Hl; [eauto|].
  destruct (Hk l a' Hd Hl) as (a & Hda & Hla).
  destruct (Hall l a Hda) as [x Hx]. congruence.
Qed.

(** C2 (as the code has it).  (1) A new account has the default lot, empty.
    (2) Every registered function other than [close-lot] keeps the default
    lot of every account, whatever its operands and whether it succeeds or
    fails; (3) so does [close-lot] unless the lot name on top of the stack is
    the empty string.  (4) Hence in every state reached from the new context
    by such calls every account has its default lot.  (5) [close-lot] given
    the empty lot name removes the default lot of an open account once all
    the balances in it are zero. *)
Theorem C2_default_lot :
  (forall name creationDate, Account_Lots (NewAccount name creationDate) !! "" = Some ∅)
  /\ (forall name f,
        GetCoreFunctions !! name = Some f -> name <> "close-lot" ->
        forall fn op c r op' c', f fn op c = (r, op', c') -> keepsDefaultLots c c')
  /\ (forall fn op c r op' c',
        CloseLotFunction fn op c = (r, op', c') ->
        last (Operands_stack op) <> Some (VString "") ->
        keepsDefaultLots c c')
  /\ (forall c, rtc stepKeepingDefault NewContext c -> allHaveDefaultLot c)
  /\ (forall fn stack idx an c l acct ctol,
        (idx <= List.length stack)%nat ->
        Context_Accounts c !! an = Some l -> deref c l = Some acct ->
        Account_IsClosed acct (Context_Date c) = false ->
        Account_Lots acct !! "" = Some ctol -> hasNonzero ctol = false ->
        CloseLotFunction fn (mkOperands (stack ++ [VString an; VString ""]) idx) c
        = (None, mkOperands stack idx,
           store c l (set_Lots acct (delete "" (Account_Lots acct))))).
Proof.
  assert (forall name f,
             GetCoreFunctions !! name = Some f -> name <> "close-lot" ->
             forall fn op c r op' c', f fn op c = (r, op', c') -> keepsDefaultLots c c') as H2.
  { intros name f Hl Hne fn op c r op' c' H.
    core_function_cases Hl; try congruence;
      match goal with
      | H : ?F fn op c = _ |- _ =>
          let K := fresh in
          assert (keeps keepsDefaultLots F) as K by auto with ledger_default;
          exact (K _ _ _ _ _ _ H)
      end. }
  split; [|split; [|split; [|split]]].
  - intros. cbn. apply lookup_singleton_eq.
  - exact H2.
  - apply CloseLot_keepsDefaultLots.
  - apply (rtc_ind_r allHaveDefaultLot NewContext).
    + intros l a Hd. unfold deref in Hd. cbn in Hd. by rewrite lookup_empty in Hd.
    + intros c1 c2 Hr Hstep IH.
      destruct Hstep as (name & f & fn & op & r & op' & Hl & Hf & Hcl).
      eapply keepsDefaultLots_all; [|exact IH].
      destruct (decide (name = "close-lot")) as [E|Hne]; [|eapply H2; eauto].
      specialize (Hcl E).
      core_function_cases Hl; try discriminate E.
      eapply CloseLot_keepsDefaultLots; eauto.
  - intros fn stack idx an c l acct ctol Hidx Ha Hd Hc Hl Hz.
    unfold CloseLotFunction. rewrite Length_app. cbn [List.length].
    replace (_ <? 2) with false by (symmetry; apply Z.ltb_ge; lia).
    rewrite (Pop_app stack [VString an; VString ""] idx 2 Hidx eq_refl).
    rewrite Ha, Hd, Hc, Hl, Hz. reflexivity.
Qed.
Lemma C2_default_lot_witness :
  keepsDefaultLots ledgerA
    (snd (CloseFunction "close" (mkOperands [VString "Equity"] 0) ledgerA))
  /\ keepsDefaultLots ledgerA
       (snd (CloseLotFunction "close-lot" (mkOperands [VString "Equity"; VString "x"] 0) ledgerA))
  /\ allHaveDefaultLot
       (snd (OpenFunction "open" (mkOperands [VString "Assets:A"] 0) NewContext))
  /\ CloseLotFunction "close-lot" (mkOperands [VString "Equity"; VString ""] 0) ledgerA
     = (None, mkOperands [] 0,
        store ledgerA 1%nat (set_Lots acctEquity (delete "" (Account_Lots acctEquity)))).
Proof.
  pose proof C2_default_lot as (_ & H2 & H3 & H4 & H5).
  split; [|split; [|split]].
  - apply (H2 "close" CloseFunction eq_refl ltac:(discriminate) "close"
             (mkOperands [VString "Equity"] 0) ledgerA
             (fst (fst (CloseFunction "close" (mkOperands [VString "Equity"] 0) ledgerA)))
             (snd (fst (CloseFunction "close" (mkOperands [VString "Equity"] 0) ledgerA)))).
    reflexivity.
  - apply (H3 "close-lot" (mkOperands [VString "Equity"; VString "x"] 0) ledgerA
             (fst (fst (CloseLotFunction "close-lot"
                          (mkOperands [VString "Equity"; VString "x"] 0) ledgerA)))
             (snd (fst (CloseLotFunction "close-lot"
                          (mkOperands [VString "Equity"; VString "x"] 0) ledgerA)))).
    + reflexivity.
    + cbn. discriminate.
  - apply H4. apply rtc_once.
    exists "open", OpenFunction, "open", (mkOperands [VString "Assets:A"] 0),
      (fst (fst (OpenFunction "open" (mkOperands [VString "Assets:A"] 0) NewContext))),
      (snd (fst (OpenFunction "open" (mkOperands [VString "Assets:A"] 0) NewContext))).
    split; [reflexivity|]. split; [reflexivity|]. discriminate.
  - apply (H5 "close-lot" [] 0%nat "Equity" ledgerA 1%nat acctEquity ∅);
      first [reflexivity | cbn; lia].
Defined.

(** A ledger that removes a default lot: the run is accepted, and the
    account [Assets:A] is left with no lot under the empty name. *)
Lemma C2_default_lot_removed :
  (fun '(r, c) => (r, (fun a => Account_Lots a !! "") <$> accountNamed c "Assets:A"))
    <$> runContext ("2000 1 1 date  Assets:A open  Assets:A "
                      ++ String dquote (String dquote " close-lot"))
  = Some (None, Some None).
Proof. vm_compute. reflexivity. Qed.

(** After that, a transfer to the default lot of the account makes [xact]
    fail, and [create-lot] with the empty name brings the lot back. *)
Example default_lot_removed_then :
  fst <$> runContext ("2000 1 1 date  Assets:A open  Equity open  USD Dollar commodity
                       Assets:A " ++ String dquote (String dquote " close-lot
                       E D  Assets:A 5 USD xfer  Equity -5 USD xfer  xact"))
  = Some (Some (Prefixed "<date>"
                  (AtLine 3 (Prefixed "xact" (Errorf "account %v does not have a default lot")))))
  /\ (fun '(r, c) => (r, lotBalance c "Assets:A" "" "USD"))
       <$> runContext ("2000 1 1 date  Assets:A open  Equity open  USD Dollar commodity
                        Assets:A " ++ String dquote (String dquote " close-lot
                        E D  Assets:A 5 USD xfer " ++ String dquote (String dquote " create-lot
                             Equity -5 USD xfer  xact")))
     = Some (None, Some (mkDecimal 5 0)).
Proof. vm_compute. split; reflexivity. Qed.

(** ** Tags: functions that leave them alone *)

Lemma sameTags_refl c : sameTags c c.
Proof. split; eauto. Qed.

Lemma sameTags_trans c1 c2 c3 : sameTags c1 c2 -> sameTags c2 c3 -> sameTags c1 c3.
Proof.
  intros [T12 A12] [T23 A23]. split; [congruence|].
  intros l a Hd. destruct (A12 l a Hd) as (a2 & Hd2 & E2).
  destruct (A23 l a2 Hd2) as (a3 & Hd3 & E3). exists a3. split; [exact Hd3|congruence].
Qed.

Lemma sameTags_fields c c' :
  Context_Tags c' = Context_Tags c -> Context_objs c' = Context_objs c -> sameTags c c'.
Proof. intros ET EO. split; [exact ET|]. intros l a Hd. unfold deref in *. rewrite EO. eauto. Qed.

Lemma sameTags_store c l0 acct a' :
  deref c l0 = Some acct -> Account_Tags a' = Account_Tags acct ->
  sameTags c (store c l0 a').
Proof.
  intros Hd0 E. split; [reflexivity|]. intros l a Hd. rewrite deref_store.
  destruct (decide (l0 = l)) as [<-|Hne]; simplify_eq; eauto.
Qed.

Lemma sameTags_alloc c a' : sameTags c (store c (fresh (dom (Context_objs c))) a').
Proof.
  split; [reflexivity|]. intros l a Hd. rewrite deref_store.
  destruct (decide (fresh (dom (Context_objs c)) = l)) as [E|Hne]; [|eauto].
  exfalso. apply (is_fresh (dom (Context_objs c))). rewrite E.
  apply elem_of_dom. unfold deref in Hd. eauto.
Qed.

Lemma sameTags_tagsWF c c' : sameTags c c' -> tagsWF c -> tagsWF c'.
Proof.
  intros [ET EA] Hwf tag tts Ht. rewrite ET in Ht.
  destruct (Hwf tag tts Ht) as (Hne & Hnd & Hm). split; [exact Hne|]. split; [exact Hnd|].
  intros l Hl. destruct (Hm l Hl) as (a & Hd & Ha).
  destruct (EA l a Hd) as (a' & Hd' & E). exists a'. split; [exact Hd'|]. by rewrite E.
Qed.

Lemma ExecuteTransfer_sameTags t c r c' : ExecuteTransfer t c = (r, c') -> sameTags c c'.
Proof.
  unfold ExecuteTransfer. intros H.
  repeat (case_match; simplify_eq); simplify_eq; try apply sameTags_refl;
    (eapply sameTags_store; [eassumption|reflexivity]).
Qed.

Lemma Execute_loop_sameTags ts : forall c r c',
  Execute_loop ts c = (r, c') -> sameTags c c'.
Proof.
  induction ts as [|t ts IH]; intros c r c' H; cbn in H.
  - simplify_eq. apply sameTags_refl.
  - destruct (ExecuteTransfer t c) as [[e|] c1] eqn:He.
    + simplify_eq. eapply ExecuteTransfer_sameTags; eauto.
    + eapply sameTags_trans; [eapply ExecuteTransfer_sameTags; eauto|eauto].
Qed.

Lemma addCommodities_Tags c values : forall acct acct',
  addCommodities c values acct = inr acct' -> Account_Tags acct' = Account_Tags acct.
Proof.
  induction values as [|v values IH]; intros acct acct' H; cbn in H; [by simplify_eq|].
  repeat (case_match; simplify_eq). by rewrite (IH _ _ H).
Qed.

Local Ltac keeps_tags :=
  intros fn op c r op' c' H;
  repeat (case_match; simplify_eq); simplify_eq;
  try apply sameTags_refl;
  try (eapply sameTags_store; [eassumption|reflexivity]);
  try (apply sameTags_fields; reflexivity).

Lemma AddNotes_sameTags : keeps sameTags AddNotesFunction.
Proof. unfold keeps, AddNotesFunction, fail, ok. keeps_tags. Qed.
Lemma Assert_sameTags : keeps sameTags AssertFunction.
Proof. unfold keeps, AssertFunction, fail, ok. keeps_tags. Qed.
Lemma AssertLot_sameTags : keeps sameTags AssertLotFunction.
Proof. unfold keeps, AssertLotFunction, fail, ok. keeps_tags. Qed.
Lemma AssertLotsSum_sameTags : keeps sameTags AssertLotsSumFunction.
Proof. unfold keeps, AssertLotsSumFunction, fail, ok. keeps_tags. Qed.
Lemma Close_sameTags : keeps sameTags CloseFunction.
Proof. unfold keeps, CloseFunction, fail, ok. keeps_tags. Qed.
Lemma CloseLot_sameTags : keeps sameTags CloseLotFunction.
Proof. unfold keeps, CloseLotFunction, fail, ok. keeps_tags. Qed.
Lemma Comment_sameTags : keeps sameTags CommentFunction.
Proof. unfold keeps, CommentFunction, fail, ok. keeps_tags. Qed.
Lemma Commodity_sameTags : keeps sameTags CommodityFunction.
Proof. unfold keeps, CommodityFunction, fail, ok. keeps_tags. Qed.
Lemma CreateLot_sameTags : keeps sameTags CreateLotFunction.
Proof. unfold keeps, CreateLotFunction, fail, ok. keeps_tags. Qed.
Lemma Date_sameTags : keeps sameTags DateFunction.
Proof. unfold keeps, DateFunction, fail, ok. keeps_tags. Qed.
Lemma Lot_sameTags : keeps sameTags LotFunction.
Proof. unfold keeps, LotFunction, fail, ok. keeps_tags. Qed.
Lemma Open_sameTags : keeps sameTags OpenFunction.
Proof.
  unfold keeps, OpenFunction, fail, ok, alloc. keeps_tags.
  all: eapply sameTags_trans; [apply sameTags_alloc|apply sameTags_fields; reflexivity].
Qed.
Lemma SetComment_sameTags : keeps sameTags SetCommentFunction.
Proof. unfold keeps, SetCommentFunction, fail, ok. keeps_tags. Qed.
Lemma Xact_sameTags : keeps sameTags XactFunction.
Proof.
  unfold keeps, XactFunction, Execute. intros fn op c r op' c' H.
  repeat (case_match; simplify_eq); simplify_eq;
    eauto using Execute_loop_sameTags, sameTags_refl.
Qed.
Lemma Xfer_sameTags : keeps sameTags XferFunction.
Proof. unfold keeps, XferFunction. keeps_tags. Qed.
Lemma XferExch_sameTags : keeps sameTags XferExchFunction.
Proof. unfold keeps, XferExchFunction. keeps_tags. Qed.

(** ** Tags: the removal loop of untag *)

Lemma untagLoop_hit fuel a tts m n x :
  (m < n)%nat -> tts !! m = Some a -> tts !! (n - 1)%nat = Some x ->
  untagLoop (S fuel) a tts m n = untagLoop fuel a (<[m := x]> tts) m (n - 1).
Proof.
  intros Hlt Hm Hn. cbn [untagLoop].
  rewrite (proj2 (Nat.ltb_lt m n) Hlt), bool_decide_eq_true_2 by exact Hm.
  by rewrite Hn.
Qed.

Lemma untagLoop_miss fuel a tts m n :
  (m < n)%nat -> tts !! m <> Some a ->
  untagLoop (S fuel) a tts m n = untagLoop fuel a tts (S m) n.
Proof.
  intros Hlt Hm. cbn [untagLoop].
  by rewrite (proj2 (Nat.ltb_lt m n) Hlt), bool_decide_eq_false_2 by exact Hm.
Qed.

Lemma untagLoop_done fuel a tts m n :
  ~ (m < n)%nat -> untagLoop fuel a tts m n = (tts, n).
Proof.
  intros Hlt. destruct fuel; cbn [untagLoop]; [reflexivity|].
  by rewrite (proj2 (Nat.ltb_ge m n)) by lia.
Qed.

(** The array of the loop is split in three: the entries kept so far, the
    entries still to visit, and the entries beyond [n].  The loop ends with
    the kept entries in front: they are those of the first two parts other
    than [a], in some order. *)
Lemma untagLoop_split fuel a : forall kept pending junk,
  (List.length pending <= fuel)%nat ->
  exists kept' junk',
    untagLoop fuel a (kept ++ pending ++ junk) (List.length kept)
      (List.length kept + List.length pending)
    = ((kept' ++ junk')%list, List.length kept')
    /\ kept' ≡ₚ (kept ++ filter (fun x => x <> a) pending)%list.
Proof.
  induction fuel as [|fuel IH]; intros kept pending junk Hf.
  - destruct pending; [|cbn in Hf; lia]. cbn. exists kept, junk.
    rewrite Nat.add_0_r, app_nil_r. auto.
  - destruct pending as [|p rest].
    + rewrite untagLoop_done by (cbn; lia). cbn [List.length app].
      exists kept, junk. rewrite Nat.add_0_r, app_nil_r. auto.
    + assert (((kept ++ (p :: rest) ++ junk)%list : list TagTarget) !! List.length kept = Some p)
        as Hp by (by apply list_lookup_middle).
      destruct (decide (p = a)) as [->|Hne].
      * destruct (decide (rest = [])) as [->|Hrne];
          [|destruct (exists_last Hrne) as (rest' & x & ->)].
        -- rewrite (untagLoop_hit fuel a _ _ _ a); [|cbn; lia|exact Hp|].
           2:{ cbn [List.length]. replace (List.length kept + 1 - 1)%nat
                 with (List.length kept) by lia. exact Hp. }
           rewrite list_insert_id by exact Hp.
           destruct (IH kept [] (a :: junk) ltac:(cbn; lia)) as (k' & j' & Hrun & Hperm).
           cbn [List.length app] in Hrun. rewrite Nat.add_0_r in Hrun.
           cbn [List.length app].
           replace (List.length kept + 1 - 1)%nat with (List.length kept) by lia.
           exists k', j'. split; [exact Hrun|].
           rewrite Hperm. rewrite filter_cons_False by auto. reflexivity.
        -- assert (((kept ++ (a :: rest' ++ [x]) ++ junk)%list : list TagTarget)
                     !! (List.length kept + List.length (a :: rest' ++ [x]) - 1)%nat = Some x)
             as Hx.
           { replace (kept ++ (a :: rest' ++ [x]) ++ junk)%list
               with ((kept ++ a :: rest') ++ x :: junk)%list
               by (rewrite <- ?app_assoc; cbn; rewrite <- ?app_assoc; reflexivity).
             apply list_lookup_middle. cbn. rewrite !length_app. cbn. lia. }
           rewrite (untagLoop_hit fuel a _ _ _ x); [|cbn; lia|exact Hp|exact Hx].
           assert (<[List.length kept := x]> (kept ++ (a :: rest' ++ [x]) ++ junk)%list
                   = (kept ++ (x :: rest') ++ x :: junk)%list) as ->.
           { rewrite insert_app_r_alt by lia. rewrite Nat.sub_diag. cbn.
             rewrite <- ?app_assoc. reflexivity. }
           destruct (IH kept (x :: rest') (x :: junk)
                       ltac:(cbn in *; rewrite length_app in Hf; cbn in Hf; lia))
             as (k' & j' & Hrun & Hperm).
           replace (List.length kept + List.length (a :: rest' ++ [x]) - 1)%nat
             with (List.length kept + List.length (x :: rest'))%nat
             by (cbn; rewrite length_app; cbn; lia).
           exists k', j'. split; [exact Hrun|].
           rewrite Hperm. apply Permutation_app_head.
           rewrite (filter_cons_False _ a) by auto.
           rewrite filter_app.
           rewrite (filter_cons (fun x0 => x0 <> a) x rest').
           destruct (decide (x <> a)).
           ++ rewrite filter_cons_True by auto. rewrite filter_nil.
              apply Permutation_cons_append.
           ++ rewrite filter_cons_False by auto. rewrite filter_nil, app_nil_r. reflexivity.
      * rewrite untagLoop_miss; [|cbn; lia|rewrite Hp; congruence].
        destruct (IH (kept ++ [p])%list rest junk ltac:(cbn in Hf; lia)) as (k' & j' & Hrun & Hperm).
        rewrite <- (assoc_L (++)) in Hrun. cbn [app] in Hrun.
        rewrite length_app in Hrun. cbn [List.length] in Hrun.
        replace (List.length kept + 1)%nat with (S (List.length kept)) in Hrun by lia.
        cbn [List.length app].
        replace (List.length kept + S (List.length rest))%nat
          with (S (List.length kept) + List.length rest)%nat by lia.
        exists k', j'. split; [exact Hrun|].
        rewrite Hperm, filter_cons_True by auto.
        rewrite <- (assoc_L (++)). reflexivity.
Qed.

(** What [untag] leaves of an index entry: the entries other than [a], in
    some order. *)
Lemma untagLoop_result a tts :
  let '(tts', n) := untagLoop (List.length tts) a tts 0 (List.length tts) in
  take n tts' ≡ₚ filter (fun x => x <> a) tts.
Proof.
  destruct (untagLoop_split (List.length tts) a [] tts [] ltac:(lia))
    as (k' & j' & Hrun & Hperm).
  cbn [List.length app] in Hrun. rewrite app_nil_r, Nat.add_0_l in Hrun. rewrite Hrun.
  rewrite take_app_length. exact Hperm.
Qed.

(** If [a] is not in the array the loop changes nothing. *)
Lemma untagLoop_absent fuel a tts : forall m n,
  a ∉ tts -> untagLoop fuel a tts m n = (tts, n).
Proof.
  induction fuel as [|fuel IH]; intros m n Hnot; cbn [untagLoop]; [reflexivity|].
  destruct (m <? n)%nat; [|reflexivity].
  rewrite bool_decide_eq_false_2; [by apply IH|].
  intros Hl. apply Hnot. eapply list_elem_of_lookup_2; eauto.
Qed.

(** ** Tags: the index stays well formed *)

Lemma existsb_target (target : TagTarget) tts :
  existsb (fun tagged => bool_decide (tagged = target)) tts = true <-> target ∈ tts.
Proof.
  rewrite existsb_exists. split.
  - intros (x & Hin & Hx). apply bool_decide_eq_true in Hx as ->. by apply list_elem_of_In.
  - intros Hin. exists target. split; [by apply list_elem_of_In|by apply bool_decide_eq_true].
Qed.

Lemma indexTag_Tags target c tag tag' :
  Context_Tags (indexTag target c tag) !! tag'
  = if decide (tag = tag') then Some (indexed target (Context_Tags c !! tag))
    else Context_Tags c !! tag'.
Proof.
  unfold indexTag, indexed.
  destruct (Context_Tags c !! tag) as [tts|] eqn:Ht.
  - destruct (existsb _ tts) eqn:Hex.
    + destruct (decide (tag = tag')) as [<-|]; [exact Ht|reflexivity].
    + cbn. apply lookup_insert.
  - cbn. apply lookup_insert.
Qed.

Lemma indexed_elem target old x :
  x ∈ indexed target old <-> x = target \/ exists tts, old = Some tts /\ x ∈ tts.
Proof.
  unfold indexed. destruct old as [tts|].
  - destruct (existsb _ tts) eqn:Hex.
    + apply existsb_target in Hex. split; [eauto|].
      intros [->|(tts' & [= <-] & H)]; auto.
    + rewrite elem_of_app, list_elem_of_singleton. split.
      * intros [H| ->]; eauto.
      * intros [->|(tts' & [= <-] & H)]; auto.
  - rewrite list_elem_of_singleton. split; [auto|].
    intros [->|(tts' & [=] & _)]. reflexivity.
Qed.

Lemma indexed_wf target old :
  (forall tts, old = Some tts -> NoDup tts) ->
  indexed target old <> [] /\ NoDup (indexed target old).
Proof.
  unfold indexed. intros Hnd. destruct old as [tts|].
  - destruct (existsb _ tts) eqn:Hex.
    + split; [|by apply Hnd]. apply existsb_target in Hex. intros ->.
      by apply elem_of_nil in Hex.
    + split; [by destruct tts|].
      apply NoDup_app. split; [by apply Hnd|]. split; [|apply NoDup_singleton].
      intros x Hx Hx'. apply list_elem_of_singleton in Hx' as ->.
      apply existsb_target in Hx. congruence.
  - split; [discriminate|apply NoDup_singleton].
Qed.

Lemma tagAccount_eq l c tag a :
  deref c l = Some a ->
  tagAccount l c (VString tag)
  = store (indexTag (TargetAccount l) c tag) l (Account_AddTag a tag).
Proof.
  intros Hd. unfold tagAccount.
  assert (deref (indexTag (TargetAccount l) c tag) l = Some a) as ->; [|reflexivity].
  unfold deref. by rewrite indexTag_objs.
Qed.

Lemma tagAccount_tagsWF l c t a :
  deref c l = Some a -> tagsWF c -> tagsWF (tagAccount l c t).
Proof.
  intros Hd Hwf. destruct t as [tag| |]; try exact Hwf.
  rewrite (tagAccount_eq l c tag a Hd).
  intros tag' tts' Ht'. cbn in Ht'. rewrite indexTag_Tags in Ht'.
  assert (forall l' a0 tg,
             deref c l' = Some a0 -> Account_Tags a0 !! tg = Some true ->
             exists a', deref (store (indexTag (TargetAccount l) c tag) l
                                 (Account_AddTag a tag)) l' = Some a'
                        /\ Account_Tags a' !! tg = Some true) as Hkeep.
  { intros l' a0 tg Hd0 Htg. rewrite deref_store.
    destruct (decide (l = l')) as [<-|Hne].
    - eexists. split; [reflexivity|]. simplify_eq. cbn.
      rewrite lookup_insert. destruct (decide (tag = tg)); [reflexivity|exact Htg].
    - exists a0. split; [|exact Htg]. unfold deref. by rewrite indexTag_objs. }
  destruct (decide (tag = tag')) as [<-|Hne].
  - simplify_eq.
    destruct (indexed_wf (TargetAccount l) (Context_Tags c !! tag)) as [Hn Hnd].
    { intros tts Ht. by destruct (Hwf tag tts Ht) as (_ & ? & _). }
    split; [exact Hn|]. split; [exact Hnd|].
    intros l' Hl'. apply indexed_elem in Hl' as [[= <-]|(tts & Ht & Hin)].
    + rewrite deref_store, decide_True by reflexivity.
      eexists. split; [reflexivity|]. cbn. apply lookup_insert_eq.
    + destruct (Hwf tag tts Ht) as (_ & _ & Hm).
      destruct (Hm l' Hin) as (a0 & Hd0 & Htg). eauto.
  - destruct (Hwf tag' tts' Ht') as (Hn & Hnd & Hm).
    split; [exact Hn|]. split; [exact Hnd|].
    intros l' Hl'. destruct (Hm l' Hl') as (a0 & Hd0 & Htg). eauto.
Qed.

Lemma tagAccount_deref l c t a :
  deref c l = Some a ->
  exists a', deref (tagAccount l c t) l = Some a'
             /\ Account_ClosingDate a' = Account_ClosingDate a.
Proof.
  intros Hd. destruct t as [tag| |]; eauto.
  rewrite (tagAccount_eq l c tag a Hd), deref_store, decide_True by reflexivity. eauto.
Qed.

Lemma foldl_tagAccount_tagsWF l rest : forall c a,
  deref c l = Some a -> tagsWF c -> tagsWF (foldl (tagAccount l) c rest).
Proof.
  induction rest as [|t rest IH]; intros c a Hd Hwf; cbn; [exact Hwf|].
  destruct (tagAccount_deref l c t a Hd) as (a' & Hd' & _).
  eapply IH; [exact Hd'|]. eapply tagAccount_tagsWF; eauto.
Qed.

Lemma Tag_tagsWF fn op c r op' c' :
  TagFunction fn op c = (r, op', c') -> tagsWF c -> tagsWF c'.
Proof.
  unfold TagFunction, fail, ok. intros H Hwf.
  repeat (case_match; simplify_eq); simplify_eq; try exact Hwf.
  eapply foldl_tagAccount_tagsWF; eauto.
Qed.

Lemma tagCommodity_tagsWF cn c t : tagsWF c -> tagsWF (tagCommodity cn c t).
Proof.
  intros Hwf. destruct t as [tag| |]; try exact Hwf. unfold tagCommodity.
  assert (tagsWF (indexTag (TargetCommodity cn) c tag)) as Hwf1.
  { intros tag' tts' Ht'. rewrite indexTag_Tags in Ht'.
    assert (forall l' a0, deref c l' = Some a0 ->
                          deref (indexTag (TargetCommodity cn) c tag) l' = Some a0) as Hkeep.
    { intros l' a0 Hd0. unfold deref. by rewrite indexTag_objs. }
    destruct (decide (tag = tag')) as [<-|Hne].
    - simplify_eq.
      destruct (indexed_wf (TargetCommodity cn) (Context_Tags c !! tag)) as [Hn Hnd].
      { intros tts Ht. by destruct (Hwf tag tts Ht) as (_ & ? & _). }
      split; [exact Hn|]. split; [exact Hnd|].
      intros l' Hl'. apply indexed_elem in Hl' as [[=]|(tts & Ht & Hin)].
      destruct (Hwf tag tts Ht) as (_ & _ & Hm).
      destruct (Hm l' Hin) as (a0 & Hd0 & Htg). eauto.
    - destruct (Hwf tag' tts' Ht') as (Hn & Hnd & Hm).
      split; [exact Hn|]. split; [exact Hnd|].
      intros l' Hl'. destruct (Hm l' Hl') as (a0 & Hd0 & Htg). eauto. }
  destruct (Context_Commodities _ !! cn); [|exact Hwf1].
  eapply sameTags_tagsWF; [|exact Hwf1]. apply sameTags_fields; reflexivity.
Qed.

Lemma TagCommodity_tagsWF fn op c r op' c' :
  TagCommodityFunction fn op c = (r, op', c') -> tagsWF c -> tagsWF c'.
Proof.
  unfold TagCommodityFunction, fail, ok. intros H Hwf.
  repeat (case_match; simplify_eq); simplify_eq; try exact Hwf.
  clear - Hwf. revert c Hwf.
  match goal with |- forall c, _ -> tagsWF (foldl _ c ?rest) => induction rest as [|t rest IH] end;
    intros c Hwf; cbn; [exact Hwf|].
  apply IH. by apply tagCommodity_tagsWF.
Qed.

Lemma untagAccount_tagsWF l c t a :
  deref c l = Some a -> tagsWF c -> tagsWF (untagAccount l c t).
Proof.
  intros Hd Hwf. destruct t as [tag| |]; try exact Hwf. unfold untagAccount.
  set (c1 := match Context_Tags c !! tag with
             | Some tts => _
             | None => c
             end).
  assert (Context_objs c1 = Context_objs c) as Hobjs.
  { unfold c1. repeat case_match; reflexivity. }
  assert (deref c1 l = Some a) as Hd1 by (unfold deref; by rewrite Hobjs).
  rewrite Hd1.
  (* the index after the removal *)
  assert (forall tag' tts',
             Context_Tags c1 !! tag' = Some tts' ->
             tts' <> [] /\ NoDup tts'
             /\ forall l', TargetAccount l' ∈ tts' ->
                  (tag' = tag -> l' <> l)
                  /\ exists a0, deref c l' = Some a0 /\ Account_Tags a0 !! tag' = Some true)
    as Hidx.
  { intros tag' tts' Ht'. unfold c1 in Ht'.
    destruct (Context_Tags c !! tag) as [tts|] eqn:Ht.
    - pose proof (untagLoop_result (TargetAccount l) tts) as Hres.
      destruct (untagLoop (List.length tts) (TargetAccount l) tts 0 (List.length tts))
        as [tts1 n].
      destruct (Hwf tag tts Ht) as (Hn & Hnd & Hm).
      destruct (decide (tag' = tag)) as [->|Hne].
      + destruct (negb (List.length (take n tts1) =? 0)%nat) eqn:Hlen; cbn in Ht'.
        * rewrite lookup_insert_eq in Ht'. simplify_eq.
          split; [intros E; rewrite E in Hlen; discriminate|].
          split; [rewrite Hres; by apply NoDup_filter|].
          intros l' Hl'. rewrite Hres in Hl'. apply list_elem_of_filter in Hl' as [Hne' Hin].
          split; [intros _ ->; by apply Hne'|]. by apply Hm.
        * by rewrite lookup_delete_eq in Ht'.
      + assert (Context_Tags c !! tag' = Some tts') as Ht0.
        { destruct (negb (List.length (take n tts1) =? 0)%nat); cbn in Ht';
            [by rewrite lookup_insert_ne in Ht'|by rewrite lookup_delete_ne in Ht']. }
        destruct (Hwf tag' tts' Ht0) as (Hn' & Hnd' & Hm').
        split; [exact Hn'|]. split; [exact Hnd'|].
        intros l' Hl'. split; [congruence|]. by apply Hm'.
    - destruct (Hwf tag' tts' Ht') as (Hn' & Hnd' & Hm').
      split; [exact Hn'|]. split; [exact Hnd'|].
      intros l' Hl'. split; [intros ->; congruence|]. by apply Hm'. }
  intros tag' tts' Ht'. cbn in Ht'.
  destruct (Hidx tag' tts' Ht') as (Hn & Hnd & Hm).
  split; [exact Hn|]. split; [exact Hnd|].
  intros l' Hl'. destruct (Hm l' Hl') as (Hl & a0 & Hd0 & Htg).
  rewrite deref_store. destruct (decide (l = l')) as [<-|Hne].
  - eexists. split; [reflexivity|]. simplify_eq. cbn.
    rewrite lookup_delete_ne; [exact Htg|]. intros ->. by apply Hl.
  - exists a0. split; [|exact Htg]. unfold deref. rewrite Hobjs. exact Hd0.
Qed.

Lemma untagAccount_deref l c t a :
  deref c l = Some a ->
  exists a', deref (untagAccount l c t) l = Some a'.
Proof.
  intros Hd. destruct t as [tag| |]; eauto. unfold untagAccount.
  match goal with
  | |- context [deref ?c1 l] =>
      assert (deref c1 l = Some a) as ->
        by (unfold deref; repeat case_match; cbn; exact Hd)
  end.
  rewrite deref_store, decide_True by reflexivity. eauto.
Qed.

Lemma foldl_untagAccount_tagsWF l rest : forall c a,
  deref c l = Some a -> tagsWF c -> tagsWF (foldl (untagAccount l) c rest).
Proof.
  induction rest as [|t rest IH]; intros c a Hd Hwf; cbn; [exact Hwf|].
  destruct (untagAccount_deref l c t a Hd) as (a' & Hd').
  eapply IH; [exact Hd'|]. eapply untagAccount_tagsWF; eauto.
Qed.

Lemma Untag_tagsWF fn op c r op' c' :
  UntagFunction fn op c = (r, op', c') -> tagsWF c -> tagsWF c'.
Proof.
  unfold UntagFunction, fail, ok. intros H Hwf.
  repeat (case_match; simplify_eq); simplify_eq; try exact Hwf.
  eapply foldl_untagAccount_tagsWF; eauto.
Qed.

Create HintDb ledger_tags.
#[local] Hint Resolve AddNotes_sameTags Assert_sameTags AssertLot_sameTags
  AssertLotsSum_sameTags Close_sameTags CloseLot_sameTags Comment_sameTags
  Commodity_sameTags CreateLot_sameTags Date_sameTags Lot_sameTags Open_sameTags
  SetComment_sameTags Xact_sameTags Xfer_sameTags XferExch_sameTags : ledger_tags.

(** In every reachable context the tag index is well formed. *)
Lemma reachable_tagsWF c : reachable c -> tagsWF c.
Proof.
  revert c. apply (rtc_ind_r tagsWF NewContext).
  - intros tag tts Ht. cbn in Ht. by rewrite lookup_empty in Ht.
  - intros c1 c2 _ (name & f & fn & op & r & op' & Hl & Hf) IH.
    core_function_cases Hl;
      first [ eapply Tag_tagsWF; eassumption
            | eapply TagCommodity_tagsWF; eassumption
            | eapply Untag_tagsWF; eassumption
            | match goal with
              | H : ?F fn op c1 = _ |- _ =>
                  let K := fresh in
                  assert (keeps sameTags F) as K by auto with ledger_tags;
                  exact (sameTags_tagsWF _ _ (K _ _ _ _ _ _ H) IH)
              end ].
Qed.

(** ** Tags: tagging twice, untagging what is not there *)

Lemma takeWhile_all {A} (p : A -> bool) l :
  Forall (fun x => p x = true) l -> takeWhile p l = l.
Proof. induction 1 as [|x l Hx _ IH]; cbn; [reflexivity|]. by rewrite Hx, IH. Qed.

Lemma trailingStrings_strings vs :
  Forall (fun v => isString v = true) vs -> trailingStrings vs = vs.
Proof.
  intros H. unfold trailingStrings.
  rewrite takeWhile_all by (by apply Forall_rev). apply rev_involutive.
Qed.

(** The operands of the tag functions, found and popped. *)
Lemma tagOperands_values stack name tags :
  trailingStrings (GetValues (tagOperands stack name tags)) = VString name :: map VString tags
  /\ Pop (tagOperands stack name tags)
       (Z.of_nat (List.length (VString name :: map VString tags)))
     = (VString name :: map VString tags, mkOperands stack (List.length stack)).
Proof.
  unfold tagOperands, GetValues. cbn [Operands_stack Operands_stackIndex]. split.
  - rewrite drop_app_length. apply trailingStrings_strings.
    constructor; [reflexivity|apply Forall_isString].
  - by apply Pop_app.
Qed.

Lemma Tag_operands fn stack an tags c :
  tags <> [] ->
  TagFunction fn (tagOperands stack an tags) c
  = match Context_Accounts c !! an with
    | None => fail (Errorf "%v: tagging nonexistent account: %v")
                (mkOperands stack (List.length stack)) c
    | Some l =>
        match deref c l with
        | None => fail nilDeref (mkOperands stack (List.length stack)) c
        | Some acct =>
            if Account_IsClosed acct (Context_Date c) then
              fail (Errorf "%v: closed account: %v") (mkOperands stack (List.length stack)) c
            else ok (mkOperands stack (List.length stack))
                   (foldl (tagAccount l) c (map VString tags))
        end
    end.
Proof.
  intros Hne. unfold TagFunction.
  destruct (tagOperands_values stack an tags) as [-> ->].
  destruct tags; [congruence|]. reflexivity.
Qed.

Lemma Untag_operands fn stack an tags c :
  tags <> [] ->
  UntagFunction fn (tagOperands stack an tags) c
  = match Context_Accounts c !! an with
    | None => fail (Errorf "%v: tagging nonexistent account: %v")
                (mkOperands stack (List.length stack)) c
    | Some l =>
        match deref c l with
        | None => fail nilDeref (mkOperands stack (List.length stack)) c
        | Some acct =>
            if Account_IsClosed acct (Context_Date c) then
              fail (Errorf "%v: closed account: %v") (mkOperands stack (List.length stack)) c
            else ok (mkOperands stack (List.length stack))
                   (foldl (untagAccount l) c (map VString tags))
        end
    end.
Proof.
  intros Hne. unfold UntagFunction.
  destruct (tagOperands_values stack an tags) as [-> ->].
  destruct tags; [congruence|]. reflexivity.
Qed.

Lemma TagCommodity_operands fn stack cn tags c :
  tags <> [] ->
  TagCommodityFunction fn (tagOperands stack cn tags) c
  = match Context_Commodities c !! cn with
    | None => fail (Errorf "%v: tagging nonexistent commodity: %v")
                (mkOperands stack (List.length stack)) c
    | Some _ => ok (mkOperands stack (List.length stack))
                  (foldl (tagCommodity cn) c (map VString tags))
    end.
Proof.
  intros Hne. unfold TagCommodityFunction.
  destruct (tagOperands_values stack cn tags) as [-> ->].
  destruct tags; [congruence|]. reflexivity.
Qed.

Lemma store_same c l a : deref c l = Some a -> store c l a = c.
Proof.
  intros Hd. unfold store, set_objs. unfold deref in Hd. rewrite insert_id by exact Hd.
  by destruct c.
Qed.

(** *** Accounts *)

Lemma tagAccount_fixed l c tag :
  tagged (TargetAccount l) c tag -> accountCarries l c tag ->
  tagAccount l c (VString tag) = c.
Proof.
  intros (tts & Ht & Hin) (a & Hd & Ha).
  rewrite (tagAccount_eq l c tag a Hd).
  assert (indexTag (TargetAccount l) c tag = c) as ->.
  { unfold indexTag. rewrite Ht. by rewrite (proj2 (existsb_target _ _) Hin). }
  assert (Account_AddTag a tag = a) as ->.
  { unfold Account_AddTag, set_Tags. rewrite insert_id by exact Ha. by destruct a. }
  by apply store_same.
Qed.

Lemma tagAccount_tagged l c tag a :
  deref c l = Some a ->
  tagged (TargetAccount l) (tagAccount l c (VString tag)) tag
  /\ accountCarries l (tagAccount l c (VString tag)) tag.
Proof.
  intros Hd. rewrite (tagAccount_eq l c tag a Hd). split.
  - eexists. split.
    + cbn. rewrite indexTag_Tags, decide_True by reflexivity. reflexivity.
    + apply indexed_elem. by left.
  - eexists. split; [by rewrite deref_store, decide_True|]. cbn. apply lookup_insert_eq.
Qed.

Lemma tagAccount_mono l c t a target tag :
  deref c l = Some a ->
  (tagged target c tag -> tagged target (tagAccount l c t) tag)
  /\ (forall l', accountCarries l' c tag -> accountCarries l' (tagAccount l c t) tag).
Proof.
  intros Hd. destruct t as [tag2| |]; try tauto.
  rewrite (tagAccount_eq l c tag2 a Hd). split.
  - intros (tts & Ht & Hin). cbn. unfold tagged. cbn. rewrite indexTag_Tags.
    destruct (decide (tag2 = tag)) as [->|Hne]; [|eauto].
    eexists. split; [reflexivity|]. apply indexed_elem. right. eauto.
  - intros l' (a0 & Hd0 & Ha0). unfold accountCarries. rewrite deref_store.
    destruct (decide (l = l')) as [<-|Hne].
    + eexists. split; [reflexivity|]. simplify_eq. cbn. rewrite lookup_insert.
      destruct (decide (tag2 = tag)); [reflexivity|exact Ha0].
    + exists a0. split; [|exact Ha0]. unfold deref. by rewrite indexTag_objs.
Qed.

Lemma foldl_tagAccount_tagged l tags : forall c a tag,
  deref c l = Some a ->
  tag ∈ tags \/ (tagged (TargetAccount l) c tag /\ accountCarries l c tag) ->
  tagged (TargetAccount l) (foldl (tagAccount l) c (map VString tags)) tag
  /\ accountCarries l (foldl (tagAccount l) c (map VString tags)) tag.
Proof.
  induction tags as [|t tags IH]; intros c a tag Hd H; cbn [map foldl].
  - destruct H as [H|H]; [by apply elem_of_nil in H|exact H].
  - destruct (tagAccount_deref l c (VString t) a Hd) as (a' & Hd' & _).
    apply (IH _ a' tag Hd').
    destruct H as [H|[H1 H2]].
    + apply elem_of_cons in H as [->|H]; [right|by left].
      by apply (tagAccount_tagged l c t a).
    + right. destruct (tagAccount_mono l c (VString t) a (TargetAccount l) tag Hd) as [M1 M2].
      auto.
Qed.

Lemma foldl_tagAccount_fixed l tags : forall c,
  (forall tag, tag ∈ tags -> tagged (TargetAccount l) c tag /\ accountCarries l c tag) ->
  foldl (tagAccount l) c (map VString tags) = c.
Proof.
  induction tags as [|t tags IH]; intros c H; cbn [map foldl]; [reflexivity|].
  destruct (H t ltac:(by left)) as [H1 H2].
  rewrite (tagAccount_fixed l c t H1 H2). apply IH.
  intros tag Hin. apply H. by right.
Qed.

Lemma tagAccount_Accounts l c t : Context_Accounts (tagAccount l c t) = Context_Accounts c.
Proof. unfold tagAccount, indexTag. repeat case_match; reflexivity. Qed.

Lemma foldl_tagAccount_frame l rest : forall c a,
  deref c l = Some a ->
  Context_Accounts (foldl (tagAccount l) c rest) = Context_Accounts c
  /\ Context_Date (foldl (tagAccount l) c rest) = Context_Date c
  /\ exists a', deref (foldl (tagAccount l) c rest) l = Some a'
                /\ Account_ClosingDate a' = Account_ClosingDate a.
Proof.
  induction rest as [|t rest IH]; intros c a Hd; cbn [foldl]; [eauto|].
  destruct (tagAccount_deref l c t a Hd) as (a1 & Hd1 & E1).
  destruct (IH _ a1 Hd1) as (HA & HD & a' & Hd' & E').
  rewrite HA, HD, tagAccount_Accounts, tagAccount_date.
  split; [reflexivity|]. split; [reflexivity|]. exists a'. split; [exact Hd'|congruence].
Qed.

(** *** Commodities *)

Lemma tagCommodity_eq cn c tag com :
  Context_Commodities c !! cn = Some com ->
  tagCommodity cn c (VString tag)
  = set_Commodities_ctx (indexTag (TargetCommodity cn) c tag)
      (<[cn := Commodity_AddTag com tag]> (Context_Commodities c)).
Proof.
  intros Hc. unfold tagCommodity.
  assert (Context_Commodities (indexTag (TargetCommodity cn) c tag) = Context_Commodities c)
    as -> by (unfold indexTag; repeat case_match; reflexivity).
  by rewrite Hc.
Qed.

Lemma tagCommodity_lookup cn c t com :
  Context_Commodities c !! cn = Some com ->
  exists com', Context_Commodities (tagCommodity cn c t) !! cn = Some com'.
Proof.
  intros Hc. destruct t as [tag| |]; eauto.
  rewrite (tagCommodity_eq cn c tag com Hc). cbn. rewrite lookup_insert_eq. eauto.
Qed.

Lemma tagCommodity_fixed cn c tag :
  tagged (TargetCommodity cn) c tag -> commodityCarries cn c tag ->
  tagCommodity cn c (VString tag) = c.
Proof.
  intros (tts & Ht & Hin) (com & Hc & Ha).
  rewrite (tagCommodity_eq cn c tag com Hc).
  assert (indexTag (TargetCommodity cn) c tag = c) as ->.
  { unfold indexTag. rewrite Ht. by rewrite (proj2 (existsb_target _ _) Hin). }
  assert (Commodity_AddTag com tag = com) as ->.
  { unfold Commodity_AddTag. rewrite insert_id by exact Ha. by destruct com. }
  unfold set_Commodities_ctx. rewrite insert_id by exact Hc. by destruct c.
Qed.

Lemma tagCommodity_tagged cn c tag com :
  Context_Commodities c !! cn = Some com ->
  tagged (TargetCommodity cn) (tagCommodity cn c (VString tag)) tag
  /\ commodityCarries cn (tagCommodity cn c (VString tag)) tag.
Proof.
  intros Hc. rewrite (tagCommodity_eq cn c tag com Hc). split.
  - eexists. split.
    + cbn. rewrite indexTag_Tags, decide_True by reflexivity. reflexivity.
    + apply indexed_elem. by left.
  - eexists. split; [cbn; apply lookup_insert_eq|]. cbn. apply lookup_insert_eq.
Qed.

Lemma tagCommodity_mono cn c t com tag :
  Context_Commodities c !! cn = Some com ->
  (tagged (TargetCommodity cn) c tag -> tagged (TargetCommodity cn) (tagCommodity cn c t) tag)
  /\ (commodityCarries cn c tag -> commodityCarries cn (tagCommodity cn c t) tag).
Proof.
  intros Hc. destruct t as [tag2| |]; try tauto.
  rewrite (tagCommodity_eq cn c tag2 com Hc). split.
  - intros (tts & Ht & Hin). unfold tagged. cbn. rewrite indexTag_Tags.
    destruct (decide (tag2 = tag)) as [->|Hne]; [|eauto].
    eexists. split; [reflexivity|]. apply indexed_elem. right. eauto.
  - intros (com0 & Hc0 & Ha0). unfold commodityCarries. cbn. rewrite lookup_insert_eq.
    eexists. split; [reflexivity|]. simplify_eq. cbn. rewrite lookup_insert.
    destruct (decide (tag2 = tag)); [reflexivity|exact Ha0].
Qed.

Lemma foldl_tagCommodity_tagged cn tags : forall c com tag,
  Context_Commodities c !! cn = Some com ->
  tag ∈ tags \/ (tagged (TargetCommodity cn) c tag /\ commodityCarries cn c tag) ->
  tagged (TargetCommodity cn) (foldl (tagCommodity cn) c (map VString tags)) tag
  /\ commodityCarries cn (foldl (tagCommodity cn) c (map VString tags)) tag.
Proof.
  induction tags as [|t tags IH]; intros c com tag Hc H; cbn [map foldl].
  - destruct H as [H|H]; [by apply elem_of_nil in H|exact H].
  - destruct (tagCommodity_lookup cn c (VString t) com Hc) as (com' & Hc').
    apply (IH _ com' tag Hc').
    destruct H as [H|[H1 H2]].
    + apply elem_of_cons in H as [->|H]; [right|by left].
      by apply (tagCommodity_tagged cn c t com).
    + right. destruct (tagCommodity_mono cn c (VString t) com tag Hc) as [M1 M2]. auto.
Qed.

Lemma foldl_tagCommodity_fixed cn tags : forall c,
  (forall tag, tag ∈ tags -> tagged (TargetCommodity cn) c tag /\ commodityCarries cn c tag) ->
  foldl (tagCommodity cn) c (map VString tags) = c.
Proof.
  induction tags as [|t tags IH]; intros c H; cbn [map foldl]; [reflexivity|].
  destruct (H t ltac:(by left)) as [H1 H2].
  rewrite (tagCommodity_fixed cn c t H1 H2). apply IH.
  intros tag Hin. apply H. by right.
Qed.

Lemma foldl_tagCommodity_lookup cn rest : forall c com,
  Context_Commodities c !! cn = Some com ->
  exists com', Context_Commodities (foldl (tagCommodity cn) c rest) !! cn = Some com'.
Proof.
  induction rest as [|t rest IH]; intros c com Hc; cbn [foldl]; [eauto|].
  destruct (tagCommodity_lookup cn c t com Hc) as (com' & Hc'). eauto.
Qed.

(** *** The index entries *)

Lemma indexEntries_one target c tag :
  tagsWF c -> tagged target c tag -> indexEntries target c tag = 1%nat.
Proof.
  intros Hwf (tts & Ht & Hin). unfold indexEntries. rewrite Ht. cbn.
  destruct (Hwf tag tts Ht) as (_ & Hnd & _).
  apply NoDup_ListNoDup in Hnd.
  apply (proj1 (NoDup_count_occ' TagTarget_eq_dec tts) Hnd). by apply list_elem_of_In.
Qed.

(** *** Untagging a tag that is not there *)

Lemma untagAccount_absent l c tag a :
  tagsWF c -> deref c l = Some a -> Account_Tags a !! tag = None ->
  untagAccount l c (VString tag) = c.
Proof.
  intros Hwf Hd Ha. unfold untagAccount.
  match goal with |- context [deref ?c1 l] => assert (c1 = c) as -> end.
  { destruct (Context_Tags c !! tag) as [tts|] eqn:Ht; [|reflexivity].
    destruct (Hwf tag tts Ht) as (Hne & _ & Hm).
    rewrite untagLoop_absent.
    - rewrite firstn_all.
      destruct tts; [congruence|]. cbn [List.length Nat.eqb negb].
      unfold set_Tags_ctx. rewrite insert_id by exact Ht. by destruct c.
    - intros Hin. destruct (Hm l Hin) as (a0 & Hd0 & Ha0). congruence. }
  rewrite Hd.
  assert (Account_RemoveTag a tag = a) as ->.
  { unfold Account_RemoveTag, set_Tags. rewrite delete_id by exact Ha. by destruct a. }
  by apply store_same.
Qed.

Lemma foldl_untagAccount_absent l tags : forall c a,
  tagsWF c -> deref c l = Some a ->
  (forall tag, tag ∈ tags -> Account_Tags a !! tag = None) ->
  foldl (untagAccount l) c (map VString tags) = c.
Proof.
  induction tags as [|t tags IH]; intros c a Hwf Hd H; cbn [map foldl]; [reflexivity|].
  rewrite (untagAccount_absent l c t a Hwf Hd) by (apply H; by left).
  apply (IH c a Hwf Hd). intros tag Hin. apply H. by right.
Qed.
(** C9.  (1) For an existing, open account and a non-empty list of tags,
    [tag] succeeds; applying it again with the same operands succeeds and
    changes nothing; after it the account carries each of the tags and is
    listed under each of them in the tag index -- exactly once, in every
    context the registered functions can produce.  (2) The same holds of
    [tag-commodity] and an existing commodity.  (3) In every such context,
    [untag] with tags the account does not carry succeeds and leaves the
    context as it is. *)
Theorem C9_tags :
  (forall fn stack an tags c l acct,
      tags <> [] ->
      Context_Accounts c !! an = Some l -> deref c l = Some acct ->
      Account_IsClosed acct (Context_Date c) = false ->
      exists c1,
        TagFunction fn (tagOperands stack an tags) c
        = (None, mkOperands stack (List.length stack), c1)
        /\ TagFunction fn (tagOperands stack an tags) c1
           = (None, mkOperands stack (List.length stack), c1)
        /\ forall tag, tag ∈ tags ->
             accountCarries l c1 tag /\ tagged (TargetAccount l) c1 tag
             /\ (reachable c -> indexEntries (TargetAccount l) c1 tag = 1%nat))
  /\ (forall fn stack cn tags c com,
      tags <> [] ->
      Context_Commodities c !! cn = Some com ->
      exists c1,
        TagCommodityFunction fn (tagOperands stack cn tags) c
        = (None, mkOperands stack (List.length stack), c1)
        /\ TagCommodityFunction fn (tagOperands stack cn tags) c1
           = (None, mkOperands stack (List.length stack), c1)
        /\ forall tag, tag ∈ tags ->
             commodityCarries cn c1 tag /\ tagged (TargetCommodity cn) c1 tag
             /\ (reachable c -> indexEntries (TargetCommodity cn) c1 tag = 1%nat))
  /\ (forall fn stack an tags c l acct,
      reachable c ->
      tags <> [] ->
      Context_Accounts c !! an = Some l -> deref c l = Some acct ->
      Account_IsClosed acct (Context_Date c) = false ->
      (forall tag, tag ∈ tags -> Account_Tags acct !! tag = None) ->
      UntagFunction fn (tagOperands stack an tags) c
      = (None, mkOperands stack (List.length stack), c)).
Proof.
  split; [|split].
  - intros fn stack an tags c l acct Hne Ha Hd Hc.
    set (c1 := foldl (tagAccount l) c (map VString tags)).
    assert (TagFunction fn (tagOperands stack an tags) c
            = (None, mkOperands stack (List.length stack), c1)) as Hrun.
    { rewrite (Tag_operands fn stack an tags c Hne), Ha, Hd, Hc. reflexivity. }
    assert (forall tag, tag ∈ tags ->
                        tagged (TargetAccount l) c1 tag /\ accountCarries l c1 tag) as Htag.
    { intros tag Hin. apply (foldl_tagAccount_tagged l tags c acct tag Hd). by left. }
    exists c1. split; [exact Hrun|]. split.
    + destruct (foldl_tagAccount_frame l (map VString tags) c acct Hd)
        as (HA & HD & a1 & Hd1 & E1).
      fold c1 in HA, HD, Hd1.
      rewrite (Tag_operands fn stack an tags c1 Hne), HA, Ha, Hd1.
      unfold Account_IsClosed in *. rewrite E1, HD, Hc.
      unfold ok. by rewrite (foldl_tagAccount_fixed l tags c1 Htag).
    + intros tag Hin. destruct (Htag tag Hin) as [H1 H2].
      split; [exact H2|]. split; [exact H1|].
      intros Hreach. apply indexEntries_one; [|exact H1].
      eapply Tag_tagsWF; [exact Hrun|]. by apply reachable_tagsWF.
  - intros fn stack cn tags c com Hne Hcom.
    set (c1 := foldl (tagCommodity cn) c (map VString tags)).
    assert (TagCommodityFunction fn (tagOperands stack cn tags) c
            = (None, mkOperands stack (List.length stack), c1)) as Hrun.
    { rewrite (TagCommodity_operands fn stack cn tags c Hne), Hcom. reflexivity. }
    assert (forall tag, tag ∈ tags ->
                        tagged (TargetCommodity cn) c1 tag /\ commodityCarries cn c1 tag)
      as Htag.
    { intros tag Hin. apply (foldl_tagCommodity_tagged cn tags c com tag Hcom). by left. }
    exists c1. split; [exact Hrun|]. split.
    + destruct (foldl_tagCommodity_lookup cn (map VString tags) c com Hcom) as (com1 & Hc1).
      fold c1 in Hc1.
      rewrite (TagCommodity_operands fn stack cn tags c1 Hne), Hc1.
      unfold ok. by rewrite (foldl_tagCommodity_fixed cn tags c1 Htag).
    + intros tag Hin. destruct (Htag tag Hin) as [H1 H2].
      split; [exact H2|]. split; [exact H1|].
      intros Hreach. apply indexEntries_one; [|exact H1].
      eapply TagCommodity_tagsWF; [exact Hrun|]. by apply reachable_tagsWF.
  - intros fn stack an tags c l acct Hreach Hne Ha Hd Hc Habs.
    rewrite (Untag_operands fn stack an tags c Hne), Ha, Hd, Hc. unfold ok.
    rewrite (foldl_untagAccount_absent l tags c acct); auto using reachable_tagsWF.
Qed.

Lemma ledgerB_reachable : reachable ledgerB.
Proof.
  eapply rtc_l; [|apply rtc_once].
  - exists "commodity", CommodityFunction, "commodity",
      (mkOperands [VString "USD"; VString "Dollar"] 0), None, (mkOperands [] 0).
    split; reflexivity.
  - exists "open", OpenFunction, "open", (mkOperands [VString "Assets:A"] 0),
      None, (mkOperands [] 0).
    split; [reflexivity|]. vm_compute. reflexivity.
Qed.

Lemma C9_tags_witness :
  (exists c1,
      TagFunction "tag" (tagOperands [] "Assets:A" ["t"; "t"]) ledgerB
      = (None, mkOperands [] 0, c1)
      /\ TagFunction "tag" (tagOperands [] "Assets:A" ["t"; "t"]) c1
         = (None, mkOperands [] 0, c1)
      /\ accountCarries 0%nat c1 "t"
      /\ indexEntries (TargetAccount 0%nat) c1 "t" = 1%nat)
  /\ (exists c1,
         TagCommodityFunction "tag-commodity" (tagOperands [] "USD" ["t"]) ledgerB
         = (None, mkOperands [] 0, c1)
         /\ TagCommodityFunction "tag-commodity" (tagOperands [] "USD" ["t"]) c1
            = (None, mkOperands [] 0, c1)
         /\ indexEntries (TargetCommodity "USD") c1 "t" = 1%nat)
  /\ UntagFunction "untag" (tagOperands [] "Assets:A" ["t"]) ledgerB
     = (None, mkOperands [] 0, ledgerB).
Proof.
  pose proof C9_tags as (H1 & H2 & H3).
  split; [|split].
  - destruct (H1 "tag" [] "Assets:A" ["t"; "t"] ledgerB 0%nat (NewAccount "Assets:A" Date_zero)
                ltac:(discriminate) eq_refl eq_refl eq_refl) as (c1 & Hr1 & Hr2 & Ht).
    exists c1. split; [exact Hr1|]. split; [exact Hr2|].
    destruct (Ht "t" ltac:(by left)) as (Hc & _ & Hn).
    split; [exact Hc|]. apply Hn, ledgerB_reachable.
  - destruct (H2 "tag-commodity" [] "USD" ["t"] ledgerB (NewCommodity "USD" "Dollar" Date_zero)
                ltac:(discriminate) eq_refl) as (c1 & Hr1 & Hr2 & Ht).
    exists c1. split; [exact Hr1|]. split; [exact Hr2|].
    destruct (Ht "t" ltac:(by left)) as (_ & _ & Hn). apply Hn, ledgerB_reachable.
  - apply (H3 "untag" [] "Assets:A" ["t"] ledgerB 0%nat (NewAccount "Assets:A" Date_zero)).
    + apply ledgerB_reachable.
    + discriminate.
    + reflexivity.
    + reflexivity.
    + reflexivity.
    + intros tag _. reflexivity.
Defined.

(** The same on a run: tagging twice, in one call and in two, leaves one
    entry in the index; then untagging a tag the account does not carry is
    accepted and changes nothing. *)
Example tag_twice_run :
  (fun '(r, c) => (r, Context_Tags c !! "t",
                   (fun a => Account_Tags a !! "t") <$> accountNamed c "Assets:A"))
    <$> runContext "2000 1 1 date  Assets:A open  Assets:A t t tag  Assets:A t tag
                    Assets:A other untag"
  = Some (None, Some [TargetAccount 0%nat], Some (Some true)).
Proof. vm_compute. reflexivity. Qed.

(** * Further properties of the code *)

(** ** The lexer: line numbers *)

Lemma countNewlines_app rs1 rs2 :
  countNewlines (rs1 ++ rs2) = (countNewlines rs1 + countNewlines rs2)%N.
Proof. induction rs1 as [|r rs1 IH]; cbn; [reflexivity|]. rewrite IH. lia. Qed.

Lemma addRune_line l r tok l' :
  addRuneAndGetToken l r = (tok, l') ->
  Lexer_lineNumber l' = (Lexer_lineNumber l + countNewlines [r])%N
  /\ Lexer_reader l' = Lexer_reader l.
Proof.
  unfold addRuneAndGetToken. cbn [countNewlines].
  intros H. destruct (Ascii.eqb r "010"); cbn in H;
    repeat (case_match; simplify_eq); cbn; split; (lia || reflexivity).
Qed.

Lemma readRunes_line rs : forall l tok l',
  readRunes rs l = (tok, l') ->
  exists consumed, rs = (consumed ++ Lexer_reader l')%list
    /\ Lexer_lineNumber l' = (Lexer_lineNumber l + countNewlines consumed)%N.
Proof.
  induction rs as [|r rs IH]; intros l tok l' H; cbn in H.
  - exists []. unfold getFinalToken in H.
    repeat (case_match; simplify_eq); cbn; split; (reflexivity || lia).
  - destruct (addRuneAndGetToken l r) as [[ty t] l1] eqn:Ha.
    destruct (addRune_line _ _ _ _ Ha) as [Hl _].
    destruct (bool_decide (ty = TokOpenParen) || bool_decide (ty = TokCloseParen)).
    { simplify_eq. exists [r]. cbn. split; [reflexivity|]. cbn in Hl. exact Hl. }
    destruct (negb (bool_decide (ty = TokNone))).
    { simplify_eq. exists [r]. cbn. split; [reflexivity|]. cbn in Hl. exact Hl. }
    destruct (IH _ _ _ H) as (consumed & -> & Hc).
    exists (r :: consumed). split; [reflexivity|].
    rewrite Hc, Hl. cbn. lia.
Qed.

(** X1.  One call of [GetNextToken] reads a prefix of the input that is
    left, and moves the line number on by exactly the number of newline
    runes in that prefix: newlines inside quoted strings, escaped newlines
    and the newline that ends an unquoted string all count. *)
Theorem lexer_line_numbers l tok l' :
  GetNextToken l = (tok, l') ->
  exists consumed,
    Lexer_reader l = (consumed ++ Lexer_reader l')%list
    /\ LineNumber l' = (LineNumber l + countNewlines consumed)%N.
Proof.
  unfold GetNextToken, LineNumber. intros H.
  destruct (Lexer_openParenSet l).
  { simplify_eq. exists []. cbn. split; [reflexivity|lia]. }
  destruct (Lexer_closeParenSet l).
  { simplify_eq. exists []. cbn. split; [reflexivity|lia]. }
  by apply readRunes_line in H.
Qed.

Lemma lexer_line_numbers_witness :
  let l := NewLexer (runes "close
Assets:A") in
  exists consumed,
    Lexer_reader l = (consumed ++ Lexer_reader (snd (GetNextToken l)))%list
    /\ LineNumber (snd (GetNextToken l)) = (LineNumber l + countNewlines consumed)%N.
Proof.
  intros l. apply (lexer_line_numbers l (fst (GetNextToken l))). reflexivity.
Defined.

(** The word [close] at the end of line 1 is delivered with the lexer
    already on line 2, which is the line an error of [close] is reported
    at. *)
Example error_line_after_newline :
  fst <$> run "close
" = Some (Some (Prefixed "<date>" (AtLine 2 (Errorf "%v: no operands given")))).
Proof. vm_compute. reflexivity. Qed.
(** ** The lexer: writing a text as a token *)

Lemma newline_IsSpace r : Ascii.eqb r "010"%char = true -> IsSpace r = true.
Proof. intros H. apply Ascii.eqb_eq in H. subst r. reflexivity. Qed.

Lemma plainRune_inv r :
  plainRune r = true ->
  IsSpace r = false /\ Ascii.eqb r dquote = false /\ Ascii.eqb r "("%char = false
  /\ Ascii.eqb r ")"%char = false /\ Ascii.eqb r "\"%char = false
  /\ Ascii.eqb r "010"%char = false.
Proof.
  unfold plainRune. intros H.
  repeat (apply andb_prop in H as [H ?]).
  apply negb_true_iff in H.
  repeat match goal with X : negb _ = true |- _ => apply negb_true_iff in X end.
  repeat split; try assumption.
  destruct (Ascii.eqb r "010"%char) eqn:E; [|reflexivity].
  apply newline_IsSpace in E. congruence.
Qed.

Lemma delimiter_not_backslash d : delimiter d = true -> Ascii.eqb d "\"%char = false.
Proof.
  intros H. destruct (Ascii.eqb_spec d "\"%char) as [->|]; [|reflexivity].
  vm_compute in H. discriminate.
Qed.

Lemma append_cons (c : ascii) (a b : string) : String c a ++ b = String c (a ++ b).
Proof. reflexivity. Qed.

Lemma append_nil (b : string) : "" ++ b = b.
Proof. reflexivity. Qed.

Lemma string_app_snoc (a : string) (r : ascii) (w : string) :
  (a ++ String r EmptyString) ++ w = a ++ String r w.
Proof.
  induction a as [|c a IH]; [reflexivity|].
  rewrite !append_cons. f_equal. exact IH.
Qed.

Lemma string_app_empty (a : string) : a ++ "" = a.
Proof. induction a as [|c a IH]; [reflexivity|]. rewrite append_cons. f_equal. exact IH. Qed.

Lemma readRunes_none r rs l l1 :
  addRuneAndGetToken l r = ((TokNone, ""), l1) -> readRunes (r :: rs) l = readRunes rs l1.
Proof. intros H. cbn [readRunes]. rewrite H. reflexivity. Qed.

Lemma readRunes_token r rs l ty t l1 :
  addRuneAndGetToken l r = ((ty, t), l1) ->
  ty = TokString \/ ty = TokQuotedString ->
  readRunes (r :: rs) l = ((ty, t, None), set_reader l1 rs).
Proof. intros H [-> | ->]; cbn [readRunes]; rewrite H; reflexivity. Qed.

Local Ltac lexer_fields :=
  unfold addRuneAndGetToken, set_token, set_isEscaping, set_isInString,
    set_isInQuotedString, set_lineNumber, set_openParenSet, set_closeParenSet,
    set_reader; cbn.

(** Decide the tests on runes that are known. *)
Local Ltac closed_runes :=
  repeat match goal with
  | |- context [Ascii.eqb ?a ?b] =>
      let v := eval vm_compute in (Ascii.eqb a b) in
      lazymatch v with
      | true => change (Ascii.eqb a b) with true
      | false => change (Ascii.eqb a b) with false
      end
  | |- context [IsSpace ?a] =>
      let v := eval vm_compute in (IsSpace a) in
      lazymatch v with
      | true => change (IsSpace a) with true
      | false => change (IsSpace a) with false
      end
  | |- context [bool_decide (?a = ?b :> TokenType)] =>
      let v := eval vm_compute in (bool_decide (a = b)) in
      lazymatch v with
      | true => change (bool_decide (a = b)) with true
      | false => change (bool_decide (a = b)) with false
      end
  end.

(** One rune of a text written as an unquoted string is appended to the
    token being built, in a string or at the start of one. *)
Lemma readRunes_bare_rune rd ln b tok r rs :
  readRunes (bareRune r ++ rs) (mkLexer rd ln false b false tok false false)
  = readRunes rs
      (mkLexer rd (ln + countNewlines [r]) false true false (WriteRune tok r) false false).
Proof.
  unfold bareRune. destruct (plainRune r) eqn:Hp.
  - apply plainRune_inv in Hp as (Hs & Hq & Ho & Hc & Hb & Hn).
    cbn [app]. apply readRunes_none. lexer_fields.
    rewrite Hn, Hb. cbn.
    destruct b; cbn; rewrite ?Hq, ?Ho, ?Hc, ?Hs; cbn; rewrite ?Hq, ?Ho, ?Hc, ?Hs; cbn;
      do 2 f_equal; lia.
  - cbn [app].
    rewrite (readRunes_none _ _ _ (mkLexer rd ln true b false tok false false))
      by (lexer_fields; reflexivity).
    apply readRunes_none. lexer_fields.
    destruct (Ascii.eqb r "010"%char); destruct b; cbn; do 2 f_equal; lia.
Qed.

Lemma readRunes_bare w : forall rd ln b tok rs,
  readRunes (bare w ++ rs) (mkLexer rd ln false b false tok false false)
  = readRunes rs
      (mkLexer rd (ln + countNewlines (runes w)) false
         (b || negb (bool_decide (w = ""))) false (tok ++ w) false false).
Proof.
  induction w as [|r w IH]; intros rd ln b tok rs.
  - cbn. rewrite string_app_empty, orb_false_r. do 2 f_equal. lia.
  - unfold bare. cbn [runes list_ascii_of_string map List.concat].
    fold (runes w). fold (bare w). rewrite <- app_assoc.
    rewrite readRunes_bare_rune. rewrite IH.
    unfold WriteRune. rewrite string_app_snoc, orb_true_r. cbn. do 2 f_equal. lia.
Qed.

(** X2.  Every non-empty text can be written as an unquoted string, with a
    backslash before each rune that would not stand for itself (white space,
    double quote, parenthesis, backslash).  Read by an idle lexer and
    followed by a delimiter or by the end of input, it is returned as a
    String token with exactly that text; a parenthesis that ended it is held
    back for the next call, a double quote that ended it opens a quoted
    string. *)
Theorem lexer_bare_word (l : Lexer) (w : string) :
  idle l -> w <> "" ->
  (forall d rest,
      delimiter d = true ->
      Lexer_reader l = (bare w ++ d :: rest)%list ->
      GetNextToken l =
        ((TokString, w, None),
         mkLexer rest (Lexer_lineNumber l + countNewlines (runes w) + countNewlines [d])
           false (Ascii.eqb d dquote) (Ascii.eqb d dquote) ""
           (Ascii.eqb d "("%char) (Ascii.eqb d ")"%char)))
  /\ (Lexer_reader l = bare w ->
      GetNextToken l =
        ((TokString, w, None),
         mkLexer [] (Lexer_lineNumber l + countNewlines (runes w))
           false false false w false false)).
Proof.
  intros (He & Hs & Hq & Ht & Ho & Hc) Hw.
  destruct l as [rd ln esc ins inq tok op cl]. cbn in *. subst.
  assert (negb (bool_decide (w = "")) = true) as Hne
    by (rewrite bool_decide_eq_false_2; [reflexivity|assumption]).
  split.
  - intros d rest Hd ->. unfold GetNextToken.
    cbn [Lexer_openParenSet Lexer_closeParenSet Lexer_reader].
    rewrite readRunes_bare. rewrite Hne. cbn [orb]. rewrite append_nil.
    pose proof (delimiter_not_backslash d Hd) as Hb.
    destruct (Ascii.eqb_spec d dquote) as [->|Hnq].
    { cbn [readRunes]. lexer_fields. closed_runes. cbn. closed_runes. cbn. do 2 f_equal; cbn; lia. }
    destruct (Ascii.eqb_spec d "("%char) as [->|Hno].
    { cbn [readRunes]. lexer_fields. closed_runes. cbn. closed_runes. cbn. do 2 f_equal; cbn; lia. }
    destruct (Ascii.eqb_spec d ")"%char) as [->|Hnc].
    { cbn [readRunes]. lexer_fields. closed_runes. cbn. closed_runes. cbn. do 2 f_equal; cbn; lia. }
    assert (IsSpace d = true) as Hsp.
    { unfold delimiter in Hd.
      rewrite (proj2 (Ascii.eqb_neq _ _) Hnq), (proj2 (Ascii.eqb_neq _ _) Hno),
        (proj2 (Ascii.eqb_neq _ _) Hnc) in Hd.
      by rewrite !orb_false_r in Hd. }
    apply Ascii.eqb_neq in Hnq, Hno, Hnc.
    cbn [readRunes]. lexer_fields. rewrite Hb.
    destruct (Ascii.eqb d "010"%char); cbn; rewrite Hnq, Hno, Hnc, Hsp; cbn;
      closed_runes; cbn; do 2 f_equal; cbn; lia.
  - intros ->. unfold GetNextToken.
    cbn [Lexer_openParenSet Lexer_closeParenSet Lexer_reader].
    rewrite <- (app_nil_r (bare w)). rewrite readRunes_bare. rewrite Hne. cbn.
    reflexivity.
Qed.

Lemma lexer_bare_word_witness :
  GetNextToken (NewLexer (runes "Assets:Cash\ \(old\)) x"))
  = ((TokString, "Assets:Cash (old)", None),
     mkLexer (runes " x") 1 false false false "" false true).
Proof.
  apply (proj1 (lexer_bare_word (NewLexer (runes "Assets:Cash\ \(old\)) x")) "Assets:Cash (old)"
                  ltac:(repeat split) ltac:(discriminate)) ")"%char (runes " x")
           eq_refl eq_refl).
Defined.

(** The runes of a quoted string up to and including the closing quote. *)
Lemma readRunes_quoted_body s : forall rd ln tok rest,
  readRunes (List.concat (map quotedRune (runes s)) ++ dquote :: rest)
    (mkLexer rd ln false true true tok false false)
  = ((TokQuotedString, tok ++ s, None),
     mkLexer rest (ln + countNewlines (runes s)) false false false "" false false).
Proof.
  induction s as [|r s IH]; intros rd ln tok rest.
  - cbn [runes list_ascii_of_string map List.concat app readRunes].
    lexer_fields. closed_runes. cbn. closed_runes. cbn.
    rewrite string_app_empty. do 2 f_equal; cbn; lia.
  - cbn [runes list_ascii_of_string map List.concat]. fold (runes s).
    rewrite <- app_assoc. unfold quotedRune at 1.
    destruct (Ascii.eqb r dquote || Ascii.eqb r "\"%char) eqn:Hesc.
    + cbn [app].
      rewrite (readRunes_none _ _ _ (mkLexer rd ln true true true tok false false))
        by (lexer_fields; reflexivity).
      rewrite (readRunes_none _ _ _
                 (mkLexer rd (ln + countNewlines [r]) false true true (WriteRune tok r)
                    false false))
        by (lexer_fields; destruct (Ascii.eqb r "010"%char); cbn; do 2 f_equal; lia).
      rewrite IH. unfold WriteRune. rewrite string_app_snoc.
      cbn. do 2 f_equal. lia.
    + apply orb_false_elim in Hesc as [Hnq Hnb]. cbn [app].
      rewrite (readRunes_none _ _ _
                 (mkLexer rd (ln + countNewlines [r]) false true true (WriteRune tok r)
                    false false))
        by (lexer_fields; rewrite Hnb;
            destruct (Ascii.eqb r "010"%char); cbn; rewrite Hnq; cbn; do 2 f_equal; lia).
      rewrite IH. unfold WriteRune. rewrite string_app_snoc.
      cbn. do 2 f_equal. lia.
Qed.

(** X3.  Every text, the empty one included, can be written as a quoted
    string: between double quotes, with a backslash before each double quote
    and each backslash of the text.  An idle lexer returns it as a
    QuotedString token with exactly that text and is idle again; white
    space, newlines and parentheses inside the quotes are part of the
    text. *)
Theorem lexer_quoted_round_trip (l : Lexer) (s : string) (rest : list ascii) :
  idle l ->
  Lexer_reader l = (quoted s ++ rest)%list ->
  GetNextToken l =
    ((TokQuotedString, s, None),
     mkLexer rest (Lexer_lineNumber l + countNewlines (runes s))
       false false false "" false false).
Proof.
  intros (He & Hs & Hq & Ht & Ho & Hc) Hr.
  destruct l as [rd ln esc ins inq tok op cl]. cbn in *. subst.
  unfold GetNextToken. cbn [Lexer_openParenSet Lexer_closeParenSet Lexer_reader].
  unfold quoted. cbn [app].
  erewrite readRunes_none; [|lexer_fields; closed_runes; cbn; reflexivity].
  rewrite <- app_assoc. cbn [app].
  rewrite readRunes_quoted_body. rewrite append_nil. reflexivity.
Qed.

Lemma lexer_quoted_round_trip_witness :
  GetNextToken (NewLexer (quoted "a (b)
c" ++ runes " x"))
  = ((TokQuotedString, "a (b)
c", None), mkLexer (runes " x") 2 false false false "" false false).
Proof.
  apply (lexer_quoted_round_trip (NewLexer (quoted "a (b)
c" ++ runes " x")) "a (b)
c" (runes " x") ltac:(repeat split) eq_refl).
Defined.
(** ** The lexer: unquoted strings are never empty *)

Lemma append_snoc_nonempty (a : string) (r : ascii) : a ++ String r EmptyString <> "".
Proof. destruct a; discriminate. Qed.

Lemma addRune_tokenBegun l r ty t l' :
  tokenBegun l ->
  addRuneAndGetToken l r = ((ty, t), l') ->
  tokenBegun l' /\ (ty = TokString -> t <> "").
Proof.
  unfold tokenBegun, addRuneAndGetToken, WriteRune. intros Hinv H.
  destruct l as [rd ln esc ins inq tok op cl]. cbn in *.
  destruct (Ascii.eqb r "010"%char); cbn in H;
    repeat (case_match; simplify_eq); cbn in *;
    split; intros; try discriminate; try congruence;
    try apply append_snoc_nonempty; auto.
Qed.

Lemma readRunes_tokenBegun rs : forall l ty t e l',
  tokenBegun l ->
  readRunes rs l = ((ty, t, e), l') ->
  tokenBegun l' /\ (ty = TokString -> t <> "").
Proof.
  induction rs as [|r rs IH]; intros l ty t e l' Hinv H; cbn in H.
  - unfold getFinalToken, tokenBegun in *. destruct l as [rd ln esc ins inq tok op cl].
    cbn in *. repeat (case_match; simplify_eq); cbn in *;
      split; intros; try discriminate; try congruence; auto.
    apply Hinv; [|reflexivity]. by destruct ins.
  - destruct (addRuneAndGetToken l r) as [[ty1 t1] l1] eqn:Ha.
    destruct (addRune_tokenBegun _ _ _ _ _ Hinv Ha) as [Hinv1 Hne].
    assert (forall x, tokenBegun l1 -> tokenBegun (set_reader l1 x)) as Hrd
      by (intros x Hx; exact Hx).
    destruct (bool_decide (ty1 = TokOpenParen) || bool_decide (ty1 = TokCloseParen)) eqn:Hp.
    { simplify_eq. split; [auto|]. intros ->. cbn in Hp. discriminate. }
    destruct (negb (bool_decide (ty1 = TokNone))).
    { simplify_eq. split; auto. }
    eauto.
Qed.

Lemma GetNextToken_tokenBegun l ty t e l' :
  tokenBegun l ->
  GetNextToken l = ((ty, t, e), l') ->
  tokenBegun l' /\ (ty = TokString -> t <> "").
Proof.
  unfold GetNextToken. intros Hinv H.
  destruct (Lexer_openParenSet l) eqn:Ho.
  { simplify_eq. split; [exact Hinv|discriminate]. }
  destruct (Lexer_closeParenSet l) eqn:Hc.
  { simplify_eq. split; [exact Hinv|discriminate]. }
  eapply readRunes_tokenBegun; eauto.
Qed.

Lemma lexStep_tokenBegun rs l : rtc lexStep (NewLexer rs) l -> tokenBegun l.
Proof.
  intros H. apply (rtc_ind_r (R := lexStep) (fun l => tokenBegun l) (NewLexer rs)); [| |exact H].
  - intros ?. discriminate.
  - intros l1 l2 _ [[[ty t] e] Hs] Hinv.
    by destruct (GetNextToken_tokenBegun _ _ _ _ _ Hinv Hs).
Qed.

(** X4.  An unquoted String token is never empty: whatever the input, and
    however many tokens have been read from it, a String token that
    [GetNextToken] returns has at least one rune.  The empty text can only
    be written as a quoted string. *)
Theorem lexer_string_token_not_empty (rs : list ascii) (l l' : Lexer)
    (t : string) (e : option error) :
  rtc lexStep (NewLexer rs) l ->
  GetNextToken l = ((TokString, t, e), l') ->
  t <> "".
Proof.
  intros Hr H.
  destruct (GetNextToken_tokenBegun _ _ _ _ _ (lexStep_tokenBegun _ _ Hr) H) as [_ Hne].
  by apply Hne.
Qed.

Lemma lexer_string_token_not_empty_witness : "b" <> "".
Proof.
  apply (lexer_string_token_not_empty (runes "a b") (mkLexer (runes "b") 1 false false false "" false false)
           (mkLexer [] 1 false false false "b" false false) "b" None).
  - apply rtc_once. exists (TokString, "a", None). reflexivity.
  - vm_compute. reflexivity.
Defined.

(** ** Operands: the view of the stack a function is given *)

Lemma Pop_scopeKept op n values op' :
  viewOK op -> Pop op n = (values, op') -> scopeKept op op'.
Proof.
  unfold viewOK, scopeKept, Pop, Length. destruct op as [st idx]. cbn.
  intros Hv H. simplify_eq. cbn.
  match goal with |- context [Z.to_nat ?z] => set (k := Z.to_nat z) end.
  assert (idx <= k)%nat as Hk.
  { subst k. destruct (Z.ltb_spec (Z.of_nat (List.length st) - Z.of_nat idx) n); lia. }
  split; [reflexivity|]. split.
  - unfold viewOK. cbn. rewrite length_take. lia.
  - rewrite take_take. f_equal. lia.
Qed.

Lemma scopeKept_refl op : viewOK op -> scopeKept op op.
Proof. intros H. by repeat split. Qed.

Lemma scopeKept_Push op op1 vs : viewOK op -> scopeKept op op1 -> scopeKept op (Push op1 vs).
Proof.
  unfold scopeKept, viewOK, Push. intros Hv (Hi & Hv1 & Ht). cbn.
  split; [exact Hi|]. split.
  - rewrite length_app. lia.
  - rewrite take_app_le by lia. exact Ht.
Qed.

(** X5.  The view protects the stack below its start.  For a view that
    starts inside the stack: pushing values and popping as many returns
    them and restores the view; the values of the view after [Push] are the
    old ones followed by the new ones; and [Pop] of a non-negative number
    returns the last [min n Length] values of the view, leaves the others,
    and never touches the stack below the start of the view, however large
    [n] is. *)
Theorem Operands_view (op : Operands) :
  viewOK op ->
  (forall vs, Pop (Push op vs) (Z.of_nat (List.length vs)) = (vs, op))
  /\ (forall vs, GetValues (Push op vs) = (GetValues op ++ vs)%list)
  /\ (forall n values op',
        0 <= n -> Pop op n = (values, op') ->
        GetValues op = (GetValues op' ++ values)%list
        /\ Z.of_nat (List.length values) = Z.min n (Length op)
        /\ scopeKept op op').
Proof.
  intros Hv. split; [|split].
  - intros vs. unfold Pop, Push, Length. destruct op as [st idx]. unfold viewOK in Hv.
    cbn in *. rewrite length_app.
    destruct (Z.ltb_spec (Z.of_nat (List.length st + List.length vs) - Z.of_nat idx)
                (Z.of_nat (List.length vs))); [lia|].
    replace (Z.to_nat (Z.of_nat (List.length st + List.length vs) - Z.of_nat (List.length vs)))
      with (List.length st) by lia.
    rewrite drop_app_length, take_app_length. reflexivity.
  - intros vs. unfold GetValues, Push. cbn. unfold viewOK in Hv.
    rewrite drop_app_le by lia. reflexivity.
  - intros n values op' Hn HP. split; [|split].
    + unfold Pop, Length, GetValues, viewOK in *. destruct op as [st idx]. cbn in *.
      injection HP as <- <-. cbn.
      match goal with |- context [Z.to_nat ?z] => set (k := Z.to_nat z) end.
      assert (idx <= k <= List.length st)%nat as Hk.
      { subst k. destruct (Z.ltb_spec (Z.of_nat (List.length st) - Z.of_nat idx) n); lia. }
      rewrite <- (take_drop k st) at 1.
      rewrite drop_app_le by (rewrite length_take; lia). reflexivity.
    + unfold Pop, Length, viewOK in *. destruct op as [st idx]. cbn in *.
      injection HP as <- <-. rewrite length_drop.
      destruct (Z.ltb_spec (Z.of_nat (List.length st) - Z.of_nat idx) n); lia.
    + eapply Pop_scopeKept; eauto.
Qed.

Lemma Operands_view_witness :
  let op := mkOperands [VString "x"; VString "a"; VString "b"] 1 in
  Pop (Push op [VString "c"]) 1 = ([VString "c"], op)
  /\ GetValues op = (GetValues (snd (Pop op 5)) ++ fst (Pop op 5))%list
  /\ scopeKept op (snd (Pop op 5)).
Proof.
  intros op.
  destruct (Operands_view op ltac:(unfold viewOK; cbn; lia)) as (H1 & _ & H3).
  split; [exact (H1 [VString "c"])|].
  destruct (H3 5 (fst (Pop op 5)) (snd (Pop op 5)) ltac:(lia) eq_refl) as (Ha & _ & Hc).
  split; assumption.
Defined.

(** ** The registered functions stay inside their view *)

Local Ltac keeps_scope :=
  intros fn op c r op' c' Hv H; unfold fail, ok in *;
  repeat (case_match; simplify_eq);
  repeat match goal with
         | HP : Pop _ _ = (_, _) |- _ => apply (Pop_scopeKept _ _ _ _ Hv) in HP
         end;
  auto using scopeKept_refl, scopeKept_Push.

Lemma AddNotes_scope : respectsScope AddNotesFunction.
Proof. unfold respectsScope, AddNotesFunction. keeps_scope. Qed.
Lemma Assert_scope : respectsScope AssertFunction.
Proof. unfold respectsScope, AssertFunction, openAccount. keeps_scope. Qed.
Lemma AssertLot_scope : respectsScope AssertLotFunction.
Proof. unfold respectsScope, AssertLotFunction, openAccount. keeps_scope. Qed.
Lemma AssertLotsSum_scope : respectsScope AssertLotsSumFunction.
Proof. unfold respectsScope, AssertLotsSumFunction, openAccount. keeps_scope. Qed.
Lemma Close_scope : respectsScope CloseFunction.
Proof. unfold respectsScope, CloseFunction. keeps_scope. Qed.
Lemma CloseLot_scope : respectsScope CloseLotFunction.
Proof. unfold respectsScope, CloseLotFunction. keeps_scope. Qed.
Lemma Comment_scope : respectsScope CommentFunction.
Proof. unfold respectsScope, CommentFunction. keeps_scope. Qed.
Lemma Commodity_scope : respectsScope CommodityFunction.
Proof. unfold respectsScope, CommodityFunction. keeps_scope. Qed.
Lemma CreateLot_scope : respectsScope CreateLotFunction.
Proof. unfold respectsScope, CreateLotFunction. keeps_scope. Qed.
Lemma Date_scope : respectsScope DateFunction.
Proof. unfold respectsScope, DateFunction. keeps_scope. Qed.
Lemma Lot_scope : respectsScope LotFunction.
Proof. unfold respectsScope, LotFunction. keeps_scope. Qed.
Lemma Open_scope : respectsScope OpenFunction.
Proof. unfold respectsScope, OpenFunction. keeps_scope. Qed.
Lemma SetComment_scope : respectsScope SetCommentFunction.
Proof. unfold respectsScope, SetCommentFunction. keeps_scope. Qed.
Lemma Tag_scope : respectsScope TagFunction.
Proof. unfold respectsScope, TagFunction. keeps_scope. Qed.
Lemma TagCommodity_scope : respectsScope TagCommodityFunction.
Proof. unfold respectsScope, TagCommodityFunction. keeps_scope. Qed.
Lemma Untag_scope : respectsScope UntagFunction.
Proof. unfold respectsScope, UntagFunction. keeps_scope. Qed.
Lemma Xact_scope : respectsScope XactFunction.
Proof. unfold respectsScope, XactFunction, ParseTransaction. keeps_scope. Qed.
Lemma Xfer_scope : respectsScope XferFunction.
Proof. unfold respectsScope, XferFunction, ParseTransfer. keeps_scope. Qed.
Lemma XferExch_scope : respectsScope XferExchFunction.
Proof. unfold respectsScope, XferExchFunction, ParseTransferWithExchange. keeps_scope. Qed.

Create HintDb ledger_scope.
#[local] Hint Resolve AddNotes_scope Assert_scope AssertLot_scope
  AssertLotsSum_scope Close_scope CloseLot_scope Comment_scope Commodity_scope
  CreateLot_scope Date_scope Lot_scope Open_scope SetComment_scope Tag_scope
  TagCommodity_scope Untag_scope Xact_scope Xfer_scope XferExch_scope : ledger_scope.

Lemma GetCoreFunctions_scope (name : string) (f : Function Context) :
  GetCoreFunctions !! name = Some f -> respectsScope f.
Proof. intros H. core_function_cases H; auto with ledger_scope. Qed.

(** X6.  Each of the nineteen registered functions, whatever its operands
    and whether it succeeds or fails, changes the operand stack only above
    the start of the view it was given: the operands outside the innermost
    pair of parentheses are as they were, and the view still starts inside
    the stack. *)
Theorem core_functions_respect_scope (name : string) (f : Function Context) :
  GetCoreFunctions !! name = Some f -> respectsScope f.
Proof. apply GetCoreFunctions_scope. Qed.

Lemma core_functions_respect_scope_witness :
  scopeKept (mkOperands [VString "below"; VString "x"; VString "y"] 1)
    (snd (fst (CommentFunction "comment"
                 (mkOperands [VString "below"; VString "x"; VString "y"] 1) NewContext))).
Proof.
  apply (core_functions_respect_scope "comment" CommentFunction eq_refl "comment"
           (mkOperands [VString "below"; VString "x"; VString "y"] 1) NewContext
           (fst (fst (CommentFunction "comment"
                        (mkOperands [VString "below"; VString "x"; VString "y"] 1) NewContext)))
           _ (snd (CommentFunction "comment"
                     (mkOperands [VString "below"; VString "x"; VString "y"] 1) NewContext))).
  - unfold viewOK. cbn. lia.
  - reflexivity.
Defined.
(** ** The marker stack stays inside the operand stack *)

Lemma within_snoc_iff lo ms m hi :
  within lo (ms ++ [m]) hi <-> within lo ms m /\ (m <= hi)%nat.
Proof.
  revert lo. induction ms as [|x ms IH]; intros lo; cbn.
  - tauto.
  - rewrite IH. tauto.
Qed.

Lemma within_mono lo ms hi hi' : within lo ms hi -> (hi <= hi')%nat -> within lo ms hi'.
Proof.
  revert lo. induction ms as [|x ms IH]; intros lo; cbn; [lia|].
  intros [? ?] ?. split; eauto.
Qed.

Lemma last_snoc_inv {A} (ms : list A) (m : A) :
  last ms = Some m -> exists ms0, ms = (ms0 ++ [m])%list.
Proof.
  intros Hl.
  assert (ms <> []) as Hne by (intros E; rewrite E in Hl; discriminate).
  destruct (exists_last Hne) as [ms0 [x Hx]]. subst ms.
  rewrite last_snoc in Hl. simplify_eq. eauto.
Qed.

Section ScopeFacts.

Variable C : Type.
Variable F : gmap string (Function C).
Hypothesis F_scope : forall name f, F !! name = Some f -> respectsScope f.
Implicit Types (p : Parser C).

Lemma getOperands_markersOK p :
  markersOK p -> exists op, getOperands p = inr op /\ viewOK op
                            /\ Operands_stack op = Parser_operandStack p
                            /\ last (Parser_markerStack p) = Some (Operands_stackIndex op)
                               \/ (getOperands p = inr op /\ viewOK op
                                   /\ Operands_stack op = Parser_operandStack p
                                   /\ Parser_markerStack p = []
                                   /\ Operands_stackIndex op = 0%nat).
Proof.
  unfold markersOK, getOperands. intros Hm.
  destruct (last (Parser_markerStack p)) as [index|] eqn:Hl.
  - destruct (last_snoc_inv _ _ Hl) as [ms0 Hms]. rewrite Hms in Hm.
    apply within_snoc_iff in Hm as [_ Hle].
    destruct (Nat.ltb_spec (List.length (Parser_operandStack p)) index); [lia|].
    eexists. left. repeat split. exact Hle.
  - apply last_None in Hl. eexists. right. repeat split; [|exact Hl].
    unfold viewOK. cbn. lia.
Qed.

(** One iteration of the loop keeps the marker stack inside the operand
    stack, keeps the function table, and does not end in the panic of
    [getOperands]. *)
Lemma onToken_markersOK line tok p :
  Parser_Functions p = F -> markersOK p ->
  markersOK (outcome_parser (onToken line tok p))
  /\ Parser_Functions (outcome_parser (onToken line tok p)) = F
  /\ (forall r p', onToken line tok p = Return r p' -> r <> Some markerPanic).
Proof using F_scope.
  intros HF Hm. destruct tok as [[ty text] e]. unfold markersOK in *.
  destruct ty; cbn.
  - (* String *)
    destruct (Parser_silenced p =? 0)%nat.
    2:{ unfold afterSwitch. case_bool_decide; cbn; repeat split; auto; intros; simplify_eq; discriminate. }
    case_bool_decide.
    { destruct (List.length (Parser_markerStack p) =? 0)%nat; cbn.
      - repeat split; auto. intros; simplify_eq. discriminate.
      - unfold afterSwitch. case_bool_decide; cbn; repeat split; auto; intros; simplify_eq; discriminate. }
    destruct (Parser_Functions p !! text) as [f|] eqn:Hf.
    2:{ unfold afterSwitch, pushString. case_bool_decide; cbn;
          (split; [eapply within_mono; [exact Hm|rewrite length_app; lia]|]);
          split; auto; intros; simplify_eq; discriminate. }
    rewrite HF in Hf. pose proof (F_scope _ _ Hf) as Hscope.
    destruct (getOperands_markersOK p Hm) as [op Hop].
    assert (getOperands p = inr op /\ viewOK op /\ Operands_stack op = Parser_operandStack p
            /\ forall n, (Operands_stackIndex op <= n)%nat ->
                         within 0 (Parser_markerStack p) n) as (Hg & Hv & Hst & Hw).
    { destruct Hop as [(Hg & Hv & Hst & Hl)|(Hg & Hv & Hst & Hnil & Hi)].
      - repeat split; auto. intros n Hn.
        destruct (last_snoc_inv _ _ Hl) as [ms0 Hms]. rewrite Hms in *.
        apply within_snoc_iff in Hm as [Hm _]. apply within_snoc_iff. split; auto.
      - repeat split; auto. intros n Hn. rewrite Hnil. cbn. lia. }
    rewrite Hg.
    destruct (f text op (Parser_Context p)) as [[r op'] c'] eqn:Hcall.
    destruct (Hscope _ _ _ _ _ _ Hv Hcall) as (Hi & Hv' & Ht).
    destruct r as [err|]; cbn; (split; [apply Hw; unfold viewOK in Hv'; lia|]);
      split; auto; intros; simplify_eq; discriminate.
  - (* QuotedString *)
    destruct (Parser_silenced p =? 0)%nat; unfold afterSwitch, pushString;
      case_bool_decide; cbn;
      (split; [first [exact Hm | eapply within_mono; [exact Hm|rewrite length_app; lia]]|]);
      split; auto; intros; simplify_eq; discriminate.
  - (* OpenParen *)
    unfold afterSwitch. case_bool_decide; cbn;
      (split; [apply within_snoc_iff; split; [exact Hm|lia]|]);
      split; auto; intros; simplify_eq; discriminate.
  - (* CloseParen *)
    unfold onCloseParen.
    destruct (last (Parser_markerStack p)) as [index|] eqn:Hl; cbn.
    2:{ repeat split; auto. intros; simplify_eq. discriminate. }
    destruct (last_snoc_inv _ _ Hl) as [ms0 Hms]. rewrite Hms in *.
    apply within_snoc_iff in Hm as [Hm Hle].
    repeat case_match; simplify_eq; cbn; rewrite Hms, removelast_last;
      (split; [eapply within_mono; [exact Hm|exact Hle]|]);
      split; auto; intros; simplify_eq; discriminate.
  - (* Error *)
    case_bool_decide; cbn; repeat split; auto; intros; simplify_eq; discriminate.
  - repeat split; auto. intros; simplify_eq. discriminate.
Qed.

(** Whatever [Parse] returns, it is [nil] or an error that carries the line
    number the lexer has reached, unless a panic ended the loop. *)
Lemma onToken_line line tok p r p' :
  lexerToken tok ->
  onToken line tok p = Return r p' ->
  r = None \/ (exists e, r = Some (AtLine line e)) \/ r = Some markerPanic.
Proof.
  destruct tok as [[ty text] e]. intros Htok H. cbn in H.
  unfold afterSwitch, formatError, onCloseParen, getOperands, markerPanic in *.
  destruct ty; repeat (case_match; simplify_eq); eauto.
  cbn in Htok. destruct Htok as [[? ?]|(? & ? & ?)]; congruence.
Qed.

Lemma Parse_loop_markersOK fuel : forall lex p r lex' p',
  Parser_Functions p = F -> markersOK p ->
  Parse_loop fuel lex p = Some (r, lex', p') ->
  markersOK p' /\ Parser_Functions p' = F
  /\ (r = None \/ exists e, r = Some (AtLine (LineNumber lex') e)).
Proof using F_scope.
  induction fuel as [|fuel IH]; intros lex p r lex' p' HF Hm H; cbn in H; [discriminate|].
  destruct (GetNextToken lex) as [tok lex1] eqn:Hg.
  pose proof (GetNextToken_shape _ _ _ Hg) as Htok.
  destruct (onToken_markersOK (LineNumber lex1) tok p HF Hm) as (Hm1 & HF1 & Hnp).
  destruct (onToken (LineNumber lex1) tok p) as [p1|r1 p1] eqn:Ho.
  - cbn in *. eauto.
  - cbn in *. simplify_eq. split; [exact Hm1|]. split; [exact HF1|].
    destruct (onToken_line _ _ _ _ _ Htok Ho) as [?|[?|?]]; auto.
    exfalso. eapply Hnp; eauto.
Qed.

End ScopeFacts.

Lemma createParser_markersOK : markersOK createParser.
Proof. unfold markersOK. cbn. lia. Qed.

(** X7.  In a run of the ledger language the marker stack always points
    into the operand stack: after [Parse] has returned, on whatever input,
    the markers of the open parentheses do not decrease from the outermost
    to the innermost and none lies beyond the top of the operand stack; and
    [Parse] did not end in the panic of [getOperands] ("top of marker stack
    extends beyond length of operand stack"). *)
Theorem core_markers_inside_stack (input : string) r lex' p' :
  Parse (NewLexer (runes input)) createParser = Some (r, lex', p') ->
  markersOK p' /\ r <> Some markerPanic.
Proof.
  unfold Parse. intros H.
  destruct (Parse_loop_markersOK Context GetCoreFunctions GetCoreFunctions_scope
              _ _ createParser _ _ _ eq_refl createParser_markersOK H) as (Hm & _ & Hr).
  split; [exact Hm|]. destruct Hr as [->|[e ->]]; discriminate.
Qed.

Lemma core_markers_inside_stack_witness :
  markersOK (snd (default (None, NewLexer [], createParser)
                    (Parse (NewLexer (runes "(()(")) createParser)))
  /\ fst (fst (default (None, NewLexer [], createParser)
                 (Parse (NewLexer (runes "(()(")) createParser))) <> Some markerPanic.
Proof.
  apply (core_markers_inside_stack "(()(" _
           (snd (fst (default (None, NewLexer [], createParser)
                        (Parse (NewLexer (runes "(()(")) createParser))))).
  assert (forall C (F : gmap string (Function C)) (ctx : C),
             exists lex' p', Parse (NewLexer (runes "(()(")) (set_Functions (NewParser ctx) F)
                             = Some (None, lex', p')) as H
    by (intros; do 2 eexists; vm_compute; reflexivity).
  destruct (H Context GetCoreFunctions NewContext) as (lex' & p' & Hp).
  unfold createParser. rewrite Hp. reflexivity.
Defined.

(** X8.  Every error that [Parse] returns in a run of the ledger language
    carries a line number, and it is the line the lexer had reached when the
    failing token was delivered (so, for an unquoted word that ends a line,
    the number of the next line). *)
Theorem core_errors_carry_line (input : string) err lex' p' :
  Parse (NewLexer (runes input)) createParser = Some (Some err, lex', p') ->
  exists e, err = AtLine (LineNumber lex') e.
Proof.
  unfold Parse. intros H.
  destruct (Parse_loop_markersOK Context GetCoreFunctions GetCoreFunctions_scope
              _ _ createParser _ _ _ eq_refl createParser_markersOK H) as (_ & _ & Hr).
  destruct Hr as [?|[e ?]]; simplify_eq. eauto.
Qed.

Lemma core_errors_carry_line_witness :
  exists e,
    AtLine 2 (Errorf "closing parenthesis does not have a matching open parenthesis")
    = AtLine (LineNumber (mkLexer [] 2 false false false "" false false)) e.
Proof.
  apply (core_errors_carry_line "
)" _ _ createParser).
  assert (forall C (F : gmap string (Function C)) (ctx : C),
             Parse (NewLexer (runes "
)")) (set_Functions (NewParser ctx) F)
             = Some (Some (AtLine 2 (Errorf "closing parenthesis does not have a matching open parenthesis")),
                     mkLexer [] 2 false false false "" false false,
                     set_Functions (NewParser ctx) F)) as H
    by (intros; vm_compute; reflexivity).
  exact (H Context GetCoreFunctions NewContext).
Defined.

(** ** Dates *)

Lemma isLeap_spec y :
  isLeap y = true <-> (y mod 4 = 0 /\ (y mod 100 <> 0 \/ y mod 400 = 0)).
Proof.
  unfold isLeap. rewrite andb_true_iff, orb_true_iff, negb_true_iff.
  rewrite !Z.eqb_eq, Z.eqb_neq. tauto.
Qed.

Lemma yearDays_succ y :
  yearDays (y + 1) = yearDays y + 365 + (if isLeap y then 1 else 0).
Proof.
  unfold yearDays. destruct (isLeap y) eqn:E.
  - apply isLeap_spec in E. Z.div_mod_to_equations. lia.
  - assert (~ (y mod 4 = 0 /\ (y mod 100 <> 0 \/ y mod 400 = 0))) as E'
      by (rewrite <- isLeap_spec; congruence).
    Z.div_mod_to_equations. lia.
Qed.

Lemma yearDays_lt y y' :
  y < y' -> yearDays y + 365 + (if isLeap y then 1 else 0) <= yearDays y'.
Proof.
  intros H. replace y' with (y + 1 + Z.of_nat (Z.to_nat (y' - y - 1))) by lia.
  induction (Z.to_nat (y' - y - 1)) as [|n IH].
  - rewrite Z.add_0_r, yearDays_succ. lia.
  - replace (y + 1 + Z.of_nat (S n)) with (y + 1 + Z.of_nat n + 1) by lia.
    rewrite yearDays_succ. destruct (isLeap (y + 1 + Z.of_nat n)); lia.
Qed.

Lemma Date_ToTime_valid d :
  validDate d -> Date_ToTime d = yearDays (Date_Year d) + dayOfYear d.
Proof.
  intros [Hm _]. unfold Date_ToTime, yearDays, dayOfYear.
  assert ((Date_Month d - 1) / 12 = 0) as -> by (apply Z.div_small; lia).
  assert ((Date_Month d - 1) mod 12 = Date_Month d - 1) as -> by (apply Z.mod_small; lia).
  rewrite Z.add_0_r. lia.
Qed.

Local Ltac month_cases m H :=
  assert (m = 1 \/ m = 2 \/ m = 3 \/ m = 4 \/ m = 5 \/ m = 6 \/ m = 7 \/ m = 8
          \/ m = 9 \/ m = 10 \/ m = 11 \/ m = 12) as H by lia;
  repeat (destruct H as [H|H]; [subst m|]); [..|subst m].

(** Evaluate the month tables at the months that are known. *)
Local Ltac month_tables :=
  repeat match goal with
         | |- context [daysBefore ?a] =>
             let v := eval vm_compute in (daysBefore a) in change (daysBefore a) with v
         | |- context [Z.leb 2 ?a] =>
             let v := eval vm_compute in (Z.leb 2 a) in change (Z.leb 2 a) with v
         end.

Lemma dayOfYear_range d :
  validDate d -> 0 <= dayOfYear d < 365 + (if isLeap (Date_Year d) then 1 else 0).
Proof.
  destruct d as [y m dy]. unfold validDate, dayOfYear, daysIn.
  cbn [Date_Year Date_Month Date_Day].
  intros [Hm Hd]. month_cases m Hc; month_tables; destruct (isLeap y); cbn in *; lia.
Qed.

Lemma dayOfYear_lt y m dy m' dy' :
  validDate (mkDate y m dy) -> validDate (mkDate y m' dy') ->
  m < m' \/ (m = m' /\ dy < dy') ->
  dayOfYear (mkDate y m dy) < dayOfYear (mkDate y m' dy').
Proof.
  unfold validDate, dayOfYear, daysIn. cbn [Date_Year Date_Month Date_Day].
  intros [Hm Hd] [Hm' Hd'] Hlt.
  month_cases m Hc; month_cases m' Hc'; month_tables; destruct (isLeap y); cbn in *; lia.
Qed.

Lemma Date_ToTime_lt d u : validDate d -> validDate u -> dateLt d u -> Date_ToTime d < Date_ToTime u.
Proof.
  intros Hd Hu Hlt. rewrite !Date_ToTime_valid by assumption.
  pose proof (dayOfYear_range d Hd). pose proof (dayOfYear_range u Hu).
  destruct Hlt as [Hy|[Hy Hlt]].
  - pose proof (yearDays_lt _ _ Hy). lia.
  - destruct d as [y m dy], u as [y' m' dy']. cbn in *. subst y'.
    pose proof (dayOfYear_lt y m dy m' dy' Hd Hu Hlt). lia.
Qed.

Lemma dateLt_trichotomy d u : dateLt d u \/ d = u \/ dateLt u d.
Proof.
  destruct d as [y m dy], u as [y' m' dy']. unfold dateLt. cbn.
  destruct (Z.lt_trichotomy y y') as [?|[?|?]];
    destruct (Z.lt_trichotomy m m') as [?|[?|?]];
    destruct (Z.lt_trichotomy dy dy') as [?|[?|?]]; subst;
    first [left; lia | right; right; lia | right; left; reflexivity].
Qed.

Lemma dateLt_irrefl d : ~ dateLt d d.
Proof. unfold dateLt. lia. Qed.

Lemma Date_comparisons_valid (d u : Date) :
  validDate d -> validDate u ->
  (Date_Before d u = true <-> dateLt d u)
  /\ (Date_After d u = true <-> dateLt u d)
  /\ (Date_Equal d u = true <-> d = u)
  /\ Date_BeforeOrEqual d u = negb (Date_After d u)
  /\ Date_EqualOrAfter d u = negb (Date_Before d u).
Proof.
  intros Hd Hu.
  assert (Date_Equal d u = true <-> d = u) as Heq.
  { unfold Date_Equal. rewrite !andb_true_iff, !Z.eqb_eq.
    destruct d, u; cbn. split; [intros [[-> ->] ->]; reflexivity|]. intros E. by inversion E. }
  assert (Date_Before d u = true <-> dateLt d u) as Hb.
  { unfold Date_Before. rewrite Z.ltb_lt. split.
    - intros Hlt. destruct (dateLt_trichotomy d u) as [?|[->|Hgt]]; [assumption|lia|].
      pose proof (Date_ToTime_lt _ _ Hu Hd Hgt). lia.
    - by apply Date_ToTime_lt. }
  assert (Date_After d u = true <-> dateLt u d) as Ha.
  { unfold Date_After. rewrite Z.ltb_lt. split.
    - intros Hlt. destruct (dateLt_trichotomy d u) as [Hl|[->|?]]; [|lia|assumption].
      pose proof (Date_ToTime_lt _ _ Hd Hu Hl). lia.
    - by apply Date_ToTime_lt. }
  split; [exact Hb|]. split; [exact Ha|]. split; [exact Heq|].
  unfold Date_BeforeOrEqual, Date_EqualOrAfter.
  destruct (dateLt_trichotomy d u) as [Hl|[->|Hg]].
  - assert (Date_Before d u = true) as -> by (by apply Hb).
    assert (Date_After d u = false) as ->.
    { apply not_true_iff_false. rewrite Ha. intros Hg.
      pose proof (Date_ToTime_lt _ _ Hd Hu Hl). pose proof (Date_ToTime_lt _ _ Hu Hd Hg). lia. }
    assert (Date_Equal d u = false) as ->.
    { apply not_true_iff_false. rewrite Heq. intros ->. by apply dateLt_irrefl in Hl. }
    split; reflexivity.
  - assert (Date_Equal u u = true) as -> by (by apply Heq).
    assert (Date_Before u u = false) as ->
      by (unfold Date_Before; apply Z.ltb_irrefl).
    assert (Date_After u u = false) as ->
      by (unfold Date_After; apply Z.ltb_irrefl).
    split; reflexivity.
  - assert (Date_After d u = true) as -> by (by apply Ha).
    assert (Date_Before d u = false) as ->.
    { apply not_true_iff_false. rewrite Hb. intros Hl.
      pose proof (Date_ToTime_lt _ _ Hd Hu Hl). pose proof (Date_ToTime_lt _ _ Hu Hd Hg). lia. }
    assert (Date_Equal d u = false) as ->.
    { apply not_true_iff_false. rewrite Heq. intros ->. by apply dateLt_irrefl in Hg. }
    split; reflexivity.
Qed.

(** X9.  On dates of the calendar (month 1 to 12, day within the month, leap
    years counted) the comparisons of [Date] are the order of the calendar:
    [Before] and [After] compare year, then month, then day; [Equal] is
    equality; [BeforeOrEqual] is the negation of [After] and [EqualOrAfter]
    the negation of [Before], so exactly one of [Before], [Equal], [After]
    holds. *)
Theorem Date_order_valid (d u : Date) :
  validDate d -> validDate u ->
  (Date_Before d u = true <-> dateLt d u)
  /\ (Date_After d u = true <-> dateLt u d)
  /\ (Date_Equal d u = true <-> d = u)
  /\ Date_BeforeOrEqual d u = negb (Date_After d u)
  /\ Date_EqualOrAfter d u = negb (Date_Before d u).
Proof. apply Date_comparisons_valid. Qed.

Lemma Date_order_valid_witness :
  Date_Before (mkDate 2000 2 29) (mkDate 2000 3 1) = true
  /\ Date_EqualOrAfter (mkDate 2000 2 29) (mkDate 2000 3 1) = false.
Proof.
  destruct (Date_order_valid (mkDate 2000 2 29) (mkDate 2000 3 1)) as (Hb & _ & _ & _ & He).
  - repeat split; vm_compute; discriminate.
  - repeat split; vm_compute; discriminate.
  - split.
    + apply Hb. unfold dateLt. cbn. lia.
    + rewrite He. rewrite (proj2 Hb); [reflexivity|]. unfold dateLt. cbn. lia.
Defined.

(** X10.  Outside the calendar the comparisons are no longer an order:
    [Before] and [After] compare the days that [time.Date] normalises the
    dates to, [Equal] compares the fields.  Two different dates that
    normalise to the same day are neither before, nor after, nor equal to
    one another, and both [BeforeOrEqual] and [EqualOrAfter] are false of
    them. *)
Theorem Date_same_day_incomparable (d u : Date) :
  Date_ToTime d = Date_ToTime u -> d <> u ->
  Date_Before d u = false /\ Date_After d u = false /\ Date_Equal d u = false
  /\ Date_BeforeOrEqual d u = false /\ Date_EqualOrAfter d u = false.
Proof.
  intros Ht Hne.
  assert (Date_Before d u = false) as Hb by (unfold Date_Before; rewrite Ht; apply Z.ltb_irrefl).
  assert (Date_After d u = false) as Ha by (unfold Date_After; rewrite Ht; apply Z.ltb_irrefl).
  assert (Date_Equal d u = false) as He.
  { apply not_true_iff_false. unfold Date_Equal. rewrite !andb_true_iff, !Z.eqb_eq.
    intros [[? ?] ?]. apply Hne. destruct d, u; cbn in *; congruence. }
  unfold Date_BeforeOrEqual, Date_EqualOrAfter. rewrite Hb, Ha, He. auto.
Qed.

Lemma Date_same_day_incomparable_witness :
  Date_Before (mkDate 2000 1 32) (mkDate 2000 2 1) = false
  /\ Date_After (mkDate 2000 1 32) (mkDate 2000 2 1) = false
  /\ Date_Equal (mkDate 2000 1 32) (mkDate 2000 2 1) = false
  /\ Date_BeforeOrEqual (mkDate 2000 1 32) (mkDate 2000 2 1) = false
  /\ Date_EqualOrAfter (mkDate 2000 1 32) (mkDate 2000 2 1) = false.
Proof.
  apply (Date_same_day_incomparable (mkDate 2000 1 32) (mkDate 2000 2 1)).
  - reflexivity.
  - discriminate.
Defined.

(** ** Accounts: tags, closing *)

(** X11.  The tag set of an account: after [AddTag] the account has the tag
    and the tags it had; after [RemoveTag] it has the tags it had except
    that one; [GetTags] lists exactly the tags [HasTag] answers for, each
    once. *)
Theorem Account_tag_set (a : Account) (tag t : string) :
  (Account_HasTag (Account_AddTag a tag) t = true <-> t = tag \/ Account_HasTag a t = true)
  /\ (Account_HasTag (Account_RemoveTag a tag) t = true
      <-> t <> tag /\ Account_HasTag a t = true)
  /\ (t ∈ Account_GetTags a <-> Account_HasTag a t = true)
  /\ NoDup (Account_GetTags a).
Proof.
  unfold Account_HasTag, Account_AddTag, Account_RemoveTag, Account_GetTags. cbn.
  rewrite !bool_decide_eq_true. split; [|split; [|split]].
  - destruct (decide (t = tag)) as [->|Hne].
    + rewrite lookup_insert_eq. split; eauto.
    + rewrite lookup_insert_ne by congruence. split; [auto|]. intros [?|?]; [congruence|auto].
  - destruct (decide (t = tag)) as [->|Hne].
    + rewrite lookup_delete_eq. split; [intros [? ?]; discriminate|]. intros [? _]. congruence.
    + rewrite lookup_delete_ne by congruence. split; [auto|]. intros [_ ?]. auto.
  - rewrite list_elem_of_fmap. split.
    + intros [[k v] [-> Hin]]. apply elem_of_map_to_list in Hin. cbn. eauto.
    + intros [v Hv]. exists (t, v). split; [reflexivity|]. by apply elem_of_map_to_list.
  - apply NoDup_fst_map_to_list.
Qed.

Lemma Date_EqualOrAfter_refl d : Date_EqualOrAfter d d = true.
Proof.
  unfold Date_EqualOrAfter, Date_Equal. rewrite !Z.eqb_refl. reflexivity.
Qed.

(** X12.  When [close] succeeds it writes the clock into the closing date of
    the account and changes nothing else of it.  If the clock is not the
    zero date the account is then closed on that date and on every date that
    is equal to or after it.  If the clock is still the zero date (no [date]
    has been given yet) the account is not closed on any date: [close] has
    succeeded without effect. *)
Theorem close_takes_effect fn op c op' c' :
  CloseFunction fn op c = (None, op', c') ->
  exists an l acct,
    Context_Accounts c !! an = Some l /\ deref c l = Some acct
    /\ c' = store c l (set_ClosingDate acct (Context_Date c))
    /\ (Date_Equal (Context_Date c) Date_zero = false ->
        forall date, Date_EqualOrAfter date (Context_Date c) = true ->
                     Account_IsClosed (set_ClosingDate acct (Context_Date c)) date = true)
    /\ (Date_Equal (Context_Date c) Date_zero = true ->
        forall date, Account_IsClosed (set_ClosingDate acct (Context_Date c)) date = false).
Proof.
  unfold CloseFunction, fail, ok. intros H.
  repeat (case_match; simplify_eq).
  do 3 eexists. repeat split; eauto.
  - intros Hz date Hd. unfold Account_IsClosed. cbn. rewrite Hz, Hd. reflexivity.
  - intros Hz date. unfold Account_IsClosed. cbn. rewrite Hz. reflexivity.
Qed.

Lemma close_takes_effect_witness :
  exists an l acct,
    Context_Accounts ledgerA !! an = Some l /\ deref ledgerA l = Some acct
    /\ store ledgerA 0%nat (set_ClosingDate acctA day1)
       = store ledgerA l (set_ClosingDate acct (Context_Date ledgerA))
    /\ (Date_Equal (Context_Date ledgerA) Date_zero = false ->
        forall date, Date_EqualOrAfter date (Context_Date ledgerA) = true ->
                     Account_IsClosed (set_ClosingDate acct (Context_Date ledgerA)) date = true)
    /\ (Date_Equal (Context_Date ledgerA) Date_zero = true ->
        forall date, Account_IsClosed (set_ClosingDate acct (Context_Date ledgerA)) date = false).
Proof.
  apply (close_takes_effect "close" (mkOperands [VString "Assets:A"] 0) ledgerA
           (mkOperands [] 0)).
  reflexivity.
Defined.

(** Before the first [date] the clock is the zero date: [close] succeeds,
    the account stays open, and a second [close] succeeds as well. *)
Example close_at_zero_date :
  fst <$> run "Assets:A open  Assets:A close  Assets:A close  Assets:A x tag" = Some None.
Proof. vm_compute. reflexivity. Qed.

Lemma dateLt_trans d u v : dateLt d u -> dateLt u v -> dateLt d v.
Proof. unfold dateLt. lia. Qed.

(** X13.  On dates of the calendar a closed account stays closed as the
    clock moves on: if an account whose closing date is a calendar date is
    closed on the calendar date [d], it is closed on every calendar date
    that is not before [d]. *)
Theorem closed_stays_closed (a : Account) (d d' : Date) :
  validDate (Account_ClosingDate a) -> validDate d -> validDate d' ->
  Date_Before d' d = false ->
  Account_IsClosed a d = true -> Account_IsClosed a d' = true.
Proof.
  unfold Account_IsClosed. intros Hc Hd Hd' Hb H.
  apply andb_prop in H as [Hz H]. rewrite Hz. cbn.
  destruct (Date_comparisons_valid d (Account_ClosingDate a) Hd Hc) as (Hb1 & _ & _ & _ & He1).
  destruct (Date_comparisons_valid d' (Account_ClosingDate a) Hd' Hc) as (Hb2 & _ & _ & _ & He2).
  destruct (Date_comparisons_valid d' d Hd' Hd) as (Hb3 & _).
  rewrite He2. rewrite He1 in H. apply negb_true_iff in H. apply negb_true_iff.
  apply not_true_iff_false. rewrite Hb2. intros Hlt.
  destruct (dateLt_trichotomy d (Account_ClosingDate a)) as [Hl|[Heq|Hg]].
  - apply Hb1 in Hl. congruence.
  - rewrite <- Heq in Hlt. apply Hb3 in Hlt. congruence.
  - pose proof (dateLt_trans _ _ _ Hlt Hg) as Hl. apply Hb3 in Hl. congruence.
Qed.

Lemma closed_stays_closed_witness :
  Account_IsClosed (set_ClosingDate acctA (mkDate 2000 2 1)) (mkDate 2000 3 15) = true.
Proof.
  apply (closed_stays_closed (set_ClosingDate acctA (mkDate 2000 2 1))
           (mkDate 2000 2 1) (mkDate 2000 3 15)).
  - repeat split; vm_compute; discriminate.
  - repeat split; vm_compute; discriminate.
  - repeat split; vm_compute; discriminate.
  - reflexivity.
  - reflexivity.
Defined.

(** Off the calendar it does not: [date] accepts 2000-01-32, which is the
    same day as 2000-02-01 and so not before it; the account closed on
    2000-02-01 is then no longer closed, and [tag] accepts it again. *)
Example closed_account_reopened_by_date :
  fst <$> run "2000 2 1 date  Assets:A open  Assets:A close  2000 1 32 date  Assets:A x tag"
  = Some None
  /\ fst <$> run "2000 2 1 date  Assets:A open  Assets:A close  2000 2 1 date  Assets:A x tag"
     = Some (Some (Prefixed "<date>" (AtLine 1 (Errorf "%v: closed account: %v")))).
Proof. vm_compute. split; reflexivity. Qed.

(** ** Functions that only read the context *)

Local Ltac reads_only :=
  intros fn op c r op' c' H; unfold fail, ok in *;
  repeat (case_match; simplify_eq); reflexivity.

Lemma Assert_reads fn op c r op' c' : AssertFunction fn op c = (r, op', c') -> c' = c.
Proof. revert fn op c r op' c'. unfold AssertFunction, openAccount. reads_only. Qed.
Lemma AssertLot_reads fn op c r op' c' : AssertLotFunction fn op c = (r, op', c') -> c' = c.
Proof. revert fn op c r op' c'. unfold AssertLotFunction, openAccount. reads_only. Qed.
Lemma AssertLotsSum_reads fn op c r op' c' :
  AssertLotsSumFunction fn op c = (r, op', c') -> c' = c.
Proof. revert fn op c r op' c'. unfold AssertLotsSumFunction, openAccount. reads_only. Qed.
Lemma Comment_reads fn op c r op' c' : CommentFunction fn op c = (r, op', c') -> c' = c.
Proof. revert fn op c r op' c'. unfold CommentFunction. reads_only. Qed.
Lemma CreateLot_reads fn op c r op' c' : CreateLotFunction fn op c = (r, op', c') -> c' = c.
Proof. revert fn op c r op' c'. unfold CreateLotFunction. reads_only. Qed.
Lemma Lot_reads fn op c r op' c' : LotFunction fn op c = (r, op', c') -> c' = c.
Proof. revert fn op c r op' c'. unfold LotFunction. reads_only. Qed.
Lemma SetComment_reads fn op c r op' c' : SetCommentFunction fn op c = (r, op', c') -> c' = c.
Proof. revert fn op c r op' c'. unfold SetCommentFunction. reads_only. Qed.
Lemma Xfer_reads fn op c r op' c' : XferFunction fn op c = (r, op', c') -> c' = c.
Proof. revert fn op c r op' c'. unfold XferFunction, ParseTransfer. reads_only. Qed.
Lemma XferExch_reads fn op c r op' c' : XferExchFunction fn op c = (r, op', c') -> c' = c.
Proof.
  revert fn op c r op' c'. unfold XferExchFunction, ParseTransferWithExchange. reads_only.
Qed.

(** X14.  Nine of the registered functions only read the context: [assert],
    [assert-lot], [assert-lots-sum], [comment], [create-lot], [lot],
    [set-comment], [xfer] and [xfer-exch] leave the clock, the accounts, the
    commodities and the tag index exactly as they were, whatever their
    operands and whether they succeed or fail.  In particular no transfer
    changes a balance before [xact] executes it. *)
Theorem read_only_functions (name : string) (f : Function Context) :
  GetCoreFunctions !! name = Some f ->
  name ∈ readOnlyFunctions ->
  forall fn op c r op' c', f fn op c = (r, op', c') -> c' = c.
Proof.
  intros H Hin. unfold readOnlyFunctions in Hin.
  core_function_cases H;
    eauto using Assert_reads, AssertLot_reads, AssertLotsSum_reads, Comment_reads,
      CreateLot_reads, Lot_reads, SetComment_reads, Xfer_reads, XferExch_reads;
    exfalso; repeat (apply elem_of_cons in Hin as [Hin|Hin]; [discriminate|]);
    by apply elem_of_nil in Hin.
Qed.

Lemma read_only_functions_witness :
  snd (XferFunction "xfer"
         (mkOperands [VString "Assets:A"; VString "5"; VString "USD"] 0) ledgerA)
  = ledgerA.
Proof.
  apply (read_only_functions "xfer" XferFunction eq_refl
           ltac:(unfold readOnlyFunctions; repeat constructor) "xfer"
           (mkOperands [VString "Assets:A"; VString "5"; VString "USD"] 0) ledgerA
           (fst (fst (XferFunction "xfer"
                        (mkOperands [VString "Assets:A"; VString "5"; VString "USD"] 0) ledgerA)))
           (snd (fst (XferFunction "xfer"
                        (mkOperands [VString "Assets:A"; VString "5"; VString "USD"] 0) ledgerA)))).
  reflexivity.
Defined.

(** ** The assertions *)

Lemma Decimal_rescale_exp d e : Decimal_exp (Decimal_rescale d e) = e.
Proof.
  unfold Decimal_rescale.
  destruct (Z.eqb_spec (Decimal_exp d) e); [assumption|].
  destruct (Decimal_exp d <? e); reflexivity.
Qed.

Lemma Qpower10_neq_0 e : ~ ((10 # 1) ^ e == 0)%Q.
Proof. apply Qpower_not_0. exact ten_neq_0. Qed.

(** [Decimal.Equal] compares the numbers the decimals stand for. *)
Lemma Decimal_Equal_dval a b : Decimal_Equal a b = true <-> (dval a == dval b)%Q.
Proof.
  unfold Decimal_Equal.
  set (e := Z.min (Decimal_exp a) (Decimal_exp b)).
  rewrite <- (dval_rescale a e), <- (dval_rescale b e) by (subst e; lia).
  unfold dval. rewrite !Decimal_rescale_exp. rewrite Z.eqb_eq.
  rewrite Qmult_inj_r by apply Qpower10_neq_0.
  rewrite inject_Z_injective. reflexivity.
Qed.

Lemma Decimal_Equal_false a b : Decimal_Equal a b = false <-> ~ (dval a == dval b)%Q.
Proof. rewrite <- Decimal_Equal_dval. symmetry. apply not_true_iff_false. Qed.

Lemma dval_IsZero_false d : Decimal_IsZero d = false <-> ~ (dval d == 0)%Q.
Proof. rewrite <- dval_IsZero. symmetry. apply not_true_iff_false. Qed.

Lemma bal_heldIn c l acct ln lmap cn :
  deref c l = Some acct -> Account_Lots acct !! ln = Some lmap ->
  bal c l ln cn = heldIn lmap cn.
Proof.
  intros Hd Hl. unfold bal, lotBalanceOf, heldIn. rewrite Hd, Hl. cbn.
  destruct (lmap !! cn); reflexivity.
Qed.

(** X15.  [assert] and [assert-lot] decide the balance exactly.  Given an
    account that exists and is open, a commodity that exists, an amount that
    parses and a lot the account has, the function pops its operands, leaves
    the context alone, and returns [nil] if and only if the balance of the
    commodity in that lot (zero if the lot has none of it) is the same
    number as the asserted amount, whatever the two decimals' exponents;
    [assert] is [assert-lot] on the default lot. *)
Theorem assert_decides_balance fn stack idx an ln qs cn c l acct q :
  (idx <= List.length stack)%nat ->
  ParseDecimal qs = Some q ->
  Context_Accounts c !! an = Some l -> deref c l = Some acct ->
  Account_IsClosed acct (Context_Date c) = false ->
  is_Some (Context_Commodities c !! cn) ->
  (is_Some (Account_Lots acct !! ln) ->
   exists r,
     AssertLotFunction fn
       (mkOperands (stack ++ [VString an; VString ln; VString qs; VString cn]) idx) c
     = (r, mkOperands stack idx, c)
     /\ (r = None <-> (bal c l ln cn == dval q)%Q))
  /\ (is_Some (Account_Lots acct !! "") ->
      exists r,
        AssertFunction fn (mkOperands (stack ++ [VString an; VString qs; VString cn]) idx) c
        = (r, mkOperands stack idx, c)
        /\ (r = None <-> (bal c l "" cn == dval q)%Q)).
Proof.
  intros Hidx Hq Ha Hd Hopen [com Hcom].
  split.
  - intros [lmap Hl]. unfold AssertLotFunction.
    rewrite Length_app. cbn [List.length].
    replace (_ <? 4) with false by (symmetry; apply Z.ltb_ge; lia).
    rewrite Pop_app by (auto; reflexivity).
    rewrite Hq. unfold openAccount. rewrite Ha, Hd, Hopen, Hcom, Hl.
    rewrite (bal_heldIn _ _ _ _ _ cn Hd Hl). unfold heldIn, fail, ok.
    destruct (lmap !! cn) as [lot|].
    + destruct (Decimal_Equal (Quantity_Amount (Lot_Balance lot)) q) eqn:E; cbn;
        eexists; (split; [reflexivity|]).
      * apply Decimal_Equal_dval in E. tauto.
      * apply Decimal_Equal_false in E. split; [discriminate|tauto].
    + destruct (Decimal_IsZero q) eqn:E; cbn; eexists; (split; [reflexivity|]).
      * apply dval_IsZero in E. split; [|reflexivity]. intros _. by rewrite E.
      * apply dval_IsZero_false in E. split; [discriminate|].
        intros E'. exfalso. apply E. by rewrite <- E'.
  - intros [lmap Hl]. unfold AssertFunction.
    rewrite Length_app. cbn [List.length].
    replace (_ <? 3) with false by (symmetry; apply Z.ltb_ge; lia).
    rewrite Pop_app by (auto; reflexivity).
    rewrite Hq. unfold openAccount. rewrite Ha, Hd, Hopen, Hcom, Hl.
    rewrite (bal_heldIn _ _ _ _ _ cn Hd Hl). unfold heldIn, fail, ok.
    destruct (lmap !! cn) as [lot|].
    + destruct (Decimal_Equal (Quantity_Amount (Lot_Balance lot)) q) eqn:E; cbn;
        eexists; (split; [reflexivity|]).
      * apply Decimal_Equal_dval in E. tauto.
      * apply Decimal_Equal_false in E. split; [discriminate|tauto].
    + destruct (Decimal_IsZero q) eqn:E; cbn; eexists; (split; [reflexivity|]).
      * apply dval_IsZero in E. split; [|reflexivity]. intros _. by rewrite E.
      * apply dval_IsZero_false in E. split; [discriminate|].
        intros E'. exfalso. apply E. by rewrite <- E'.
Qed.

Lemma assert_decides_balance_witness :
  exists r,
    AssertFunction "assert"
      (mkOperands ([] ++ [VString "Assets:A"; VString "5.00"; VString "USD"]) 0) ledgerA
    = (r, mkOperands [] 0, ledgerA)
    /\ (r = None <-> (bal ledgerA 0%nat "" "USD" == dval (mkDecimal 500 (-2)))%Q).
Proof.
  apply (proj2 (assert_decides_balance "assert" [] 0%nat "Assets:A" "" "5.00" "USD" ledgerA
                  0%nat acctA (mkDecimal 500 (-2))
                  ltac:(cbn; lia) eq_refl eq_refl eq_refl eq_refl
                  ltac:(eexists; reflexivity))).
  eexists. reflexivity.
Defined.

(** The balance 5 and the asserted 5.00 are different decimals and the same
    number. *)
Example assert_ignores_exponent :
  fst (fst (AssertFunction "assert"
              (mkOperands [VString "Assets:A"; VString "5.00"; VString "USD"] 0) ledgerA))
  = None.
Proof. vm_compute. reflexivity. Qed.
Lemma Qsum_Permutation (l l' : list Q) : l ≡ₚ l' -> (Qsum l == Qsum l')%Q.
Proof.
  induction 1 as [|x l l' _ IH|x y l|l l' l'' _ IH1 _ IH2]; unfold Qsum in *; cbn.
  - reflexivity.
  - by rewrite IH.
  - ring.
  - by rewrite IH1.
Qed.

Lemma dval_lotsSumOver_acc lots cn : forall acc,
  (dval (foldl (fun sum '(_, lmap) =>
                  match (lmap : gmap string Lot) !! cn with
                  | Some l => Decimal_Add sum (Quantity_Amount (Lot_Balance l))
                  | None => sum
                  end) acc lots)
   == dval acc + Qsum (map (fun kv : string * gmap string Lot => heldIn kv.2 cn) lots))%Q.
Proof.
  induction lots as [|[ln lmap] lots IH]; intros acc; cbn.
  - unfold Qsum. cbn. ring.
  - rewrite IH. unfold Qsum, heldIn. cbn.
    destruct (lmap !! cn) as [l|]; [rewrite dval_Add|]; ring.
Qed.

Lemma dval_lotsSum acct cn : (dval (lotsSum acct cn) == lotsTotal acct cn)%Q.
Proof.
  unfold lotsSum, lotsTotal.
  induction (map_to_list (Account_Lots acct)) as [|[ln lmap] lots IH]; cbn.
  - reflexivity.
  - unfold Qsum in *. cbn. unfold heldIn at 1. cbn.
    destruct (lmap !! cn) as [l|]; [rewrite dval_Add|]; rewrite IH.
    + apply Qplus_comm.
    + symmetry. apply Qplus_0_l.
Qed.

(** X16.  [assert-lots-sum] decides the total exactly and independently of
    the order in which the lots are visited: in whatever order the loop goes
    through the lots of the account, the sum it computes is the number that
    the balances of the commodity in all the lots add up to; and, given an
    account that exists and is open, a commodity that exists and an amount
    that parses, the function pops its operands, leaves the context alone
    and returns [nil] if and only if that total is the asserted number. *)
Theorem assert_lots_sum_decides fn stack idx an qs cn c l acct q :
  (idx <= List.length stack)%nat ->
  ParseDecimal qs = Some q ->
  Context_Accounts c !! an = Some l -> deref c l = Some acct ->
  Account_IsClosed acct (Context_Date c) = false ->
  is_Some (Context_Commodities c !! cn) ->
  (forall lots, lots ≡ₚ map_to_list (Account_Lots acct) ->
                (dval (lotsSumOver lots cn) == lotsTotal acct cn)%Q
                /\ Decimal_Equal (lotsSumOver lots cn) q = Decimal_Equal (lotsSum acct cn) q)
  /\ exists r,
       AssertLotsSumFunction fn
         (mkOperands (stack ++ [VString an; VString qs; VString cn]) idx) c
       = (r, mkOperands stack idx, c)
       /\ (r = None <-> (lotsTotal acct cn == dval q)%Q).
Proof.
  intros Hidx Hq Ha Hd Hopen [com Hcom].
  assert (forall lots, lots ≡ₚ map_to_list (Account_Lots acct) ->
                       (dval (lotsSumOver lots cn) == lotsTotal acct cn)%Q) as Hord.
  { intros lots Hp. unfold lotsSumOver, lotsTotal. rewrite dval_lotsSumOver_acc.
    rewrite (Qsum_Permutation _ _ (fmap_Permutation _ _ _ Hp)).
    assert (dval Decimal_Zero == 0)%Q as -> by (vm_compute; reflexivity).
    apply Qplus_0_l. }
  split.
  - intros lots Hp. split; [by apply Hord|].
    destruct (Decimal_Equal (lotsSum acct cn) q) eqn:E.
    + apply Decimal_Equal_dval. apply Decimal_Equal_dval in E.
      rewrite Hord by assumption. rewrite <- E. symmetry. apply dval_lotsSum.
    + apply Decimal_Equal_false. apply Decimal_Equal_false in E.
      rewrite Hord by assumption. intros E'. apply E. rewrite <- E'. apply dval_lotsSum.
  - unfold AssertLotsSumFunction.
    rewrite Length_app. cbn [List.length].
    replace (_ <? 3) with false by (symmetry; apply Z.ltb_ge; lia).
    rewrite Pop_app by (auto; reflexivity).
    rewrite Hq. unfold openAccount. rewrite Ha, Hd, Hopen, Hcom. unfold fail, ok.
    destruct (Decimal_Equal (lotsSum acct cn) q) eqn:E; cbn; eexists; (split; [reflexivity|]).
    + apply Decimal_Equal_dval in E. rewrite <- dval_lotsSum. tauto.
    + apply Decimal_Equal_false in E. rewrite <- dval_lotsSum. split; [discriminate|tauto].
Qed.

Lemma assert_lots_sum_decides_witness :
  exists r,
    AssertLotsSumFunction "assert-lots-sum"
      (mkOperands ([] ++ [VString "Assets:A"; VString "5"; VString "USD"]) 0) ledgerA
    = (r, mkOperands [] 0, ledgerA)
    /\ (r = None <-> (lotsTotal acctA "USD" == dval (mkDecimal 5 0))%Q).
Proof.
  apply (proj2 (assert_lots_sum_decides "assert-lots-sum" [] 0%nat "Assets:A" "5" "USD" ledgerA
                  0%nat acctA (mkDecimal 5 0)
                  ltac:(cbn; lia) eq_refl eq_refl eq_refl eq_refl
                  ltac:(eexists; reflexivity))).
Defined.

(** ** open *)

Lemma addCommodities_ok c cns : forall acct,
  Forall (fun cn => is_Some (Context_Commodities c !! cn)) cns ->
  exists acct',
    addCommodities c (map VString cns) acct = inr acct'
    /\ Account_Name acct' = Account_Name acct
    /\ Account_CreationDate acct' = Account_CreationDate acct
    /\ Account_ClosingDate acct' = Account_ClosingDate acct
    /\ Account_Lots acct' = Account_Lots acct
    /\ Account_Tags acct' = Account_Tags acct
    /\ Account_Notes acct' = Account_Notes acct
    /\ forall cn, is_Some (Account_Commodities acct' !! cn)
                  <-> cn ∈ cns \/ is_Some (Account_Commodities acct !! cn).
Proof.
  induction cns as [|cn cns IH]; intros acct Hall; cbn.
  - exists acct. repeat split; auto. intros [H|H]; [by apply elem_of_nil in H|exact H].
  - inversion Hall as [|? ? [com Hcom] Hall']; subst. rewrite Hcom.
    destruct (IH (set_Commodities acct (<[cn := cn]> (Account_Commodities acct))) Hall')
      as (acct' & -> & Hn & Hcd & Hcl & Hl & Ht & Hno & Hc).
    exists acct'. repeat split; auto.
    + intros H. apply Hc in H as [H|H]; [left; by right|]. cbn in H.
      destruct (decide (cn = cn0)) as [->|Hne].
      * left. by left.
      * rewrite lookup_insert_ne in H by congruence. by right.
    + intros [H|H]; apply Hc.
      * apply elem_of_cons in H as [->|H]; [|by left].
        right. cbn. rewrite lookup_insert_eq. eauto.
      * right. cbn. destruct (decide (cn = cn0)) as [->|Hne].
        -- rewrite lookup_insert_eq. eauto.
        -- by rewrite lookup_insert_ne by congruence.
Qed.

Lemma addCommodities_fail c cns : forall acct,
  ~ Forall (fun cn => is_Some (Context_Commodities c !! cn)) cns ->
  addCommodities c (map VString cns) acct = inl (Errorf "%v: nonexistent commodity %v").
Proof.
  induction cns as [|cn cns IH]; intros acct Hall; cbn.
  - exfalso. apply Hall. constructor.
  - destruct (Context_Commodities c !! cn) as [com|] eqn:Hcom; [|reflexivity].
    apply IH. intros H. apply Hall. constructor; eauto.
Qed.

Lemma accountNameOK_test an :
  negb (HasPrefix an "Assets:") && negb (HasPrefix an "Liabilities:")
  && negb (HasPrefix an "Income:") && negb (HasPrefix an "Expenses:")
  && negb (HasPrefix an "Equity:") && negb (bool_decide (an = "Equity"))
  = negb (accountNameOK an).
Proof. unfold accountNameOK. by rewrite !negb_orb. Qed.

Lemma fresh_loc_unused c : deref c (fresh (dom (Context_objs c))) = None.
Proof. unfold deref. apply not_elem_of_dom. apply is_fresh. Qed.

(** X17.  [open], given an account name and commodity names in a view of
    their own, in a context whose registered names all point to accounts,
    succeeds exactly when the name is under one of the five roots (or is
    [Equity]), is not the name of an account that is open on the clock, and
    every commodity exists.  It then registers under the name a new account
    object: created on the clock, never closed, with an empty default lot
    and no other lot, no tags, no notes, restricted to the commodities
    named.  A closed account of that name is thereby replaced; every other
    name and every existing account object is as it was. *)
Theorem open_decides fn stack an cns c :
  accountsAllocated c ->
  let op := tagOperands stack an cns in
  (fst (fst (OpenFunction fn op c)) = None
   <-> accountNameOK an = true /\ ~ nameTaken c an
       /\ Forall (fun cn => is_Some (Context_Commodities c !! cn)) cns)
  /\ (fst (fst (OpenFunction fn op c)) = None ->
      exists l' acct' c',
        OpenFunction fn op c = (None, mkOperands stack (List.length stack), c')
        /\ deref c l' = None
        /\ Context_Accounts c' = <[an := l']> (Context_Accounts c)
        /\ Context_objs c' = <[l' := acct']> (Context_objs c)
        /\ Context_Date c' = Context_Date c
        /\ Context_Commodities c' = Context_Commodities c
        /\ Context_Tags c' = Context_Tags c
        /\ Account_Name acct' = an
        /\ Account_CreationDate acct' = Context_Date c
        /\ (forall date, Account_IsClosed acct' date = false)
        /\ Account_Lots acct' = {[ "" := ∅ ]}
        /\ Account_Tags acct' = ∅ /\ Account_Notes acct' = ∅
        /\ forall cn, is_Some (Account_Commodities acct' !! cn) <-> cn ∈ cns).
Proof.
  intros Hwf op. unfold OpenFunction. subst op.
  destruct (tagOperands_values stack an cns) as [-> ->].
  cbn [List.length Nat.ltb Nat.leb]. rewrite accountNameOK_test.
  destruct (accountNameOK an) eqn:Hname; cbn [negb].
  2:{ unfold fail. cbn. split; [|discriminate]. split; [discriminate|]. intros [? _]. discriminate. }
  set (taken := match Context_Accounts c !! an with
                | Some l => match deref c l with
                            | None => Some nilDeref
                            | Some acct => if negb (Account_IsClosed acct (Context_Date c))
                                           then Some (Errorf "%v: account already exists: %v")
                                           else None
                            end
                | None => None
                end).
  assert ((taken = None <-> ~ nameTaken c an)) as Htaken.
  { subst taken. unfold nameTaken.
    destruct (Context_Accounts c !! an) as [l|] eqn:Ha.
    - destruct (Hwf _ _ Ha) as [acct Hd]. rewrite Hd.
      destruct (Account_IsClosed acct (Context_Date c)) eqn:Hc; cbn.
      + split; [|reflexivity]. intros _ (l0 & a0 & ? & ? & ?). simplify_eq. congruence.
      + split; [discriminate|]. intros H. exfalso. apply H. eauto.
    - split; [|reflexivity]. intros _ (l0 & a0 & ? & _). discriminate. }
  destruct taken as [e|] eqn:Ht.
  { unfold fail. cbn. split; [|discriminate]. split; [discriminate|].
    intros (_ & Hn & _). apply Htaken in Hn. discriminate. }
  destruct (decide (Forall (fun cn => is_Some (Context_Commodities c !! cn)) cns)) as [Hall|Hall].
  - destruct (addCommodities_ok c cns (NewAccount an (Context_Date c)) Hall)
      as (acct' & -> & Hn & Hcd & Hcl & Hl & Htg & Hno & Hc).
    unfold alloc, ok. cbn. split.
    + split; [|reflexivity]. intros _. split; [reflexivity|]. split; [by apply Htaken|exact Hall].
    + intros _. exists (fresh (dom (Context_objs c))), acct'. eexists.
      split; [reflexivity|]. split; [apply fresh_loc_unused|].
      cbn. repeat split; auto.
      * intros date. unfold Account_IsClosed. rewrite Hcl. reflexivity.
      * intros H. apply Hc in H as [H|H]; [exact H|]. cbn in H.
        rewrite lookup_empty in H. by destruct H.
      * intros H. apply Hc. by left.
  - rewrite (addCommodities_fail c cns _ Hall). unfold fail. cbn.
    split; [|discriminate]. split; [discriminate|]. intros (_ & _ & H). contradiction.
Qed.

Lemma open_decides_witness :
  fst (fst (OpenFunction "open" (tagOperands [] "Assets:B" ["USD"]) ledgerA)) = None
  <-> accountNameOK "Assets:B" = true /\ ~ nameTaken ledgerA "Assets:B"
      /\ Forall (fun cn => is_Some (Context_Commodities ledgerA !! cn)) ["USD"].
Proof.
  apply (open_decides "open" [] "Assets:B" ["USD"] ledgerA).
  intros an l H. unfold ledgerA, deref in *. cbn in *.
  apply lookup_insert_Some in H as [[<- <-]|[_ H]]; [by eexists|].
  apply lookup_singleton_Some in H as [<- <-]. by eexists.
Defined.

(** Opening the name of a closed account again starts from nothing: the
    5 USD left in the default lot when [Assets:A] was closed are not in the
    account that bears the name afterwards. *)
Example reopened_account_is_empty :
  fst <$> run "2000 1 1 date  Assets:A open  Equity open  USD Dollar commodity
               E D  Assets:A 5 USD xfer  Equity -5 USD xfer  xact
               Assets:A close  Assets:A open  Assets:A 0 USD assert"
  = Some None.
Proof. vm_compute. reflexivity. Qed.

(** ** What the registered functions do to the context *)

Lemma foldl_ledgerChange {A} (f : Context -> A -> Context) (l : list A) :
  (forall c x, ledgerChange c (f c x)) -> forall c, ledgerChange c (foldl f c l).
Proof.
  intros Hf. induction l as [|x l IH]; intros c; cbn; [apply change_none|].
  eapply change_trans; [apply Hf|apply IH].
Qed.

Lemma indexTag_change target c tag : ledgerChange c (indexTag target c tag).
Proof. unfold indexTag. repeat case_match; constructor. Qed.

Lemma tagAccount_change l c t : ledgerChange c (tagAccount l c t).
Proof.
  unfold tagAccount. destruct t; try apply change_none.
  eapply change_trans; [apply (indexTag_change (TargetAccount l))|].
  destruct (deref _ l) eqn:Hd; [|apply change_none].
  eapply change_account; eauto.
Qed.

Lemma tagCommodity_change cn c t : ledgerChange c (tagCommodity cn c t).
Proof.
  unfold tagCommodity. destruct t; try apply change_none.
  eapply change_trans; [apply (indexTag_change (TargetCommodity cn))|].
  destruct (Context_Commodities _ !! cn) eqn:Hc; [|apply change_none].
  by apply change_commodity_tag.
Qed.

Lemma untagAccount_change l c t : ledgerChange c (untagAccount l c t).
Proof.
  unfold untagAccount. destruct t; try apply change_none.
  match goal with
  | |- ledgerChange c (match deref ?c1 l with _ => _ end) =>
      assert (ledgerChange c c1) as Hc1 by (repeat case_match; constructor);
      eapply (change_trans c c1); [exact Hc1|];
      destruct (deref c1 l) eqn:Hd; [|apply change_none];
      eapply change_account; eauto
  end.
Qed.

Lemma ExecuteTransfer_change t c r c' : ExecuteTransfer t c = (r, c') -> ledgerChange c c'.
Proof.
  unfold ExecuteTransfer. intros H.
  repeat (case_match; simplify_eq); simplify_eq; try apply change_none;
    (eapply change_account; [eassumption|reflexivity|reflexivity]).
Qed.

Lemma Execute_loop_change ts : forall c r c',
  Execute_loop ts c = (r, c') -> ledgerChange c c'.
Proof.
  induction ts as [|t ts IH]; intros c r c' H; cbn in H.
  - simplify_eq. apply change_none.
  - destruct (ExecuteTransfer t c) as [[e|] c1] eqn:He.
    + simplify_eq. eapply ExecuteTransfer_change; eauto.
    + eapply change_trans; [eapply ExecuteTransfer_change; eauto|eauto].
Qed.

Lemma addCommodities_Name c values : forall acct acct',
  addCommodities c values acct = inr acct' ->
  Account_Name acct' = Account_Name acct.
Proof.
  induction values as [|v values IH]; intros acct acct' H; cbn in H; [by simplify_eq|].
  repeat (case_match; simplify_eq). by rewrite (IH _ _ H).
Qed.

Local Ltac ledger_changes :=
  intros fn op c r op' c' H;
  repeat (case_match; simplify_eq); simplify_eq;
  try apply change_none;
  try (eapply change_account; [eassumption|reflexivity|reflexivity]);
  auto using foldl_ledgerChange, tagAccount_change, tagCommodity_change,
    untagAccount_change, change_date, change_new_commodity.

Lemma AddNotes_change : keeps ledgerChange AddNotesFunction.
Proof. unfold keeps, AddNotesFunction, fail, ok. ledger_changes. Qed.
Lemma Close_change : keeps ledgerChange CloseFunction.
Proof. unfold keeps, CloseFunction, fail, ok. ledger_changes. Qed.
Lemma CloseLot_change : keeps ledgerChange CloseLotFunction.
Proof. unfold keeps, CloseLotFunction, fail, ok. ledger_changes. Qed.
Lemma Commodity_change : keeps ledgerChange CommodityFunction.
Proof. unfold keeps, CommodityFunction, fail, ok. ledger_changes. Qed.
Lemma Date_change : keeps ledgerChange DateFunction.
Proof. unfold keeps, DateFunction, fail, ok. ledger_changes. Qed.
Lemma Open_change : keeps ledgerChange OpenFunction.
Proof.
  unfold keeps, OpenFunction, fail, ok, alloc. ledger_changes.
  all: match goal with
       | H : addCommodities _ _ _ = inr _ |- _ =>
           apply addCommodities_Name in H; cbn in H
       end;
    match goal with
    | |- context [Context_Accounts (store ?x ?l ?y)] =>
        change (Context_Accounts (store x l y)) with (Context_Accounts x)
    end;
    by apply change_new_account.
Qed.
Lemma Tag_change : keeps ledgerChange TagFunction.
Proof. unfold keeps, TagFunction, fail, ok. ledger_changes. Qed.
Lemma TagCommodity_change : keeps ledgerChange TagCommodityFunction.
Proof. unfold keeps, TagCommodityFunction, fail, ok. ledger_changes. Qed.
Lemma Untag_change : keeps ledgerChange UntagFunction.
Proof. unfold keeps, UntagFunction, fail, ok. ledger_changes. Qed.
Lemma Xact_change : keeps ledgerChange XactFunction.
Proof.
  unfold keeps, XactFunction, Execute. intros fn op c r op' c' H.
  repeat (case_match; simplify_eq); simplify_eq;
    eauto using Execute_loop_change, change_none.
Qed.

Lemma GetCoreFunctions_change (name : string) (f : Function Context) :
  GetCoreFunctions !! name = Some f -> keeps ledgerChange f.
Proof.
  intros H.
  core_function_cases H;
    first [ apply AddNotes_change | apply Close_change | apply CloseLot_change
          | apply Commodity_change | apply Date_change | apply Open_change
          | apply Tag_change | apply TagCommodity_change | apply Untag_change
          | apply Xact_change
          | intros fn op c r op' c' Hf;
            first [ apply Assert_reads in Hf | apply AssertLot_reads in Hf
                  | apply AssertLotsSum_reads in Hf | apply Comment_reads in Hf
                  | apply CreateLot_reads in Hf | apply Lot_reads in Hf
                  | apply SetComment_reads in Hf | apply Xfer_reads in Hf
                  | apply XferExch_reads in Hf ];
            subst; apply change_none ].
Qed.

Lemma lasting_refl c : lasting c c.
Proof. repeat split; eauto. Qed.

Lemma lasting_fields c c' :
  Context_Commodities c' = Context_Commodities c ->
  Context_Accounts c' = Context_Accounts c ->
  Context_objs c' = Context_objs c ->
  lasting c c'.
Proof.
  intros E1 E2 E3. unfold lasting, deref. rewrite E1, E2, E3. repeat split; eauto.
Qed.

Lemma lasting_trans c1 c2 c3 : lasting c1 c2 -> lasting c2 c3 -> lasting c1 c3.
Proof.
  intros (Hc & Hn & Ho) (Hc' & Hn' & Ho'). repeat split.
  - intros cn com H. destruct (Hc _ _ H) as (com1 & H1 & E1 & E2 & E3).
    destruct (Hc' _ _ H1) as (com2 & H2 & E1' & E2' & E3').
    exists com2. repeat split; congruence.
  - eauto.
  - intros l a H. destruct (Ho _ _ H) as (a1 & H1 & E1 & E2).
    destruct (Ho' _ _ H1) as (a2 & H2 & E1' & E2').
    exists a2. repeat split; congruence.
Qed.

Lemma fresh_not_deref c l a : deref c l = Some a -> fresh (dom (Context_objs c)) <> l.
Proof.
  intros Hd E. apply (is_fresh (dom (Context_objs c))). rewrite E.
  apply elem_of_dom. unfold deref in Hd. eauto.
Qed.

Lemma ledgerChange_lasting c c' : ledgerChange c c' -> lasting c c'.
Proof.
  induction 1 as [c|c l a a' Hd En Ed|c d|c m|c cn d Hc|c cn com tag Hc|c an a En
                  |c1 c2 c3 _ IH1 _ IH2].
  - apply lasting_refl.
  - split; [eauto 10|]. split; [eauto|]. intros l0 a0 Hd0. rewrite deref_store.
    destruct (decide (l = l0)) as [<-|Hne]; simplify_eq; eauto.
  - by apply lasting_fields.
  - by apply lasting_fields.
  - split; [|split; eauto]. intros cn0 com Hcom. cbn.
    assert (cn <> cn0) by congruence. rewrite lookup_insert_ne by assumption. eauto 10.
  - split; [|split; eauto]. intros cn0 com0 Hcom. cbn.
    destruct (decide (cn = cn0)) as [<-|Hne].
    + rewrite lookup_insert_eq. simplify_eq. eauto 10.
    + rewrite lookup_insert_ne by assumption. eauto 10.
  - split; [eauto 10|]. split.
    + intros an0 Han. cbn. destruct (decide (an = an0)) as [<-|Hne].
      * rewrite lookup_insert_eq. eauto.
      * by rewrite lookup_insert_ne.
    + intros l0 a0 Hd0. change (deref (set_Accounts ?x ?m) l0) with (deref x l0).
      rewrite deref_store. destruct (decide (fresh (dom (Context_objs c)) = l0)) as [E|Hne].
      * by apply fresh_not_deref in Hd0.
      * eauto.
  - eapply lasting_trans; eauto.
Qed.

(** X18.  Nothing is ever lost or renamed.  No call of a registered
    function, whatever its operands and outcome, removes a commodity or
    changes its name, description or creation date; none unregisters an
    account name; none removes an account object or changes its name or its
    creation date.  ([open] on the name of a closed account registers a new
    object under the name; the old one stays where it is.) *)
Theorem core_functions_lose_nothing (name : string) (f : Function Context) :
  GetCoreFunctions !! name = Some f -> keeps lasting f.
Proof.
  intros H fn op c r op' c' Hf.
  apply ledgerChange_lasting. eapply GetCoreFunctions_change; eauto.
Qed.

Lemma core_functions_lose_nothing_witness :
  lasting ledgerA
    (snd (CloseFunction "close" (mkOperands [VString "Assets:A"] 0) ledgerA)).
Proof.
  apply (core_functions_lose_nothing "close" CloseFunction eq_refl "close"
           (mkOperands [VString "Assets:A"] 0) ledgerA None (mkOperands [] 0)).
  reflexivity.
Defined.

Lemma ledgerChange_namesOK c c' : ledgerChange c c' -> namesOK c -> namesOK c'.
Proof.
  induction 1 as [c|c l a a' Hd En Ed|c d|c m|c cn d Hc|c cn com tag Hc|c an a En
                  |c1 c2 c3 _ IH1 _ IH2]; intros Hok; auto.
  - destruct Hok as [Ha Hcn].
    split; [|exact Hcn]. intros an l0 Hl. destruct (Ha _ _ Hl) as (a0 & Hd0 & E0).
    rewrite deref_store.
    destruct (decide (l = l0)) as [<-|Hne]; [|eauto].
    simplify_eq. eauto.
  - destruct Hok as [Ha Hcn]. split; [exact Ha|]. intros cn0 com Hcom. cbn in Hcom.
    destruct (decide (cn = cn0)) as [<-|Hne].
    + rewrite lookup_insert_eq in Hcom. by simplify_eq.
    + rewrite lookup_insert_ne in Hcom by assumption. eauto.
  - destruct Hok as [Ha Hcn]. split; [exact Ha|]. intros cn0 com0 Hcom. cbn in Hcom.
    destruct (decide (cn = cn0)) as [<-|Hne].
    + rewrite lookup_insert_eq in Hcom. simplify_eq. cbn. eauto.
    + rewrite lookup_insert_ne in Hcom by assumption. eauto.
  - destruct Hok as [Ha Hcn]. split; [|exact Hcn]. intros an0 l0 Hl. cbn in Hl.
    change (deref (set_Accounts ?x ?m) l0) with (deref x l0). rewrite deref_store.
    destruct (decide (an = an0)) as [<-|Hne].
    + rewrite lookup_insert_eq in Hl. simplify_eq.
      destruct (decide _); [eauto|congruence].
    + rewrite lookup_insert_ne in Hl by assumption.
      destruct (Ha _ _ Hl) as (a0 & Hd0 & E0).
      destruct (decide (fresh (dom (Context_objs c)) = l0)) as [E|?]; [|eauto].
      by apply fresh_not_deref in Hd0.
Qed.

Lemma reachable_namesOK c : reachable c -> namesOK c.
Proof.
  revert c. apply (rtc_ind_r namesOK NewContext).
  - split; intros ? ? H; cbn in H; by rewrite lookup_empty in H.
  - intros c1 c2 _ (name & f & fn & op & r & op' & Hl & Hf) IH.
    eapply ledgerChange_namesOK; [|exact IH]. eapply GetCoreFunctions_change; eauto.
Qed.

(** X19.  In every context that calls of the registered functions can
    produce from the new one, a registered account name points to an account
    object that bears that name, and a registered commodity name to a
    commodity that bears that name; so no function that looks an account up
    by name meets a missing object. *)
Theorem reachable_names_consistent (c : Context) : reachable c -> namesOK c.
Proof. apply reachable_namesOK. Qed.

Lemma reachable_names_consistent_witness : namesOK ledgerB.
Proof. apply (reachable_names_consistent ledgerB). apply ledgerB_reachable. Defined.

(** ** xfer, xfer-exch *)

Lemma transferTarget_checked c an cn l amount er :
  transferTarget c an cn = inr l ->
  transferChecked c (mkTransfer l "" false (mkQuantity amount cn) er "").
Proof.
  unfold transferTarget, transferChecked. intros H.
  repeat (case_match; simplify_eq). cbn.
  do 2 eexists. repeat split; eauto.
  match goal with
  | Hx : negb (size ?m =? 0)%nat && negb (bool_decide _) = false |- _ =>
      apply andb_false_iff in Hx; destruct Hx as [Hx|Hx]; apply negb_false_iff in Hx;
      [left; apply Nat.eqb_eq in Hx; by apply map_size_empty_iff
      |right; by apply bool_decide_eq_true in Hx]
  end.
Qed.

(** X20.  [xfer] and [xfer-exch] only build transfers they have checked.
    Whatever the operands, when [xfer] succeeds it has replaced its three
    operands by one transfer, left the context alone, and that transfer
    names a registered account that is open on the clock and a commodity
    that exists and that the account accepts; it targets the default lot and
    has no exchange rate.  The same holds of [xfer-exch] and its seven
    operands, whose transfer carries an exchange rate in commodities that
    exist. *)
Theorem xfer_builds_checked_transfers fn op c op' c' :
  (XferFunction fn op c = (None, op', c') ->
   exists t,
     op' = Push (snd (Pop op 3)) [VTransfer t] /\ c' = c
     /\ transferChecked c t /\ Transfer_ExchangeRate t = None)
  /\ (XferExchFunction fn op c = (None, op', c') ->
      exists t er,
        op' = Push (snd (Pop op 7)) [VTransfer t] /\ c' = c
        /\ transferChecked c t /\ Transfer_ExchangeRate t = Some er
        /\ is_Some (Context_Commodities c !! Quantity_Commodity (ExchangeRate_UnitPrice er))
        /\ is_Some (Context_Commodities c !! Quantity_Commodity (ExchangeRate_TotalPrice er))).
Proof.
  split.
  - unfold XferFunction, ParseTransfer. intros H.
    repeat (case_match; simplify_eq).
    eexists. split; [reflexivity|]. split; [reflexivity|].
    split; [|reflexivity]. eapply transferTarget_checked; eauto.
  - unfold XferExchFunction, ParseTransferWithExchange. intros H.
    repeat (case_match; simplify_eq).
    do 2 eexists. split; [reflexivity|]. split; [reflexivity|].
    split; [eapply transferTarget_checked; eauto|].
    split; [reflexivity|]. cbn. eauto.
Qed.

Lemma xfer_builds_checked_transfers_witness :
  exists t,
    Push (mkOperands [] 0) [VTransfer xferA]
    = Push (snd (Pop (mkOperands [VString "Assets:A"; VString "5"; VString "USD"] 0) 3))
        [VTransfer t]
    /\ ledgerA = ledgerA /\ transferChecked ledgerA t /\ Transfer_ExchangeRate t = None.
Proof.
  apply (proj1 (xfer_builds_checked_transfers "xfer"
                  (mkOperands [VString "Assets:A"; VString "5"; VString "USD"] 0) ledgerA
                  (Push (mkOperands [] 0) [VTransfer xferA]) ledgerA)).
  reflexivity.
Defined.

(** ** lot, create-lot *)

(** X21.  A transfer that [lot] or [create-lot] has just accepted can be
    executed.  With a transfer and a lot name on top of the view: when [lot]
    succeeds it has put the lot name into the transfer and nothing else, and
    executing the transfer in that context does not fail; when [create-lot]
    succeeds it has put in the lot name and the flag to create the lot, and
    executing the transfer in that context does not fail and leaves in that
    lot, under the transfer's commodity, exactly the transferred quantity,
    dated with the clock and carrying the transfer's exchange rate. *)
Theorem lot_then_execute fn stack idx t ln c op' c' :
  (idx <= List.length stack)%nat ->
  let op := mkOperands (stack ++ [VTransfer t; VString ln]) idx in
  (LotFunction fn op c = (None, op', c') ->
   op' = mkOperands (stack ++ [VTransfer (set_LotName t ln)]) idx /\ c' = c
   /\ fst (ExecuteTransfer (set_LotName t ln) c) = None)
  /\ (CreateLotFunction fn op c = (None, op', c') ->
      let t' := set_CreateLot (set_LotName t ln) true in
      op' = mkOperands (stack ++ [VTransfer t']) idx /\ c' = c
      /\ exists c2 acct2 lmap,
           ExecuteTransfer t' c = (None, c2)
           /\ deref c2 (Transfer_Account t) = Some acct2
           /\ Account_Lots acct2 !! ln = Some lmap
           /\ lmap !! Quantity_Commodity (Transfer_Quantity t)
              = Some (mkLot ln (Context_Date c) (Transfer_Quantity t)
                        (Transfer_ExchangeRate t))).
Proof.
  intros Hidx op. subst op. split.
  - unfold LotFunction. rewrite Length_app. cbn [List.length].
    replace (_ <? 2) with false by (symmetry; apply Z.ltb_ge; lia).
    rewrite Pop_app by (auto; reflexivity). unfold fail, ok, Push. cbn.
    intros H. repeat (case_match; simplify_eq).
    split; [reflexivity|]. split; [reflexivity|].
    unfold ExecuteTransfer. cbn. unfold deref in *.
    repeat match goal with H : _ = _ |- _ => rewrite H end.
    by repeat case_match.
  - unfold CreateLotFunction. rewrite Length_app. cbn [List.length].
    replace (_ <? 2) with false by (symmetry; apply Z.ltb_ge; lia).
    rewrite Pop_app by (auto; reflexivity). unfold fail, ok, Push. cbn.
    intros H. repeat (case_match; simplify_eq).
    + split; [reflexivity|]. split; [reflexivity|].
      unfold ExecuteTransfer. cbn. unfold deref in *.
      repeat match goal with H : _ = _ |- _ => rewrite H end.
      match goal with
      | H : bool_decide _ = false |- _ => apply bool_decide_eq_false in H
      end.
      destruct (_ !! Quantity_Commodity _) eqn:E; [exfalso; eauto|].
      do 3 eexists. split; [reflexivity|]. cbn. rewrite lookup_insert_eq.
      split; [reflexivity|]. cbn.
      rewrite lookup_insert_eq. split; [reflexivity|].
      rewrite lookup_insert_eq. reflexivity.
    + split; [reflexivity|]. split; [reflexivity|].
      unfold ExecuteTransfer. cbn. unfold deref in *.
      repeat match goal with H : _ = _ |- _ => rewrite H end.
      do 3 eexists. split; [reflexivity|]. cbn. rewrite lookup_insert_eq.
      split; [reflexivity|]. cbn.
      rewrite lookup_insert_eq. split; [reflexivity|].
      rewrite lookup_singleton_eq. reflexivity.
Qed.

Lemma lot_then_execute_witness :
  let t' := set_CreateLot (set_LotName xferA "lot1") true in
  mkOperands ([] ++ [VTransfer t']) 0 = mkOperands ([] ++ [VTransfer t']) 0 /\ ledgerA = ledgerA
  /\ exists c2 acct2 lmap,
       ExecuteTransfer t' ledgerA = (None, c2)
       /\ deref c2 (Transfer_Account xferA) = Some acct2
       /\ Account_Lots acct2 !! "lot1" = Some lmap
       /\ lmap !! Quantity_Commodity (Transfer_Quantity xferA)
          = Some (mkLot "lot1" (Context_Date ledgerA) (Transfer_Quantity xferA)
                    (Transfer_ExchangeRate xferA)).
Proof.
  apply (proj2 (lot_then_execute "create-lot" [] 0%nat xferA "lot1" ledgerA
                  (mkOperands ([] ++ [VTransfer (set_CreateLot (set_LotName xferA "lot1") true)]) 0)
                  ledgerA ltac:(cbn; lia))).
  reflexivity.
Defined.
(** ** close-lot *)

Lemma heldIn_zero lots cn :
  hasNonzero lots = false -> (heldIn lots cn == 0)%Q.
Proof.
  intros H. unfold heldIn. destruct (lots !! cn) as [lot|] eqn:E; [|reflexivity].
  apply dval_IsZero. eapply hasNonzero_false; eauto.
Qed.

(** X22.  [close-lot] only removes lots that hold nothing.  Whatever the
    operands, when it succeeds it has removed one lot of one account, every
    balance in that lot was zero, and what the account holds in total over
    all its lots is, in every commodity, the same number as before. *)
Theorem close_lot_keeps_totals fn op c op' c' :
  CloseLotFunction fn op c = (None, op', c') ->
  exists l acct ln lots,
    deref c l = Some acct /\ Account_Lots acct !! ln = Some lots
    /\ (forall cn, heldIn lots cn == 0)%Q
    /\ c' = store c l (set_Lots acct (delete ln (Account_Lots acct)))
    /\ forall cn,
         (lotsTotal (set_Lots acct (delete ln (Account_Lots acct))) cn == lotsTotal acct cn)%Q.
Proof.
  unfold CloseLotFunction, fail, ok. intros H.
  repeat (case_match; simplify_eq).
  match goal with
  | Hz : hasNonzero ?lots = false, Hl : Account_Lots ?acct !! ?ln = Some ?lots,
    Hd : deref _ ?l = Some ?acct |- _ =>
      exists l, acct, ln, lots; repeat split; auto;
      [intros cn; by apply heldIn_zero|];
      intros cn; unfold lotsTotal; cbn [Account_Lots set_Lots];
      rewrite <- (Qsum_Permutation _ _
                    (fmap_Permutation _ _ _ (map_to_list_delete _ _ _ Hl)));
      rewrite fmap_cons; unfold Qsum; cbn [foldr snd];
      rewrite (heldIn_zero lots cn Hz); symmetry; apply Qplus_0_l
  end.
Qed.

Lemma close_lot_keeps_totals_witness :
  exists l acct ln lots,
    deref ledgerA l = Some acct /\ Account_Lots acct !! ln = Some lots
    /\ (forall cn, heldIn lots cn == 0)%Q
    /\ snd (CloseLotFunction "close-lot"
              (mkOperands [VString "Equity"; VString ""] 0) ledgerA)
       = store ledgerA l (set_Lots acct (delete ln (Account_Lots acct)))
    /\ forall cn,
         (lotsTotal (set_Lots acct (delete ln (Account_Lots acct))) cn == lotsTotal acct cn)%Q.
Proof.
  apply (close_lot_keeps_totals "close-lot" (mkOperands [VString "Equity"; VString ""] 0)
           ledgerA (mkOperands [] 0)).
  reflexivity.
Defined.

(** ** add-notes *)

Lemma setPairs_flatten kvs : forall m,
  setPairs (map VString (flattenPairs kvs)) m = list_to_map (rev kvs) ∪ m.
Proof.
  induction kvs as [|[k v] kvs IH]; intros m; cbn.
  - by rewrite (left_id_L ∅ (∪)).
  - rewrite IH. rewrite list_to_map_app. cbn.
    rewrite insert_empty, <- (assoc_L (∪)), <- insert_union_singleton_l. reflexivity.
Qed.

Lemma flattenPairs_length kvs : List.length (flattenPairs kvs) = (2 * List.length kvs)%nat.
Proof.
  induction kvs as [|kv kvs IH]; [reflexivity|].
  change (flattenPairs (kv :: kvs)) with (kv.1 :: kv.2 :: flattenPairs kvs).
  cbn [List.length]. rewrite IH. lia.
Qed.

(** X23.  [add-notes], given the name of an account that exists and is open
    and then note names and values in pairs, in a view of their own, pops
    them all and writes the notes into the account: of two pairs with the
    same name the later one wins, a pair replaces a note the account had
    under that name, and the other notes stay.  Given one string too many it
    fails before it pops anything. *)
Theorem add_notes_effect fn stack an kvs c l acct :
  Context_Accounts c !! an = Some l -> deref c l = Some acct ->
  Account_IsClosed acct (Context_Date c) = false ->
  AddNotesFunction fn (tagOperands stack an (flattenPairs kvs)) c
  = (None, mkOperands stack (List.length stack),
     store c l (set_Notes acct (list_to_map (rev kvs) ∪ Account_Notes acct)))
  /\ forall extra,
       AddNotesFunction fn (tagOperands stack an (flattenPairs kvs ++ [extra])) c
       = (Some (Errorf "%v: note name and note value operand pairs required, but odd number of operands given"),
          tagOperands stack an (flattenPairs kvs ++ [extra]), c).
Proof.
  intros Ha Hd Hopen. split.
  - unfold AddNotesFunction.
    destruct (tagOperands_values stack an (flattenPairs kvs)) as [-> ->].
    cbn [List.length Nat.ltb Nat.leb].
    rewrite length_map, flattenPairs_length.
    replace (Z.rem (Z.of_nat (S (2 * List.length kvs)) - 1) 2 =? 0) with true.
    2:{ symmetry. apply Z.eqb_eq.
        replace (Z.of_nat (S (2 * List.length kvs)) - 1) with (Z.of_nat (List.length kvs) * 2) by lia.
        apply Z.rem_mul. lia. }
    cbn [negb]. rewrite Ha, Hd, Hopen. unfold ok. by rewrite setPairs_flatten.
  - intros extra. unfold AddNotesFunction.
    destruct (tagOperands_values stack an (flattenPairs kvs ++ [extra])) as [-> _].
    cbn [List.length Nat.ltb Nat.leb].
    rewrite length_map, length_app, flattenPairs_length. cbn [List.length].
    replace (Z.rem (Z.of_nat (S (2 * List.length kvs + 1)) - 1) 2 =? 0) with false.
    2:{ symmetry. apply Z.eqb_neq.
        replace (Z.of_nat (S (2 * List.length kvs + 1)) - 1)
          with (1 + Z.of_nat (List.length kvs) * 2) by lia.
        rewrite Z.rem_add by lia. discriminate. }
    reflexivity.
Qed.

Lemma add_notes_effect_witness :
  AddNotesFunction "add-notes"
    (tagOperands [] "Assets:A" (flattenPairs [("bank", "X"); ("iban", "1"); ("bank", "Y")])) ledgerA
  = (None, mkOperands [] (List.length (@nil Value)),
     store ledgerA 0%nat
       (set_Notes acctA (list_to_map (rev [("bank", "X"); ("iban", "1"); ("bank", "Y")])
                         ∪ Account_Notes acctA))).
Proof.
  apply (proj1 (add_notes_effect "add-notes" [] "Assets:A"
                  [("bank", "X"); ("iban", "1"); ("bank", "Y")] ledgerA 0%nat acctA
                  eq_refl eq_refl eq_refl)).
Defined.

(** The later of two pairs with the same name is the one kept. *)
Example add_notes_later_wins :
  (list_to_map (rev [("bank", "X"); ("iban", "1"); ("bank", "Y")]) ∪ (∅ : gmap string string))
    !! "bank" = Some "Y".
Proof. vm_compute. reflexivity. Qed.

(** ** xact: what a transaction moves, it takes from somewhere *)

Lemma Qsum_cons x l : (Qsum (x :: l) == x + Qsum l)%Q.
Proof. reflexivity. Qed.

Lemma Qsum_map_ext {A} (f g : A -> Q) l :
  (forall x, x ∈ l -> (f x == g x)%Q) -> (Qsum (map f l) == Qsum (map g l))%Q.
Proof.
  induction l as [|x l IH]; intros H; cbn [map]; [reflexivity|].
  rewrite !Qsum_cons, IH, (H x) by (intros; try apply H; by constructor). reflexivity.
Qed.

Lemma Qsum_map_plus {A} (f g : A -> Q) l :
  (Qsum (map (fun x => f x + g x) l) == Qsum (map f l) + Qsum (map g l))%Q.
Proof.
  induction l as [|x l IH]; cbn [map].
  - unfold Qsum. cbn. ring.
  - rewrite !Qsum_cons, IH. ring.
Qed.

Lemma Qsum_map_zero {A} (l : list A) : (Qsum (map (fun _ => 0%Q) l) == 0)%Q.
Proof.
  induction l as [|x l IH]; cbn [map]; [reflexivity|]. rewrite Qsum_cons, IH. ring.
Qed.

Lemma Qsum_swap {A B} (F : A -> B -> Q) (ks : list A) (ts : list B) :
  (Qsum (map (fun k => Qsum (map (F k) ts)) ks)
   == Qsum (map (fun t => Qsum (map (fun k => F k t) ks)) ts))%Q.
Proof.
  induction ks as [|k ks IH]; cbn [map].
  - rewrite Qsum_map_zero. reflexivity.
  - rewrite Qsum_cons, IH. rewrite <- Qsum_map_plus.
    apply Qsum_map_ext. intros t _. rewrite Qsum_cons. reflexivity.
Qed.

(** Over keys without repetition, one key takes what is given to it. *)
Lemma Qsum_one_key (keys : list (loc * string)) (k0 : loc * string) (v : Q) :
  NoDup keys -> k0 ∈ keys ->
  (Qsum (map (fun k => if bool_decide (k0 = k) then v else 0%Q) keys) == v)%Q.
Proof.
  induction 1 as [|k keys Hnotin Hnd IH]; intros Hin; [by apply elem_of_nil in Hin|].
  cbn [map]. rewrite Qsum_cons.
  apply elem_of_cons in Hin as [->|Hin].
  - rewrite bool_decide_eq_true_2 by reflexivity.
    rewrite (Qsum_map_ext _ (fun _ => 0%Q)).
    + rewrite Qsum_map_zero. ring.
    + intros x Hx. rewrite bool_decide_eq_false_2; [reflexivity|]. intros ->. contradiction.
  - rewrite bool_decide_eq_false_2 by (intros ->; contradiction).
    rewrite IH by assumption. ring.
Qed.

Lemma amountTo_keys (keys : list (loc * string)) (cn : string) (t : Transfer) :
  NoDup keys -> (Transfer_Account t, Transfer_LotName t) ∈ keys ->
  (Qsum (map (fun k : loc * string => amountTo k.1 k.2 cn t) keys)
   == if bool_decide (Quantity_Commodity (Transfer_Quantity t) = cn)
      then dval (Quantity_Amount (Transfer_Quantity t)) else 0)%Q.
Proof.
  intros Hnd Hin.
  destruct (bool_decide (Quantity_Commodity (Transfer_Quantity t) = cn)) eqn:Hc.
  - apply bool_decide_eq_true in Hc.
    rewrite <- (Qsum_one_key keys (Transfer_Account t, Transfer_LotName t)
                  (dval (Quantity_Amount (Transfer_Quantity t))) Hnd Hin).
    apply Qsum_map_ext. intros [l ln] _. unfold amountTo. cbn.
    destruct (decide ((Transfer_Account t, Transfer_LotName t) = (l, ln))) as [E|E].
    + injection E as E1 E2. subst l ln.
      rewrite !bool_decide_eq_true_2 by auto. reflexivity.
    + rewrite !bool_decide_eq_false_2; [reflexivity|exact E|].
      intros (E1 & E2 & _). apply E. by rewrite E1, E2.
  - apply bool_decide_eq_false in Hc.
    rewrite (Qsum_map_ext _ (fun _ => 0%Q)); [apply Qsum_map_zero|].
    intros [l ln] _. unfold amountTo. cbn.
    rewrite bool_decide_eq_false_2; [reflexivity|]. intros (_ & _ & ?). contradiction.
Qed.

Lemma Xact_executes fn op c op' c' :
  XactFunction fn op c = (None, op', c') ->
  exists ts, ts <> [] /\ checkTransfers ts = None /\ Execute_loop ts c = (None, c').
Proof.
  unfold XactFunction, Execute, ParseTransaction. intros H.
  repeat (case_match; simplify_eq). cbn in *.
  eexists. split; [|split; eauto].
  intros E. rewrite E in *. discriminate.
Qed.

(** X24.  A transaction without exchange rates conserves every commodity.
    Whatever its operands, when [xact] succeeds it has executed a non-empty
    list of transfers that passed [checkTransfers]; and if none of them
    carries an exchange rate then, over any set of lots that includes the
    lots the transfers target, the ledger holds in every commodity the same
    total as before: what went into one lot came out of another. *)
Theorem xact_conserves fn op c op' c' :
  XactFunction fn op c = (None, op', c') ->
  exists ts,
    ts <> [] /\ checkTransfers ts = None /\ Execute_loop ts c = (None, c')
    /\ ((forall t, t ∈ ts -> Transfer_ExchangeRate t = None) ->
        forall keys cn,
          NoDup keys ->
          (forall t, t ∈ ts -> (Transfer_Account t, Transfer_LotName t) ∈ keys) ->
          (heldOver c' keys cn == heldOver c keys cn)%Q).
Proof.
  intros H. destruct (Xact_executes _ _ _ _ _ H) as (ts & Hne & Hcheck & Hexec).
  exists ts. repeat split; auto.
  intros Hno keys cn Hnd Hkeys. unfold heldOver.
  rewrite (Qsum_map_ext _ (fun k => bal c k.1 k.2 cn + Qsum (map (amountTo k.1 k.2 cn) ts))%Q)
    by (intros k _; by apply Execute_loop_bal).
  rewrite Qsum_map_plus.
  rewrite (Qsum_swap (fun (k : loc * string) t => amountTo k.1 k.2 cn t) keys ts).
  rewrite (Qsum_map_ext _ (fun t => if bool_decide (Quantity_Commodity (Transfer_Quantity t) = cn)
                                    then dval (Quantity_Amount (Transfer_Quantity t)) else 0%Q)).
  2:{ intros t Ht. apply amountTo_keys; auto. }
  apply (checkTransfers_balanced ts Hne) in Hcheck as [[C HC] Hsum].
  assert (forall t, t ∈ ts -> Quantity_Commodity (Transfer_Quantity t) = C
                               /\ transferValue t = dval (Quantity_Amount (Transfer_Quantity t)))
    as Hplain.
  { intros t Ht. specialize (HC t Ht). specialize (Hno t Ht).
    unfold transferCommodity, transferValue, GetTransferQuantity in *.
    rewrite Hno in *. auto. }
  destruct (decide (C = cn)) as [<-|HneC].
  - rewrite (Qsum_map_ext _ transferValue).
    + rewrite Hsum. apply Qplus_0_r.
    + intros t Ht. destruct (Hplain t Ht) as [-> ->].
      rewrite bool_decide_eq_true_2 by reflexivity. reflexivity.
  - rewrite (Qsum_map_ext (A := Transfer) _ (fun _ => 0%Q)).
    + rewrite Qsum_map_zero. apply Qplus_0_r.
    + intros t Ht. destruct (Hplain t Ht) as [E _].
      rewrite bool_decide_eq_false_2 by congruence. reflexivity.
Qed.

Lemma xact_conserves_witness :
  exists ts,
    ts <> [] /\ checkTransfers ts = None
    /\ Execute_loop ts ledgerA
       = (None, snd (XactFunction "xact" (xactOperands [] 0 "E" "D" [xferA; xferEquity] []) ledgerA))
    /\ ((forall t, t ∈ ts -> Transfer_ExchangeRate t = None) ->
        forall keys cn,
          NoDup keys ->
          (forall t, t ∈ ts -> (Transfer_Account t, Transfer_LotName t) ∈ keys) ->
          (heldOver (snd (XactFunction "xact" (xactOperands [] 0 "E" "D" [xferA; xferEquity] []) ledgerA))
             keys cn == heldOver ledgerA keys cn)%Q).
Proof.
  apply (xact_conserves "xact" (xactOperands [] 0 "E" "D" [xferA; xferEquity] []) ledgerA
           (mkOperands [] 0)).
  reflexivity.
Defined.

(** The transaction of the example moves 5 USD from [Equity] to [Assets:A]:
    the two default lots hold 5 USD together before and after. *)
Example xact_conserves_example :
  let c' := snd (XactFunction "xact" (xactOperands [] 0 "E" "D" [xferA; xferEquity] []) ledgerA) in
  (heldOver ledgerA [(0%nat, ""); (1%nat, "")] "USD" == 5 # 1)%Q
  /\ (heldOver c' [(0%nat, ""); (1%nat, "")] "USD" == 5 # 1)%Q
  /\ (bal c' 0%nat "" "USD" == 10 # 1)%Q /\ (bal c' 1%nat "" "USD" == -5 # 1)%Q.
Proof. vm_compute. repeat split; reflexivity. Qed.

(** ** untag *)

(** One round of the loop of [untag]: the account loses the tag, the index
    loses the account under that tag and nothing else. *)
Lemma untagAccount_step l c tag a :
  deref c l = Some a ->
  deref (untagAccount l c (VString tag)) l = Some (Account_RemoveTag a tag)
  /\ (forall l', l' <> l -> deref (untagAccount l c (VString tag)) l' = deref c l')
  /\ Context_Accounts (untagAccount l c (VString tag)) = Context_Accounts c
  /\ Context_Date (untagAccount l c (VString tag)) = Context_Date c
  /\ (forall target tag0,
        tagged target (untagAccount l c (VString tag)) tag0
        <-> tagged target c tag0 /\ ~ (target = TargetAccount l /\ tag0 = tag)).
Proof.
  intros Hd. unfold untagAccount.
  set (c1 := match Context_Tags c !! tag with
             | Some tts => _
             | None => c
             end).
  assert (Context_objs c1 = Context_objs c /\ Context_Accounts c1 = Context_Accounts c
          /\ Context_Date c1 = Context_Date c) as (Hobjs & Hacc & Hdate).
  { unfold c1. repeat case_match; auto. }
  assert (deref c1 l = Some a) as Hd1 by (unfold deref; by rewrite Hobjs).
  rewrite Hd1.
  assert (forall target tag0,
             tagged target c1 tag0
             <-> tagged target c tag0 /\ ~ (target = TargetAccount l /\ tag0 = tag)) as Hidx.
  { intros target tag0. unfold tagged, c1.
    destruct (Context_Tags c !! tag) as [tts|] eqn:Ht.
    - pose proof (untagLoop_result (TargetAccount l) tts) as Hres.
      destruct (untagLoop (List.length tts) (TargetAccount l) tts 0 (List.length tts))
        as [tts1 n].
      destruct (decide (tag0 = tag)) as [->|Hne].
      + rewrite Ht.
        destruct (negb (List.length (take n tts1) =? 0)%nat) eqn:Hlen; cbn.
        * rewrite lookup_insert_eq. split.
          -- intros (x & Hx & Hin). simplify_eq. rewrite Hres in Hin.
             apply list_elem_of_filter in Hin as [Hne Hin].
             split; [eauto|]. intros [-> _]. by apply Hne.
          -- intros [(x & Hx & Hin) Hnot]. simplify_eq. eexists. split; [reflexivity|].
             rewrite Hres. apply list_elem_of_filter. split; [|exact Hin].
             intros ->. by apply Hnot.
        * rewrite lookup_delete_eq. split; [intros (x & Hx & _); discriminate|].
          intros [(x & Hx & Hin) Hnot]. simplify_eq. exfalso.
          apply negb_false_iff, Nat.eqb_eq, nil_length_inv in Hlen.
          rewrite Hlen in Hres.
          assert (target ∈ filter (fun x => x <> TargetAccount l) x) as Hf.
          { apply list_elem_of_filter. split; [|exact Hin]. intros ->. by apply Hnot. }
          rewrite <- Hres in Hf. by apply elem_of_nil in Hf.
      + assert (forall m : gmap string (list TagTarget),
                   (m = <[tag := take n tts1]> (Context_Tags c)
                    \/ m = delete tag (Context_Tags c)) ->
                   m !! tag0 = Context_Tags c !! tag0) as Hsame.
        { intros m [-> | ->]; [by rewrite lookup_insert_ne|by rewrite lookup_delete_ne]. }
        destruct (negb (List.length (take n tts1) =? 0)%nat); cbn;
          (rewrite Hsame by auto); (split; [intros H; split; [exact H|]; intros [_ ?]; congruence|tauto]).
    - split; [|tauto]. intros (x & Hx & Hin). split; [eauto|].
      intros [_ ->]. congruence. }
  split; [by rewrite deref_store, decide_True|].
  split.
  { intros l' Hne. rewrite deref_store, decide_False by congruence.
    unfold deref. by rewrite Hobjs. }
  split; [exact Hacc|]. split; [exact Hdate|]. exact Hidx.
Qed.

Lemma foldl_untagAccount_removes l tags : forall c a,
  deref c l = Some a ->
  (exists a1, deref (foldl (untagAccount l) c (map VString tags)) l = Some a1
              /\ Account_ClosingDate a1 = Account_ClosingDate a
              /\ forall tag, Account_Tags a1 !! tag
                             = if decide (tag ∈ tags) then None else Account_Tags a !! tag)
  /\ (forall l', l' <> l ->
        deref (foldl (untagAccount l) c (map VString tags)) l' = deref c l')
  /\ Context_Accounts (foldl (untagAccount l) c (map VString tags)) = Context_Accounts c
  /\ (forall target tag0,
        tagged target (foldl (untagAccount l) c (map VString tags)) tag0
        <-> tagged target c tag0 /\ ~ (target = TargetAccount l /\ tag0 ∈ tags)).
Proof.
  induction tags as [|t tags IH]; intros c a Hd; cbn [map foldl].
  - split; [exists a; repeat split; auto|].
    split; [auto|]. split; [auto|]. intros target tag0. split; [|tauto].
    intros H. split; [exact H|]. intros [_ Hin]. by apply elem_of_nil in Hin.
  - destruct (untagAccount_step l c t a Hd) as (Hd1 & Hoth & Hacc & _ & Hidx).
    destruct (IH _ _ Hd1) as ((a1 & Hda1 & Hcl & Htags) & Hoth' & Hacc' & Hidx').
    split; [|split; [|split]].
    + exists a1. split; [exact Hda1|]. split; [exact Hcl|]. intros tag. rewrite Htags.
      destruct (decide (tag ∈ tags)) as [Hin|Hnin].
      * rewrite decide_True by (by right). reflexivity.
      * cbn. destruct (decide (tag = t)) as [->|Hne].
        -- rewrite decide_True by (by left). apply lookup_delete_eq.
        -- rewrite decide_False by (intros Hin; apply elem_of_cons in Hin as [?|?]; auto).
           by rewrite lookup_delete_ne.
    + intros l' Hne. rewrite Hoth' by assumption. by apply Hoth.
    + by rewrite Hacc'.
    + intros target tag0. rewrite Hidx', Hidx. rewrite elem_of_cons. tauto.
Qed.

(** X25.  [untag] removes what it is told to remove and nothing else.  Given
    an account that exists and is open and a non-empty list of tags, it
    succeeds; afterwards the account carries none of these tags and is
    listed under none of them in the tag index, however often it was listed
    there; every other tag of the account, every other entity's entries in
    the index and every other account are as before. *)
Theorem untag_removes fn stack an tags c l acct :
  tags <> [] ->
  Context_Accounts c !! an = Some l -> deref c l = Some acct ->
  Account_IsClosed acct (Context_Date c) = false ->
  exists c1,
    UntagFunction fn (tagOperands stack an tags) c
    = (None, mkOperands stack (List.length stack), c1)
    /\ (forall tag, tag ∈ tags ->
          ~ accountCarries l c1 tag /\ ~ tagged (TargetAccount l) c1 tag)
    /\ (forall tag, tag ∉ tags ->
          (accountCarries l c1 tag <-> accountCarries l c tag)
          /\ (tagged (TargetAccount l) c1 tag <-> tagged (TargetAccount l) c tag))
    /\ (forall target tag, target <> TargetAccount l ->
          (tagged target c1 tag <-> tagged target c tag))
    /\ (forall l', l' <> l -> deref c1 l' = deref c l').
Proof.
  intros Hne Ha Hd Hopen. eexists. split.
  { rewrite (Untag_operands fn stack an tags c Hne), Ha, Hd, Hopen. reflexivity. }
  destruct (foldl_untagAccount_removes l tags c acct Hd)
    as ((a1 & Hd1 & _ & Htags) & Hoth & _ & Hidx).
  split; [|split; [|split]].
  - intros tag Hin. split.
    + intros (a0 & Hd0 & Hcar). simplify_eq. rewrite Htags, decide_True in Hcar by assumption.
      discriminate.
    + intros Ht. apply Hidx in Ht as [_ Hnot]. apply Hnot. auto.
  - intros tag Hnin. split.
    + unfold accountCarries. split.
      * intros (a0 & Hd0 & Hcar). simplify_eq. rewrite Htags, decide_False in Hcar by assumption.
        eauto.
      * intros (a0 & Hd0 & Hcar). simplify_eq. exists a1. split; [exact Hd1|].
        by rewrite Htags, decide_False.
    + rewrite Hidx. split; [tauto|]. intros H. split; [exact H|]. intros [_ ?]. contradiction.
  - intros target tag Hnt. rewrite Hidx. split; [tauto|]. intros H. split; [exact H|].
    intros [? _]. contradiction.
  - exact Hoth.
Qed.

Lemma untag_removes_witness :
  exists c1,
    UntagFunction "untag" (tagOperands [] "Assets:A" ["x"]) ledgerA
    = (None, mkOperands [] (List.length (@nil Value)), c1)
    /\ (forall tag, tag ∈ ["x"] ->
          ~ accountCarries 0%nat c1 tag /\ ~ tagged (TargetAccount 0%nat) c1 tag)
    /\ (forall tag, tag ∉ ["x"] ->
          (accountCarries 0%nat c1 tag <-> accountCarries 0%nat ledgerA tag)
          /\ (tagged (TargetAccount 0%nat) c1 tag <-> tagged (TargetAccount 0%nat) ledgerA tag))
    /\ (forall target tag, target <> TargetAccount 0%nat ->
          (tagged target c1 tag <-> tagged target ledgerA tag))
    /\ (forall l', l' <> 0%nat -> deref c1 l' = deref ledgerA l').
Proof.
  apply (untag_removes "untag" [] "Assets:A" ["x"] ledgerA 0%nat acctA
           ltac:(discriminate) eq_refl eq_refl eq_refl).
Defined.

(** ** tag, then untag *)

Lemma untagLoop_last a tts fuel : forall m,
  a ∉ tts -> (m <= List.length tts)%nat -> (List.length tts - m < fuel)%nat ->
  untagLoop fuel a (tts ++ [a]) m (S (List.length tts)) = ((tts ++ [a])%list, List.length tts).
Proof.
  induction fuel as [|fuel IH]; intros m Hnin Hm Hf; [lia|].
  destruct (decide (m = List.length tts)) as [->|Hne].
  - rewrite (untagLoop_hit fuel a (tts ++ [a]) (List.length tts) (S (List.length tts)) a)
      by (try lia; cbn; rewrite ?Nat.sub_0_r; apply list_lookup_middle; reflexivity).
    rewrite list_insert_id by (apply list_lookup_middle; reflexivity).
    cbn. rewrite Nat.sub_0_r. apply untagLoop_done. lia.
  - rewrite untagLoop_miss.
    + apply IH; [exact Hnin|lia|lia].
    + lia.
    + rewrite lookup_app_l by lia. intros Hl. apply Hnin.
      by apply list_elem_of_lookup_2 in Hl.
Qed.

(** X26.  Tagging and untagging undo one another.  In a context that the
    registered functions can produce, for an account that exists, is open
    and does not carry the tag: [tag] succeeds, and [untag] of the same tag
    then succeeds and gives back exactly the context there was before
    [tag]. *)
Theorem tag_untag_round_trip fn fn' stack an tag c l acct :
  reachable c ->
  Context_Accounts c !! an = Some l -> deref c l = Some acct ->
  Account_IsClosed acct (Context_Date c) = false ->
  Account_Tags acct !! tag = None ->
  exists c1,
    TagFunction fn (tagOperands stack an [tag]) c
    = (None, mkOperands stack (List.length stack), c1)
    /\ c1 <> c
    /\ UntagFunction fn' (tagOperands stack an [tag]) c1
       = (None, mkOperands stack (List.length stack), c).
Proof.
  intros Hr Ha Hd Hopen Hnt.
  pose proof (reachable_tagsWF c Hr) as Hwf.
  exists (tagAccount l c (VString tag)). split.
  { rewrite (Tag_operands fn stack an [tag] c) by discriminate.
    rewrite Ha, Hd, Hopen. reflexivity. }
  assert (deref (tagAccount l c (VString tag)) l = Some (Account_AddTag acct tag)) as Hd1.
  { rewrite (tagAccount_eq l c tag acct Hd), deref_store. by rewrite decide_True. }
  split.
  { intros E. rewrite E in Hd1. rewrite Hd in Hd1. injection Hd1 as Hd1.
    apply (f_equal (fun a => Account_Tags a !! tag)) in Hd1. cbn in Hd1.
    rewrite lookup_insert_eq in Hd1. congruence. }
  rewrite (Untag_operands fn' stack an [tag] _) by discriminate.
  rewrite tagAccount_Accounts, Ha, Hd1.
  assert (Context_Date (tagAccount l c (VString tag)) = Context_Date c) as ->
    by apply tagAccount_date.
  assert (Account_IsClosed (Account_AddTag acct tag) (Context_Date c) = false) as ->
    by exact Hopen.
  unfold ok. do 2 f_equal. cbn [map foldl].
  (* the round trip on the context *)
  rewrite (tagAccount_eq l c tag acct Hd).
  unfold untagAccount.
  assert (TargetAccount l ∉ default [] (Context_Tags c !! tag)) as Hnin.
  { destruct (Context_Tags c !! tag) as [tts|] eqn:Ht; cbn; [|apply not_elem_of_nil].
    intros Hin. destruct (Hwf tag tts Ht) as (_ & _ & Hm).
    destruct (Hm l Hin) as (a0 & Hd0 & Hcar). congruence. }
  change (Context_Tags (store ?x l ?y)) with (Context_Tags x).
  rewrite (indexTag_Tags (TargetAccount l) c tag tag), decide_True by reflexivity.
  assert (indexed (TargetAccount l) (Context_Tags c !! tag)
          = (default [] (Context_Tags c !! tag) ++ [TargetAccount l])%list) as Hix.
  { unfold indexed. destruct (Context_Tags c !! tag) as [tts|] eqn:Ht; cbn; [|reflexivity].
    cbn in Hnin. destruct (existsb _ tts) eqn:Hex; [|reflexivity].
    apply existsb_target in Hex. contradiction. }
  rewrite Hix. rewrite length_app. cbn [List.length]. rewrite Nat.add_1_r.
  rewrite untagLoop_last by (auto; lia).
  rewrite take_app_length.
  set (c0 := store (indexTag (TargetAccount l) c tag) l (Account_AddTag acct tag)).
  assert (forall m, set_Tags_ctx c0 m
                    = store (set_Tags_ctx c m) l (Account_AddTag acct tag)) as Hswap
    by (intros m; subst c0; unfold store, set_Tags_ctx, set_objs, indexTag;
        repeat case_match; reflexivity).
  assert (Context_Tags c0 = Context_Tags (indexTag (TargetAccount l) c tag)) as HT0
    by reflexivity.
  assert (forall m, deref (store (set_Tags_ctx c m) l (Account_AddTag acct tag)) l
                    = Some (Account_AddTag acct tag)) as Hdm
    by (intros m; by rewrite deref_store, decide_True).
  assert (Account_RemoveTag (Account_AddTag acct tag) tag = acct) as Hrm.
  { unfold Account_RemoveTag, Account_AddTag, set_Tags. cbn.
    rewrite delete_insert_eq, delete_id by exact Hnt. by destruct acct. }
  assert (forall m, store (store (set_Tags_ctx c m) l (Account_AddTag acct tag)) l acct
                    = set_Tags_ctx c m) as Hback.
  { intros m. unfold store, set_objs, set_Tags_ctx. cbn.
    rewrite insert_insert_eq, insert_id by exact Hd. reflexivity. }
  destruct (Context_Tags c !! tag) as [tts|] eqn:Ht; cbn [from_option id].
  - destruct (Hwf tag tts Ht) as (Hne & _ & _).
    destruct tts as [|x tts]; [congruence|]. cbn [List.length Nat.eqb negb].
    rewrite Hswap, Hdm, Hrm, Hback.
    transitivity (set_Tags_ctx c (Context_Tags c)); [|by destruct c].
    f_equal. apply map_eq. intros k.
    destruct (decide (tag = k)) as [<-|Hk].
    + by rewrite lookup_insert_eq, Ht.
    + rewrite lookup_insert_ne by assumption.
      by rewrite (indexTag_Tags (TargetAccount l) _ tag), decide_False.
  - cbn [List.length Nat.eqb negb].
    rewrite Hswap, Hdm, Hrm, Hback.
    transitivity (set_Tags_ctx c (Context_Tags c)); [|by destruct c].
    f_equal. apply map_eq. intros k.
    destruct (decide (tag = k)) as [<-|Hk].
    + by rewrite lookup_delete_eq, Ht.
    + rewrite lookup_delete_ne by assumption.
      by rewrite (indexTag_Tags (TargetAccount l) _ tag), decide_False.
Qed.

Lemma tag_untag_round_trip_witness :
  exists c1,
    TagFunction "tag" (tagOperands [] "Assets:A" ["t"]) ledgerB
    = (None, mkOperands [] (List.length (@nil Value)), c1)
    /\ c1 <> ledgerB
    /\ UntagFunction "untag" (tagOperands [] "Assets:A" ["t"]) c1
       = (None, mkOperands [] (List.length (@nil Value)), ledgerB).
Proof.
  apply (tag_untag_round_trip "tag" "untag" [] "Assets:A" "t" ledgerB 0%nat
           (NewAccount "Assets:A" Date_zero) ledgerB_reachable eq_refl eq_refl eq_refl eq_refl).
Defined.

(** Outside the contexts the functions produce the round trip can fail: with
    the account listed under a tag it does not carry, [tag] adds the tag to
    the account only, and [untag] then takes the old index entry away. *)
Example tag_untag_needs_consistent_index :
  let c := set_Tags_ctx ledgerB {[ "t" := [TargetAccount 0%nat] ]} in
  exists c1 c2,
    TagFunction "tag" (tagOperands [] "Assets:A" ["t"]) c = (None, mkOperands [] 0, c1)
    /\ UntagFunction "untag" (tagOperands [] "Assets:A" ["t"]) c1 = (None, mkOperands [] 0, c2)
    /\ Context_Tags c2 = ∅ /\ Context_Tags c <> ∅.
Proof.
  cbv zeta. do 2 eexists. split; [vm_compute; reflexivity|].
  split; [vm_compute; reflexivity|]. split; [vm_compute; reflexivity|].
  intros E. apply (f_equal (fun m => m !! "t")) in E. vm_compute in E. discriminate.
Qed.

(** ** The stop date of the report commands *)

Lemma DateFunction_sets fn op c op' c' :
  DateFunction fn op c = (None, op', c') -> exists d, c' = set_Date c d.
Proof.
  unfold DateFunction, fail, ok. intros H.
  repeat (case_match; simplify_eq); simplify_eq. eauto.
Qed.

Lemma DateFunction_not_done fn op c op' c' :
  DateFunction fn op c <> (Some done, op', c').
Proof.
  unfold DateFunction, fail, ok, done, badIndex. intros H.
  repeat (case_match; simplify_eq); simplify_eq.
Qed.

Lemma stopAfter_nil date fn op c op' c' :
  stopAfter date fn op c = (None, op', c') ->
  DateFunction fn op c = (None, op', c') /\ Date_After (Context_Date c') date = false.
Proof.
  unfold stopAfter. destruct (DateFunction fn op c) as [[[e|] op1] c1].
  - discriminate.
  - destruct (Date_After (Context_Date c1) date) eqn:Hd; [discriminate|].
    intros H. by simplify_eq.
Qed.

Lemma stopAfter_done date fn op c op' c' :
  stopAfter date fn op c = (Some done, op', c') ->
  DateFunction fn op c = (None, op', c') /\ Date_After (Context_Date c') date = true.
Proof.
  unfold stopAfter. destruct (DateFunction fn op c) as [[[e|] op1] c1] eqn:Hrun.
  - intros H. simplify_eq. by apply DateFunction_not_done in Hrun.
  - destruct (Date_After (Context_Date c1) date) eqn:Hd; [|discriminate].
    intros H. by simplify_eq.
Qed.

Lemma reportStep_inv date c c' :
  Date_IsZero date = false ->
  reportStep date c c' ->
  ledgerStep c c'
  /\ (Context_Date c' = Context_Date c \/ Date_After (Context_Date c') date = false).
Proof.
  intros Hz (name & f & fn & op & op' & Hl & Hrun).
  unfold reportFunctions in Hl. rewrite Hz in Hl. cbn [negb] in Hl.
  destruct (decide (name = "date")) as [->|Hne].
  - rewrite lookup_insert_eq in Hl. injection Hl as <-.
    apply stopAfter_nil in Hrun as [Hrun Hd]. split; [|by right].
    exists "date", DateFunction, fn, op, None, op'. split; [reflexivity|exact Hrun].
  - rewrite lookup_insert_ne in Hl by congruence. split.
    + exists name, f, fn, op, None, op'. by split.
    + left. revert Hrun. core_function_cases Hl; try congruence; intros Hrun;
        match goal with
        | H : ?F fn op c = _ |- _ =>
            let K := fresh in
            assert (keeps sameDate F) as K by auto with ledger_date; exact (K _ _ _ _ _ _ H)
        end.
Qed.

(** X27.  A report command given a stop date never works past it.  Started
    with the clock not after the stop date, after any number of calls that
    returned nil the clock is still not after the stop date, and the context
    is one the core functions themselves produce by the same calls.  When
    [date] then stops the run, it has only moved the clock, to a date after
    the stop date: the report is drawn from the accounts, commodities and
    tags as they were at the last call before. *)
Theorem stop_date_bounds_clock date c c' :
  Date_IsZero date = false ->
  Date_After (Context_Date c) date = false ->
  rtc (reportStep date) c c' ->
  Date_After (Context_Date c') date = false
  /\ rtc ledgerStep c c'
  /\ (forall fn op op' c'',
        stopAfter date fn op c' = (Some done, op', c'') ->
        exists d, c'' = set_Date c' d /\ Date_After d date = true).
Proof.
  intros Hz Hc Hrun.
  assert (Date_After (Context_Date c') date = false /\ rtc ledgerStep c c') as [Hd Hl].
  { induction Hrun as [c|c c1 c2 Hstep _ IH]; [split; [exact Hc|apply rtc_refl]|].
    destruct (reportStep_inv date c c1 Hz Hstep) as [Hl Hd].
    assert (Date_After (Context_Date c1) date = false) as Hc1
      by (destruct Hd as [-> | Hd]; assumption).
    destruct (IH Hc1) as [Hd2 Hl2]. split; [exact Hd2|].
    eapply rtc_l; [exact Hl|exact Hl2]. }
  split; [exact Hd|]. split; [exact Hl|].
  intros fn op op' c'' Hstop.
  apply stopAfter_done in Hstop as [Hrun' Hafter].
  destruct (DateFunction_sets _ _ _ _ _ Hrun') as [d ->].
  exists d. split; [reflexivity|exact Hafter].
Qed.

Lemma ledgerB_report_run :
  rtc (reportStep (mkDate 2000 1 31)) NewContext (set_Date ledgerB (mkDate 2000 1 15)).
Proof.
  eapply rtc_l; [|eapply rtc_l; [|apply rtc_once]].
  - exists "commodity", CommodityFunction, "commodity",
      (mkOperands [VString "USD"; VString "Dollar"] 0), (mkOperands [] 0).
    split; reflexivity.
  - exists "open", OpenFunction, "open", (mkOperands [VString "Assets:A"] 0), (mkOperands [] 0).
    split; [reflexivity|]. vm_compute. reflexivity.
  - exists "date", (stopAfter (mkDate 2000 1 31)), "date",
      (mkOperands [VString "2000"; VString "1"; VString "15"] 0), (mkOperands [] 0).
    split; [reflexivity|]. vm_compute. reflexivity.
Qed.

Lemma stop_date_bounds_clock_witness :
  Date_After (Context_Date (set_Date ledgerB (mkDate 2000 1 15))) (mkDate 2000 1 31) = false
  /\ rtc ledgerStep NewContext (set_Date ledgerB (mkDate 2000 1 15))
  /\ (forall fn op op' c'',
        stopAfter (mkDate 2000 1 31) fn op (set_Date ledgerB (mkDate 2000 1 15))
        = (Some done, op', c'') ->
        exists d, c'' = set_Date (set_Date ledgerB (mkDate 2000 1 15)) d
                  /\ Date_After d (mkDate 2000 1 31) = true).
Proof.
  apply (stop_date_bounds_clock (mkDate 2000 1 31) NewContext
           (set_Date ledgerB (mkDate 2000 1 15)) eq_refl eq_refl ledgerB_report_run).
Defined.

(** The run stops at the first date after the stop date, with the clock
    already there; a date equal to the stop date does not stop it. *)
Example stop_date_run :
  let c := set_Date ledgerB (mkDate 2000 1 15) in
  stopAfter (mkDate 2000 1 31) "date" (mkOperands [VString "2000"; VString "2"; VString "1"] 0) c
  = (Some done, mkOperands [] 0, set_Date ledgerB (mkDate 2000 2 1))
  /\ stopAfter (mkDate 2000 1 31) "date"
       (mkOperands [VString "2000"; VString "1"; VString "31"] 0) c
     = (None, mkOperands [] 0, set_Date ledgerB (mkDate 2000 1 31))
  /\ stopAfter (mkDate 2000 1 31) "date"
       (mkOperands [VString "2000"; VString "1"; VString "1"] 0) c
     = (Some (Errorf "%v: specified date %v is before current date %v"), mkOperands [] 0, c).
Proof. cbv zeta. repeat split; vm_compute; reflexivity. Qed.
